(** * MortPion: shallow embedding of the match engine, room and replay vote

    The development follows the TypeScript sources:
    - [packages/shared/src/types.ts] and [game-logic.ts]  (modules [GameLogic]
      and, for its classes [Player] and [Game], [LocalGame]),
    - [apps/server/src/models/Player.ts]                  (module [Player]),
    - [apps/server/src/models/Game.ts]                    (module [Game]),
    - [apps/server/src/models/Room.ts]                    (module [Room]),
    - [apps/server/src/services/ReplayManager.ts]         (module [ReplayManager]),
    - [apps/server/src/services/ConnectionManager.ts]     (module [ConnectionManager]),
    - [apps/server/src/services/LobbyService.ts]          (module [LobbyService]).

    Player objects are mutable and shared by reference in the source, so they
    live in an explicit store ([Heap]); arrays of players are lists of
    locations into that store.  Strings whose characters the program
    inspects are lists of UTF-16 code units ([Text]); [Date.now()] is a
    parameter [now] of each operation that reads the clock. *)

From stdpp Require Import base decidable option list strings gmap.
From Stdlib Require Import ZArith Lia Bool Ascii QArith Qround Qminmax.

Local Close Scope Q_scope.

Local Open Scope string_scope.
Local Open Scope list_scope.

(* ===================================================================== *)
(** * Part I. Definitions                                                 *)
(* ===================================================================== *)

(** ** types.ts *)

(** [type Size = 'P' | 'M' | 'G'] *)
Inductive Size : Set := P | M | G.

(** [type Color = 'red' | 'blue' | 'green' | 'yellow'] *)
Inductive Color : Set := red | blue | green | yellow.

Global Instance Size_eq_dec : EqDecision Size.
Proof. solve_decision. Defined.
Global Instance Color_eq_dec : EqDecision Color.
Proof. solve_decision. Defined.

(** [CellSchema]: one nullable colour per size. *)
Record Cell : Set := mkCell {
  cellP : option Color;
  cellM : option Color;
  cellG : option Color
}.

(** [cell[size]] *)
Definition slot (c : Cell) (s : Size) : option Color :=
  match s with P => cellP c | M => cellM c | G => cellG c end.

(** [cell[size] = v] *)
Definition setSlot (c : Cell) (s : Size) (v : option Color) : Cell :=
  match s with
  | P => mkCell v (cellM c) (cellG c)
  | M => mkCell (cellP c) v (cellG c)
  | G => mkCell (cellP c) (cellM c) v
  end.

(** [BoardSchema = z.array(CellSchema).length(9)]: the board is an array of
    exactly nine cells; no operation of the program changes its length. *)
Record Board : Set := mkBoard {
  b0 : Cell; b1 : Cell; b2 : Cell;
  b3 : Cell; b4 : Cell; b5 : Cell;
  b6 : Cell; b7 : Cell; b8 : Cell
}.

(** [board[i]] for an integral index; [None] is JavaScript's [undefined]
    outside 0..8. *)
Definition boardAt (b : Board) (i : Z) : option Cell :=
  match i with
  | 0%Z => Some (b0 b) | 1%Z => Some (b1 b) | 2%Z => Some (b2 b)
  | 3%Z => Some (b3 b) | 4%Z => Some (b4 b) | 5%Z => Some (b5 b)
  | 6%Z => Some (b6 b) | 7%Z => Some (b7 b) | 8%Z => Some (b8 b)
  | _ => None
  end.

(** [board[i] = c] for 0..8 (the engine only writes after a range check). *)
Definition boardSet (b : Board) (i : Z) (c : Cell) : Board :=
  match i with
  | 0%Z => mkBoard c (b1 b) (b2 b) (b3 b) (b4 b) (b5 b) (b6 b) (b7 b) (b8 b)
  | 1%Z => mkBoard (b0 b) c (b2 b) (b3 b) (b4 b) (b5 b) (b6 b) (b7 b) (b8 b)
  | 2%Z => mkBoard (b0 b) (b1 b) c (b3 b) (b4 b) (b5 b) (b6 b) (b7 b) (b8 b)
  | 3%Z => mkBoard (b0 b) (b1 b) (b2 b) c (b4 b) (b5 b) (b6 b) (b7 b) (b8 b)
  | 4%Z => mkBoard (b0 b) (b1 b) (b2 b) (b3 b) c (b5 b) (b6 b) (b7 b) (b8 b)
  | 5%Z => mkBoard (b0 b) (b1 b) (b2 b) (b3 b) (b4 b) c (b6 b) (b7 b) (b8 b)
  | 6%Z => mkBoard (b0 b) (b1 b) (b2 b) (b3 b) (b4 b) (b5 b) c (b7 b) (b8 b)
  | 7%Z => mkBoard (b0 b) (b1 b) (b2 b) (b3 b) (b4 b) (b5 b) (b6 b) c (b8 b)
  | 8%Z => mkBoard (b0 b) (b1 b) (b2 b) (b3 b) (b4 b) (b5 b) (b6 b) (b7 b) c
  | _ => b
  end.

(** [board[cellIndex][size] = color] *)
Definition boardPlace (b : Board) (i : Z) (s : Size) (c : Color) : Board :=
  match boardAt b i with
  | Some cell => boardSet b i (setSlot cell s (Some c))
  | None => b
  end.

(** [PlayerInventory]: piece counts per size. *)
Record Inventory : Set := mkInventory {
  invP : Z;
  invM : Z;
  invG : Z
}.

(** [inventory[size]] *)
Definition count (inv : Inventory) (s : Size) : Z :=
  match s with P => invP inv | M => invM inv | G => invG inv end.

(** [inventory[size]--] *)
Definition decrement (inv : Inventory) (s : Size) : Inventory :=
  match s with
  | P => mkInventory (invP inv - 1) (invM inv) (invG inv)
  | M => mkInventory (invP inv) (invM inv - 1) (invG inv)
  | G => mkInventory (invP inv) (invM inv) (invG inv - 1)
  end.

(** [type GameStatus = 'waiting' | 'playing' | 'finished'] *)
Inductive GameStatus : Set := waiting | playing | finished.

Global Instance GameStatus_eq_dec : EqDecision GameStatus.
Proof. solve_decision. Defined.

(** The ordered palette used by [Room.addPlayer] and [Game.initialize]:
    [['red', 'blue', 'green', 'yellow']]. *)
Definition availableColors : list Color := [red; blue; green; yellow].

(** JavaScript truthiness of a nullable string: [null] and [''] are falsy. *)
Definition truthy (s : option string) : bool :=
  match s with
  | None => false
  | Some x => negb (bool_decide (x = ""))
  end.

(** A JavaScript string whose characters the program inspects (a
    nickname, a room name, a room code), as the list of its UTF-16 code
    units: [length] is the source's [.length] and the empty list is [''].
    Identifiers (player, room, host and socket ids) are only compared with
    [===] and tested for emptiness; they are kept as Rocq strings. *)
Definition Text : Set := list N.

(** The text of a literal of ASCII characters. *)
Definition text (s : string) : Text :=
  map N_of_ascii (String.list_ascii_of_string s).

(** JavaScript truthiness of a nullable text. *)
Definition truthyText (s : option Text) : bool :=
  match s with
  | Some (_ :: _) => true
  | _ => false
  end.

(** The code units [String.prototype.trim] removes at both ends: the
    WhiteSpace and LineTerminator code points of ECMAScript, that is
    U+0009 to U+000D, U+0020, U+00A0, U+1680, U+2000 to U+200A, U+2028,
    U+2029, U+202F, U+205F, U+3000 and U+FEFF.  All of them are single
    code units. *)
Definition isSpace (u : N) : bool :=
  ((9 <=? u) && (u <=? 13) || (u =? 32) || (u =? 160) || (u =? 5760)
   || (8192 <=? u) && (u <=? 8202) || (u =? 8232) || (u =? 8233)
   || (u =? 8239) || (u =? 8287) || (u =? 12288) || (u =? 65279))%N.

Fixpoint dropSpaces (l : Text) : Text :=
  match l with
  | [] => []
  | u :: r => if isSpace u then dropSpaces r else l
  end.

(** [String.prototype.trim] *)
Definition trim (s : Text) : Text :=
  rev (dropSpaces (rev (dropSpaces s))).

(* --------------------------------------------------------------------- *)
(** ** Player.ts *)

Module Player.

Record t : Set := mk {
  id : string;
  nickname : Text;
  color : Color;
  inventory : Inventory;
  connected : bool;
  skipsInARow : Z;
  isEliminated : bool;
  isHost : bool
}.

(** [interface PlayerOptions]; optional fields are [option]s. *)
Record Options : Set := mkOptions {
  o_id : option string;
  o_nickname : Text;
  o_color : Color;
  o_connected : option bool;
  o_isHost : option bool
}.

(** [constructor(options)]: [None] when the constructor throws.
    [uuid] is the value [uuidv4()] would return if it is called. *)
Definition new (uuid : string) (o : Options) : option t :=
  if bool_decide (o_nickname o = [])
     || Nat.eqb (length (trim (o_nickname o))) 0
  then None
  else if Nat.ltb 20 (length (o_nickname o)) then None
  else Some {|
    id := if truthy (o_id o) then default uuid (o_id o) else uuid;
    nickname := trim (o_nickname o);
    color := o_color o;
    inventory := mkInventory 3 3 3;
    connected := default true (o_connected o);
    skipsInARow := 0;
    isEliminated := false;
    isHost := default false (o_isHost o)
  |}.

Definition set_inventory (p : t) (inv : Inventory) : t :=
  mk (id p) (nickname p) (color p) inv (connected p) (skipsInARow p)
     (isEliminated p) (isHost p).

Definition set_skipsInARow (p : t) (n : Z) : t :=
  mk (id p) (nickname p) (color p) (inventory p) (connected p) n
     (isEliminated p) (isHost p).

Definition set_isEliminated (p : t) (b : bool) : t :=
  mk (id p) (nickname p) (color p) (inventory p) (connected p)
     (skipsInARow p) b (isHost p).

(** [hasPiece(size)] *)
Definition hasPiece (p : t) (s : Size) : bool :=
  (0 <? count (inventory p) s)%Z.

(** [usePiece(size)]: [None] when it throws. *)
Definition usePiece (p : t) (s : Size) : option t :=
  if negb (hasPiece p s) then None
  else Some (set_inventory p (decrement (inventory p) s)).

(** [hasAnyPieces()] *)
Definition hasAnyPieces (p : t) : bool :=
  (0 <? invP (inventory p))%Z || (0 <? invM (inventory p))%Z
  || (0 <? invG (inventory p))%Z.

(** [getTotalPieces()] *)
Definition getTotalPieces (p : t) : Z :=
  (invP (inventory p) + invM (inventory p) + invG (inventory p))%Z.

(** [resetSkips()] *)
Definition resetSkips (p : t) : t := set_skipsInARow p 0.

(** [incrementSkips()] and the bare [skipsInARow++] *)
Definition incrementSkips (p : t) : t :=
  set_skipsInARow p (skipsInARow p + 1).

(** [eliminate()] *)
Definition eliminate (p : t) : t := set_isEliminated p true.

(** [setConnected(connected)] *)
Definition setConnected (b : bool) (p : t) : t :=
  mk (id p) (nickname p) (color p) (inventory p) b (skipsInARow p)
     (isEliminated p) (isHost p).

(** [setHost(isHost)] *)
Definition setHost (b : bool) (p : t) : t :=
  mk (id p) (nickname p) (color p) (inventory p) (connected p)
     (skipsInARow p) (isEliminated p) b.

(** The match's reset of one record in [Game.reset]. *)
Definition resetForReplay (p : t) : t :=
  mk (id p) (nickname p) (color p) (mkInventory 3 3 3) (connected p) 0
     false (isHost p).

(** [!p.isEliminated && p.connected] *)
Definition active (p : t) : bool := negb (isEliminated p) && connected p.

End Player.

Global Instance Player_inhabited : Inhabited Player.t :=
  populate (Player.mk "" [] red (mkInventory 0 0 0) false 0 false false).

(** ** The object store

    A location is the identity of one [Player] object; [new Player(...)]
    allocates the next location. *)
Definition loc := nat.
Definition Heap := list Player.t.

(** Reading the object behind a reference. *)
Definition deref (h : Heap) (l : loc) : Player.t := h !!! l.

(** In-place mutation of the object behind a reference. *)
Definition mutate (f : Player.t → Player.t) (l : loc) (h : Heap) : Heap :=
  alter f l h.

(** Allocation of a new object. *)
Definition alloc (h : Heap) (p : Player.t) : Heap * loc :=
  (h ++ [p], length h).

(* --------------------------------------------------------------------- *)
(** ** game-logic.ts *)

Module GameLogic.

(** [createEmptyBoard()] *)
Definition emptyCell : Cell := mkCell None None None.
Definition createEmptyBoard : Board :=
  mkBoard emptyCell emptyCell emptyCell emptyCell emptyCell emptyCell
          emptyCell emptyCell emptyCell.

Definition isNull (o : option Color) : bool :=
  match o with None => true | Some _ => false end.

(** [isLegalMove(board, cellIndex, size, color?)] of
    [packages/shared/src/game-logic.ts], the function the server's
    [Game.isValidMove] imports, for an integral [cellIndex]; for the other
    values of a JavaScript number see [isLegalMoveAt]. *)
Definition isLegalMove (board : Board) (cellIndex : Z) (size : Size)
    (color : option Color) : bool :=
  if (cellIndex <? 0)%Z || (8 <? cellIndex)%Z then false
  else
    match boardAt board cellIndex with
    | None => false (* not reached: 0 <= cellIndex <= 8 here *)
    | Some cell =>
        if negb (isNull (slot cell size)) then false
        else
          match size with
          | G => isNull (cellG cell)
          | M => isNull (cellM cell) && isNull (cellG cell)
          | P => isNull (cellP cell) && isNull (cellM cell)
                 && isNull (cellG cell)
          end
    end.

(** A value that reaches [cellIndex] at run time: a JavaScript number (a
    finite one is a rational), or [null], which is what JSON makes of
    NaN.  The functions above are the program on integral indices; the
    ones below follow it on every such value. *)
Inductive Index : Set :=
| Finite (q : Q)
| NaN
| PlusInfinity
| MinusInfinity
| Null.

(** [cellIndex < 0]: [null] converts to 0 and NaN compares false. *)
Definition isNegative (v : Index) : bool :=
  match v with
  | Finite q => negb (Qle_bool 0 q)
  | MinusInfinity => true
  | NaN | PlusInfinity | Null => false
  end.

(** [cellIndex > 8] *)
Definition isAbove8 (v : Index) : bool :=
  match v with
  | Finite q => negb (Qle_bool q 8)
  | PlusInfinity => true
  | NaN | MinusInfinity | Null => false
  end.

(** The array index that the property key of a value is: the key of an
    integral number is its numeral; ['0.5'], ['NaN'], ['Infinity'] and
    ['null'] are no array index. *)
Definition arrayIndex (v : Index) : option Z :=
  match v with
  | Finite q =>
      if Qeq_bool (inject_Z (Qfloor q)) q then Some (Qfloor q) else None
  | NaN | PlusInfinity | MinusInfinity | Null => None
  end.

(** [board[cellIndex]]; [None] is [undefined]. *)
Definition boardAtKey (b : Board) (v : Index) : option Cell :=
  match arrayIndex v with
  | Some i => boardAt b i
  | None => None
  end.

(** [isLegalMove(board, cellIndex, size, color?)] for any index value.
    [None] is the TypeError thrown by [cell[size]] when [board[cellIndex]]
    is [undefined]: the range test lets a fraction between 0 and 8, NaN
    and [null] through. *)
Definition isLegalMoveAt (board : Board) (cellIndex : Index) (size : Size)
    (color : option Color) : option bool :=
  if isNegative cellIndex || isAbove8 cellIndex then Some false
  else
    match boardAtKey board cellIndex with
    | None => None
    | Some cell =>
        if negb (isNull (slot cell size)) then Some false
        else
          match size with
          | G => Some (isNull (cellG cell))
          | M => Some (isNull (cellM cell) && isNull (cellG cell))
          | P => Some (isNull (cellP cell) && isNull (cellM cell)
                       && isNull (cellG cell))
          end
    end.

(** The second copy of [isLegalMove] shipped with the shared package
    ("replacement rules" variant). *)
Definition isLegalMove' (board : Board) (cellIndex : Z) (size : Size)
    (color : option Color) : bool :=
  if (cellIndex <? 0)%Z || (8 <? cellIndex)%Z then false
  else
    match boardAt board cellIndex with
    | None => false (* not reached: 0 <= cellIndex <= 8 here *)
    | Some cell =>
        match size with
        | P => isNull (cellP cell) && isNull (cellM cell)
               && isNull (cellG cell)
        | M => isNull (cellM cell) && isNull (cellG cell)
        | G => isNull (cellG cell)
        end
    end.

(** [applyMove(board, cellIndex, size, color)] of [game-logic.ts];
    [None] is the thrown ['Illegal move'].  The result is a new array,
    the argument is left as it was. *)
Definition applyMove (board : Board) (cellIndex : Z) (size : Size)
    (color : Color) : option Board :=
  if negb (isLegalMove board cellIndex size (Some color)) then None
  else Some (boardPlace board cellIndex size color).

(** [applyMove] of the second copy: the placed piece replaces the smaller
    ones of its cell. *)
Definition applyMove' (board : Board) (cellIndex : Z) (size : Size)
    (color : Color) : option Board :=
  if negb (isLegalMove' board cellIndex size (Some color)) then None
  else
    match boardAt board cellIndex with
    | None => Some board (* not reached: the move is legal *)
    | Some cell =>
        let newCell :=
          match size with
          | G => mkCell None None (Some color)
          | M => mkCell None (Some color) (cellG cell)
          | P => mkCell (Some color) (cellM cell) (cellG cell)
          end in
        Some (boardSet board cellIndex newCell)
    end.

Definition cellIndices : list Z := [0; 1; 2; 3; 4; 5; 6; 7; 8]%Z.
Definition sizes : list Size := [P; M; G].

(** [hasLegalMoves(board, player)] *)
Definition hasLegalMoves (board : Board) (player : Player.t) : bool :=
  existsb (fun cellIndex =>
    existsb (fun size =>
      (0 <? count (Player.inventory player) size)%Z
      && isLegalMove board cellIndex size (Some (Player.color player)))
      sizes)
    cellIndices.

(** [getVisiblePiece(cell)] *)
Definition getVisiblePiece (cell : Cell) : option Color :=
  match cellG cell with
  | Some c => Some c
  | None =>
      match cellM cell with
      | Some c => Some c
      | None =>
          match cellP cell with
          | Some c => Some c
          | None => None
          end
      end
  end.

Definition lines : list (list Z) :=
  [ [0; 1; 2]; [3; 4; 5]; [6; 7; 8];
    [0; 3; 6]; [1; 4; 7]; [2; 5; 8];
    [0; 4; 8]; [2; 4; 6] ]%Z.

(** [checkSameColorAlignment(board, color)] *)
Definition checkSameColorAlignment (board : Board) (color : Color) : bool :=
  existsb (fun line =>
    forallb (fun cellIndex =>
      match boardAt board cellIndex with
      | None => false (* not reached: the indices are literals in 0..8 *)
      | Some cell =>
          bool_decide (getVisiblePiece cell = Some color)
      end) line)
    lines.

(** [checkWinConditions(board, color)] *)
Definition checkWinConditions (board : Board) (color : Color) : bool :=
  checkSameColorAlignment board color.

(** [isDraw(board, players)] *)
Definition isDraw (h : Heap) (board : Board) (players : list loc) : bool :=
  forallb (fun l => negb (hasLegalMoves board (deref h l))) players.

(** [Array.prototype.findIndex]; [None] is the source's [-1]. *)
Fixpoint findIndex {A : Type} (f : A → bool) (l : list A) : option nat :=
  match l with
  | [] => None
  | x :: r => if f x then Some 0 else S <$> findIndex f r
  end.

(** [p.id === currentPlayerId], where the right side may be [null]. *)
Definition idIs (cur : option string) (p : Player.t) : bool :=
  bool_decide (Some (Player.id p) = cur).

(** [getNextPlayer(players, currentPlayerId)] *)
Definition getNextPlayer (h : Heap) (players : list loc)
    (currentPlayerId : option string) : option loc :=
  let activePlayers :=
    List.filter (fun l => Player.active (deref h l)) players in
  if Nat.eqb (length activePlayers) 0 then None
  else
    match findIndex (fun l => idIs currentPlayerId (deref h l))
                    activePlayers with
    | None => activePlayers !! 0
    | Some currentIndex =>
        activePlayers !! ((currentIndex + 1) mod length activePlayers)
    end.

End GameLogic.

(* --------------------------------------------------------------------- *)
(** ** Game.ts *)

Module Game.

Record t : Type := mk {
  board : Board;
  players : list loc;
  currentPlayerId : option string;
  status : GameStatus;
  winnerId : option string;
  isDraw : bool;
  startedAt : option Z;
  finishedAt : option Z;
  turnStartTime : option Z;
  turnTimeLimit : Z
}.

(** [constructor()] *)
Definition new : t :=
  mk GameLogic.createEmptyBoard [] None waiting None false None None None 60.

Definition set_board (g : t) (b : Board) : t :=
  mk b (players g) (currentPlayerId g) (status g) (winnerId g) (isDraw g)
     (startedAt g) (finishedAt g) (turnStartTime g) (turnTimeLimit g).

Definition set_currentPlayerId (g : t) (c : option string) : t :=
  mk (board g) (players g) c (status g) (winnerId g) (isDraw g)
     (startedAt g) (finishedAt g) (turnStartTime g) (turnTimeLimit g).

Definition set_winnerId (g : t) (w : option string) : t :=
  mk (board g) (players g) (currentPlayerId g) (status g) w (isDraw g)
     (startedAt g) (finishedAt g) (turnStartTime g) (turnTimeLimit g).

Definition set_isDraw (g : t) (d : bool) : t :=
  mk (board g) (players g) (currentPlayerId g) (status g) (winnerId g) d
     (startedAt g) (finishedAt g) (turnStartTime g) (turnTimeLimit g).

(** [this.status = 'finished'; this.finishedAt = Date.now()] *)
Definition finish (now : Z) (g : t) : t :=
  mk (board g) (players g) (currentPlayerId g) finished (winnerId g)
     (isDraw g) (startedAt g) (Some now) (turnStartTime g)
     (turnTimeLimit g).

(** [startTurn()] *)
Definition startTurn (now : Z) (g : t) : t :=
  mk (board g) (players g) (currentPlayerId g) (status g) (winnerId g)
     (isDraw g) (startedAt g) (finishedAt g) (Some now) (turnTimeLimit g).

(** The [players.map((player, index) => new Player({...}))] of
    [initialize]: one allocation per seat, colours taken from the palette
    by index.  [None] when a constructor or the colour check throws. *)
Fixpoint mapNewPlayers (uuid : nat → string) (index : nat)
    (src : list loc) (h : Heap) : option (Heap * list loc) :=
  match src with
  | [] => Some (h, [])
  | l :: rest =>
      match availableColors !! index with
      | None => None
      | Some c =>
          let player := deref h l in
          match Player.new (uuid index)
                  (Player.mkOptions (Some (Player.id player))
                     (Player.nickname player) c
                     (Some (Player.connected player))
                     (Some (Player.isHost player))) with
          | None => None
          | Some p =>
              let '(h1, l1) := alloc h p in
              match mapNewPlayers uuid (S index) rest h1 with
              | None => None
              | Some (h2, ls) => Some (h2, l1 :: ls)
              end
          end
      end
  end.

(** [initialize(players)].  [rnd] stands for the random draw:
    [Math.floor(Math.random() * n)] is the index [rnd mod n]. *)
Definition initialize (now : Z) (rnd : nat) (uuid : nat → string)
    (src : list loc) (h : Heap) (g : t) : option (Heap * t) :=
  if Nat.ltb (length src) 2 || Nat.ltb 4 (length src) then None
  else
    match mapNewPlayers uuid 0 src h with
    | None => None
    | Some (h1, ls) =>
        let randomIndex := rnd mod length ls in
        match ls !! randomIndex with
        | None => None
        | Some l =>
            Some (h1,
                  mk GameLogic.createEmptyBoard ls
                     (Some (Player.id (deref h1 l))) playing None false
                     (Some now) None (Some now) (turnTimeLimit g))
        end
    end.

(** [players.find(p => p.id === id)] *)
Definition findPlayer (h : Heap) (g : t) (pid : option string)
    : option loc :=
  List.find (fun l => GameLogic.idIs pid (deref h l)) (players g).

(** [getCurrentPlayer()] *)
Definition getCurrentPlayer (h : Heap) (g : t) : option loc :=
  if negb (truthy (currentPlayerId g)) then None
  else findPlayer h g (currentPlayerId g).

(** [isValidMove(playerId, cellIndex, size)] *)
Definition isValidMove (h : Heap) (g : t) (playerId : string)
    (cellIndex : Z) (size : Size) : bool :=
  if negb (bool_decide (status g = playing)) then false
  else if negb (bool_decide (currentPlayerId g = Some playerId)) then false
  else
    match findPlayer h g (Some playerId) with
    | None => false
    | Some l =>
        if Player.isEliminated (deref h l) then false
        else if negb (Player.hasPiece (deref h l) size) then false
        else GameLogic.isLegalMove (board g) cellIndex size None
    end.

(** [getActivePlayers()] *)
Definition getActivePlayers (h : Heap) (g : t) : list loc :=
  List.filter (fun l => Player.active (deref h l)) (players g).

(** [moveToNextPlayer()].  The source recurses once per auto-skipped
    seat; [fuel] bounds the recursion depth and [None] means the bound
    was reached. *)
Fixpoint moveToNextPlayer (fuel : nat) (now : Z) (h : Heap) (g : t)
    : option (Heap * t) :=
  match fuel with
  | O => None
  | S fuel' =>
      let activePlayers := getActivePlayers h g in
      if Nat.eqb (length activePlayers) 0 then Some (h, finish now g)
      else
        let playersWithMoves :=
          List.filter
            (fun l => GameLogic.hasLegalMoves (board g) (deref h l))
            activePlayers in
        if Nat.eqb (length playersWithMoves) 0
        then Some (h, finish now (set_isDraw g true))
        else
          match GameLogic.getNextPlayer h (players g)
                  (currentPlayerId g) with
          | None => Some (h, finish now g)
          | Some nextPlayer =>
              let g1 :=
                set_currentPlayerId g
                  (Some (Player.id (deref h nextPlayer))) in
              if negb (GameLogic.hasLegalMoves (board g)
                         (deref h nextPlayer))
              then
                moveToNextPlayer fuel' now
                  (mutate Player.incrementSkips nextPlayer h) g1
              else Some (h, startTurn now g1)
          end
  end.

(** Recursion budget used by the public operations: one more than the
    number of seats. *)
Definition budget (g : t) : nat := S (length (players g)).

(** [applyMove(playerId, cellIndex, size)]; the boolean is the return
    value. *)
Definition applyMove (now : Z) (playerId : string) (cellIndex : Z)
    (size : Size) (h : Heap) (g : t) : option (Heap * t * bool) :=
  if negb (isValidMove h g playerId cellIndex size)
  then Some (h, g, false)
  else
    match findPlayer h g (Some playerId) with
    | None => None
    | Some l =>
        let player := deref h l in
        let g1 :=
          set_board g
            (boardPlace (board g) cellIndex size (Player.color player)) in
        match Player.usePiece player size with
        | None => None
        | Some used =>
            let h1 := mutate (fun _ => Player.resetSkips used) l h in
            if GameLogic.checkWinConditions (board g1)
                 (Player.color player)
            then
              Some (h1,
                    finish now (set_winnerId g1 (Some (Player.id player))),
                    true)
            else if GameLogic.isDraw h1 (board g1) (players g1)
            then Some (h1, finish now (set_isDraw g1 true), true)
            else
              match moveToNextPlayer (budget g1) now h1 g1 with
              | None => None
              | Some (h2, g2) => Some (h2, g2, true)
              end
        end
    end.

(** [isValidMove(playerId, cellIndex, size)] for any index value; [None]
    when [isLegalMove] throws. *)
Definition isValidMoveAt (h : Heap) (g : t) (playerId : string)
    (cellIndex : GameLogic.Index) (size : Size) : option bool :=
  if negb (bool_decide (status g = playing)) then Some false
  else if negb (bool_decide (currentPlayerId g = Some playerId))
  then Some false
  else
    match findPlayer h g (Some playerId) with
    | None => Some false
    | Some l =>
        if Player.isEliminated (deref h l) then Some false
        else if negb (Player.hasPiece (deref h l) size) then Some false
        else GameLogic.isLegalMoveAt (board g) cellIndex size None
    end.

(** [applyMove(playerId, cellIndex, size)] for any index value: the
    exception of [isValidMove] propagates, and a valid move names a cell,
    so the rest is [applyMove] at that integral index. *)
Definition applyMoveAt (now : Z) (playerId : string)
    (cellIndex : GameLogic.Index) (size : Size) (h : Heap) (g : t)
    : option (Heap * t * bool) :=
  match isValidMoveAt h g playerId cellIndex size with
  | None => None
  | Some false => Some (h, g, false)
  | Some true =>
      match GameLogic.arrayIndex cellIndex with
      | None => None (* not reached: a valid move names a cell *)
      | Some i => applyMove now playerId i size h g
      end
  end.

(** The common prefix of [skipCurrentPlayer] and [skipTurn]:
    [incrementSkips()] and elimination at two consecutive skips. *)
Definition skipAndMaybeEliminate (p : Player.t) : Player.t :=
  let p1 := Player.incrementSkips p in
  if (2 <=? Player.skipsInARow p1)%Z then Player.eliminate p1 else p1.

(** [skipCurrentPlayer()] *)
Definition skipCurrentPlayer (now : Z) (h : Heap) (g : t)
    : option (Heap * t) :=
  if negb (bool_decide (status g = playing))
     || negb (truthy (currentPlayerId g))
  then Some (h, g)
  else
    let h1 :=
      match getCurrentPlayer h g with
      | Some l => mutate skipAndMaybeEliminate l h
      | None => h
      end in
    moveToNextPlayer (budget g) now h1 g.

(** [checkGameEnd()] *)
Definition checkGameEnd (now : Z) (h : Heap) (g : t) : t :=
  let activePlayers := getActivePlayers h g in
  if Nat.ltb (length activePlayers) 2 then
    let g1 := finish now g in
    if Nat.eqb (length activePlayers) 1 then
      match activePlayers !! 0 with
      | Some l => set_winnerId g1 (Some (Player.id (deref h l)))
      | None => g1
      end
    else g1
  else g.

(** [skipTurn()]; the boolean is the return value. *)
Definition skipTurn (now : Z) (h : Heap) (g : t)
    : option (Heap * t * bool) :=
  if negb (bool_decide (status g = playing))
     || negb (truthy (currentPlayerId g))
  then Some (h, g, false)
  else
    match getCurrentPlayer h g with
    | None => Some (h, g, false)
    | Some l =>
        let h1 := mutate skipAndMaybeEliminate l h in
        match moveToNextPlayer (budget g) now h1 g with
        | None => None
        | Some (h2, g2) => Some (h2, checkGameEnd now h2 g2, true)
        end
    end.

(** [reset()] *)
Definition reset (h : Heap) (g : t) : Heap * t :=
  (fold_left (fun h' l => mutate Player.resetForReplay l h') (players g) h,
   mk GameLogic.createEmptyBoard (players g) None waiting None false
      None None None (turnTimeLimit g)).

(** [getWinner()] *)
Definition getWinner (h : Heap) (g : t) : option loc :=
  if negb (truthy (winnerId g)) then None
  else findPlayer h g (winnerId g).

(** [!this.turnStartTime]: [null] and [0] are falsy. *)
Definition noTurnStart (t0 : option Z) : bool :=
  match t0 with None => true | Some z => (z =? 0)%Z end.

(** [getTurnTimeLeft()], in seconds.  Time stamps are integral numbers of
    milliseconds; the quotient by 1000 is a rational number. *)
Definition getTurnTimeLeft (now : Z) (g : t) : Z :=
  if noTurnStart (turnStartTime g) || negb (bool_decide (status g = playing))
  then 0%Z
  else
    let elapsed :=
      (inject_Z (now - default 0%Z (turnStartTime g)) / inject_Z 1000)%Q in
    let remaining := Qmax 0 (inject_Z (turnTimeLimit g) - elapsed)%Q in
    Qfloor remaining.

(** [isTurnTimedOut()] *)
Definition isTurnTimedOut (now : Z) (g : t) : bool :=
  (getTurnTimeLeft now g <=? 0)%Z && bool_decide (status g = playing).

End Game.

(* --------------------------------------------------------------------- *)
(** ** Room.ts *)

(** Result of [Room.checkReplayVotes]. *)
Inductive VoteStatus : Set := pending | accepted | rejected.

Module Room.

(** [interface RoomOptions] *)
Record Options : Set := mkOptions {
  o_id : option string;
  o_name : Text;
  o_capacity : Z;
  o_isPrivate : option bool;
  o_code : option Text;
  o_hostId : string
}.

Record t : Type := mk {
  id : string;
  name : Text;
  capacity : Z;
  isPrivate : bool;
  code : option Text;
  createdAt : Z;
  expiresAt : Z;
  hostId : string;
  players : list loc;
  game : Game.t;
  replayVotes : gmap string bool;
  replayDeadline : option Z;
  disconnectionTime : option Z
}.

(** One hour, [60 * 60 * 1000] ms. *)
Definition ttl : Z := 3600000.

(** [constructor(options)]; [None] when it throws. *)
Definition new (now : Z) (uuid : string) (o : Options) : option t :=
  if bool_decide (o_name o = [])
     || Nat.eqb (length (trim (o_name o))) 0 then None
  else if Nat.ltb 50 (length (o_name o)) then None
  else if (o_capacity o <? 2)%Z || (4 <? o_capacity o)%Z then None
  else if default false (o_isPrivate o)
          && (negb (truthyText (o_code o))
              || Nat.ltb (length (default [] (o_code o))) 4)
  then None
  else Some (mk (if truthy (o_id o) then default uuid (o_id o) else uuid)
                (trim (o_name o)) (o_capacity o)
                (default false (o_isPrivate o)) (o_code o)
                now (now + ttl) (o_hostId o) [] Game.new ∅ None None).

Definition set_players (r : t) (ps : list loc) : t :=
  mk (id r) (name r) (capacity r) (isPrivate r) (code r) (createdAt r)
     (expiresAt r) (hostId r) ps (game r) (replayVotes r)
     (replayDeadline r) (disconnectionTime r).

Definition set_game (r : t) (g : Game.t) : t :=
  mk (id r) (name r) (capacity r) (isPrivate r) (code r) (createdAt r)
     (expiresAt r) (hostId r) (players r) g (replayVotes r)
     (replayDeadline r) (disconnectionTime r).

Definition set_hostId (r : t) (hid : string) : t :=
  mk (id r) (name r) (capacity r) (isPrivate r) (code r) (createdAt r)
     (expiresAt r) hid (players r) (game r) (replayVotes r)
     (replayDeadline r) (disconnectionTime r).

Definition set_votes (r : t) (v : gmap string bool) (d : option Z) : t :=
  mk (id r) (name r) (capacity r) (isPrivate r) (code r) (createdAt r)
     (expiresAt r) (hostId r) (players r) (game r) v d
     (disconnectionTime r).

(** [resetTTL()] *)
Definition resetTTL (now : Z) (r : t) : t :=
  mk (id r) (name r) (capacity r) (isPrivate r) (code r) (createdAt r)
     (now + ttl) (hostId r) (players r) (game r) (replayVotes r)
     (replayDeadline r) (disconnectionTime r).

(** [getStatus()] *)
Definition getStatus (r : t) : GameStatus := Game.status (game r).

(** [getPlayer(playerId)] *)
Definition getPlayer (h : Heap) (r : t) (playerId : string) : option loc :=
  List.find (fun l => bool_decide (Player.id (deref h l) = playerId))
            (players r).

(** [startGame()]; [None] when it throws. *)
Definition startGame (now : Z) (rnd : nat) (uuid : nat → string)
    (h : Heap) (r : t) : option (Heap * t) :=
  if Nat.ltb (length (players r)) 2 then None
  else
    match Game.initialize now rnd uuid (players r) h (game r) with
    | None => None
    | Some (h1, g1) => Some (h1, resetTTL now (set_game r g1))
    end.

(** The colours already taken in the room. *)
Definition usedColors (h : Heap) (r : t) : list Color :=
  map (fun l => Player.color (deref h l)) (players r).

(** [addPlayer(player)]; the boolean is the return value, [None] an
    exception.  [player] is the record passed by the caller (only its
    [id], [nickname] and [connected] fields are read). *)
Definition addPlayer (now : Z) (rnd : nat) (uuid : nat → string)
    (player : Player.t) (h : Heap) (r : t) : option (Heap * t * bool) :=
  if (capacity r <=? Z.of_nat (length (players r)))%Z
  then Some (h, r, false)
  else if existsb (fun l =>
              bool_decide (Player.id (deref h l) = Player.id player))
            (players r)
  then Some (h, r, false)
  else
    match List.find
            (fun c => negb (bool_decide (c ∈ usedColors h r)))
            availableColors with
    | None => Some (h, r, false)
    | Some availableColor =>
        match Player.new (uuid 0)
                (Player.mkOptions (Some (Player.id player))
                   (Player.nickname player) availableColor
                   (Some (Player.connected player))
                   (Some (bool_decide
                            (Player.id player = hostId r)))) with
        | None => None
        | Some roomPlayer =>
            let '(h1, l) := alloc h roomPlayer in
            let r1 := set_players r (players r ++ [l]) in
            if bool_decide (Z.of_nat (length (players r1)) = capacity r1)
            then
              match startGame now rnd (fun i => uuid (S i)) h1 r1 with
              | None => None
              | Some (h2, r2) => Some (h2, r2, true)
              end
            else Some (h1, r1, true)
        end
    end.

(** [transferHost()] *)
Definition transferHost (h : Heap) (r : t) : Heap * t :=
  match players r with
  | [] => (h, r)
  | newHost :: others =>
      let h1 := mutate (Player.setHost true) newHost h in
      let r1 := set_hostId r (Player.id (deref h1 newHost)) in
      (fold_left (fun h' l => mutate (Player.setHost false) l h')
                 others h1,
       r1)
  end.

(** [transferHostTo(playerId)]; the boolean is the return value. *)
Definition transferHostTo (playerId : string) (h : Heap) (r : t)
    : Heap * t * bool :=
  match List.find (fun l => bool_decide (Player.id (deref h l) = playerId))
                  (players r) with
  | None => (h, r, false)
  | Some newHost =>
      let h1 :=
        fold_left (fun h' l => mutate (Player.setHost false) l h')
                  (players r) h in
      let h2 := mutate (Player.setHost true) newHost h1 in
      (h2, set_hostId r (Player.id (deref h2 newHost)), true)
  end.

(** [isFull()] *)
Definition isFull (r : t) : bool :=
  (capacity r <=? Z.of_nat (length (players r)))%Z.

(** [hasExpired()] *)
Definition hasExpired (now : Z) (r : t) : bool := (expiresAt r <? now)%Z.

(** [getHost()] *)
Definition getHost (h : Heap) (r : t) : option loc :=
  List.find (fun l => Player.isHost (deref h l)) (players r).

(** [verifyCode(code)] *)
Definition verifyCode (r : t) (c : Text) : bool :=
  if negb (isPrivate r) then true
  else bool_decide (code r = Some c).

(** [removePlayer(playerId)]; the boolean is the return value. *)
Definition removePlayer (now : Z) (playerId : string) (h : Heap) (r : t)
    : Heap * t * bool :=
  match GameLogic.findIndex
          (fun l => bool_decide (Player.id (deref h l) = playerId))
          (players r) with
  | None => (h, r, false)
  | Some playerIndex =>
      let removedPlayer := deref h (players r !!! playerIndex) in
      let r1 := set_players r (delete playerIndex (players r)) in
      let '(h2, r2) :=
        if Player.isHost removedPlayer
           && Nat.ltb 0 (length (players r1))
        then transferHost h r1 else (h, r1) in
      let r3 :=
        if bool_decide (Game.status (game r2) = playing)
        then set_game r2 (Game.checkGameEnd now h2 (game r2))
        else r2 in
      (h2, r3, true)
  end.

(** [startReplayVoting()] *)
Definition startReplayVoting (now : Z) (r : t) : t :=
  set_votes r ∅ (Some (now + 30 * 1000)%Z).

(** [!this.replayDeadline]: [null] and [0] are falsy. *)
Definition noDeadline (d : option Z) : bool :=
  match d with None => true | Some z => (z =? 0)%Z end.

(** [castReplayVote(playerId, vote)]; the boolean is the return value. *)
Definition castReplayVote (now : Z) (playerId : string) (vote : bool)
    (h : Heap) (r : t) : t * bool :=
  if noDeadline (replayDeadline r)
     || (default 0 (replayDeadline r) <? now)%Z
  then (r, false)
  else if negb (existsb
                  (fun l => bool_decide (Player.id (deref h l) = playerId)
                            && Player.connected (deref h l))
                  (players r))
  then (r, false)
  else (set_votes r (<[playerId := vote]> (replayVotes r))
                  (replayDeadline r), true).

(** [checkReplayVotes()] *)
Definition checkReplayVotes (now : Z) (h : Heap) (r : t) : VoteStatus :=
  if noDeadline (replayDeadline r) then rejected
  else
    let connectedPlayers :=
      List.filter (fun l => Player.connected (deref h l)) (players r) in
    if (default 0 (replayDeadline r) <? now)%Z then rejected
    else
      let allVoted :=
        forallb (fun l =>
          bool_decide (is_Some (replayVotes r !! Player.id (deref h l))))
          connectedPlayers in
      if negb allVoted then pending
      else
        let allPositive :=
          forallb (fun l =>
            bool_decide
              (replayVotes r !! Player.id (deref h l) = Some true))
            connectedPlayers in
        if allPositive then accepted else rejected.

(** [replay()]; [None] when [initialize] throws. *)
Definition replay (now : Z) (rnd : nat) (uuid : nat → string)
    (h : Heap) (r : t) : option (Heap * t) :=
  let '(h1, g1) := Game.reset h (game r) in
  match Game.initialize now rnd uuid (players r) h1 g1 with
  | None => None
  | Some (h2, g2) =>
      Some (h2, resetTTL now (set_votes (set_game r g2) ∅ None))
  end.

End Room.

(* --------------------------------------------------------------------- *)
(** ** ReplayManager.ts *)

Module ReplayManager.

Inductive Result : Set := approved | rejected | expired.

(** [interface ReplayVoteEvent] *)
Inductive Event : Set :=
| vote_started (roomId : string) (remainingMs : Z)
| vote_cast (roomId playerId : string) (vote : bool)
| vote_completed (roomId : string) (result : Result)
| vote_expired (roomId : string).

(** [interface ReplayVoteState] *)
Record VoteState : Type := mkVoteState {
  roomId : string;
  votes : gmap string bool;
  requiredVoters : list string;
  startTime : Z;
  timeoutMs : Z;
  isActive : bool
}.

(** The manager: vote states by room id, the rooms with an armed
    timeout, and the events emitted so far (oldest first). *)
Record t : Type := mk {
  voteStates : gmap string VoteState;
  voteTimeouts : gset string;
  emitted : list Event;
  defaultTimeoutMs : Z
}.

(** [constructor(options)] *)
Definition new (voteTimeoutMs : option Z) : t :=
  mk ∅ ∅ [] (default 30000%Z voteTimeoutMs).

Definition emitEvent (e : Event) (m : t) : t :=
  mk (voteStates m) (voteTimeouts m) (emitted m ++ [e])
     (defaultTimeoutMs m).

(** [stopReplayVote(roomId)] *)
Definition stopReplayVote (rid : string) (m : t) : t * bool :=
  let timeouts := voteTimeouts m ∖ {[rid]} in
  match voteStates m !! rid with
  | Some vs =>
      if isActive vs
      then (mk (delete rid (voteStates m)) timeouts (emitted m)
               (defaultTimeoutMs m), true)
      else (mk (voteStates m) timeouts (emitted m) (defaultTimeoutMs m),
            false)
  | None =>
      (mk (voteStates m) timeouts (emitted m) (defaultTimeoutMs m), false)
  end.

(** [startReplayVote(room, options)] *)
Definition startReplayVote (now : Z) (voteTimeoutMs : option Z)
    (h : Heap) (room : Room.t) (m : t) : t * bool :=
  if negb (bool_decide (Room.getStatus room = finished)) then (m, false)
  else
    let m1 := fst (stopReplayVote (Room.id room) m) in
    let timeout := default (defaultTimeoutMs m) voteTimeoutMs in
    let presentPlayers :=
      List.filter (fun l => Player.connected (deref h l))
                  (Room.players room) in
    if Nat.eqb (length presentPlayers) 0 then (m1, false)
    else
      let required := map (fun l => Player.id (deref h l)) presentPlayers in
      let vs := mkVoteState (Room.id room) ∅ required now timeout true in
      (emitEvent (vote_started (Room.id room) timeout)
         (mk (<[Room.id room := vs]> (voteStates m1))
             ({[Room.id room]} ∪ voteTimeouts m1)
             (emitted m1) (defaultTimeoutMs m1)),
       true).

(** [completeVote(roomId)] *)
Definition completeVote (rid : string) (m : t) : t :=
  match voteStates m !! rid with
  | None => m
  | Some vs =>
      if negb (isActive vs) then m
      else
        let allVotes := snd <$> map_to_list (votes vs) in
        let isUnanimous :=
          Nat.eqb (length allVotes) (length (requiredVoters vs))
          && forallb (fun v => v) allVotes in
        let result := if isUnanimous then approved else rejected in
        emitEvent (vote_completed rid result)
          (mk (delete rid (voteStates m)) (voteTimeouts m ∖ {[rid]})
              (emitted m) (defaultTimeoutMs m))
  end.

(** [castVote(roomId, playerId, vote)]; the boolean is the return
    value. *)
Definition castVote (rid playerId : string) (vote : bool) (m : t)
    : t * bool :=
  match voteStates m !! rid with
  | None => (m, false)
  | Some vs =>
      if negb (isActive vs) then (m, false)
      else if negb (bool_decide (playerId ∈ requiredVoters vs))
      then (m, false)
      else
        let vs1 :=
          mkVoteState (roomId vs) (<[playerId := vote]> (votes vs))
            (requiredVoters vs) (startTime vs) (timeoutMs vs)
            (isActive vs) in
        let m1 :=
          emitEvent (vote_cast rid playerId vote)
            (mk (<[rid := vs1]> (voteStates m)) (voteTimeouts m)
                (emitted m) (defaultTimeoutMs m)) in
        if Nat.eqb (size (votes vs1)) (length (requiredVoters vs1))
        then (completeVote rid m1, true)
        else (m1, true)
  end.

(** [handleVoteTimeout(roomId)] *)
Definition handleVoteTimeout (rid : string) (m : t) : t :=
  match voteStates m !! rid with
  | None => m
  | Some vs =>
      if negb (isActive vs) then m
      else
        emitEvent (vote_expired rid)
          (mk (delete rid (voteStates m)) (voteTimeouts m ∖ {[rid]})
              (emitted m) (defaultTimeoutMs m))
  end.

End ReplayManager.

(* --------------------------------------------------------------------- *)
(** ** game-logic.ts: the classes [Player] and [Game] of the shared package

    This is the engine the client's [useLocalGame] hook instantiates for a
    local match.  It is a different class from the server's [Game] above,
    hence the module name. *)

Module LocalGame.

(** [new Player(nickname, color)] of [game-logic.ts]; [uuid] is the value
    of [crypto.randomUUID()]. *)
Definition newPlayer (uuid : string) (nickname : Text) (color : Color)
    : Player.t :=
  Player.mk uuid nickname color (mkInventory 3 3 3) true 0 false false.

Record t : Set := mk {
  board : Board;
  players : list loc;
  currentPlayerId : string;
  status : GameStatus;
  winnerId : option string;
  isDraw : bool
}.

(** [constructor(players)]; [None] when it throws.  [this.players] is a
    copy of the array: it holds the caller's objects. *)
Definition new (h : Heap) (players : list loc) : option t :=
  if Nat.ltb (length players) 2 || Nat.ltb 4 (length players) then None
  else
    match players with
    | [] => None (* not reached: at least two players here *)
    | first :: _ =>
        Some (mk GameLogic.createEmptyBoard players
                 (Player.id (deref h first)) playing None false)
    end.

(** [getCurrentPlayer()] *)
Definition getCurrentPlayer (h : Heap) (g : t) : option loc :=
  List.find (fun l => bool_decide (Player.id (deref h l) = currentPlayerId g))
            (players g).

(** [applyMove(move)] with [move = { position, piece: { size, color } }];
    [None] when it throws.  The inventory update replaces the entry of
    [this.players] by a new object built with the spread syntax: the store
    grows by one object and the old one is left as it was. *)
Definition applyMove (position : Z) (size : Size) (color : Color)
    (h : Heap) (g : t) : option (Heap * t) :=
  if negb (bool_decide (status g = playing)) then None
  else
    match getCurrentPlayer h g with
    | None => None
    | Some currentPlayer =>
        if negb (bool_decide (Player.color (deref h currentPlayer) = color))
        then None
        else if (count (Player.inventory (deref h currentPlayer)) size <=? 0)%Z
        then None
        else if negb (GameLogic.isLegalMove (board g) position size
                        (Some color))
        then None
        else
          match GameLogic.applyMove (board g) position size color with
          | None => None
          | Some board1 =>
              let '(h1, players1) :=
                match GameLogic.findIndex
                        (fun l => bool_decide
                           (Player.id (deref h l)
                            = Player.id (deref h currentPlayer)))
                        (players g) with
                | None => (h, players g)
                | Some playerIndex =>
                    match players g !! playerIndex with
                    | None => (h, players g) (* not reached *)
                    | Some old =>
                        let '(h1, fresh) :=
                          alloc h
                            (Player.set_inventory (deref h old)
                               (decrement (Player.inventory (deref h old))
                                  size)) in
                        (h1, <[playerIndex := fresh]> (players g))
                    end
                end in
              if GameLogic.checkWinConditions board1 color then
                Some (h1, mk board1 players1 (currentPlayerId g) finished
                         (Some (Player.id (deref h currentPlayer)))
                         (isDraw g))
              else if GameLogic.isDraw h1 board1 players1 then
                Some (h1, mk board1 players1 (currentPlayerId g) finished
                         (winnerId g) true)
              else
                match GameLogic.getNextPlayer h1 players1
                        (Some (currentPlayerId g)) with
                | Some nextPlayer =>
                    Some (h1, mk board1 players1
                             (Player.id (deref h1 nextPlayer)) (status g)
                             (winnerId g) (isDraw g))
                | None =>
                    Some (h1, mk board1 players1 (currentPlayerId g)
                             (status g) (winnerId g) (isDraw g))
                end
          end
    end.

End LocalGame.

(* --------------------------------------------------------------------- *)
(** ** LobbyService.ts

    The lobby keeps two [Map]s: the rooms by id and, for every host, the
    id of its room.  A room object is updated in place by the calls the
    service makes on it; here the new value is stored under the same key.
    The listing and statistics functions and the cleanup interval are not
    part of the model. *)

Module LobbyService.

Record t : Type := mk {
  rooms : gmap string Room.t;
  roomsByHost : gmap string string
}.

Definition new : t := mk ∅ ∅.

(** [interface CreateRoomOptions] *)
Record CreateRoomOptions : Set := mkCreateRoomOptions {
  c_name : Text;
  c_hostId : string;
  c_capacity : Z;
  c_isPrivate : bool;
  c_code : option Text
}.

(** The value returned by [joinRoom] and [leaveRoom]: [success] or the
    [error] string. *)
Inductive Error : Set :=
| RoomNotFound | RoomHasExpired | RoomIsFull | GameInProgress
| CodeRequired | InvalidCode | AlreadyInRoom | FailedToJoin
| PlayerNotInRoom | FailedToLeave.

Inductive Outcome : Set := Success | Failure (e : Error).

Global Instance Error_eq_dec : EqDecision Error.
Proof. solve_decision. Defined.

Global Instance Outcome_eq_dec : EqDecision Outcome.
Proof. solve_decision. Defined.

(** [createRoom(options)]; [None] when it throws.  [uuid] is the value
    [uuidv4()] returns in the constructor of [Room]. *)
Definition createRoom (now : Z) (uuid : string) (o : CreateRoomOptions)
    (s : t) : option (t * Room.t) :=
  if (c_capacity o <? 2)%Z || (4 <? c_capacity o)%Z then None
  else if bool_decide (trim (c_name o) = []) then None
  else if Nat.ltb 50 (length (c_name o)) then None
  else if bool_decide (is_Some (roomsByHost s !! c_hostId o)) then None
  else if c_isPrivate o
          && (negb (truthyText (c_code o))
              || Nat.ltb (length (default [] (c_code o))) 4)
  then None
  else if c_isPrivate o
          && Nat.ltb 20 (length (default [] (c_code o)))
  then None
  else
    match Room.new now uuid
            (Room.mkOptions None (trim (c_name o)) (c_capacity o)
               (Some (c_isPrivate o)) (c_code o) (c_hostId o)) with
    | None => None
    | Some room =>
        Some (mk (<[Room.id room := room]> (rooms s))
                 (<[c_hostId o := Room.id room]> (roomsByHost s)),
              room)
    end.

(** [getRoom(roomId)] *)
Definition getRoom (s : t) (roomId : string) : option Room.t :=
  rooms s !! roomId.

(** [getRoomByHost(hostId)] *)
Definition getRoomByHost (s : t) (hostId : string) : option Room.t :=
  match roomsByHost s !! hostId with
  | None => None
  | Some roomId => if truthy (Some roomId) then getRoom s roomId else None
  end.

(** [removeRoom(roomId)]; the boolean is the return value. *)
Definition removeRoom (roomId : string) (s : t) : t * bool :=
  match rooms s !! roomId with
  | None => (s, false)
  | Some room =>
      (mk (delete roomId (rooms s))
          (delete (Room.hostId room) (roomsByHost s)),
       true)
  end.

(** [joinRoom(roomId, player, code?)]; [None] when [addPlayer] throws. *)
Definition joinRoom (now : Z) (rnd : nat) (uuid : nat → string)
    (roomId : string) (player : Player.t) (code : option Text)
    (h : Heap) (s : t) : option (Heap * t * Outcome) :=
  match getRoom s roomId with
  | None => Some (h, s, Failure RoomNotFound)
  | Some room =>
      if Room.hasExpired now room then
        Some (h, (removeRoom roomId s).1, Failure RoomHasExpired)
      else if Room.isFull room then Some (h, s, Failure RoomIsFull)
      else if negb (bool_decide (Room.getStatus room = waiting)) then
        Some (h, s, Failure GameInProgress)
      else if Room.isPrivate room && negb (truthyText code) then
        Some (h, s, Failure CodeRequired)
      else if Room.isPrivate room
              && negb (Room.verifyCode room (default [] code)) then
        Some (h, s, Failure InvalidCode)
      else if bool_decide
                (is_Some (Room.getPlayer h room (Player.id player))) then
        Some (h, s, Failure AlreadyInRoom)
      else
        match Room.addPlayer now rnd uuid player h room with
        | None => None
        | Some (h1, room1, added) =>
            let s1 := mk (<[roomId := room1]> (rooms s)) (roomsByHost s) in
            if negb added then Some (h1, s1, Failure FailedToJoin)
            else Some (h1, s1, Success)
        end
  end.

(** [leaveRoom(roomId, playerId)]; the boolean is [roomClosed]. *)
Definition leaveRoom (now : Z) (roomId playerId : string)
    (h : Heap) (s : t) : Heap * t * Outcome * bool :=
  match getRoom s roomId with
  | None => (h, s, Failure RoomNotFound, false)
  | Some room =>
      match Room.getPlayer h room playerId with
      | None => (h, s, Failure PlayerNotInRoom, false)
      | Some _ =>
          let wasHost := bool_decide (Room.hostId room = playerId) in
          let '(h1, room1, removed) :=
            Room.removePlayer now playerId h room in
          let rooms1 := <[roomId := room1]> (rooms s) in
          if negb removed then
            (h1, mk rooms1 (roomsByHost s), Failure FailedToLeave, false)
          else
            let byHost1 :=
              if wasHost then
                let byHost := delete playerId (roomsByHost s) in
                if truthy (Some (Room.hostId room1))
                   && negb (bool_decide (Room.hostId room1 = playerId))
                then <[Room.hostId room1 := roomId]> byHost
                else byHost
              else roomsByHost s in
            let s1 := mk rooms1 byHost1 in
            if Nat.eqb (length (Room.players room1)) 0 then
              (h1, (removeRoom roomId s1).1, Success, true)
            else (h1, s1, Success, false)
      end
  end.

(** [cleanupExpiredRooms()]; the number is the return value.  The ids are
    collected in the iteration order of the [Map]; the result does not
    depend on it. *)
Definition cleanupExpiredRooms (now : Z) (s : t) : t * nat :=
  let expiredRooms :=
    (List.filter (fun kr => Room.hasExpired now kr.2)
                 (map_to_list (rooms s))).*1 in
  (fold_left (fun s' roomId => (removeRoom roomId s').1) expiredRooms s,
   length expiredRooms).

End LobbyService.

(* --------------------------------------------------------------------- *)
(** ** ConnectionManager.ts

    The manager keeps three [Map]s: the connections by player id, the
    player of every socket, and the records of the players who may
    reconnect.  It acts on the rooms of the lobby it was built with, so
    its operations take and return the store, the lobby and the manager.
    The cleanup interval, the statistics and [disconnectRoom] are not
    part of the model. *)

Module ConnectionManager.

(** [DisconnectionOptions.reason] *)
Inductive Reason : Set := explicit | network | timeout.

Global Instance Reason_eq_dec : EqDecision Reason.
Proof. solve_decision. Defined.

(** [interface DisconnectionOptions]; [timeoutMs] is never read. *)
Record DisconnectionOptions : Set := mkOptions {
  reason : Reason;
  canReconnect : option bool
}.

(** [interface PlayerConnection] *)
Record PlayerConnection : Set := mkConnection {
  playerId : string;
  socketId : string;
  roomId : option string;
  connectedAt : Z;
  lastActivity : Z;
  isReconnecting : bool
}.

(** An entry of [disconnectedPlayers]; [d_player] is the reference to the
    room's record that [disconnect] stores. *)
Record Disconnection : Set := mkDisconnection {
  d_player : loc;
  d_roomId : string;
  d_disconnectedAt : Z;
  d_reason : Reason;
  d_canReconnect : bool
}.

Record t : Type := mk {
  connections : gmap string PlayerConnection;
  socketToPlayer : gmap string string;
  disconnectedPlayers : gmap string Disconnection;
  reconnectionTimeout : Z
}.

(** [reconnectionTimeout = 5 * 60 * 1000] *)
Definition new : t := mk ∅ ∅ ∅ (5 * 60 * 1000).

(** The object returned by [disconnect], without its [room]. *)
Record Disconnected : Set := mkDisconnected {
  wasInRoom : bool;
  shouldForfeit : bool;
  shouldTransferHost : bool;
  newHostId : option string
}.

(** [disconnect(playerId, options)] *)
Definition disconnect (now : Z) (playerId : string)
    (options : DisconnectionOptions) (h : Heap) (s : LobbyService.t)
    (m : t) : Heap * LobbyService.t * t * Disconnected :=
  match connections m !! playerId with
  | None => (h, s, m, mkDisconnected false false false None)
  | Some connection =>
      let room :=
        if truthy (roomId connection)
        then LobbyService.getRoom s (default "" (roomId connection))
        else None in
      let player :=
        match room with
        | Some r => Room.getPlayer h r playerId
        | None => None
        end in
      let '(h1, s1, records, forfeit, transfer) :=
        match room, player with
        | Some r, Some l =>
            let isHost := bool_decide (Room.hostId r = playerId) in
            let gameInProgress :=
              bool_decide (Room.getStatus r = playing) in
            if bool_decide (reason options = explicit) then
              if gameInProgress then
                (mutate Player.eliminate l h, s, disconnectedPlayers m,
                 true, None)
              else
                let left :=
                  LobbyService.leaveRoom now (Room.id r) playerId h s in
                (left.1.1.1, left.1.1.2, disconnectedPlayers m, false, None)
            else
              let h1 := mutate (Player.setConnected false) l h in
              let records :=
                if negb (bool_decide (canReconnect options = Some false))
                then
                  <[playerId :=
                      mkDisconnection l (Room.id r) now (reason options)
                        true]> (disconnectedPlayers m)
                else disconnectedPlayers m in
              let transfer :=
                if isHost && negb gameInProgress then
                  match List.filter
                          (fun p => Player.connected (deref h1 p)
                                    && negb (Player.isEliminated
                                               (deref h1 p)))
                          (Room.players r) with
                  | [] => None
                  | newHost :: _ => Some (Player.id (deref h1 newHost))
                  end
                else None in
              (h1, s, records, false, transfer)
        | _, _ => (h, s, disconnectedPlayers m, false, None)
        end in
      (h1, s1,
       mk (delete playerId (connections m))
          (delete (socketId connection) (socketToPlayer m))
          records (reconnectionTimeout m),
       mkDisconnected (bool_decide (is_Some room)) forfeit
         (bool_decide (is_Some transfer)) transfer)
  end.

(** [connect(playerId, socketId)] *)
Definition connect (now : Z) (playerId socketId : string) (h : Heap)
    (s : LobbyService.t) (m : t) : Heap * LobbyService.t * t :=
  let '(h1, s1, m1, _) :=
    disconnect now playerId (mkOptions explicit (Some false)) h s m in
  let connections1 :=
    match socketToPlayer m1 !! socketId with
    | Some existingPlayerId =>
        if truthy (Some existingPlayerId)
        then delete existingPlayerId (connections m1)
        else connections m1
    | None => connections m1
    end in
  (h1, s1,
   mk (<[playerId := mkConnection playerId socketId None now now false]>
         connections1)
      (<[socketId := playerId]> (socketToPlayer m1))
      (delete playerId (disconnectedPlayers m1))
      (reconnectionTimeout m1)).

(** [joinRoom(playerId, roomId)]; the boolean is the return value. *)
Definition joinRoom (playerId roomId' : string) (m : t) : t * bool :=
  match connections m !! playerId with
  | None => (m, false)
  | Some c =>
      (mk (<[playerId :=
               mkConnection (ConnectionManager.playerId c) (socketId c)
                 (Some roomId') (connectedAt c) (lastActivity c)
                 (isReconnecting c)]> (connections m))
          (socketToPlayer m) (disconnectedPlayers m)
          (reconnectionTimeout m),
       true)
  end.

(** The [error] of a [ReconnectionResult]. *)
Inductive ReconnectionError : Set :=
| NoDisconnectionRecord | ReconnectionNotAllowed | RoomNoLongerExists
| PlayerNoLongerInRoom | ReconnectionTimeoutExpired.

(** [interface ReconnectionResult], without [room] and [gameState]. *)
Inductive ReconnectionResult : Set :=
| Reconnected
| Refused (error : ReconnectionError).

Global Instance ReconnectionError_eq_dec : EqDecision ReconnectionError.
Proof. solve_decision. Defined.

Global Instance ReconnectionResult_eq_dec : EqDecision ReconnectionResult.
Proof. solve_decision. Defined.

Definition forget (playerId : string) (m : t) : t :=
  mk (connections m) (socketToPlayer m)
     (delete playerId (disconnectedPlayers m)) (reconnectionTimeout m).

(** [reconnect(playerId, socketId)] *)
Definition reconnect (now : Z) (playerId socketId : string) (h : Heap)
    (s : LobbyService.t) (m : t)
    : Heap * LobbyService.t * t * ReconnectionResult :=
  match disconnectedPlayers m !! playerId with
  | None => (h, s, m, Refused NoDisconnectionRecord)
  | Some disconnectedInfo =>
      if negb (d_canReconnect disconnectedInfo) then
        (h, s, m, Refused ReconnectionNotAllowed)
      else
        match LobbyService.getRoom s (d_roomId disconnectedInfo) with
        | None => (h, s, forget playerId m, Refused RoomNoLongerExists)
        | Some room =>
            match Room.getPlayer h room playerId with
            | None =>
                (h, s, forget playerId m, Refused PlayerNoLongerInRoom)
            | Some player =>
                if (reconnectionTimeout m
                    <? now - d_disconnectedAt disconnectedInfo)%Z
                then
                  let '(h1, s1) :=
                    if bool_decide (Room.getStatus room = playing) then
                      (mutate Player.eliminate player h, s)
                    else
                      (LobbyService.leaveRoom now (Room.id room) playerId
                         h s).1.1 in
                  (h1, s1, forget playerId m,
                   Refused ReconnectionTimeoutExpired)
                else
                  let h1 := mutate (Player.setConnected true) player h in
                  let '(h2, s2, m2) :=
                    connect now playerId socketId h1 s m in
                  let connections2 :=
                    match connections m2 !! playerId with
                    | Some c =>
                        <[playerId :=
                            mkConnection (ConnectionManager.playerId c)
                              (ConnectionManager.socketId c)
                              (Some (Room.id room)) (connectedAt c)
                              (lastActivity c) true]> (connections m2)
                    | None => connections m2 (* not reached *)
                    end in
                  (h2, s2,
                   forget playerId
                     (mk connections2 (socketToPlayer m2)
                        (disconnectedPlayers m2) (reconnectionTimeout m2)),
                   Reconnected)
            end
        end
  end.

End ConnectionManager.

(* --------------------------------------------------------------------- *)
(** ** Specification-side notions used in the statements *)

(** Order of the sizes: P below M below G. *)
Definition sizeLe (s s' : Size) : bool :=
  match s, s' with
  | P, _ => true
  | M, (M | G) => true
  | G, G => true
  | _, _ => false
  end.

(** "The slot [b[cell][s]] is empty." *)
Definition slotEmpty (b : Board) (cell : Z) (s : Size) : Prop :=
  ∃ c, boardAt b cell = Some c ∧ slot c s = None.

(** "The visible piece of a cell is the colour of the largest occupied size
    slot (G over M over P, else none)." *)
Definition visible (c : Cell) : option Color :=
  if bool_decide (is_Some (slot c G)) then slot c G
  else if bool_decide (is_Some (slot c M)) then slot c M
  else slot c P.

(** "The 8 lines (3 rows, 3 columns, 2 diagonals)" of the row-major board. *)
Definition isLine (l : list Z) : Prop :=
  (∃ r, (0 ≤ r ≤ 2)%Z ∧ l = [3 * r; 3 * r + 1; 3 * r + 2]%Z)
  ∨ (∃ c, (0 ≤ c ≤ 2)%Z ∧ l = [c; c + 3; c + 6]%Z)
  ∨ l = [0; 4; 8]%Z ∨ l = [2; 4; 6]%Z.

(** A board whose cell 0 holds a red G and nothing else. *)
Definition boardRedG0 : Board :=
  boardSet GameLogic.createEmptyBoard 0 (mkCell None None (Some red)).

(** Red G pieces on the top row, and the same board with blue and green
    pieces hidden under them. *)
Definition boardRedRow : Board :=
  boardSet (boardSet boardRedG0 1 (mkCell None None (Some red)))
           2 (mkCell None None (Some red)).

Definition boardRedRowHidden : Board :=
  boardSet (boardSet boardRedRow 0 (mkCell (Some blue) None (Some red)))
           1 (mkCell (Some green) (Some blue) (Some red)).

(* --------------------------------------------------------------------- *)
(** ** Operations on a running match and reachable match states *)

(** The operations the server performs on a match: a move submission
    ([applyMove]), the timer-driven [skipTurn], and [skipCurrentPlayer]. *)
Inductive GameOp : Set :=
| OpMove (playerId : string) (cellIndex : Z) (size : Size)
| OpSkipTurn
| OpSkipCurrentPlayer.

(** One operation that takes effect: an accepted move or an executed
    skip.  [None] when the operation is rejected (or does not return). *)
Definition step (now : Z) (op : GameOp) (s : Heap * Game.t)
    : option (Heap * Game.t) :=
  match op with
  | OpMove pid c sz =>
      match Game.applyMove now pid c sz s.1 s.2 with
      | Some (h, g, true) => Some (h, g)
      | _ => None
      end
  | OpSkipTurn =>
      match Game.skipTurn now s.1 s.2 with
      | Some (h, g, true) => Some (h, g)
      | _ => None
      end
  | OpSkipCurrentPlayer =>
      if bool_decide (Game.status s.2 = playing)
         && truthy (Game.currentPlayerId s.2)
      then Game.skipCurrentPlayer now s.1 s.2
      else None
  end.

Fixpoint steps (now : Z) (ops : list GameOp) (s : Heap * Game.t)
    : option (Heap * Game.t) :=
  match ops with
  | [] => Some s
  | op :: r =>
      match step now op s with
      | Some s' => steps now r s'
      | None => None
      end
  end.

(** The class invariant of [Player]: what every object built by the
    constructor satisfies. *)
Definition validPlayer (p : Player.t) : Prop :=
  Player.id p ≠ "" ∧ Player.nickname p ≠ []
  ∧ trim (Player.nickname p) = Player.nickname p
  ∧ (length (Player.nickname p) ≤ 20)%nat.

(** Seats given to [initialize]: allocated records, pairwise distinct
    ids. *)
Definition validLocs (h : Heap) (ls : list loc) : Prop :=
  Forall (fun l => (l < length h)%nat) ls.

Definition ids (h : Heap) (ls : list loc) : list string :=
  map (fun l => Player.id (deref h l)) ls.

Definition uniqueIds (h : Heap) (ls : list loc) : Prop := NoDup (ids h ls).

(** Match states reachable from an initialization by operations that
    take effect. *)
Inductive reachable : Heap * Game.t → Prop :=
| reach_init now rnd uuid src h g0 h1 g1 :
    validLocs h src → uniqueIds h src →
    Forall (fun l => validPlayer (deref h l)) src →
    Game.initialize now rnd uuid src h g0 = Some (h1, g1) →
    reachable (h1, g1)
| reach_step now op s s' :
    reachable s → step now op s = Some s' → reachable s'.

(* --------------------------------------------------------------------- *)
(** ** Turn order, as the specification words it *)

(** The seat list cut at the seat whose id is [cur]:
    seats before it, the seat, seats after it. *)
Fixpoint splitAtSeat (h : Heap) (cur : string) (seats : list loc)
    : option (list loc * loc * list loc) :=
  match seats with
  | [] => None
  | l :: r =>
      if bool_decide (Player.id (deref h l) = cur) then Some ([], l, r)
      else
        match splitAtSeat h cur r with
        | Some (pre, c, post) => Some (l :: pre, c, post)
        | None => None
        end
  end.

(** "Scanning the seats in seat order starting at the position immediately
    after the current seat and wrapping around": the seats after it, then
    the seats before it, then the seat itself. *)
Definition scanOrder (h : Heap) (cur : string) (seats : list loc)
    : list loc :=
  match splitAtSeat h cur seats with
  | Some (pre, c, post) => post ++ pre ++ [c]
  | None => seats
  end.

(** C2 as stated: the first active seat of the scan. *)
Definition firstActive (h : Heap) (cur : string) (seats : list loc)
    : option loc :=
  List.find (fun l => Player.active (deref h l)) (scanOrder h cur seats).

(** C2 as amended: the first seat of the scan that is active and has a
    legal move. *)
Definition firstActiveWithMove (h : Heap) (b : Board) (cur : string)
    (seats : list loc) : option loc :=
  List.find
    (fun l => Player.active (deref h l)
              && GameLogic.hasLegalMoves b (deref h l))
    (scanOrder h cur seats).

(** The seat with id [cur] is active. *)
Definition seatActive (h : Heap) (g : Game.t) (cur : string) : Prop :=
  ∃ l, Game.findPlayer h g (Some cur) = Some l
       ∧ Player.active (deref h l) = true.

(** Two stores that differ at most in the skip counters of their
    records. *)
Definition sameButSkips (p q : Player.t) : Prop :=
  Player.id p = Player.id q ∧ Player.nickname p = Player.nickname q
  ∧ Player.color p = Player.color q
  ∧ Player.inventory p = Player.inventory q
  ∧ Player.connected p = Player.connected q
  ∧ Player.isEliminated p = Player.isEliminated q
  ∧ Player.isHost p = Player.isHost q.

Definition skipEq (h h' : Heap) : Prop :=
  length h = length h' ∧ ∀ l, sameButSkips (deref h l) (deref h' l).

(** [board[i][s]], [None] when the slot is empty. *)
Definition boardSlot (b : Board) (i : Z) (s : Size) : option Color :=
  match boardAt b i with
  | Some c => slot c s
  | None => None
  end.

(* --------------------------------------------------------------------- *)
(** ** Concrete matches used in the examples *)

(** A room record as [Room.addPlayer] creates it. *)
Definition member (id nick : string) (c : Color) (conn : bool) : Player.t :=
  Player.mk id (text nick) c (mkInventory 3 3 3) conn 0 false false.

Definition exampleUuid : nat → string :=
  fun _ => "3b241101-e2bb-4255-8caf-4136c566a962".

(** Two seats, A (red) and B (blue); A draws the first turn. *)
Definition duelLobby : Heap :=
  [member "A" "Alice" red true; member "B" "Bob" blue true].

Definition duel : option (Heap * Game.t) :=
  Game.initialize 0 0 exampleUuid [0; 1] duelLobby Game.new.

(** A plays its nine pieces on cells 0, 1 and 5 while B alternates
    between a timeout and a move. *)
Definition exhaustA : list GameOp :=
  [ OpMove "A" 0 P; OpSkipTurn; OpMove "A" 0 M; OpMove "B" 2 P;
    OpMove "A" 0 G; OpSkipTurn; OpMove "A" 1 P; OpMove "B" 2 M;
    OpMove "A" 1 M; OpSkipTurn; OpMove "A" 1 G; OpMove "B" 3 P;
    OpMove "A" 5 P; OpSkipTurn; OpMove "A" 5 M; OpMove "B" 3 M;
    OpMove "A" 5 G ].

(** After [exhaustA]: A has no piece left, B holds five and is to move. *)
Definition duelExhausted : option (Heap * Game.t) :=
  duel ≫= steps 0 exhaustA.

(** Three seats A, B, C; B draws the first turn. *)
Definition trioLobby : Heap :=
  [member "A" "Alice" red true; member "B" "Bob" blue true;
   member "C" "Carol" green true].

Definition trio : option (Heap * Game.t) :=
  Game.initialize 0 1 exampleUuid [0; 1; 2] trioLobby Game.new.

(** B times out once, C and A play, and B is on turn again with one
    skip on its counter. *)
Definition trioBeforeSecondTimeout : option (Heap * Game.t) :=
  trio ≫= steps 0 [OpSkipTurn; OpMove "C" 0 P; OpMove "A" 1 P].

(** Three seats where B's transport had dropped in the lobby: B is
    disconnected when the match starts; A draws the first turn. *)
Definition droppedLobby : Heap :=
  [member "A" "Alice" red true; member "B" "Bob" blue false;
   member "C" "Carol" green true].

Definition dropped : option (Heap * Game.t) :=
  Game.initialize 0 0 exampleUuid [0; 1; 2] droppedLobby Game.new.

(** What an observer reads of a seat: id, skip counter, elimination flag. *)
Definition seatView (h : Heap) (l : loc) : string * Z * bool :=
  (Player.id (deref h l), Player.skipsInARow (deref h l),
   Player.isEliminated (deref h l)).

(** The state of [duel] and the state after A's first move, as values. *)
Definition duelState : Heap * Game.t := default ([], Game.new) duel.

Definition duelAfterFirstMove : Heap * Game.t :=
  default duelState (step 0 (OpMove "A" 0 P) duelState).

(** The ids of the seats that are not eliminated. *)
Definition uneliminatedIds (h : Heap) (g : Game.t) : list string :=
  ids h (List.filter (fun l => negb (Player.isEliminated (deref h l)))
                     (Game.players g)).

(** The acceptance condition of a move submission, as C6 words it. *)
Definition moveAccepted (h : Heap) (g : Game.t) (playerId : string)
    (cell : Z) (size : Size) : Prop :=
  Game.status g = playing
  ∧ Game.currentPlayerId g = Some playerId
  ∧ ∃ l, Game.findPlayer h g (Some playerId) = Some l
         ∧ Player.isEliminated (deref h l) = false
         ∧ (0 < count (Player.inventory (deref h l)) size)%Z
         ∧ GameLogic.isLegalMove (Game.board g) cell size None = true.

(** [dropped] after A, C and A again were skipped (A is eliminated, C has
    one skip and holds the turn), and the store at the moment the next
    skip has eliminated C and turn advancement is about to run. *)
Definition droppedBeforeLastSkip : Heap * Game.t :=
  default ([], Game.new)
    (dropped ≫= steps 0 [OpSkipCurrentPlayer; OpSkipCurrentPlayer;
                          OpSkipCurrentPlayer]).

Definition droppedAllInactive : Heap * Game.t :=
  (mutate Game.skipAndMaybeEliminate 5 droppedBeforeLastSkip.1,
   droppedBeforeLastSkip.2).

(* --------------------------------------------------------------------- *)
(** ** Rooms used in the examples *)

(** What a connection handler passes to [Room.addPlayer]: a fresh record
    for the socket id and nickname (its colour is ignored by the room). *)
Definition visitor (id nick : string) : Player.t := member id nick red true.

(** A join, a leave and a match operation that take effect. *)
Definition join (now : Z) (rnd : nat) (p : Player.t) (s : Heap * Room.t)
    : option (Heap * Room.t) :=
  match Room.addPlayer now rnd exampleUuid p s.1 s.2 with
  | Some (h, r, true) => Some (h, r)
  | _ => None
  end.

Definition leave (now : Z) (playerId : string) (s : Heap * Room.t)
    : option (Heap * Room.t) :=
  match Room.removePlayer now playerId s.1 s.2 with
  | (h, r, true) => Some (h, r)
  | _ => None
  end.

Definition play (now : Z) (op : GameOp) (s : Heap * Room.t)
    : option (Heap * Room.t) :=
  match step now op (s.1, Room.game s.2) with
  | Some (h, g) => Some (h, Room.set_game s.2 g)
  | None => None
  end.

Definition vote (now : Z) (playerId : string) (v : bool)
    (s : Heap * Room.t) : option (Heap * Room.t) :=
  match Room.castReplayVote now playerId v s.1 s.2 with
  | (r, true) => Some (s.1, r)
  | _ => None
  end.

(** Room operations in sequence, stopping at the first that fails. *)
Fixpoint inTurn (fs : list (Heap * Room.t → option (Heap * Room.t)))
    (s : Heap * Room.t) : option (Heap * Room.t) :=
  match fs with
  | [] => Some s
  | f :: r =>
      match f s with
      | Some s' => inTurn r s'
      | None => None
      end
  end.

(** A public room for three, hosted by A. *)
Definition salon : option (Heap * Room.t) :=
  r ← Room.new 0 (exampleUuid 0)
        (Room.mkOptions None (text "Salon") 3 None None "A");
  Some ([], r).

(** A, B and C join; the match starts with A and A wins the top row. *)
Definition salonFinished : option (Heap * Room.t) :=
  salon ≫= inTurn
    [ join 0 0 (visitor "A" "Alice"); join 0 0 (visitor "B" "Bob");
      join 0 0 (visitor "C" "Carol");
      play 0 (OpMove "A" 0 G); play 0 (OpMove "B" 3 G);
      play 0 (OpMove "C" 6 G); play 0 (OpMove "A" 1 G);
      play 0 (OpMove "B" 4 G); play 0 (OpMove "C" 7 G);
      play 0 (OpMove "A" 2 G) ].

(** The replay vote is opened at time 1000 with A, B and C connected. *)
Definition salonVoteOpen : option (Heap * Room.t) :=
  s ← salonFinished; Some (s.1, Room.startReplayVoting 1000 s.2).

(** The lobby that holds one room, and the manager in which a player is
    connected through a socket and bound to that room. *)
Definition lobbyOf (r : Room.t) : LobbyService.t :=
  LobbyService.mk {[ Room.id r := r ]} {[ Room.hostId r := Room.id r ]}.

Definition online (playerId : string) (r : Room.t) : ConnectionManager.t :=
  (ConnectionManager.joinRoom playerId (Room.id r)
     (ConnectionManager.connect 0 playerId ("socket-" +:+ playerId) []
        (lobbyOf r) ConnectionManager.new).2).1.

(** The transport of a player drops: [disconnect] with the reason
    ['network'], seen from the room. *)
Definition worldAfterDrop (now : Z) (playerId : string) (s : Heap * Room.t)
    : Heap * LobbyService.t * ConnectionManager.t :=
  (ConnectionManager.disconnect now playerId
     (ConnectionManager.mkOptions ConnectionManager.network None)
     s.1 (lobbyOf s.2) (online playerId s.2)).1.

Definition drop (now : Z) (playerId : string) (s : Heap * Room.t)
    : option (Heap * Room.t) :=
  let w := worldAfterDrop now playerId s in
  r ← LobbyService.getRoom w.1.2 (Room.id s.2); Some (w.1.1, r).

(** A votes yes, C's transport drops, B votes yes. *)
Definition salonVoteAfterDrop : option (Heap * Room.t) :=
  salonVoteOpen ≫= inTurn
    [ vote 2000 "A" true; drop 3000 "C"; vote 4000 "B" true ].

(** The same room where C's transport had dropped before the vote was
    opened; A and B vote yes. *)
Definition salonLateVoteOpen : option (Heap * Room.t) :=
  s ← salonFinished; s1 ← drop 500 "C" s;
  Some (s1.1, Room.startReplayVoting 1000 s1.2).

Definition salonLateVoted : option (Heap * Room.t) :=
  salonLateVoteOpen ≫= inTurn [vote 2000 "A" true; vote 3000 "B" true].

(** C reconnects during the window. *)
Definition salonLateReconnected : option (Heap * Room.t) :=
  s0 ← salonFinished; s ← salonLateVoted;
  let w :=
    (ConnectionManager.reconnect 4000 "C" "socket-C2" s.1 (lobbyOf s.2)
       (worldAfterDrop 500 "C" s0).2).1 in
  r ← LobbyService.getRoom w.1.2 (Room.id s.2); Some (w.1.1, r).

(** The voter set of C4: the ids of the seats connected in a given store. *)
Definition connectedIds (h : Heap) (r : Room.t) : list string :=
  ids h (List.filter (fun l => Player.connected (deref h l))
                     (Room.players r)).

(** A room for three where A joins and leaves before B, C and D fill it. *)
Definition salonAfterLeave : option (Heap * Room.t) :=
  salon ≫= inTurn
    [ join 0 0 (visitor "A" "Alice"); join 0 0 (visitor "B" "Bob");
      leave 0 "A";
      join 0 0 (visitor "C" "Carol"); join 0 0 (visitor "D" "Dave") ].

(** Id and colour of each seat of a list of records. *)
Definition seatColors (h : Heap) (ls : list loc) : list (string * Color) :=
  map (fun l => (Player.id (deref h l), Player.color (deref h l))) ls.

(* --------------------------------------------------------------------- *)
(** ** Room and match records *)

(** The record [Game.initialize] builds for a seat from the room's record
    [p] and the palette colour [c]. *)
Definition matchRecord (c : Color) (p : Player.t) : Player.t :=
  Player.mk (Player.id p) (Player.nickname p) c (mkInventory 3 3 3)
            (Player.connected p) 0 false (Player.isHost p).

(** C9 as amended: seat by seat, the match record has the id and the
    nickname of the room record and the palette colour of its index; the
    room keeps its own records. *)
Definition seatsCopied (h : Heap) (r : Room.t) (h' : Heap) (r' : Room.t)
    : Prop :=
  Room.players r' = Room.players r
  ∧ length (Game.players (Room.game r')) = length (Room.players r)
  ∧ ∀ i lr,
      Room.players r !! i = Some lr →
      ∃ lg c,
        Game.players (Room.game r') !! i = Some lg
        ∧ availableColors !! i = Some c
        ∧ Player.id (deref h' lg) = Player.id (deref h lr)
        ∧ Player.nickname (deref h' lg) = Player.nickname (deref h lr)
        ∧ Player.color (deref h' lg) = c
        ∧ Player.id (deref h' lr) = Player.id (deref h lr)
        ∧ Player.nickname (deref h' lr) = Player.nickname (deref h lr)
        ∧ Player.color (deref h' lr) = Player.color (deref h lr).

(** The room's colours follow the palette order (as they do in a room
    nobody has left). *)
Definition paletteOrder (h : Heap) (r : Room.t) : Prop :=
  Room.usedColors h r = take (length (Room.players r)) availableColors.

(** Room records and match records are different objects. *)
Definition separate (h : Heap) (r : Room.t) : Prop :=
  validLocs h (Room.players r)
  ∧ ∀ l, l ∈ Room.players r → l ∉ Game.players (Room.game r).

(** Every seat of the room has a record of its own in the match: room
    records and match records are different objects, and for every seat of
    the room the match holds a record with the same id. *)
Definition twinned (h : Heap) (r : Room.t) : Prop :=
  separate h r
  ∧ ∀ lr, lr ∈ Room.players r →
      ∃ lg, lg ∈ Game.players (Room.game r)
            ∧ Player.id (deref h lg) = Player.id (deref h lr).

(** [salonAfterLeave] one join before it is full, as a value. *)
Definition salonTwoSeats : Heap * Room.t :=
  default ([], Room.mk "" [] 0 false None 0 0 "" [] Game.new ∅ None None)
    (salon ≫= inTurn
       [ join 0 0 (visitor "A" "Alice"); join 0 0 (visitor "B" "Bob") ]).

(** [salonTwoSeats] after [startGame], as a value. *)
Definition salonTwoStarted : Heap * Room.t :=
  default salonTwoSeats
    (Room.startGame 0 0 exampleUuid salonTwoSeats.1 salonTwoSeats.2).

(* --------------------------------------------------------------------- *)
(** ** Notions used in the statements about boards, stocks and turns *)

(** The largest occupied slot of a cell, with its colour. *)
Definition top (c : Cell) : option (Size * Color) :=
  match cellG c, cellM c, cellP c with
  | Some x, _, _ => Some (G, x)
  | None, Some x, _ => Some (M, x)
  | None, None, Some x => Some (P, x)
  | None, None, None => None
  end.

(** Two boards that show the same top piece in every cell. *)
Definition sameTops (b1 b2 : Board) : Prop :=
  ∀ i, top <$> boardAt b1 i = top <$> boardAt b2 i.

(** Number of cells whose slot of size [s] holds colour [c]. *)
Definition placed (b : Board) (s : Size) (c : Color) : Z :=
  Z.of_nat
    (length
       (List.filter (fun i => bool_decide (boardSlot b i s = Some c))
                    GameLogic.cellIndices)).

(** The store after the seats of [skipped] were passed over by turn
    advancement, one after the other: each had its skip counter
    incremented. *)
Definition passOver (skipped : list loc) (h : Heap) : Heap :=
  fold_left (fun h' l => mutate Player.incrementSkips l h') skipped h.

(** The store and the match right after an accepted move of the seat [l]
    was written, before the result is determined: the piece is on the
    board, it is taken from the stock of [l], and the skip counter of [l]
    is reset. *)
Definition afterPlacing (cellIndex : Z) (size : Size) (l : loc)
    (s : Heap * Game.t) : Heap * Game.t :=
  (mutate
     (fun _ =>
        Player.resetSkips
          (Player.set_inventory (deref s.1 l)
             (decrement (Player.inventory (deref s.1 l)) size)))
     l s.1,
   Game.set_board s.2
     (boardPlace (Game.board s.2) cellIndex size
        (Player.color (deref s.1 l)))).

(** The store right after a forced skip of the seat on turn was recorded,
    before turn advancement runs. *)
Definition afterForcedSkip (s : Heap * Game.t) : Heap :=
  match Game.getCurrentPlayer s.1 s.2 with
  | Some l => mutate Game.skipAndMaybeEliminate l s.1
  | None => s.1
  end.

(** The fields of a seat record that no operation of the match changes. *)
Definition sameIdentity (p q : Player.t) : Prop :=
  Player.id p = Player.id q ∧ Player.nickname p = Player.nickname q
  ∧ Player.color p = Player.color q
  ∧ Player.connected p = Player.connected q
  ∧ Player.isHost p = Player.isHost q.

(** The structural invariant of a running match: the seats are allocated
    records with pairwise distinct, non-empty ids, there are two to four
    of them, and their colours are the palette colours in seat order. *)
Definition matchWf (h : Heap) (g : Game.t) : Prop :=
  validLocs h (Game.players g)
  ∧ uniqueIds h (Game.players g)
  ∧ Forall (fun l => Player.id (deref h l) ≠ "") (Game.players g)
  ∧ (2 ≤ length (Game.players g) ≤ 4)%nat
  ∧ map (fun l => Player.color (deref h l)) (Game.players g)
    = take (length (Game.players g)) availableColors.

(** The invariant of the result fields of a match and of the seat on
    turn. *)
Definition resultInv (h : Heap) (g : Game.t) : Prop :=
  Game.status g ≠ waiting
  ∧ (Game.status g = finished ↔ Game.finishedAt g ≠ None)
  ∧ (Game.winnerId g ≠ None → Game.status g = finished)
  ∧ (Game.isDraw g = true → Game.status g = finished)
  ∧ (∀ w, Game.winnerId g = Some w →
          ∃ l, l ∈ Game.players g ∧ Player.id (deref h l) = w)
  ∧ (Game.status g = playing →
     Game.turnStartTime g ≠ None
     ∧ ∃ l, l ∈ Game.players g
            ∧ Game.currentPlayerId g = Some (Player.id (deref h l))
            ∧ Player.isEliminated (deref h l) = false
            ∧ GameLogic.hasLegalMoves (Game.board g) (deref h l) = true).

(** The state of [trio] and the state after B's first timeout, as
    values. *)
Definition trioState : Heap * Game.t := default ([], Game.new) trio.

Definition trioAfterTimeout : Heap * Game.t :=
  default trioState (step 0 OpSkipTurn trioState).

(** The invariant of a room's seat list: the seats are allocated records
    with pairwise distinct ids and pairwise distinct colours, there are
    at most [capacity] of them, and a record flagged as host carries the
    id the room names as its host. *)
Definition roomWf (h : Heap) (r : Room.t) : Prop :=
  validLocs h (Room.players r)
  ∧ NoDup (ids h (Room.players r))
  ∧ NoDup (Room.usedColors h r)
  ∧ (Z.of_nat (length (Room.players r)) ≤ Room.capacity r)%Z
  ∧ ∀ l, l ∈ Room.players r → Player.isHost (deref h l) = true →
         Player.id (deref h l) = Room.hostId r.


(** [salonTwoSeats] after C joined and filled the room, as a value. *)
Definition salonThreeSeats : Heap * Room.t :=
  default salonTwoSeats (join 0 0 (visitor "C" "Carol") salonTwoSeats).

(** Two records that differ at most in their host flag. *)
Definition sameButHost (p q : Player.t) : Prop :=
  Player.id p = Player.id q ∧ Player.nickname p = Player.nickname q
  ∧ Player.color p = Player.color q
  ∧ Player.inventory p = Player.inventory q
  ∧ Player.connected p = Player.connected q
  ∧ Player.skipsInARow p = Player.skipsInARow q
  ∧ Player.isEliminated p = Player.isEliminated q.

(** The replay vote of a room is open at time [now]: a deadline is set
    (and is not 0) and has not passed. *)
Definition votingOpen (now : Z) (r : Room.t) : Prop :=
  ∃ d, Room.replayDeadline r = Some d ∧ d ≠ 0%Z ∧ (now ≤ d)%Z.

(** The seat behind [l] is a connected seat of the room. *)
Definition connectedSeat (h : Heap) (r : Room.t) (l : loc) : Prop :=
  l ∈ Room.players r ∧ Player.connected (deref h l) = true.

(** The invariant of a stored vote: it is active, its voters are pairwise
    distinct, and only its voters have a recorded vote. *)
Definition voteWf (vs : ReplayManager.VoteState) : Prop :=
  ReplayManager.isActive vs = true
  ∧ NoDup (ReplayManager.requiredVoters vs)
  ∧ ∀ p, is_Some (ReplayManager.votes vs !! p) →
         p ∈ ReplayManager.requiredVoters vs.

(** The invariant of the manager: every stored vote is well-formed and is
    stored under the id of its room, and a timeout is armed for exactly
    the rooms that have a stored vote. *)
Definition managerWf (m : ReplayManager.t) : Prop :=
  (∀ rid vs, ReplayManager.voteStates m !! rid = Some vs →
             voteWf vs ∧ ReplayManager.roomId vs = rid)
  ∧ ∀ rid, rid ∈ ReplayManager.voteTimeouts m
           ↔ is_Some (ReplayManager.voteStates m !! rid).

(** Every voter of the list has a vote in [votes]. *)
Definition allVoted (votes : gmap string bool) (voters : list string)
    : Prop :=
  Forall (fun q => is_Some (votes !! q)) voters.

(** Every voter of the list has voted yes in [votes]. *)
Definition allYes (votes : gmap string bool) (voters : list string)
    : Prop :=
  Forall (fun q => votes !! q = Some true) voters.

(** [salonFinished] as a value, and a manager in which the replay vote of
    that room was started at time 1000. *)
Definition salonFinishedState : Heap * Room.t :=
  default salonTwoSeats salonFinished.

Definition voteManager : ReplayManager.t :=
  (ReplayManager.startReplayVote 1000 None salonFinishedState.1
     salonFinishedState.2 (ReplayManager.new None)).1.

(** The three ways a vote of the manager ends without the last voter:
    the timeout, an explicit stop, and [completeVote]. *)
Inductive Closing : Set := ByTimeout | ByStop | ByCompletion.

Definition close (c : Closing) (rid : string) (m : ReplayManager.t)
    : ReplayManager.t :=
  match c with
  | ByTimeout => ReplayManager.handleVoteTimeout rid m
  | ByStop => (ReplayManager.stopReplayVote rid m).1
  | ByCompletion => ReplayManager.completeVote rid m
  end.


(** A local match of two players as [useLocalGame] sets it up: the two
    [Player] objects and the [Game] built from them. *)
Definition localSeats : Heap :=
  [ LocalGame.newPlayer "u1" (text "Joueur 1") red;
    LocalGame.newPlayer "u2" (text "Joueur 2") blue ].

Definition localDuel : option (Heap * LocalGame.t) :=
  (fun g => (localSeats, g)) <$> LocalGame.new localSeats [0%nat; 1%nat].

(** A sequence of accepted moves, each made by the seat on turn with its
    own colour. *)
Definition localPlay (moves : list (Z * Size))
    (s : option (Heap * LocalGame.t)) : option (Heap * LocalGame.t) :=
  fold_left
    (fun s m =>
       s ≫= fun '(h, g) =>
         LocalGame.getCurrentPlayer h g ≫= fun l =>
           LocalGame.applyMove m.1 m.2 (Player.color (deref h l)) h g)
    moves s.

(** Nine moves of a local match after which blue is on turn. *)
Definition localDeadlock : option (Heap * LocalGame.t) :=
  localPlay [ (5, M); (0, G); (6, G); (3, G); (4, G); (7, G); (8, M);
              (2, M); (1, M) ]%Z localDuel.

(** A lobby that holds the room of [salonTwoSeats], and the same lobby at
    a time when the room has expired. *)
Definition salonLobby : LobbyService.t :=
  LobbyService.mk
    {[ Room.id salonTwoSeats.2 := salonTwoSeats.2 ]}
    {[ Room.hostId salonTwoSeats.2 := Room.id salonTwoSeats.2 ]}.

(** The host index is consistent: every entry names a room of the lobby
    whose host is the entry's key. *)
Definition hostIndexWf (s : LobbyService.t) : Prop :=
  ∀ hostId roomId,
    LobbyService.roomsByHost s !! hostId = Some roomId →
    ∃ r, LobbyService.rooms s !! roomId = Some r ∧ Room.hostId r = hostId.

(** A text that consists of white space only, the empty text included. *)
Definition blank (s : Text) : Prop := Forall (fun u => isSpace u = true) s.

(** [t] is [s] without its leading and trailing white space: [s] is [t]
    between two runs of white space, and [t] neither starts nor ends with
    white space. *)
Definition stripped (s t : Text) : Prop :=
  ∃ pre post,
    s = pre ++ t ++ post ∧ blank pre ∧ blank post
    ∧ (∀ u, head t = Some u → isSpace u = false)
    ∧ (∀ u, last t = Some u → isSpace u = false).

(** An index value that passes the range test of [isLegalMove] and names
    no cell of the board: NaN, [null], and a number between 0 and 8 that
    is not integral. *)
Definition namesNoCell (v : GameLogic.Index) : Prop :=
  match v with
  | GameLogic.Finite q =>
      (0 <= q)%Q ∧ (q <= 8)%Q ∧ ∀ z : Z, ¬ (q == inject_Z z)%Q
  | GameLogic.NaN | GameLogic.Null => True
  | GameLogic.PlusInfinity | GameLogic.MinusInfinity => False
  end.
(* ===================================================================== *)
(** * Part II. Theorems                                                   *)
(* ===================================================================== *)

(** ** Board primitives *)

Lemma boardAt_in_range (b : Board) (i : Z) :
  (0 ≤ i ≤ 8)%Z → ∃ c, boardAt b i = Some c.
Proof.
  intros Hi.
  assert (i = 0 ∨ i = 1 ∨ i = 2 ∨ i = 3 ∨ i = 4 ∨ i = 5 ∨ i = 6 ∨ i = 7
          ∨ i = 8)%Z as Hc by lia.
  repeat (destruct Hc as [-> | Hc]); try subst i; simpl; eauto.
Qed.

Lemma boardAt_Some_range (b : Board) (i : Z) (c : Cell) :
  boardAt b i = Some c → (0 ≤ i ≤ 8)%Z.
Proof.
  destruct i as [|p|p]; simpl; try discriminate; try lia.
  do 4 (destruct p as [p|p|]; simpl; try discriminate; try lia).
Qed.

Lemma isNull_None (o : option Color) : GameLogic.isNull o = true ↔ o = None.
Proof. destruct o; simpl; split; congruence. Qed.

(** The two copies of the legality check compute the same function. *)
Lemma isLegalMove_copies_agree b i s c :
  GameLogic.isLegalMove' b i s c = GameLogic.isLegalMove b i s c.
Proof.
  unfold GameLogic.isLegalMove', GameLogic.isLegalMove.
  destruct (_ || _); [done|].
  destruct (boardAt b i) as [cell|]; [|done].
  destruct s, cell as [[?|] [?|] [?|]]; reflexivity.
Qed.

(** C1, as stated, fails: with a G already in cell 0, the P slot of that
    cell is empty and yet placing a P there is not legal. *)
Lemma C1_counterexample :
  ¬ (GameLogic.isLegalMove boardRedG0 0 P (Some blue) = true
     ↔ slotEmpty boardRedG0 0 P).
Proof.
  intros [_ H].
  assert (slotEmpty boardRedG0 0 P) as Hs.
  { exists (mkCell None None (Some red)). split; reflexivity. }
  specialize (H Hs). vm_compute in H. discriminate.
Qed.

Lemma isLegalMove_spec (b : Board) (cell : Z) (s : Size)
    (c : option Color) :
  GameLogic.isLegalMove b cell s c = true
  ↔ (0 ≤ cell ≤ 8)%Z
    ∧ ∃ cv, boardAt b cell = Some cv
            ∧ ∀ s', sizeLe s s' = true → slot cv s' = None.
Proof.
  unfold GameLogic.isLegalMove.
  destruct ((cell <? 0)%Z || (8 <? cell)%Z) eqn:Hr.
  - split; [discriminate|]. intros [Hc _].
    apply orb_true_iff in Hr as [Hr|Hr]; lia.
  - apply orb_false_iff in Hr as [H0 H8].
    assert (0 ≤ cell ≤ 8)%Z as Hc by lia.
    destruct (boardAt_in_range b cell Hc) as [cv Hcv]. rewrite Hcv.
    split.
    + intros H. split; [done|]. exists cv. split; [done|].
      intros s' Hs'.
      destruct s, s', cv as [[?|] [?|] [?|]]; simpl in *;
        try discriminate; reflexivity.
    + intros [_ (cv' & Hcv' & Hall)].
      assert (cv' = cv) as -> by congruence.
      pose proof (Hall P) as HP. pose proof (Hall M) as HM.
      pose proof (Hall G) as HG.
      destruct s, cv as [[?|] [?|] [?|]]; simpl in *;
        try reflexivity;
        try (specialize (HP eq_refl); discriminate);
        try (specialize (HM eq_refl); discriminate);
        try (specialize (HG eq_refl); discriminate).
Qed.

(** C1 (amended): [isLegalMove b cell s c] is true exactly when
    [0 <= cell <= 8] and the slot of size [s] and every larger slot of that
    cell are empty; it is false outside 0..8; the colour argument and the
    smaller slots of the cell never matter.  Both copies of the function
    behave so. *)
Theorem C1_isLegalMove_nesting (b : Board) (cell : Z) (s : Size)
    (c : option Color) :
  (GameLogic.isLegalMove b cell s c = true
   ↔ (0 ≤ cell ≤ 8)%Z
     ∧ ∃ cv, boardAt b cell = Some cv
             ∧ ∀ s', sizeLe s s' = true → slot cv s' = None)
  ∧ (¬ (0 ≤ cell ≤ 8)%Z → GameLogic.isLegalMove b cell s c = false)
  ∧ GameLogic.isLegalMove' b cell s c = GameLogic.isLegalMove b cell s c.
Proof.
  split; [apply isLegalMove_spec|split].
  - intros Hc. destruct (GameLogic.isLegalMove b cell s c) eqn:H; [|done].
    apply isLegalMove_spec in H as [H _]. contradiction.
  - apply isLegalMove_copies_agree.
Qed.

Lemma C1_isLegalMove_nesting_witness :
  GameLogic.isLegalMove boardRedG0 9 P (Some blue) = false.
Proof.
  apply (proj1 (proj2 (C1_isLegalMove_nesting boardRedG0 9 P (Some blue)))).
  intros [_ H]. vm_compute in H. by apply H.
Defined.

(** ** Win detection *)

Lemma getVisiblePiece_visible (c : Cell) :
  GameLogic.getVisiblePiece c = visible c.
Proof. destruct c as [[?|] [?|] [?|]]; reflexivity. Qed.

Lemma lines_are_the_lines (l : list Z) : l ∈ GameLogic.lines ↔ isLine l.
Proof.
  unfold GameLogic.lines, isLine. rewrite !elem_of_cons, elem_of_nil.
  split.
  - intros H.
    repeat (destruct H as [-> | H]); try done.
    + left. exists 0%Z. split; [lia|reflexivity].
    + left. exists 1%Z. split; [lia|reflexivity].
    + left. exists 2%Z. split; [lia|reflexivity].
    + right; left. exists 0%Z. split; [lia|reflexivity].
    + right; left. exists 1%Z. split; [lia|reflexivity].
    + right; left. exists 2%Z. split; [lia|reflexivity].
    + tauto.
    + tauto.
  - intros [(r & Hr & ->) | [(c & Hc & ->) | [-> | ->]]].
    + assert (r = 0 ∨ r = 1 ∨ r = 2)%Z as [-> | [-> | ->]] by lia;
        simpl; tauto.
    + assert (c = 0 ∨ c = 1 ∨ c = 2)%Z as [-> | [-> | ->]] by lia;
        simpl; tauto.
    + tauto.
    + tauto.
Qed.

Lemma checkSameColorAlignment_spec (b : Board) (color : Color) :
  GameLogic.checkSameColorAlignment b color = true
  ↔ ∃ l, l ∈ GameLogic.lines
         ∧ ∀ i, i ∈ l →
             ∃ c, boardAt b i = Some c ∧ visible c = Some color.
Proof.
  unfold GameLogic.checkSameColorAlignment.
  rewrite existsb_exists. split.
  - intros (l & Hl & Hall). exists l. split; [by apply list_elem_of_In|].
    intros i Hi. rewrite forallb_forall in Hall.
    specialize (Hall i (proj1 (list_elem_of_In _ _) Hi)).
    destruct (boardAt b i) as [c|]; [|discriminate].
    exists c. split; [done|].
    rewrite <- getVisiblePiece_visible. by apply bool_decide_eq_true in Hall.
  - intros (l & Hl & Hall). exists l. split; [by apply list_elem_of_In|].
    apply forallb_forall. intros i Hi.
    destruct (Hall i (proj2 (list_elem_of_In _ _) Hi)) as (c & -> & Hv).
    apply bool_decide_eq_true. by rewrite getVisiblePiece_visible.
Qed.

(** C8: [hasWin] (the source's [checkWinConditions]) is true exactly when
    one of the three rows, three columns or two diagonals shows the given
    colour as visible piece in each of its three cells; two boards with the
    same visible pieces give the same answer, whatever their hidden slots
    hold. *)
Theorem C8_hasWin_visible_lines (b : Board) (color : Color) :
  (GameLogic.checkWinConditions b color = true
   ↔ ∃ l, isLine l
          ∧ ∀ i, i ∈ l →
              ∃ c, boardAt b i = Some c ∧ visible c = Some color)
  ∧ ∀ b' : Board,
      (∀ i c c', boardAt b i = Some c → boardAt b' i = Some c' →
                 visible c = visible c') →
      GameLogic.checkWinConditions b' color
      = GameLogic.checkWinConditions b color.
Proof.
  assert (∀ b0, GameLogic.checkWinConditions b0 color = true
            ↔ ∃ l, isLine l
                   ∧ ∀ i, i ∈ l →
                       ∃ c, boardAt b0 i = Some c ∧ visible c = Some color)
    as Hspec.
  { intros b0. unfold GameLogic.checkWinConditions.
    rewrite checkSameColorAlignment_spec.
    split; intros (l & Hl & H); exists l; split; try done;
      by apply lines_are_the_lines. }
  split; [apply Hspec|].
  intros b' Hsame.
  assert (∀ x y, (∀ i c c', boardAt x i = Some c → boardAt y i = Some c' →
                            visible c = visible c') →
                 GameLogic.checkWinConditions x color = true →
                 GameLogic.checkWinConditions y color = true) as Hmono.
  { intros x y Hxy Hx. apply Hspec. apply Hspec in Hx as (l & Hl & H).
    exists l. split; [done|]. intros i Hi.
    destruct (H i Hi) as (c & Hc & Hv).
    destruct (boardAt_in_range y i (boardAt_Some_range _ _ _ Hc))
      as (c' & Hc').
    exists c'. split; [done|]. by rewrite <- (Hxy i c c' Hc Hc'). }
  destruct (GameLogic.checkWinConditions b color) eqn:Hb.
  - by apply (Hmono b b').
  - destruct (GameLogic.checkWinConditions b' color) eqn:Hb'; [|done].
    rewrite <- Hb. symmetry. apply (Hmono b' b); [|done].
    intros i c c' Hc Hc'. symmetry. by apply (Hsame i c' c).
Qed.


Lemma C8_hasWin_visible_lines_witness :
  GameLogic.checkWinConditions boardRedRowHidden red
  = GameLogic.checkWinConditions boardRedRow red.
Proof.
  apply (proj2 (C8_hasWin_visible_lines boardRedRow red)).
  intros i c c' Hc Hc'.
  pose proof (boardAt_Some_range _ _ _ Hc) as Hi.
  assert (i = 0 ∨ i = 1 ∨ i = 2 ∨ i = 3 ∨ i = 4 ∨ i = 5 ∨ i = 6 ∨ i = 7
          ∨ i = 8)%Z as Hcase by lia.
  repeat (destruct Hcase as [-> | Hcase]); try subst i;
    vm_compute in Hc, Hc'; injection Hc as <-; injection Hc' as <-;
    reflexivity.
Defined.


(** ** The store *)

Lemma deref_mutate (f : Player.t → Player.t) (l l' : loc) (h : Heap) :
  deref (mutate f l h) l'
  = if decide (l = l' ∧ (l < length h)%nat) then f (deref h l)
    else deref h l'.
Proof. unfold deref, mutate. apply list_lookup_total_alter. Qed.

Lemma deref_mutate_ne (f : Player.t → Player.t) (l l' : loc) (h : Heap) :
  l ≠ l' → deref (mutate f l h) l' = deref h l'.
Proof. intros. unfold deref, mutate. by apply list_lookup_total_alter_ne. Qed.

Lemma deref_mutate_eq (f : Player.t → Player.t) (l : loc) (h : Heap) :
  (l < length h)%nat → deref (mutate f l h) l = f (deref h l).
Proof.
  intros. rewrite deref_mutate. destruct (decide _) as [|n]; [done|].
  exfalso. apply n. done.
Qed.

Lemma length_mutate (f : Player.t → Player.t) (l : loc) (h : Heap) :
  length (mutate f l h) = length h.
Proof. unfold mutate. apply length_alter. Qed.

(** A mutation that keeps a projection of the record keeps it at every
    location. *)
Lemma deref_mutate_proj {A} (proj : Player.t → A) (f : Player.t → Player.t)
    (l l' : loc) (h : Heap) :
  (∀ p, proj (f p) = proj p) →
  proj (deref (mutate f l h) l') = proj (deref h l').
Proof.
  intros Hf. rewrite deref_mutate.
  destruct (decide _) as [[-> _]|_]; [apply Hf|done].
Qed.

Lemma sameButSkips_refl p : sameButSkips p p.
Proof. by repeat split. Qed.

Lemma sameButSkips_trans p q r :
  sameButSkips p q → sameButSkips q r → sameButSkips p r.
Proof.
  unfold sameButSkips. intros (?&?&?&?&?&?&?) (?&?&?&?&?&?&?).
  repeat split; congruence.
Qed.

Lemma skipEq_refl h : skipEq h h.
Proof. split; [done|]. intros. apply sameButSkips_refl. Qed.

Lemma skipEq_trans h1 h2 h3 : skipEq h1 h2 → skipEq h2 h3 → skipEq h1 h3.
Proof.
  intros [L1 H1] [L2 H2]. split; [congruence|].
  intros l. eapply sameButSkips_trans; eauto.
Qed.

Lemma skipEq_incrementSkips h l : skipEq h (mutate Player.incrementSkips l h).
Proof.
  split; [by rewrite length_mutate|].
  intros l'. rewrite deref_mutate.
  destruct (decide _) as [[-> _]|_]; [|apply sameButSkips_refl].
  by repeat split.
Qed.

(** What the engine reads of a record besides its skip counter. *)
Lemma skipEq_id h h' l :
  skipEq h h' → Player.id (deref h' l) = Player.id (deref h l).
Proof. intros [_ H]. by destruct (H l) as (?&?). Qed.

Lemma skipEq_active h h' l :
  skipEq h h' → Player.active (deref h' l) = Player.active (deref h l).
Proof.
  intros [_ H]. destruct (H l) as (?&?&?&?&Hc&He&?).
  unfold Player.active. by rewrite Hc, He.
Qed.

Lemma hasLegalMoves_inventory b p q :
  Player.inventory p = Player.inventory q →
  GameLogic.hasLegalMoves b p = GameLogic.hasLegalMoves b q.
Proof. intros H. unfold GameLogic.hasLegalMoves. by rewrite H. Qed.

Lemma skipEq_hasLegalMoves h h' b l :
  skipEq h h' →
  GameLogic.hasLegalMoves b (deref h' l)
  = GameLogic.hasLegalMoves b (deref h l).
Proof.
  intros [_ H]. destruct (H l) as (?&?&?&Hi&?).
  by apply hasLegalMoves_inventory.
Qed.

Lemma skipEq_ids h h' ls : skipEq h h' → ids h' ls = ids h ls.
Proof.
  intros H. unfold ids. apply map_ext. intros l. by apply skipEq_id.
Qed.

Lemma skipEq_getActivePlayers h h' g :
  skipEq h h' → Game.getActivePlayers h' g = Game.getActivePlayers h g.
Proof.
  intros H. unfold Game.getActivePlayers. apply filter_ext.
  intros l. by apply skipEq_active.
Qed.

Lemma skipEq_splitAtSeat h h' cur seats :
  skipEq h h' → splitAtSeat h' cur seats = splitAtSeat h cur seats.
Proof.
  intros H. induction seats as [|l r IH]; [done|]. simpl.
  by rewrite (skipEq_id h h' l H), IH.
Qed.

Lemma skipEq_firstActiveWithMove h h' b cur seats :
  skipEq h h' →
  firstActiveWithMove h' b cur seats = firstActiveWithMove h b cur seats.
Proof.
  intros H. unfold firstActiveWithMove, scanOrder.
  rewrite (skipEq_splitAtSeat h h' cur seats H).
  generalize (match splitAtSeat h cur seats with
              | Some (pre, c, post) => post ++ pre ++ [c]
              | None => seats
              end).
  intros l. induction l as [|x l IH]; [done|]. simpl.
  by rewrite (skipEq_active h h' x H), (skipEq_hasLegalMoves h h' b x H), IH.
Qed.

Lemma skipEq_findPlayer h h' g pid :
  skipEq h h' → Game.findPlayer h' g pid = Game.findPlayer h g pid.
Proof.
  intros H. unfold Game.findPlayer.
  induction (Game.players g) as [|x l IH]; [done|]. simpl.
  unfold GameLogic.idIs in *. by rewrite (skipEq_id h h' x H), IH.
Qed.

(** ** Turn advancement *)

Lemma findIndex_first {A} (f : A → bool) (pre : list A) (c : A)
    (post : list A) :
  Forall (fun x => f x = false) pre → f c = true →
  GameLogic.findIndex f (pre ++ c :: post) = Some (length pre).
Proof.
  intros Hpre Hc. induction Hpre as [|x pre Hx _ IH]; simpl.
  - by rewrite Hc.
  - by rewrite Hx, IH.
Qed.

Lemma findIndex_none {A} (f : A → bool) (l : list A) :
  Forall (fun x => f x = false) l → GameLogic.findIndex f l = None.
Proof.
  intros H. induction H as [|x l Hx _ IH]; simpl; [done|].
  by rewrite Hx, IH.
Qed.

Lemma filter_length_pos {A} (f : A → bool) (l : list A) (x : A) :
  In x l → f x = true → Nat.eqb (length (List.filter f l)) 0 = false.
Proof.
  intros Hin Hf.
  assert (In x (List.filter f l)) as H by (apply filter_In; done).
  destruct (List.filter f l); [done|reflexivity].
Qed.

Lemma length_app_cons_eqb {A} (pre : list A) (c : A) (post : list A) :
  Nat.eqb (length (pre ++ c :: post)) 0 = false.
Proof. rewrite length_app. simpl. apply Nat.eqb_neq. lia. Qed.

Lemma ids_app h l1 l2 : ids h (l1 ++ l2) = ids h l1 ++ ids h l2.
Proof. unfold ids. apply map_app. Qed.

Lemma uniqueIds_other h pre c post :
  NoDup (ids h (pre ++ c :: post)) →
  Forall (fun l => GameLogic.idIs (Some (Player.id (deref h c))) (deref h l)
                   = false) pre.
Proof.
  rewrite ids_app. simpl. intros Hnd.
  apply NoDup_app in Hnd as (_ & Hdisj & _).
  apply Forall_forall. intros l Hl.
  unfold GameLogic.idIs. apply bool_decide_eq_false. intros [= Heq].
  apply (Hdisj (Player.id (deref h l))).
  - unfold ids. apply list_elem_of_fmap. by exists l.
  - rewrite Heq. left.
Qed.

(** When the current seat is among the active seats, [getNextPlayer]
    returns the head of the rotation that starts right after it. *)
Lemma getNextPlayer_rotation h players pre c post :
  List.filter (fun l => Player.active (deref h l)) players
  = pre ++ c :: post →
  NoDup (ids h (pre ++ c :: post)) →
  GameLogic.getNextPlayer h players (Some (Player.id (deref h c)))
  = head (post ++ pre ++ [c]).
Proof.
  intros Hact Hnd. unfold GameLogic.getNextPlayer. rewrite Hact.
  rewrite length_app_cons_eqb.
  rewrite (findIndex_first _ pre c post).
  - rewrite length_app. simpl. destruct post as [|x post']; simpl.
    + replace ((length pre + 1) mod (length pre + 1)) with 0
        by (symmetry; apply Nat.Div0.mod_same).
      rewrite <- head_lookup. by destruct pre.
    + rewrite Nat.mod_small by lia.
      rewrite lookup_app_r by lia.
      replace (length pre + 1 - length pre) with 1 by lia. done.
  - apply (uniqueIds_other h pre c post Hnd).
  - unfold GameLogic.idIs. by apply bool_decide_eq_true.
Qed.

(** Otherwise it returns the first active seat in seat order. *)
Lemma getNextPlayer_fallback h players cur :
  Forall (fun l => GameLogic.idIs cur (deref h l) = false)
    (List.filter (fun l => Player.active (deref h l)) players) →
  GameLogic.getNextPlayer h players cur
  = head (List.filter (fun l => Player.active (deref h l)) players).
Proof.
  intros H. unfold GameLogic.getNextPlayer.
  rewrite (findIndex_none _ _ H).
  destruct (List.filter _ players); [done|]. simpl. done.
Qed.

Lemma rotation_step {A} (pre : list A) (c : A) (post : list A) (x : A)
    (r : list A) :
  post ++ pre ++ [c] = x :: r →
  ∃ pre2 post2,
    pre ++ c :: post = pre2 ++ x :: post2 ∧ post2 ++ pre2 ++ [x] = r ++ [x].
Proof.
  intros H. destruct post as [|y post'].
  - destruct pre as [|y pre'']; simpl in H.
    + injection H as <- <-. by exists [], [].
    + injection H as <- <-. exists [], (pre'' ++ [c]).
      split; simpl; by rewrite ?app_nil_r.
  - simpl in H. injection H as <- <-. exists (pre ++ [c]), post'.
    split; by rewrite <- ?app_assoc.
Qed.

Lemma moveToNextPlayer_core now skipped :
  ∀ fuel h g pre c post w rest,
    Game.getActivePlayers h g = pre ++ c :: post →
    NoDup (ids h (pre ++ c :: post)) →
    Game.currentPlayerId g = Some (Player.id (deref h c)) →
    post ++ pre ++ [c] = skipped ++ w :: rest →
    Forall (fun l => GameLogic.hasLegalMoves (Game.board g) (deref h l)
                     = false) skipped →
    GameLogic.hasLegalMoves (Game.board g) (deref h w) = true →
    (length skipped < fuel)%nat →
    ∃ h',
      Game.moveToNextPlayer fuel now h g
      = Some (h', Game.startTurn now
                    (Game.set_currentPlayerId g
                       (Some (Player.id (deref h w)))))
      ∧ skipEq h h'.
Proof.
  induction skipped as [|x sk IH];
    intros fuel h g pre c post w rest Hact Hnd Hcur Hrot Hsk Hw Hfuel.
  - destruct fuel as [|fuel]; [simpl in Hfuel; lia|].
    simpl in Hrot. simpl. rewrite Hact.
    rewrite length_app_cons_eqb.
    assert (In w (pre ++ c :: post)) as Hin.
    { assert (In w (post ++ pre ++ [c])) as H by (rewrite Hrot; by left).
      rewrite !in_app_iff in H. simpl in H. rewrite in_app_iff. simpl.
      tauto. }
    rewrite (filter_length_pos _ _ w Hin Hw).
    rewrite Hcur.
    unfold Game.getActivePlayers in Hact.
    rewrite (getNextPlayer_rotation h (Game.players g) pre c post Hact Hnd).
    rewrite Hrot. simpl. rewrite Hw. simpl.
    exists h. split; [done|apply skipEq_refl].
  - destruct fuel as [|fuel]; [simpl in Hfuel; lia|].
    simpl in Hrot.
    destruct (rotation_step pre c post x (sk ++ w :: rest) Hrot)
      as (pre2 & post2 & Hsplit & Hrot2).
    assert (In w (pre ++ c :: post)) as Hin.
    { assert (In w (post ++ pre ++ [c])) as H.
      { rewrite Hrot. right. apply in_app_iff. right. by left. }
      rewrite !in_app_iff in H. simpl in H. rewrite in_app_iff. simpl.
      tauto. }
    apply Forall_cons in Hsk as [Hx Hsk].
    simpl. rewrite Hact.
    rewrite length_app_cons_eqb.
    rewrite (filter_length_pos _ _ w Hin Hw).
    rewrite Hcur.
    pose proof Hact as Hact'. unfold Game.getActivePlayers in Hact'.
    rewrite (getNextPlayer_rotation h (Game.players g) pre c post Hact' Hnd).
    rewrite Hrot. simpl. rewrite Hx. simpl.
    pose proof (skipEq_incrementSkips h x) as Heq.
    set (h1 := mutate Player.incrementSkips x h) in *.
    set (g1 := Game.set_currentPlayerId g (Some (Player.id (deref h x)))).
    destruct (IH fuel h1 g1 pre2 x post2 w (rest ++ [x])) as (h' & Hres & Hh').
    + rewrite (skipEq_getActivePlayers h h1 g1 Heq).
      unfold Game.getActivePlayers in *. simpl. by rewrite Hact', Hsplit.
    + rewrite (skipEq_ids h h1 _ Heq). by rewrite <- Hsplit.
    + simpl. by rewrite (skipEq_id h h1 x Heq).
    + rewrite Hrot2. by rewrite <- app_assoc.
    + apply Forall_forall. intros l Hl. simpl.
      rewrite (skipEq_hasLegalMoves h h1 _ l Heq).
      rewrite Forall_forall in Hsk. by apply Hsk.
    + simpl. by rewrite (skipEq_hasLegalMoves h h1 _ w Heq).
    + simpl in Hfuel. lia.
    + exists h'. split.
      * rewrite Hres. by rewrite (skipEq_id h h1 w Heq).
      * eapply skipEq_trans; eauto.
Qed.

Lemma find_split {A} (f : A → bool) (l : list A) (w : A) :
  List.find f l = Some w →
  ∃ sk rest, l = sk ++ w :: rest ∧ Forall (fun x => f x = false) sk
             ∧ f w = true.
Proof.
  induction l as [|x l IH]; [discriminate|]. simpl.
  destruct (f x) eqn:Hx.
  - intros [= ->]. by exists [], l.
  - intros H. destruct (IH H) as (sk & rest & -> & Hsk & Hw).
    exists (x :: sk), rest. repeat split; [|done]. by constructor.
Qed.

Lemma find_none_Forall {A} (f : A → bool) (l : list A) :
  List.find f l = None → Forall (fun x => f x = false) l.
Proof.
  induction l as [|x l IH]; [constructor|]. simpl.
  destruct (f x) eqn:Hx; [discriminate|]. intros H. constructor; auto.
Qed.

Lemma find_filter {A} (p q : A → bool) (l : list A) :
  List.find (fun x => p x && q x) l = List.find q (List.filter p l).
Proof.
  induction l as [|x l IH]; [done|]. simpl.
  destruct (p x); simpl; [by rewrite IH|done].
Qed.

Lemma findIndex_cases {A} (f : A → bool) (l : list A) :
  (∃ pre c post, l = pre ++ c :: post
                 ∧ Forall (fun x => f x = false) pre ∧ f c = true)
  ∨ Forall (fun x => f x = false) l.
Proof.
  induction l as [|x l IH]; [right; constructor|].
  destruct (f x) eqn:Hx.
  - left. by exists [], x, l.
  - destruct IH as [(pre & c & post & -> & Hpre & Hc) | Hall].
    + left. exists (x :: pre), c, post. repeat split; [|done].
      by constructor.
    + right. by constructor.
Qed.

Lemma filter_nil_length {A} (f : A → bool) (l : list A) :
  Forall (fun x => f x = false) l →
  Nat.eqb (length (List.filter f l)) 0 = true.
Proof.
  intros H. induction H as [|x l Hx _ IH]; [done|]. simpl. by rewrite Hx.
Qed.

(** Exact outcome of turn advancement when the current seat is among
    the active seats. *)
Lemma moveToNextPlayer_from_active now fuel h g pre c post :
  Game.getActivePlayers h g = pre ++ c :: post →
  NoDup (ids h (pre ++ c :: post)) →
  Game.currentPlayerId g = Some (Player.id (deref h c)) →
  (length (pre ++ c :: post) ≤ fuel)%nat →
  match List.find
          (fun l => GameLogic.hasLegalMoves (Game.board g) (deref h l))
          (post ++ pre ++ [c]) with
  | Some w =>
      ∃ h', Game.moveToNextPlayer fuel now h g
            = Some (h', Game.startTurn now
                          (Game.set_currentPlayerId g
                             (Some (Player.id (deref h w)))))
            ∧ skipEq h h'
  | None =>
      Game.moveToNextPlayer fuel now h g
      = Some (h, Game.finish now (Game.set_isDraw g true))
  end.
Proof.
  intros Hact Hnd Hcur Hfuel.
  destruct (List.find _ (post ++ pre ++ [c])) as [w|] eqn:Hfind.
  - destruct (find_split _ _ _ Hfind) as (sk & rest & Hrot & Hsk & Hw).
    apply (moveToNextPlayer_core now sk fuel h g pre c post w rest);
      try done.
    assert (length (post ++ pre ++ [c]) = length (pre ++ c :: post)) as HL
      by (rewrite !length_app; simpl; lia).
    rewrite Hrot, length_app in HL. simpl in HL. lia.
  - apply find_none_Forall in Hfind.
    destruct fuel as [|fuel];
      [rewrite length_app in Hfuel; simpl in Hfuel; lia|].
    simpl. rewrite Hact.
    rewrite length_app_cons_eqb.
    rewrite filter_nil_length; [done|].
    rewrite !Forall_app in Hfind. destruct Hfind as (Hpost & Hpre & Hc).
    apply Forall_app. split; [done|]. apply Forall_cons.
    split; [by apply Forall_inv in Hc|done].
Qed.

Lemma NoDup_ids_filter h (f : loc → bool) ls :
  NoDup (ids h ls) → NoDup (ids h (List.filter f ls)).
Proof.
  unfold ids. induction ls as [|x ls IH]; [done|]. simpl.
  intros Hnd. apply NoDup_cons in Hnd as [Hx Hnd].
  destruct (f x); simpl; [|auto].
  apply NoDup_cons. split; [|auto].
  intros Hin. apply Hx. apply list_elem_of_fmap in Hin as (y & Hy & Hin).
  apply list_elem_of_fmap. exists y. split; [done|].
  apply list_elem_of_In. apply list_elem_of_In in Hin.
  apply filter_In in Hin. tauto.
Qed.

Lemma filter_length_le {A} (f : A → bool) (l : list A) :
  (length (List.filter f l) ≤ length l)%nat.
Proof. induction l as [|x l IH]; simpl; [lia|]. destruct (f x); simpl; lia. Qed.

(** Turn advancement always returns within the budget when seat ids are
    pairwise distinct. *)
Lemma moveToNextPlayer_total now h g :
  uniqueIds h (Game.players g) →
  ∃ h' g', Game.moveToNextPlayer (Game.budget g) now h g = Some (h', g').
Proof.
  intros Huniq.
  pose proof (NoDup_ids_filter h (fun l => Player.active (deref h l))
                (Game.players g) Huniq) as Hnd.
  pose proof (filter_length_le (fun l => Player.active (deref h l))
                (Game.players g)) as Hlen.
  fold (Game.getActivePlayers h g) in Hnd, Hlen.
  destruct (findIndex_cases
              (fun l => GameLogic.idIs (Game.currentPlayerId g) (deref h l))
              (Game.getActivePlayers h g))
    as [(pre & c & post & Hact & Hpre & Hc) | Hall].
  - apply bool_decide_eq_true in Hc.
    pose proof (moveToNextPlayer_from_active now (Game.budget g) h g
                  pre c post Hact) as H.
    rewrite Hact in Hnd, Hlen.
    specialize (H Hnd (eq_sym Hc)).
    unfold Game.budget in *. specialize (H ltac:(lia)).
    destruct (List.find _ _).
    + destruct H as (h' & -> & _). eauto.
    + rewrite H. eauto.
  - unfold Game.budget. simpl.
    destruct (Game.getActivePlayers h g) as [|a0 tl] eqn:Hact; [eauto|].
    simpl.
    match goal with
    | |- context [Nat.eqb ?n 0] => destruct (Nat.eqb n 0)
    end; [eauto|].
    unfold Game.getActivePlayers in Hact.
    rewrite (getNextPlayer_fallback h (Game.players g)
               (Game.currentPlayerId g)) by (by rewrite Hact).
    rewrite Hact. simpl.
    destruct (GameLogic.hasLegalMoves (Game.board g) (deref h a0)) eqn:Ha0;
      simpl; [eauto|].
    pose proof (skipEq_incrementSkips h a0) as Heq.
    set (h1 := mutate Player.incrementSkips a0 h) in *.
    set (g1 := Game.set_currentPlayerId g (Some (Player.id (deref h a0)))).
    assert (Game.getActivePlayers h1 g1 = [] ++ a0 :: tl) as Hact1.
    { rewrite (skipEq_getActivePlayers h h1 g1 Heq).
      unfold Game.getActivePlayers. simpl. done. }
    assert (NoDup (ids h1 ([] ++ a0 :: tl))) as Hnd1.
    { rewrite (skipEq_ids h h1 _ Heq). done. }
    assert (Game.currentPlayerId g1 = Some (Player.id (deref h1 a0)))
      as Hcur1.
    { simpl. by rewrite (skipEq_id h h1 a0 Heq). }
    pose proof (moveToNextPlayer_from_active now (length (Game.players g))
                  h1 g1 [] a0 tl Hact1 Hnd1 Hcur1) as H.
    simpl in H, Hlen. specialize (H ltac:(lia)).
    destruct (List.find _ _).
    + destruct H as (h' & -> & _). eauto.
    + rewrite H. eauto.
Qed.

(** Turn advancement touches skip counters only; of the match it may
    change the current seat, the status, the draw flag and the clocks. *)
Lemma moveToNextPlayer_frame fuel :
  ∀ now h g h' g',
    Game.moveToNextPlayer fuel now h g = Some (h', g') →
    skipEq h h' ∧ Game.board g' = Game.board g
    ∧ Game.players g' = Game.players g
    ∧ Game.winnerId g' = Game.winnerId g.
Proof.
  induction fuel as [|fuel IH]; intros now h g h' g'; [discriminate|].
  simpl.
  destruct (Nat.eqb (length (Game.getActivePlayers h g)) 0).
  { intros [= <- <-]. refine (conj (skipEq_refl _) _). done. }
  destruct (Nat.eqb _ 0).
  { intros [= <- <-]. refine (conj (skipEq_refl _) _). done. }
  destruct (GameLogic.getNextPlayer h (Game.players g)
              (Game.currentPlayerId g)) as [nx|].
  2:{ intros [= <- <-]. refine (conj (skipEq_refl _) _). done. }
  destruct (negb _).
  - intros H. apply IH in H as (Heq & Hb & Hp & Hw). simpl in *.
    refine (conj _ (conj Hb (conj Hp Hw))).
    eapply skipEq_trans; [apply skipEq_incrementSkips|done].
  - intros [= <- <-]. refine (conj (skipEq_refl _) _). done.
Qed.

Lemma idIs_Some cur p :
  GameLogic.idIs (Some cur) p = bool_decide (Player.id p = cur).
Proof.
  unfold GameLogic.idIs. apply bool_decide_ext. split; congruence.
Qed.

Lemma splitAtSeat_findPlayer h g cur lc :
  Game.findPlayer h g (Some cur) = Some lc →
  ∃ pre post,
    splitAtSeat h cur (Game.players g) = Some (pre, lc, post)
    ∧ Game.players g = pre ++ lc :: post
    ∧ Player.id (deref h lc) = cur.
Proof.
  unfold Game.findPlayer. induction (Game.players g) as [|x ls IH];
    [discriminate|].
  simpl. rewrite idIs_Some.
  destruct (bool_decide (Player.id (deref h x) = cur)) eqn:Hx.
  - intros [= ->]. apply bool_decide_eq_true in Hx. by exists [], ls.
  - intros H. destruct (IH H) as (pre & post & Hs & -> & Hid).
    rewrite Hs. by exists (x :: pre), post.
Qed.

(** From an active current seat, a match that is still playing after turn
    advancement has moved to the first seat of the scan that is active and
    has a legal move. *)
Lemma moveToNextPlayer_scan now h g h' g' cur :
  uniqueIds h (Game.players g) →
  Game.currentPlayerId g = Some cur →
  seatActive h g cur →
  Game.moveToNextPlayer (Game.budget g) now h g = Some (h', g') →
  Game.status g' = playing →
  ∃ w, firstActiveWithMove h (Game.board g) cur (Game.players g) = Some w
       ∧ Game.currentPlayerId g' = Some (Player.id (deref h w)).
Proof.
  intros Huniq Hcur (lc & Hfind & Hactive) Hrun Hplaying.
  destruct (splitAtSeat_findPlayer h g cur lc Hfind)
    as (pre & post & Hsplit & Hplayers & Hid).
  set (act := fun l => Player.active (deref h l)).
  assert (Game.getActivePlayers h g
          = List.filter act pre ++ lc :: List.filter act post) as Hact.
  { unfold Game.getActivePlayers. rewrite Hplayers, List.filter_app. simpl.
    fold act. unfold act at 2. by rewrite Hactive. }
  assert (NoDup (ids h (List.filter act pre ++ lc :: List.filter act post)))
    as Hnd.
  { rewrite <- Hact. by apply NoDup_ids_filter. }
  assert (Game.currentPlayerId g = Some (Player.id (deref h lc))) as Hcur'
    by (by rewrite Hid).
  pose proof (moveToNextPlayer_from_active now (Game.budget g) h g
                _ lc _ Hact Hnd Hcur') as H.
  assert (length (List.filter act pre ++ lc :: List.filter act post)
          ≤ Game.budget g)%nat as Hfuel.
  { rewrite <- Hact. unfold Game.budget, Game.getActivePlayers.
    pose proof (filter_length_le act (Game.players g)). fold act. lia. }
  specialize (H Hfuel).
  assert (firstActiveWithMove h (Game.board g) cur (Game.players g)
          = List.find
              (fun l => GameLogic.hasLegalMoves (Game.board g) (deref h l))
              (List.filter act post ++ List.filter act pre ++ [lc])) as Hspec.
  { unfold firstActiveWithMove, scanOrder. rewrite Hsplit.
    rewrite (find_filter act). rewrite !List.filter_app. simpl.
    unfold act at 3. by rewrite Hactive. }
  rewrite <- Hspec in H.
  destruct (firstActiveWithMove h (Game.board g) cur (Game.players g))
    as [w|].
  - destruct H as (h'' & Hres & _). rewrite Hres in Hrun.
    injection Hrun as <- <-. by exists w.
  - rewrite H in Hrun. injection Hrun as <- <-. discriminate.
Qed.

Lemma skipEq_seatActive h h' g g' cur :
  skipEq h h' → Game.players g' = Game.players g →
  seatActive h' g' cur → seatActive h g cur.
Proof.
  intros Heq Hp (l & Hf & Ha). exists l. split.
  - rewrite <- (skipEq_findPlayer h h' g _ Heq).
    unfold Game.findPlayer in *. by rewrite <- Hp.
  - by rewrite <- (skipEq_active h h' l Heq).
Qed.

(** The same, read off the state after the advancement. *)
Lemma moveToNextPlayer_scan_post now h g h' g' cur :
  uniqueIds h (Game.players g) →
  Game.currentPlayerId g = Some cur →
  Game.moveToNextPlayer (Game.budget g) now h g = Some (h', g') →
  Game.status g' = playing →
  seatActive h' g' cur →
  ∃ w, firstActiveWithMove h' (Game.board g') cur (Game.players g') = Some w
       ∧ Game.currentPlayerId g' = Some (Player.id (deref h' w)).
Proof.
  intros Huniq Hcur Hrun Hplaying Hactive.
  destruct (moveToNextPlayer_frame _ _ _ _ _ _ Hrun) as (Heq & Hb & Hp & _).
  destruct (moveToNextPlayer_scan now h g h' g' cur) as (w & Hw & Hc);
    try done.
  { by apply (skipEq_seatActive h h' g g'). }
  exists w. rewrite Hb, Hp, (skipEq_firstActiveWithMove h h' _ _ _ Heq).
  by rewrite (skipEq_id h h' w Heq).
Qed.

(** Ids are fixed at construction: no mutation of the engine changes
    them. *)
Lemma ids_mutate h (f : Player.t → Player.t) l ls :
  Player.id (f (deref h l)) = Player.id (deref h l) →
  ids (mutate f l h) ls = ids h ls.
Proof.
  intros Hf. unfold ids. apply map_ext. intros x. rewrite deref_mutate.
  destruct (decide _) as [[-> _]|_]; done.
Qed.

Lemma skipAndMaybeEliminate_id p :
  Player.id (Game.skipAndMaybeEliminate p) = Player.id p.
Proof.
  unfold Game.skipAndMaybeEliminate. by destruct (_ <=? _)%Z.
Qed.

Lemma checkGameEnd_playing now h g :
  Game.status (Game.checkGameEnd now h g) = playing →
  Game.checkGameEnd now h g = g.
Proof.
  unfold Game.checkGameEnd. destruct (Nat.ltb _ 2); [|done].
  destruct (Nat.eqb _ 1); [|discriminate].
  destruct (_ !! 0); discriminate.
Qed.

Lemma steps_reachable now ops :
  ∀ s s', reachable s → steps now ops s = Some s' → reachable s'.
Proof.
  induction ops as [|op ops IH]; intros s s' Hs; simpl.
  - by intros [= <-].
  - destruct (step now op s) as [s1|] eqn:Hstep; [|discriminate].
    intros H. apply (IH s1); [|done]. by apply (reach_step now op s).
Qed.

Lemma member_is_constructed uuid i nick c conn :
  text nick ≠ [] → trim (text nick) = text nick →
  (length (text nick) ≤ 20)%nat → i ≠ "" →
  Player.new uuid
    (Player.mkOptions (Some i) (text nick) c (Some conn) (Some false))
  = Some (member i nick c conn).
Proof.
  intros Hn Ht Hl Hi. unfold Player.new. simpl.
  rewrite bool_decide_eq_false_2 by done. rewrite Ht.
  destruct (length (text nick)) eqn:Hlen.
  { by apply nil_length_inv in Hlen. }
  simpl. destruct (Nat.ltb 20 (S n)) eqn:Hlt.
  { apply Nat.ltb_lt in Hlt. lia. }
  rewrite bool_decide_eq_false_2 by done. reflexivity.
Qed.

(** ** C2: turn order *)

Lemma duel_reachable : ∃ s, duel = Some s ∧ reachable s.
Proof.
  eexists. split; [vm_compute; reflexivity|].
  eapply (reach_init 0 0 exampleUuid [0; 1]%nat duelLobby Game.new).
  - repeat constructor.
  - unfold uniqueIds. apply (bool_decide_unpack _). by vm_compute.
  - repeat constructor; vm_compute; done.
  - vm_compute. reflexivity.
Qed.

Lemma duel_steps_reachable ops s :
  duel ≫= steps 0 ops = Some s → reachable s.
Proof.
  destruct duel_reachable as (s0 & Hs0 & Hr0). rewrite Hs0. simpl.
  by apply steps_reachable.
Qed.

(** C2, as stated, fails whenever the scan passes a seat that has no legal
    move: in [duelExhausted] seat B moves, the match stays Playing, the
    first active seat after B is A, and yet the turn is B's again (A, who
    has no piece left, is auto-skipped). *)
Lemma C2_counterexample :
  ∃ h g h' g' w,
    duelExhausted = Some (h, g)
    ∧ reachable (h, g)
    ∧ Game.currentPlayerId g = Some "B"
    ∧ step 0 (OpMove "B" 4 G) (h, g) = Some (h', g')
    ∧ Game.status g' = playing
    ∧ firstActive h' "B" (Game.players g') = Some w
    ∧ Player.id (deref h' w) = "A"
    ∧ Game.currentPlayerId g' = Some "B".
Proof.
  do 5 eexists.
  split; [vm_compute; reflexivity|].
  split; [apply (duel_steps_reachable exhaustA); vm_compute; reflexivity|].
  split; [reflexivity|].
  split; [vm_compute; reflexivity|].
  split; [reflexivity|].
  split; [vm_compute; reflexivity|].
  split; reflexivity.
Qed.

(** Outside C2 (amended): when the previous current seat has just been
    eliminated, [getNextPlayer] restarts from the first active seat in
    seat order.  B (second of A, B, C) is eliminated by its
    second timeout and the turn goes to A although C is next in the
    scan. *)
Lemma getNextPlayer_restarts_after_elimination :
  ∃ h g h' g' w,
    trioBeforeSecondTimeout = Some (h, g)
    ∧ Game.currentPlayerId g = Some "B"
    ∧ step 0 OpSkipTurn (h, g) = Some (h', g')
    ∧ Game.status g' = playing
    ∧ firstActive h' "B" (Game.players g') = Some w
    ∧ Player.id (deref h' w) = "C"
    ∧ Game.currentPlayerId g' = Some "A".
Proof.
  do 5 eexists.
  split; [vm_compute; reflexivity|].
  split; [reflexivity|].
  split; [vm_compute; reflexivity|].
  split; [reflexivity|].
  split; [vm_compute; reflexivity|].
  split; reflexivity.
Qed.

(** C2 (amended): after every accepted move or executed skip in a match
    that stays Playing, if the previous current seat is still active, the
    new current seat is the first seat that is active and has a legal move,
    found by scanning the seats in seat order from the position right
    after the previous current seat and wrapping around (up to and
    including that seat itself). *)
Theorem C2_next_seat_scan (now : Z) (op : GameOp) (h : Heap) (g : Game.t)
    (h' : Heap) (g' : Game.t) (cur : string) :
  uniqueIds h (Game.players g) →
  Game.currentPlayerId g = Some cur →
  step now op (h, g) = Some (h', g') →
  Game.status g' = playing →
  seatActive h' g' cur →
  ∃ w,
    firstActiveWithMove h' (Game.board g') cur (Game.players g') = Some w
    ∧ Game.currentPlayerId g' = Some (Player.id (deref h' w)).
Proof.
  intros Huniq Hcur Hstep Hplaying Hactive.
  destruct op as [pid cell size| |]; simpl in Hstep.
  - (* applyMove *)
    unfold Game.applyMove in Hstep.
    destruct (negb (Game.isValidMove h g pid cell size)); [discriminate|].
    destruct (Game.findPlayer h g (Some pid)) as [l|]; [|discriminate].
    destruct (Player.usePiece (deref h l) size) as [used|] eqn:Huse;
      [|discriminate].
    destruct (GameLogic.checkWinConditions _ _).
    { injection Hstep as <- <-. discriminate. }
    destruct (GameLogic.isDraw _ _ _).
    { injection Hstep as <- <-. discriminate. }
    destruct (Game.moveToNextPlayer _ _ _ _) as [[h2 g2]|] eqn:Hrun;
      [|discriminate].
    injection Hstep as <- <-.
    match type of Hrun with
    | Game.moveToNextPlayer _ _ ?h1 ?g1 = _ =>
        apply (moveToNextPlayer_scan_post now h1 g1 h2 g2 cur);
          [|done|done|done|done]
    end.
    unfold uniqueIds. simpl. rewrite ids_mutate; [done|].
    unfold Player.usePiece in Huse.
    destruct (negb _); [discriminate|]. by injection Huse as <-.
  - (* skipTurn *)
    unfold Game.skipTurn in Hstep.
    destruct (_ || _); [discriminate|].
    destruct (Game.getCurrentPlayer h g) as [l|]; [|discriminate].
    destruct (Game.moveToNextPlayer _ _ _ _) as [[h2 g2]|] eqn:Hrun;
      [|discriminate].
    injection Hstep as <- <-.
    pose proof (checkGameEnd_playing _ _ _ Hplaying) as Hce.
    rewrite Hce in Hplaying, Hactive |- *.
    match type of Hrun with
    | Game.moveToNextPlayer _ _ ?h1 ?g1 = _ =>
        apply (moveToNextPlayer_scan_post now h1 g1 h2 g2 cur);
          [|done|done|done|done]
    end.
    unfold uniqueIds. rewrite ids_mutate; [done|].
    apply skipAndMaybeEliminate_id.
  - (* skipCurrentPlayer *)
    destruct (bool_decide (Game.status g = playing)
              && truthy (Game.currentPlayerId g)) eqn:Hguard;
      [|discriminate].
    apply andb_true_iff in Hguard as [Hs Ht].
    unfold Game.skipCurrentPlayer in Hstep. rewrite Hs, Ht in Hstep.
    change (negb true || negb true) with false in Hstep. cbv iota in Hstep.
    match type of Hstep with
    | Game.moveToNextPlayer _ _ ?h1 ?g1 = _ =>
        apply (moveToNextPlayer_scan_post now h1 g1 h' g' cur);
          [|done|done|done|done]
    end.
    destruct (Game.getCurrentPlayer h g) as [l|]; [|done].
    unfold uniqueIds. rewrite ids_mutate; [done|].
    apply skipAndMaybeEliminate_id.
Qed.

Lemma C2_next_seat_scan_witness :
  ∃ w,
    firstActiveWithMove duelAfterFirstMove.1
      (Game.board duelAfterFirstMove.2) "A"
      (Game.players duelAfterFirstMove.2) = Some w
    ∧ Game.currentPlayerId duelAfterFirstMove.2
      = Some (Player.id (deref duelAfterFirstMove.1 w)).
Proof.
  apply (C2_next_seat_scan 0 (OpMove "A" 0 P) duelState.1 duelState.2
           duelAfterFirstMove.1 duelAfterFirstMove.2 "A").
  - unfold uniqueIds. apply (bool_decide_unpack _). vm_compute. exact I.
  - vm_compute. reflexivity.
  - vm_compute. reflexivity.
  - vm_compute. reflexivity.
  - exists 2%nat. split; vm_compute; reflexivity.
Defined.

(** ** C5: no active seat *)

(** C5, as stated, fails.  In [dropped] the seats A and C are skipped
    twice each and thereby eliminated while B, the only seat not
    eliminated, is disconnected: turn advancement finds no active seat and
    finishes the match without recording B as winner.  In [duel] both
    seats are eliminated by skips: the match finishes with [isDraw] still
    false. *)
Lemma C5_counterexample :
  (∃ h g h' g',
     dropped ≫= steps 0 [OpSkipCurrentPlayer; OpSkipCurrentPlayer;
                          OpSkipCurrentPlayer] = Some (h, g)
     ∧ step 0 OpSkipCurrentPlayer (h, g) = Some (h', g')
     ∧ Game.getActivePlayers h' g' = []
     ∧ uneliminatedIds h' g' = ["B"]
     ∧ Game.status g' = finished
     ∧ Game.winnerId g' ≠ Some "B")
  ∧ (∃ h g h' g',
       duel ≫= steps 0 [OpSkipCurrentPlayer; OpSkipCurrentPlayer;
                         OpSkipCurrentPlayer] = Some (h, g)
       ∧ step 0 OpSkipCurrentPlayer (h, g) = Some (h', g')
       ∧ Game.getActivePlayers h' g' = []
       ∧ uneliminatedIds h' g' = []
       ∧ Game.status g' = finished
       ∧ Game.isDraw g' ≠ true).
Proof.
  split.
  - do 4 eexists.
    split; [vm_compute; reflexivity|].
    split; [vm_compute; reflexivity|].
    split; [vm_compute; reflexivity|].
    split; [vm_compute; reflexivity|].
    split; [reflexivity|discriminate].
  - do 4 eexists.
    split; [vm_compute; reflexivity|].
    split; [vm_compute; reflexivity|].
    split; [vm_compute; reflexivity|].
    split; [vm_compute; reflexivity|].
    split; [reflexivity|discriminate].
Qed.

(** C5 (amended): whenever turn advancement runs and no seat is active,
    the match transitions to Finished, [finishedAt] is stamped with the
    time of the call, and nothing else of the result is assigned:
    [winnerId] and [isDraw] keep the values they had, the board, the seats
    and the store are untouched.  The [checkGameEnd] that [skipTurn] runs
    afterwards assigns no result either: whenever it runs, it stamps
    [finishedAt] again with its own reading of the clock and leaves every
    other field as it is. *)
Theorem C5_no_active_seat (now : Z) (h : Heap) (g : Game.t) :
  Game.getActivePlayers h g = [] →
  ∃ g',
    Game.moveToNextPlayer (Game.budget g) now h g = Some (h, g')
    ∧ Game.status g' = finished
    ∧ Game.finishedAt g' = Some now
    ∧ Game.winnerId g' = Game.winnerId g
    ∧ Game.isDraw g' = Game.isDraw g
    ∧ Game.board g' = Game.board g
    ∧ Game.players g' = Game.players g
    ∧ ∀ now',
        Game.checkGameEnd now' h g' = Game.finish now' g'
        ∧ Game.status (Game.checkGameEnd now' h g') = finished
        ∧ Game.finishedAt (Game.checkGameEnd now' h g') = Some now'
        ∧ Game.winnerId (Game.checkGameEnd now' h g') = Game.winnerId g
        ∧ Game.isDraw (Game.checkGameEnd now' h g') = Game.isDraw g
        ∧ Game.board (Game.checkGameEnd now' h g') = Game.board g
        ∧ Game.players (Game.checkGameEnd now' h g') = Game.players g
        ∧ Game.currentPlayerId (Game.checkGameEnd now' h g')
          = Game.currentPlayerId g.
Proof.
  intros Hact. exists (Game.finish now g).
  unfold Game.budget. simpl. rewrite Hact. simpl.
  do 7 (split; [reflexivity|]). intros now'.
  assert (Game.checkGameEnd now' h (Game.finish now g)
          = Game.finish now' (Game.finish now g)) as ->.
  { unfold Game.checkGameEnd, Game.getActivePlayers in *. simpl.
    rewrite Hact. reflexivity. }
  repeat split.
Qed.

Lemma C5_no_active_seat_witness :
  ∃ g',
    Game.moveToNextPlayer (Game.budget droppedAllInactive.2) 0
      droppedAllInactive.1 droppedAllInactive.2
    = Some (droppedAllInactive.1, g')
    ∧ Game.status g' = finished
    ∧ Game.finishedAt g' = Some 0%Z
    ∧ Game.winnerId g' = None
    ∧ Game.isDraw g' = false
    ∧ Game.finishedAt (Game.checkGameEnd 7 droppedAllInactive.1 g')
      = Some 7%Z
    ∧ Game.winnerId (Game.checkGameEnd 7 droppedAllInactive.1 g') = None
    ∧ Game.isDraw (Game.checkGameEnd 7 droppedAllInactive.1 g') = false.
Proof.
  destruct (C5_no_active_seat 0 droppedAllInactive.1 droppedAllInactive.2)
    as (g' & Hrun & Hs & Hf & Hw & Hd & _ & _ & Hend).
  { vm_compute. reflexivity. }
  destruct (Hend 7%Z) as (_ & _ & Hf' & Hw' & Hd' & _).
  exists g'. split; [done|]. split; [done|]. split; [done|].
  split; [by rewrite Hw|]. split; [by rewrite Hd|].
  split; [done|]. split; [by rewrite Hw'|]. by rewrite Hd'.
Defined.

(** ** C6: move submission *)

Lemma boardAt_boardSet (b : Board) (k i : Z) (c : Cell) :
  (0 ≤ k ≤ 8)%Z →
  boardAt (boardSet b k c) i
  = if decide (i = k) then Some c else boardAt b i.
Proof.
  intros Hk.
  assert (k = 0 ∨ k = 1 ∨ k = 2 ∨ k = 3 ∨ k = 4 ∨ k = 5 ∨ k = 6 ∨ k = 7
          ∨ k = 8)%Z as Hc by lia.
  repeat (destruct Hc as [-> | Hc]); try subst k;
    (destruct i as [|p|p]; [reflexivity| |reflexivity];
     do 4 (try (destruct p as [p|p|]; try reflexivity))).
Qed.

Lemma slot_setSlot (c : Cell) (s s' : Size) (v : option Color) :
  slot (setSlot c s v) s' = if decide (s' = s) then v else slot c s'.
Proof. destruct s, s'; reflexivity. Qed.

Lemma boardSlot_boardPlace (b : Board) (cell i : Z) (size s : Size)
    (c : Color) :
  (0 ≤ cell ≤ 8)%Z →
  boardSlot (boardPlace b cell size c) i s
  = if decide (i = cell ∧ s = size) then Some c else boardSlot b i s.
Proof.
  intros Hc. unfold boardSlot, boardPlace.
  destruct (boardAt_in_range b cell Hc) as [cv Hcv]. rewrite Hcv.
  rewrite boardAt_boardSet by done.
  destruct (decide (i = cell)) as [->|Hne].
  - rewrite slot_setSlot, Hcv.
    destruct (decide (s = size)) as [->|Hs].
    + by rewrite decide_True.
    + rewrite decide_False; [done|]. tauto.
  - rewrite decide_False; [done|]. tauto.
Qed.

Lemma isLegalMove_range b cell size c :
  GameLogic.isLegalMove b cell size c = true → (0 ≤ cell ≤ 8)%Z.
Proof.
  intros H. by apply isLegalMove_spec in H as [H _].
Qed.

Lemma isLegalMove_slot_empty b cell size c :
  GameLogic.isLegalMove b cell size c = true → boardSlot b cell size = None.
Proof.
  intros H.
  apply isLegalMove_spec in H as [_ (cv & Hcv & Hall)].
  unfold boardSlot. rewrite Hcv. apply Hall. by destruct size.
Qed.

Lemma isValidMove_spec h g pid cell size :
  Game.isValidMove h g pid cell size = true ↔ moveAccepted h g pid cell size.
Proof.
  unfold Game.isValidMove, moveAccepted, Player.hasPiece.
  destruct (bool_decide (Game.status g = playing)) eqn:Hs; simpl.
  2:{ apply bool_decide_eq_false in Hs. split; [done|tauto]. }
  apply bool_decide_eq_true in Hs.
  destruct (bool_decide (Game.currentPlayerId g = Some pid)) eqn:Hc; simpl.
  2:{ apply bool_decide_eq_false in Hc. split; [done|tauto]. }
  apply bool_decide_eq_true in Hc.
  destruct (Game.findPlayer h g (Some pid)) as [l|].
  2:{ split; [done|]. by intros (_ & _ & l & ? & _). }
  destruct (Player.isEliminated (deref h l)) eqn:He.
  { split; [done|]. intros (_ & _ & l' & [= <-] & He' & _). congruence. }
  destruct (0 <? count (Player.inventory (deref h l)) size)%Z eqn:Hi; simpl.
  - apply Z.ltb_lt in Hi. split.
    + intros H. repeat split; try done. by exists l.
    + by intros (_ & _ & l' & [= <-] & _ & _ & H).
  - apply Z.ltb_ge in Hi. split; [done|].
    intros (_ & _ & l' & [= <-] & _ & Hi' & _). lia.
Qed.

Lemma findPlayer_elem h g pid l :
  Game.findPlayer h g pid = Some l → l ∈ Game.players g.
Proof.
  unfold Game.findPlayer. intros H. apply find_some in H as [H _].
  by apply list_elem_of_In.
Qed.

Lemma count_decrement inv size s :
  count (decrement inv size) s
  = if decide (s = size) then (count inv s - 1)%Z else count inv s.
Proof. destruct size, s; reflexivity. Qed.



(** With pairwise distinct seat ids the two skip operations return as
    well. *)
Lemma skips_return now h g :
  uniqueIds h (Game.players g) →
  (∃ h' g', Game.skipCurrentPlayer now h g = Some (h', g'))
  ∧ (∃ h' g' ok, Game.skipTurn now h g = Some (h', g', ok)).
Proof.
  intros Huniq.
  assert (∀ l, uniqueIds (mutate Game.skipAndMaybeEliminate l h)
                 (Game.players g)) as Hu.
  { intros l. unfold uniqueIds. rewrite ids_mutate; [done|].
    apply skipAndMaybeEliminate_id. }
  split.
  - unfold Game.skipCurrentPlayer. destruct (_ || _); [eauto|].
    destruct (Game.getCurrentPlayer h g) as [l|];
      by apply moveToNextPlayer_total.
  - unfold Game.skipTurn. destruct (_ || _); [eauto|].
    destruct (Game.getCurrentPlayer h g) as [l|]; [|eauto].
    destruct (moveToNextPlayer_total now _ g (Hu l)) as (h2 & g2 & ->).
    eauto.
Qed.

(** ** C3: skips and elimination *)

(** C3 fails on the auto-skip path of [moveToNextPlayer].  From
    [duelExhausted], B moves twice; each time A, who has no legal move, is
    auto-skipped.  The match is reachable and still Playing, A's counter
    is 2 and A is not eliminated. *)
Theorem C3_auto_skip_without_elimination :
  ∃ h g l,
    duel ≫= steps 0 (exhaustA ++ [OpMove "B" 4 G; OpMove "B" 7 P])
    = Some (h, g)
    ∧ reachable (h, g)
    ∧ Game.status g = playing
    ∧ l ∈ Game.players g
    ∧ seatView h l = ("A", 2%Z, false).
Proof.
  do 2 eexists. exists 2%nat.
  split; [vm_compute; reflexivity|].
  split.
  { apply (duel_steps_reachable
             (exhaustA ++ [OpMove "B" 4 G; OpMove "B" 7 P])).
    vm_compute. reflexivity. }
  split; [reflexivity|].
  split; [apply list_elem_of_here|reflexivity].
Qed.

(** On the forced-skip paths the implication is enforced: the record a
    forced skip leaves behind is eliminated as soon as its counter is 2
    or more. *)
Lemma skipAndMaybeEliminate_enforces (p : Player.t) :
  (2 ≤ Player.skipsInARow (Game.skipAndMaybeEliminate p))%Z →
  Player.isEliminated (Game.skipAndMaybeEliminate p) = true.
Proof.
  unfold Game.skipAndMaybeEliminate.
  destruct (2 <=? Player.skipsInARow (Player.incrementSkips p))%Z eqn:H.
  - done.
  - apply Z.leb_gt in H. simpl in *. lia.
Qed.

(** ** C7: terminal stability *)

(** On a Finished match the guarded operations change nothing. *)
Lemma finished_operations_are_noops now h g :
  Game.status g = finished →
  (∀ pid cell size,
     Game.applyMove now pid cell size h g = Some (h, g, false))
  ∧ Game.skipCurrentPlayer now h g = Some (h, g)
  ∧ Game.skipTurn now h g = Some (h, g, false).
Proof.
  intros Hs. repeat split.
  - intros. unfold Game.applyMove, Game.isValidMove. by rewrite Hs.
  - unfold Game.skipCurrentPlayer. by rewrite Hs.
  - unfold Game.skipTurn. by rewrite Hs.
Qed.

(** [Room.removePlayer] calls [checkGameEnd] only on a Playing match. *)
Lemma removePlayer_keeps_finished_game now pid h r :
  Game.status (Room.game r) = finished →
  Room.game (Room.removePlayer now pid h r).1.2 = Room.game r.
Proof.
  intros Hs. unfold Room.removePlayer.
  destruct (GameLogic.findIndex _ _) as [i|]; [|done].
  set (r1 := Room.set_players r _).
  destruct (Player.isHost _ && _).
  - unfold Room.transferHost. simpl.
    destruct (delete i (Room.players r)); simpl; by rewrite Hs.
  - simpl. by rewrite Hs.
Qed.

(** C7 fails inside [skipTurn].  After [exhaustA] and one timeout of B,
    B times out again: B is eliminated, turn advancement finds A as the
    only active seat, A has no legal move, so the match is finished as a
    draw with no winner; the unguarded [checkGameEnd] that [skipTurn]
    runs next then writes A as [winnerId] on that Finished draw. *)
Theorem C7_winner_set_on_finished_draw :
  ∃ h g h1 g1 h' g',
    duel ≫= steps 0 (exhaustA ++ [OpSkipTurn]) = Some (h, g)
    ∧ reachable (h, g)
    ∧ Game.status g = playing
    ∧ Game.moveToNextPlayer (Game.budget g) 0
        (mutate Game.skipAndMaybeEliminate 3 h) g = Some (h1, g1)
    ∧ (Game.status g1, Game.isDraw g1, Game.winnerId g1)
      = (finished, true, None)
    ∧ Game.checkGameEnd 0 h1 g1 = g'
    ∧ Game.skipTurn 0 h g = Some (h', g', true)
    ∧ (Game.status g', Game.isDraw g', Game.winnerId g')
      = (finished, true, Some "A").
Proof.
  do 6 eexists.
  split; [vm_compute; reflexivity|].
  split.
  { apply (duel_steps_reachable (exhaustA ++ [OpSkipTurn])).
    vm_compute. reflexivity. }
  split; [reflexivity|].
  split; [vm_compute; reflexivity|].
  split; [reflexivity|].
  split; [vm_compute; reflexivity|].
  split; [vm_compute; reflexivity|].
  reflexivity.
Qed.

(** ** C4: the voter set of a replay vote *)

(** [ReplayManager] fixes the voter set when the vote starts: the ids of
    the seats connected at that instant. *)
Lemma ReplayManager_snapshot now t h room m m' :
  ReplayManager.startReplayVote now t h room m = (m', true) →
  ∃ vs,
    ReplayManager.voteStates m' !! Room.id room = Some vs
    ∧ ReplayManager.isActive vs = true
    ∧ ReplayManager.votes vs = ∅
    ∧ ReplayManager.requiredVoters vs = connectedIds h room.
Proof.
  unfold ReplayManager.startReplayVote.
  destruct (negb _); [intros [= _ ?]; discriminate|].
  destruct (Nat.eqb _ 0); [intros [= _ ?]; discriminate|].
  intros [= <-]. eexists. split.
  - simpl. apply lookup_insert_eq.
  - done.
Qed.

(** Afterwards it accepts a vote exactly from the members of that set,
    whatever the connection flags have become. *)
Lemma ReplayManager_castVote_accepts rid pid v m vs :
  ReplayManager.voteStates m !! rid = Some vs →
  ReplayManager.isActive vs = true →
  (ReplayManager.castVote rid pid v m).2 = true
  ↔ pid ∈ ReplayManager.requiredVoters vs.
Proof.
  intros Hvs Hact. unfold ReplayManager.castVote. rewrite Hvs, Hact. simpl.
  destruct (bool_decide (pid ∈ ReplayManager.requiredVoters vs)) eqn:Hin;
    simpl.
  - apply bool_decide_eq_true in Hin. destruct (Nat.eqb _ _); simpl; tauto.
  - apply bool_decide_eq_false in Hin. split; [done|tauto].
Qed.

(** C4 fails on [Room.castReplayVote] and [Room.checkReplayVotes], which
    read the live connection flags.  (1) A, B, C are connected when the
    vote opens; A votes yes, C's transport drops, B votes yes: the vote is
    accepted although C, a member of the voter set, never voted.  (2) C
    is disconnected when the vote opens, A and B vote yes and the vote is
    accepted; C reconnects within the window: the same vote is pending
    again and C's vote is taken. *)
Theorem C4_room_vote_reads_live_connections :
  (∃ h0 r0 h r,
     salonVoteOpen = Some (h0, r0)
     ∧ Room.getStatus r0 = finished
     ∧ connectedIds h0 r0 = ["A"; "B"; "C"]
     ∧ salonVoteAfterDrop = Some (h, r)
     ∧ Room.replayVotes r !! "C" = None
     ∧ Room.checkReplayVotes 4000 h r = accepted)
  ∧ (∃ h0 r0 h1 r1 h2 r2,
       salonLateVoteOpen = Some (h0, r0)
       ∧ connectedIds h0 r0 = ["A"; "B"]
       ∧ salonLateVoted = Some (h1, r1)
       ∧ Room.checkReplayVotes 4000 h1 r1 = accepted
       ∧ salonLateReconnected = Some (h2, r2)
       ∧ Room.checkReplayVotes 4000 h2 r2 = pending
       ∧ (Room.castReplayVote 4500 "C" false h2 r2).2 = true).
Proof.
  split.
  - do 4 eexists.
    split; [vm_compute; reflexivity|].
    split; [reflexivity|].
    split; [vm_compute; reflexivity|].
    split; [vm_compute; reflexivity|].
    split; [vm_compute; reflexivity|].
    vm_compute; reflexivity.
  - do 6 eexists.
    split; [vm_compute; reflexivity|].
    split; [vm_compute; reflexivity|].
    split; [vm_compute; reflexivity|].
    split; [vm_compute; reflexivity|].
    split; [vm_compute; reflexivity|].
    split; vm_compute; reflexivity.
Qed.

(** ** C9: seats of a started match *)

(** C9, as stated, fails on the colour.  A joins and leaves, then B, C
    and D fill the room: the room gave B blue and C red (the first unused
    colour at their joins), the match that starts gives B red and C
    blue. *)
Lemma C9_counterexample :
  ∃ h r,
    salonAfterLeave = Some (h, r)
    ∧ Room.getStatus r = playing
    ∧ seatColors h (Room.players r)
      = [("B", blue); ("C", red); ("D", green)]
    ∧ seatColors h (Game.players (Room.game r))
      = [("B", red); ("C", blue); ("D", green)].
Proof.
  do 2 eexists.
  split; [vm_compute; reflexivity|].
  split; [reflexivity|].
  split; vm_compute; reflexivity.
Qed.

(** ** [trim] and the [Player] constructor *)

Lemma dropSpaces_head l a r : dropSpaces l = a :: r → isSpace a = false.
Proof.
  induction l as [|x l IH]; simpl; [discriminate|].
  destruct (isSpace x) eqn:Hx; [done|]. intros [= <- _]. done.
Qed.

Lemma dropSpaces_fixed l :
  (∀ a r, l = a :: r → isSpace a = false) → dropSpaces l = l.
Proof.
  destruct l as [|a r]; [done|]. intros H. simpl.
  by rewrite (H a r eq_refl).
Qed.

Lemma dropSpaces_suffix l : ∃ pre, l = pre ++ dropSpaces l.
Proof.
  induction l as [|x l [pre IH]]; [by exists []|]. simpl.
  destruct (isSpace x).
  - exists (x :: pre). simpl. by rewrite <- IH.
  - by exists [].
Qed.

Lemma dropSpaces_length l : (length (dropSpaces l) ≤ length l)%nat.
Proof.
  destruct (dropSpaces_suffix l) as [pre H].
  rewrite H at 2. rewrite length_app. lia.
Qed.

Lemma trim_idempotent (s : Text) : trim (trim s) = trim s.
Proof.
  unfold trim.
  set (l1 := dropSpaces s). set (m := dropSpaces (rev l1)).
  assert (dropSpaces (rev m) = rev m) as H1.
  { apply dropSpaces_fixed. intros a r Hr.
    destruct (dropSpaces_suffix (rev l1)) as [pre Hpre]. fold m in Hpre.
    assert (l1 = rev m ++ rev pre) as Hl1.
    { rewrite <- (rev_involutive l1), Hpre. apply rev_app_distr. }
    rewrite Hr in Hl1. simpl in Hl1.
    by apply (dropSpaces_head s a (r ++ rev pre)). }
  rewrite H1, rev_involutive.
  assert (dropSpaces m = m) as ->; [|done].
  apply dropSpaces_fixed. intros a r Hr.
  by apply (dropSpaces_head (rev l1) a r).
Qed.

Lemma trim_length (s : Text) : (length (trim s) ≤ length s)%nat.
Proof.
  unfold trim. rewrite length_rev.
  pose proof (dropSpaces_length (rev (dropSpaces s))) as H1.
  pose proof (dropSpaces_length s) as H2.
  rewrite length_rev in H1. lia.
Qed.

(** Every object the constructor returns satisfies the class invariant. *)
Lemma Player_new_valid uuid o p :
  uuid ≠ "" → Player.new uuid o = Some p → validPlayer p.
Proof.
  intros Hu. unfold Player.new.
  destruct (_ || _) eqn:He; [discriminate|].
  destruct (Nat.ltb 20 _) eqn:Hl; [discriminate|].
  intros [= <-]. apply orb_false_iff in He as [_ He].
  apply Nat.eqb_neq in He. apply Nat.ltb_ge in Hl.
  unfold validPlayer. simpl. repeat split.
  - destruct (Player.o_id o) as [x|]; simpl; [|done].
    destruct (bool_decide (x = "")) eqn:Hx; simpl; [done|].
    by apply bool_decide_eq_false in Hx.
  - intros H. rewrite H in He. simpl in He. done.
  - apply trim_idempotent.
  - pose proof (trim_length (Player.o_nickname o)). lia.
Qed.

(** Rebuilding a record from a valid one copies its id and nickname. *)
Lemma Player_new_copy uuid p c :
  validPlayer p →
  Player.new uuid
    (Player.mkOptions (Some (Player.id p)) (Player.nickname p) c
       (Some (Player.connected p)) (Some (Player.isHost p)))
  = Some (matchRecord c p).
Proof.
  intros (Hid & Hn & Ht & Hl). unfold Player.new. simpl.
  rewrite bool_decide_eq_false_2 by done. rewrite Ht.
  destruct (length (Player.nickname p)) eqn:Hlen.
  { by apply nil_length_inv in Hlen. }
  simpl. destruct (Nat.ltb 20 (S n)) eqn:Hlt.
  { apply Nat.ltb_lt in Hlt. lia. }
  rewrite bool_decide_eq_false_2 by done. reflexivity.
Qed.

(** ** Starting a match *)

Lemma deref_app_l (h new : Heap) (l : loc) :
  (l < length h)%nat → deref (h ++ new) l = deref h l.
Proof. intros. unfold deref. by apply lookup_total_app_l. Qed.

Lemma deref_app_r (h new : Heap) (i : nat) (p : Player.t) :
  new !! i = Some p → deref (h ++ new) (length h + i) = p.
Proof.
  intros H. unfold deref. apply list_lookup_total_correct.
  rewrite lookup_app_r by lia.
  by replace (length h + i - length h) with i by lia.
Qed.

(** The new records of a match are allocated after every existing object,
    one per seat and in seat order. *)
Lemma mapNewPlayers_locs uuid src :
  ∀ index h h' ls,
    Game.mapNewPlayers uuid index src h = Some (h', ls) →
    ls = seq (length h) (length src)
    ∧ ∃ recs, h' = h ++ recs ∧ length recs = length src.
Proof.
  induction src as [|l rest IH]; intros index h h' ls; simpl.
  - intros [= <- <-]. split; [done|]. exists []. by rewrite app_nil_r.
  - destruct (availableColors !! index) as [c|]; [|discriminate].
    destruct (Player.new _ _) as [p|]; [|discriminate].
    destruct (Game.mapNewPlayers uuid (S index) rest (h ++ [p]))
      as [[h2 ls2]|] eqn:Hrec; [|discriminate].
    intros [= <- <-].
    destruct (IH _ _ _ _ Hrec) as (-> & recs & -> & Hlen).
    rewrite length_app. simpl. split.
    + by rewrite Nat.add_1_r.
    + exists (p :: recs). split; [by rewrite <- app_assoc|]. simpl. lia.
Qed.

Lemma mapNewPlayers_spec uuid src :
  ∀ index h,
    validLocs h src →
    Forall (fun l => validPlayer (deref h l)) src →
    (index + length src ≤ 4)%nat →
    ∃ recs,
      Game.mapNewPlayers uuid index src h
      = Some (h ++ recs, seq (length h) (length src))
      ∧ length recs = length src
      ∧ ∀ i l,
          src !! i = Some l →
          ∃ c, availableColors !! (index + i) = Some c
               ∧ recs !! i = Some (matchRecord c (deref h l)).
Proof.
  induction src as [|l rest IH]; intros index h Hval Hvp Hlen.
  - exists []. simpl. rewrite app_nil_r. repeat split. intros i l [=].
  - apply Forall_cons in Hval as [Hl Hval].
    apply Forall_cons in Hvp as [Hp Hvp]. simpl in Hlen. simpl.
    destruct (availableColors !! index) as [c|] eqn:Hc.
    2:{ apply lookup_ge_None in Hc. simpl in Hc. lia. }
    rewrite (Player_new_copy _ _ c Hp).
    set (p := matchRecord c (deref h l)).
    destruct (IH (S index) (h ++ [p])) as (recs & Hrun & Hrl & Hrecs).
    + unfold validLocs in *. eapply Forall_impl; [exact Hval|].
      simpl. intros x Hx. rewrite length_app. lia.
    + rewrite Forall_forall in Hvp, Hval. apply Forall_forall.
      intros x Hx. rewrite deref_app_l by (by apply Hval). by apply Hvp.
    + lia.
    + rewrite Hrun. exists (p :: recs).
      rewrite length_app, <- app_assoc. simpl.
      rewrite Nat.add_1_r. split; [done|]. split; [lia|].
      intros [|i] l' Hl'; simpl in Hl'.
      * injection Hl' as <-. exists c. rewrite Nat.add_0_r. done.
      * destruct (Hrecs i l' Hl') as (c' & Hc' & Hr').
        exists c'. split.
        -- by replace (index + S i) with (S index + i) by lia.
        -- simpl. rewrite Hr'. f_equal. f_equal.
           apply deref_app_l. unfold validLocs in Hval.
           rewrite Forall_forall in Hval. apply Hval.
           by apply list_elem_of_lookup_2 in Hl'.
Qed.

Lemma initialize_seats now rnd uuid src h g :
  validLocs h src →
  Forall (fun l => validPlayer (deref h l)) src →
  (2 ≤ length src ≤ 4)%nat →
  ∃ h' g',
    Game.initialize now rnd uuid src h g = Some (h', g')
    ∧ Game.status g' = playing
    ∧ (length h ≤ length h')%nat
    ∧ length (Game.players g') = length src
    ∧ ∀ i lr,
        src !! i = Some lr →
        ∃ lg c,
          Game.players g' !! i = Some lg
          ∧ availableColors !! i = Some c
          ∧ deref h' lg = matchRecord c (deref h lr)
          ∧ deref h' lr = deref h lr.
Proof.
  intros Hval Hvp [H2 H4]. unfold Game.initialize.
  replace (Nat.ltb (length src) 2 || Nat.ltb 4 (length src)) with false.
  2:{ symmetry. apply orb_false_iff. split; apply Nat.ltb_ge; lia. }
  destruct (mapNewPlayers_spec uuid src 0 h Hval Hvp ltac:(lia))
    as (recs & -> & Hlen & Hrecs).
  assert (rnd mod length (seq (length h) (length src))
          < length (seq (length h) (length src)))%nat as Hlt.
  { apply Nat.mod_upper_bound. rewrite length_seq. lia. }
  cbv zeta.
  match goal with
  | |- context [match ?x with Some _ => _ | None => _ end] =>
      destruct x as [l0|] eqn:Hl0
  end.
  2:{ apply lookup_ge_None in Hl0. rewrite !length_seq in Hl0, Hlt.
      unfold loc in *. lia. }
  eexists _, _. split; [reflexivity|]. simpl.
  split; [done|]. split; [rewrite length_app; lia|].
  split; [apply length_seq|].
  intros i lr Hi. destruct (Hrecs i lr Hi) as (c & Hc & Hr).
  assert (i < length src)%nat as Hilt by (by apply lookup_lt_Some in Hi).
  exists (length h + i), c. split; [by apply lookup_seq_lt|].
  split; [done|]. split; [by apply deref_app_r|].
  apply deref_app_l. unfold validLocs in Hval.
  rewrite Forall_forall in Hval. apply Hval.
  by apply list_elem_of_lookup_2 in Hi.
Qed.

Lemma fold_mutate_length (f : Player.t → Player.t) ls :
  ∀ h, length (fold_left (fun h' l => mutate f l h') ls h) = length h.
Proof.
  induction ls as [|x ls IH]; intros h; simpl; [done|].
  by rewrite IH, length_mutate.
Qed.

Lemma fold_mutate_proj {A} (proj : Player.t → A) (f : Player.t → Player.t)
    ls :
  (∀ p, proj (f p) = proj p) →
  ∀ h l, proj (deref (fold_left (fun h' x => mutate f x h') ls h) l)
         = proj (deref h l).
Proof.
  intros Hf. induction ls as [|x ls IH]; intros h l; simpl; [done|].
  rewrite IH. by apply deref_mutate_proj.
Qed.

Lemma fold_mutate_other (f : Player.t → Player.t) ls :
  ∀ h l, l ∉ ls →
         deref (fold_left (fun h' x => mutate f x h') ls h) l = deref h l.
Proof.
  induction ls as [|x ls IH]; intros h l Hl; simpl; [done|].
  apply not_elem_of_cons in Hl as [Hne Hl].
  rewrite IH by done. by apply deref_mutate_ne.
Qed.

(** C9 (amended): whenever a match is started or restarted for a room
    (by [startGame], which [addPlayer] calls when the room is full, or by
    [replay]), the start succeeds for 2 to 4 valid seats, every seat of the
    new match keeps the id and the nickname of the corresponding room
    seat, and its colour is the palette colour at its seat index; the
    room's own records keep id, nickname and colour.  The match colour is
    the room colour whenever the room's colours follow the palette
    order. *)
Theorem C9_match_seats (now : Z) (rnd : nat) (uuid : nat → string)
    (h : Heap) (r : Room.t) :
  validLocs h (Room.players r) →
  Forall (fun l => validPlayer (deref h l)) (Room.players r) →
  (2 ≤ length (Room.players r) ≤ 4)%nat →
  ∀ start,
    start = Room.startGame now rnd uuid ∨ start = Room.replay now rnd uuid →
    ∃ h' r',
      start h r = Some (h', r')
      ∧ Room.getStatus r' = playing
      ∧ seatsCopied h r h' r'
      ∧ (paletteOrder h r →
         ∀ i lr lg,
           Room.players r !! i = Some lr →
           Game.players (Room.game r') !! i = Some lg →
           Player.color (deref h' lg) = Player.color (deref h lr)).
Proof.
  intros Hval Hvp Hlen start Hstart.
  assert (∀ h' r',
            seatsCopied h r h' r' →
            paletteOrder h r →
            ∀ i lr lg,
              Room.players r !! i = Some lr →
              Game.players (Room.game r') !! i = Some lg →
              Player.color (deref h' lg) = Player.color (deref h lr))
    as Hpalette.
  { intros h' r' (_ & _ & Hseats) Hpal i lr lg Hi Hg.
    destruct (Hseats i lr Hi) as (lg' & c & Hg' & Hc & _ & _ & Hcol & _).
    assert (lg' = lg) as -> by congruence. rewrite Hcol.
    assert (Room.usedColors h r !! i = Some (Player.color (deref h lr)))
      as Hu.
    { unfold Room.usedColors. by rewrite list_lookup_fmap, Hi. }
    rewrite Hpal in Hu. apply lookup_take_Some in Hu as [Hu _]. congruence. }
  destruct Hstart as [-> | ->].
  - unfold Room.startGame.
    replace (Nat.ltb (length (Room.players r)) 2) with false
      by (symmetry; apply Nat.ltb_ge; lia).
    destruct (initialize_seats now rnd uuid (Room.players r) h
                (Room.game r) Hval Hvp Hlen)
      as (h' & g' & -> & Hs & _ & Hl & Hseats).
    eexists _, _. split; [reflexivity|]. split; [done|].
    assert (seatsCopied h r h'
              (Room.resetTTL now (Room.set_game r g'))) as Hcopied.
    { split; [done|]. split; [done|]. simpl.
      intros i lr Hi. destruct (Hseats i lr Hi) as (lg & c & Hg & Hc & Hd & Hr).
      exists lg, c. rewrite Hd, Hr. by repeat split. }
    split; [done|]. by apply Hpalette.
  - unfold Room.replay, Game.reset.
    set (h1 := fold_left
                 (fun h' l => mutate Player.resetForReplay l h')
                 (Game.players (Room.game r)) h).
    assert (validLocs h1 (Room.players r)) as Hval1.
    { unfold validLocs, h1. by rewrite fold_mutate_length. }
    assert (∀ l, Player.id (deref h1 l) = Player.id (deref h l)) as Hid.
    { intros l. by apply (fold_mutate_proj Player.id). }
    assert (∀ l, Player.nickname (deref h1 l) = Player.nickname (deref h l))
      as Hnick.
    { intros l. by apply (fold_mutate_proj Player.nickname). }
    assert (∀ l, Player.color (deref h1 l) = Player.color (deref h l))
      as Hcolor.
    { intros l. by apply (fold_mutate_proj Player.color). }
    assert (Forall (fun l => validPlayer (deref h1 l)) (Room.players r))
      as Hvp1.
    { eapply Forall_impl; [exact Hvp|]. simpl. intros l.
      unfold validPlayer. by rewrite Hid, Hnick. }
    match goal with
    | |- context [Game.initialize now rnd uuid _ h1 ?g0] =>
        destruct (initialize_seats now rnd uuid (Room.players r) h1 g0
                    Hval1 Hvp1 Hlen)
          as (h' & g' & -> & Hs & _ & Hl & Hseats)
    end.
    eexists _, _. split; [reflexivity|]. split; [done|].
    assert (seatsCopied h r h'
              (Room.resetTTL now
                 (Room.set_votes (Room.set_game r g') ∅ None))) as Hcopied.
    { split; [done|]. split; [done|]. simpl.
      intros i lr Hi. destruct (Hseats i lr Hi) as (lg & c & Hg & Hc & Hd & Hr).
      exists lg, c. rewrite Hd, Hr. simpl. rewrite Hid, Hnick, Hcolor.
      by repeat split. }
    split; [done|]. by apply Hpalette.
Qed.

Lemma C9_match_seats_witness :
  ∃ h' r',
    Room.startGame 0 0 exampleUuid salonTwoSeats.1 salonTwoSeats.2
    = Some (h', r')
    ∧ Room.getStatus r' = playing
    ∧ seatsCopied salonTwoSeats.1 salonTwoSeats.2 h' r'
    ∧ (paletteOrder salonTwoSeats.1 salonTwoSeats.2 →
       ∀ i lr lg,
         Room.players salonTwoSeats.2 !! i = Some lr →
         Game.players (Room.game r') !! i = Some lg →
         Player.color (deref h' lg)
         = Player.color (deref salonTwoSeats.1 lr)).
Proof.
  apply (C9_match_seats 0 0 exampleUuid salonTwoSeats.1 salonTwoSeats.2).
  - unfold validLocs. apply (bool_decide_unpack _). vm_compute. exact I.
  - repeat constructor; vm_compute; discriminate.
  - split; vm_compute; repeat constructor.
  - left. reflexivity.
Defined.

(** A room built by joins satisfies the hypotheses of C9: its records are
    allocated and satisfy the class invariant. *)
Lemma addPlayer_keeps_valid now rnd uuid p h r h' r' ok :
  (∀ i, uuid i ≠ "") →
  validLocs h (Room.players r) →
  Forall (fun l => validPlayer (deref h l)) (Room.players r) →
  Room.addPlayer now rnd uuid p h r = Some (h', r', ok) →
  validLocs h' (Room.players r')
  ∧ Forall (fun l => validPlayer (deref h' l)) (Room.players r').
Proof.
  intros Hu Hval Hvp. unfold Room.addPlayer.
  destruct (_ <=? _)%Z; [by intros [= <- <- _]|].
  destruct (existsb _ _); [by intros [= <- <- _]|].
  destruct (List.find _ availableColors) as [c|]; [|by intros [= <- <- _]].
  destruct (Player.new _ _) as [rp|] eqn:Hnew; [|discriminate].
  pose proof (Player_new_valid _ _ _ (Hu 0) Hnew) as Hrp.
  simpl.
  set (h1 := h ++ [rp]).
  set (r1 := Room.set_players r (Room.players r ++ [length h])).
  assert (validLocs h1 (Room.players r1)) as Hval1.
  { unfold validLocs, h1, r1. simpl. apply Forall_app. split.
    - eapply Forall_impl; [exact Hval|]. simpl. intros x Hx.
      rewrite length_app. lia.
    - constructor; [|constructor]. rewrite length_app. simpl. lia. }
  assert (Forall (fun l => validPlayer (deref h1 l)) (Room.players r1))
    as Hvp1.
  { unfold h1, r1. simpl. apply Forall_app. split.
    - unfold validLocs in Hval. rewrite Forall_forall in Hval, Hvp.
      apply Forall_forall. intros x Hx.
      rewrite deref_app_l by (by apply Hval). by apply Hvp.
    - constructor; [|constructor].
      replace (length h) with (length h + 0) by lia.
      by rewrite (deref_app_r h [rp] 0 rp). }
  destruct (bool_decide (Z.of_nat _ = _)); [|by intros [= <- <- _]].
  unfold Room.startGame.
  destruct (Nat.ltb _ 2); [discriminate|].
  destruct (Game.initialize _ _ _ _ _ _) as [[h2 g2]|] eqn:Hinit;
    [|discriminate].
  intros [= <- <- _]. simpl.
  unfold Game.initialize in Hinit.
  destruct (_ || _); [discriminate|].
  destruct (Game.mapNewPlayers _ _ _ _) as [[h3 ls]|] eqn:Hmap;
    [|discriminate].
  destruct (ls !! _); [|discriminate]. injection Hinit as <- _.
  destruct (mapNewPlayers_locs _ _ _ _ _ _ Hmap) as (_ & recs & -> & _).
  split.
  - eapply Forall_impl; [exact Hval1|]. simpl. intros x Hx.
    rewrite length_app. lia.
  - unfold validLocs in Hval1. rewrite Forall_forall in Hval1, Hvp1.
    apply Forall_forall. intros x Hx.
    rewrite deref_app_l by (by apply Hval1). by apply Hvp1.
Qed.

(** ** C10: room records and match records *)

Lemma getNextPlayer_elem h ps cur l :
  GameLogic.getNextPlayer h ps cur = Some l → l ∈ ps.
Proof.
  unfold GameLogic.getNextPlayer. destruct (Nat.eqb _ 0); [discriminate|].
  intros H.
  assert (l ∈ List.filter (fun l => Player.active (deref h l)) ps) as Hin.
  { destruct (GameLogic.findIndex _ _);
      by apply list_elem_of_lookup_2 in H. }
  apply list_elem_of_In in Hin. apply filter_In in Hin as [Hin _].
  by apply list_elem_of_In.
Qed.

(** Turn advancement writes only into records of the match. *)
Lemma moveToNextPlayer_footprint fuel :
  ∀ now h g h' g',
    Game.moveToNextPlayer fuel now h g = Some (h', g') →
    ∀ l, l ∉ Game.players g → deref h' l = deref h l.
Proof.
  induction fuel as [|fuel IH]; intros now h g h' g'; [discriminate|].
  simpl.
  destruct (Nat.eqb (length (Game.getActivePlayers h g)) 0).
  { by intros [= <- <-]. }
  destruct (Nat.eqb _ 0).
  { by intros [= <- <-]. }
  destruct (GameLogic.getNextPlayer h (Game.players g)
              (Game.currentPlayerId g)) as [nx|] eqn:Hnx.
  2:{ by intros [= <- <-]. }
  destruct (negb _).
  - intros H l Hl. rewrite (IH _ _ _ _ _ H l Hl).
    apply deref_mutate_ne. intros ->.
    by apply getNextPlayer_elem in Hnx.
  - by intros [= <- <-].
Qed.

Lemma getCurrentPlayer_elem h g l :
  Game.getCurrentPlayer h g = Some l → l ∈ Game.players g.
Proof.
  unfold Game.getCurrentPlayer. destruct (negb _); [discriminate|].
  apply findPlayer_elem.
Qed.

(** A match operation keeps the seat list and writes only into records
    of the match. *)
Lemma step_footprint now op h g h' g' :
  step now op (h, g) = Some (h', g') →
  Game.players g' = Game.players g
  ∧ length h' = length h
  ∧ ∀ l, l ∉ Game.players g → deref h' l = deref h l.
Proof.
  destruct op as [pid cell size| |]; simpl.
  - unfold Game.applyMove.
    destruct (negb _); [discriminate|].
    destruct (Game.findPlayer h g (Some pid)) as [lm|] eqn:Hf;
      [|discriminate].
    destruct (Player.usePiece _ _) as [used|]; [|discriminate].
    assert (∀ l, l ∉ Game.players g →
                 deref (mutate (fun _ => Player.resetSkips used) lm h) l
                 = deref h l) as Hm.
    { intros l Hl. apply deref_mutate_ne. intros ->.
      by apply findPlayer_elem in Hf. }
    destruct (GameLogic.checkWinConditions _ _).
    { intros [= <- <-]. by rewrite length_mutate. }
    destruct (GameLogic.isDraw _ _ _).
    { intros [= <- <-]. by rewrite length_mutate. }
    destruct (Game.moveToNextPlayer _ _ _ _) as [[h2 g2]|] eqn:Hrun;
      [|discriminate].
    intros [= <- <-].
    destruct (moveToNextPlayer_frame _ _ _ _ _ _ Hrun)
      as ([Hlen _] & _ & Hp & _).
    split; [done|]. split; [by rewrite <- Hlen, length_mutate|].
    intros l Hl. rewrite (moveToNextPlayer_footprint _ _ _ _ _ _ Hrun l Hl).
    by apply Hm.
  - unfold Game.skipTurn.
    destruct (_ || _); [discriminate|].
    destruct (Game.getCurrentPlayer h g) as [lc|] eqn:Hc; [|discriminate].
    destruct (Game.moveToNextPlayer _ _ _ _) as [[h2 g2]|] eqn:Hrun;
      [|discriminate].
    intros [= <- <-].
    destruct (moveToNextPlayer_frame _ _ _ _ _ _ Hrun)
      as ([Hlen _] & _ & Hp & _).
    split.
    { unfold Game.checkGameEnd. destruct (Nat.ltb _ 2); [|done].
      destruct (Nat.eqb _ 1); [|done]. by destruct (_ !! 0). }
    split; [by rewrite <- Hlen, length_mutate|].
    intros l Hl. rewrite (moveToNextPlayer_footprint _ _ _ _ _ _ Hrun l Hl).
    apply deref_mutate_ne. intros ->. by apply getCurrentPlayer_elem in Hc.
  - destruct (_ && _); [|discriminate].
    unfold Game.skipCurrentPlayer.
    destruct (_ || _); [by intros [= <- <-]|].
    intros Hrun.
    destruct (moveToNextPlayer_frame _ _ _ _ _ _ Hrun)
      as ([Hlen _] & _ & Hp & _).
    split; [done|].
    destruct (Game.getCurrentPlayer h g) as [lc|] eqn:Hc.
    + split; [by rewrite <- Hlen, length_mutate|].
      intros l Hl. rewrite (moveToNextPlayer_footprint _ _ _ _ _ _ Hrun l Hl).
      apply deref_mutate_ne. intros ->. by apply getCurrentPlayer_elem in Hc.
    + split; [done|].
      intros l Hl. by apply (moveToNextPlayer_footprint _ _ _ _ _ _ Hrun).
Qed.

Lemma getPlayer_elem h r pid l :
  Room.getPlayer h r pid = Some l → l ∈ Room.players r.
Proof.
  unfold Room.getPlayer. intros H. apply find_some in H as [H _].
  by apply list_elem_of_In.
Qed.

Lemma delete_subseteq {A} (i : nat) (l : list A) x :
  x ∈ delete i l → x ∈ l.
Proof.
  revert i. induction l as [|y l IH]; intros [|i]; simpl; try done.
  - intros. by right.
  - intros H. apply elem_of_cons in H as [->|H]; [left|right; eauto].
Qed.

Lemma transferHost_footprint h r h' r' :
  Room.transferHost h r = (h', r') →
  length h' = length h
  ∧ Room.players r' = Room.players r
  ∧ Room.game r' = Room.game r
  ∧ ∀ l, l ∉ Room.players r → deref h' l = deref h l.
Proof.
  unfold Room.transferHost.
  destruct (Room.players r) as [|nh others] eqn:Hps.
  - intros [= <- <-]. by rewrite Hps.
  - intros [= <- <-]. simpl. rewrite Hps.
    split; [by rewrite fold_mutate_length, length_mutate|].
    split; [done|]. split; [done|].
    intros l Hn. apply not_elem_of_cons in Hn as [Hne Hn].
    rewrite fold_mutate_other by done. by apply deref_mutate_ne.
Qed.

Lemma checkGameEnd_players now h g :
  Game.players (Game.checkGameEnd now h g) = Game.players g.
Proof.
  unfold Game.checkGameEnd. destruct (Nat.ltb _ 2); [|done].
  destruct (Nat.eqb _ 1); [|done]. by destruct (_ !! 0).
Qed.

(** [removePlayer] writes only into room records, keeps the match's seat
    list and only shrinks the room's. *)
Lemma removePlayer_footprint now pid h r h' r' ok :
  Room.removePlayer now pid h r = (h', r', ok) →
  length h' = length h
  ∧ Game.players (Room.game r') = Game.players (Room.game r)
  ∧ (∀ l, l ∈ Room.players r' → l ∈ Room.players r)
  ∧ ∀ l, l ∉ Room.players r → deref h' l = deref h l.
Proof.
  unfold Room.removePlayer.
  destruct (GameLogic.findIndex _ _) as [i|]; [|by intros [= <- <- _]].
  set (r1 := Room.set_players r (delete i (Room.players r))).
  assert (∀ l, l ∈ Room.players r1 → l ∈ Room.players r) as Hsub.
  { intros l. apply delete_subseteq. }
  destruct (if Player.isHost (deref h (Room.players r !!! i))
               && Nat.ltb 0 (length (Room.players r1))
            then Room.transferHost h r1 else (h, r1)) as [h2 r2] eqn:Hth.
  assert (length h2 = length h
          ∧ Room.players r2 = Room.players r1
          ∧ Room.game r2 = Room.game r
          ∧ ∀ l, l ∉ Room.players r1 → deref h2 l = deref h l)
    as (Hlen & Hps & Hg & Hfr).
  { destruct (_ && _).
    - by apply transferHost_footprint in Hth.
    - by injection Hth as <- <-. }
  intros [= <- <- _]. split; [done|]. split.
  - destruct (bool_decide _); simpl; [rewrite checkGameEnd_players|];
      by rewrite Hg.
  - split.
    + intros l. destruct (bool_decide _); simpl; rewrite Hps; apply Hsub.
    + intros l Hl. apply Hfr. intros Hin. by apply Hl, Hsub.
Qed.

Lemma startGame_separate now rnd uuid h r h1 r1 :
  validLocs h (Room.players r) →
  Room.startGame now rnd uuid h r = Some (h1, r1) →
  separate h1 r1.
Proof.
  intros Hval. unfold Room.startGame.
  destruct (Nat.ltb _ 2); [discriminate|].
  destruct (Game.initialize _ _ _ _ _ _) as [[h2 g2]|] eqn:Hinit;
    [|discriminate].
  intros [= <- <-]. unfold Game.initialize in Hinit.
  destruct (_ || _); [discriminate|].
  destruct (Game.mapNewPlayers _ _ _ _) as [[h3 ls]|] eqn:Hmap;
    [|discriminate].
  destruct (ls !! _); [|discriminate]. injection Hinit as <- <-.
  destruct (mapNewPlayers_locs _ _ _ _ _ _ Hmap) as (-> & recs & -> & _).
  unfold separate, validLocs in *. simpl. rewrite Forall_forall in Hval.
  split.
  - apply Forall_forall. intros x Hx. rewrite length_app.
    specialize (Hval x Hx). lia.
  - intros x Hx Hin. specialize (Hval x Hx).
    apply elem_of_seq in Hin. lia.
Qed.

(* ===================================================================== *)
(** * Part III. Further properties of the board functions                 *)
(* ===================================================================== *)

Lemma boardAt_boardPlace_same (b : Board) (cell : Z) (size : Size)
    (color : Color) (cv : Cell) :
  boardAt b cell = Some cv →
  boardAt (boardPlace b cell size color) cell
  = Some (setSlot cv size (Some color)).
Proof.
  intros Hcv. unfold boardPlace. rewrite Hcv.
  rewrite boardAt_boardSet by (by apply boardAt_Some_range in Hcv).
  by rewrite decide_True.
Qed.

Lemma boardAt_boardPlace_other (b : Board) (cell i : Z) (size : Size)
    (color : Color) :
  i ≠ cell →
  boardAt (boardPlace b cell size color) i = boardAt b i.
Proof.
  intros Hne. unfold boardPlace.
  destruct (boardAt b cell) as [cv|] eqn:Hcv; [|done].
  rewrite boardAt_boardSet by (by apply boardAt_Some_range in Hcv).
  by rewrite decide_False.
Qed.

(** Legality of a move reads only the top piece of the cell: the size must
    be strictly larger than the largest size present. *)
Lemma isLegalMove_top (b : Board) (cell : Z) (s : Size) (c : option Color) :
  GameLogic.isLegalMove b cell s c
  = match boardAt b cell with
    | Some cv =>
        match top cv with
        | None => true
        | Some (s', _) => negb (sizeLe s s')
        end
    | None => false
    end.
Proof.
  unfold GameLogic.isLegalMove.
  destruct ((cell <? 0)%Z || (8 <? cell)%Z) eqn:Hr.
  - destruct (boardAt b cell) as [cv|] eqn:Hcv; [|done].
    apply boardAt_Some_range in Hcv. lia.
  - destruct (boardAt b cell) as [[[p|] [m|] [g|]]|]; by destruct s.
Qed.

Lemma getVisiblePiece_top (cv : Cell) :
  GameLogic.getVisiblePiece cv = snd <$> top cv.
Proof. by destruct cv as [[p|] [m|] [g|]]. Qed.

(** X1: the board function [applyMove] of game-logic.ts, when it does not
    throw, wrote the colour into the one slot (cell, size), which was
    empty, and left every other slot as it was; the piece just placed is
    the visible piece of its cell; and the sizes that are still legal in
    that cell afterwards are exactly the sizes strictly larger than the
    placed one that were legal before. *)
Theorem X1_applyMove_places_visible (b : Board) (cell : Z) (size : Size)
    (color : Color) (b' : Board) :
  GameLogic.applyMove b cell size color = Some b' →
  (0 ≤ cell ≤ 8)%Z
  ∧ boardSlot b cell size = None
  ∧ (∀ i s,
       boardSlot b' i s
       = if decide (i = cell ∧ s = size) then Some color
         else boardSlot b i s)
  ∧ (∃ cv', boardAt b' cell = Some cv'
            ∧ GameLogic.getVisiblePiece cv' = Some color)
  ∧ (∀ s c,
       GameLogic.isLegalMove b' cell s c = true
       ↔ GameLogic.isLegalMove b cell s c = true ∧ sizeLe s size = false).
Proof.
  unfold GameLogic.applyMove.
  destruct (GameLogic.isLegalMove b cell size (Some color)) eqn:Hlegal;
    [|discriminate].
  intros [= <-].
  pose proof (isLegalMove_range _ _ _ _ Hlegal) as Hrange.
  split; [done|]. split; [by eapply isLegalMove_slot_empty|].
  split; [intros i s; by apply boardSlot_boardPlace|].
  destruct (boardAt_in_range b cell Hrange) as [cv Hcv].
  rewrite isLegalMove_top, Hcv in Hlegal.
  split.
  - exists (setSlot cv size (Some color)).
    split; [by apply boardAt_boardPlace_same|].
    destruct cv as [[p|] [m|] [g|]], size; simpl in *; done.
  - intros s c. rewrite !isLegalMove_top.
    rewrite (boardAt_boardPlace_same _ _ _ _ _ Hcv), Hcv.
    destruct cv as [[p|] [m|] [g|]], size, s; simpl in *;
      try discriminate; intuition discriminate.
Qed.

Lemma X1_applyMove_places_visible_witness :
  GameLogic.applyMove boardRedRowHidden 3 M blue
  = Some (boardPlace boardRedRowHidden 3 M blue)
  ∧ (3 ≤ 8)%Z
  ∧ boardSlot boardRedRowHidden 3 M = None
  ∧ (∃ cv', boardAt (boardPlace boardRedRowHidden 3 M blue) 3 = Some cv'
            ∧ GameLogic.getVisiblePiece cv' = Some blue)
  ∧ (∀ s c,
       GameLogic.isLegalMove (boardPlace boardRedRowHidden 3 M blue) 3 s c
       = true
       ↔ GameLogic.isLegalMove boardRedRowHidden 3 s c = true
         ∧ sizeLe s M = false).
Proof.
  split; [reflexivity|].
  destruct (X1_applyMove_places_visible boardRedRowHidden 3 M blue
              (boardPlace boardRedRowHidden 3 M blue) eq_refl)
    as (Hr & He & _ & Hv & Hl).
  split; [apply Hr|]. split; [exact He|]. split; [exact Hv|exact Hl].
Defined.

Lemma existsb_pointwise {A} (f g : A → bool) (l : list A) :
  (∀ x, f x = g x) → existsb f l = existsb g l.
Proof. intros E. induction l as [|x l IH]; simpl; [done|]. by rewrite E, IH. Qed.

Lemma forallb_pointwise {A} (f g : A → bool) (l : list A) :
  (∀ x, f x = g x) → forallb f l = forallb g l.
Proof. intros E. induction l as [|x l IH]; simpl; [done|]. by rewrite E, IH. Qed.

Lemma sameTops_isLegalMove (b1 b2 : Board) (i : Z) (s : Size)
    (c c' : option Color) :
  sameTops b1 b2 →
  GameLogic.isLegalMove b1 i s c = GameLogic.isLegalMove b2 i s c'.
Proof.
  intros H. rewrite !isLegalMove_top. specialize (H i).
  destruct (boardAt b1 i), (boardAt b2 i); simpl in H; try done.
  by injection H as ->.
Qed.

Lemma sameTops_checkWinConditions (b1 b2 : Board) (color : Color) :
  sameTops b1 b2 →
  GameLogic.checkWinConditions b1 color
  = GameLogic.checkWinConditions b2 color.
Proof.
  intros H. unfold GameLogic.checkWinConditions,
    GameLogic.checkSameColorAlignment.
  apply existsb_pointwise. intros line. apply forallb_pointwise. intros i.
  specialize (H i).
  destruct (boardAt b1 i), (boardAt b2 i); simpl in H; try done.
  injection H as H. by rewrite !getVisiblePiece_top, H.
Qed.

Lemma sameTops_hasLegalMoves (b1 b2 : Board) (p : Player.t) :
  sameTops b1 b2 →
  GameLogic.hasLegalMoves b1 p = GameLogic.hasLegalMoves b2 p.
Proof.
  intros H. unfold GameLogic.hasLegalMoves.
  apply existsb_pointwise. intros i. apply existsb_pointwise. intros s.
  f_equal. by apply sameTops_isLegalMove.
Qed.

(** X2: the two copies of the board functions shipped with the shared
    package (nesting in game-logic.ts, replacement in its second copy) are
    observationally equivalent.  On two boards that show the same top
    piece in every cell, a move throws in one copy exactly when it throws
    in the other, and the two results again show the same top piece in
    every cell, so they have the same winners and leave every player the
    same answer of [hasLegalMoves]. *)
Theorem X2_applyMove_copies_equivalent (b1 b2 : Board) (cell : Z)
    (size : Size) (color : Color) :
  sameTops b1 b2 →
  match GameLogic.applyMove b1 cell size color,
        GameLogic.applyMove' b2 cell size color with
  | Some b1', Some b2' =>
      sameTops b1' b2'
      ∧ (∀ c, GameLogic.checkWinConditions b1' c
              = GameLogic.checkWinConditions b2' c)
      ∧ (∀ p, GameLogic.hasLegalMoves b1' p = GameLogic.hasLegalMoves b2' p)
  | None, None => True
  | _, _ => False
  end.
Proof.
  intros H. unfold GameLogic.applyMove, GameLogic.applyMove'.
  rewrite isLegalMove_copies_agree.
  rewrite <- (sameTops_isLegalMove b1 b2 cell size (Some color) (Some color) H).
  destruct (GameLogic.isLegalMove b1 cell size (Some color)) eqn:Hlegal;
    cbn [negb]; [|done].
  pose proof (isLegalMove_range _ _ _ _ Hlegal) as Hrange.
  destruct (boardAt_in_range b1 cell Hrange) as [cv1 Hcv1].
  destruct (boardAt_in_range b2 cell Hrange) as [cv2 Hcv2].
  rewrite Hcv2.
  rewrite isLegalMove_top, Hcv1 in Hlegal.
  pose proof (H cell) as Hcell. rewrite Hcv1, Hcv2 in Hcell.
  simpl in Hcell. injection Hcell as Hcell.
  match goal with
  | |- sameTops ?x ?y ∧ _ => assert (sameTops x y) as Hsame
  end.
  { intros i. destruct (decide (i = cell)) as [->|Hne].
    - rewrite (boardAt_boardPlace_same _ _ _ _ _ Hcv1).
      rewrite boardAt_boardSet by done. rewrite decide_True by done.
      simpl. f_equal.
      destruct cv1 as [[p1|] [m1|] [g1|]], cv2 as [[p2|] [m2|] [g2|]], size;
        simpl in *; done.
    - rewrite boardAt_boardPlace_other by done.
      rewrite boardAt_boardSet by done. rewrite decide_False by done.
      apply H. }
  split; [done|]. split.
  - intros c. by apply sameTops_checkWinConditions.
  - intros p. by apply sameTops_hasLegalMoves.
Qed.

Lemma X2_applyMove_copies_equivalent_witness :
  sameTops boardRedRow boardRedRowHidden
  ∧ match GameLogic.applyMove boardRedRow 4 P blue,
          GameLogic.applyMove' boardRedRowHidden 4 P blue with
    | Some b1', Some b2' =>
        sameTops b1' b2'
        ∧ (∀ c, GameLogic.checkWinConditions b1' c
                = GameLogic.checkWinConditions b2' c)
        ∧ (∀ p, GameLogic.hasLegalMoves b1' p
                = GameLogic.hasLegalMoves b2' p)
    | None, None => True
    | _, _ => False
    end.
Proof.
  assert (sameTops boardRedRow boardRedRowHidden) as H.
  { intros i.
    destruct (decide (0 ≤ i ≤ 8)%Z) as [Hr|Hr].
    - assert (i = 0 ∨ i = 1 ∨ i = 2 ∨ i = 3 ∨ i = 4 ∨ i = 5 ∨ i = 6
              ∨ i = 7 ∨ i = 8)%Z as Hi by lia.
      destruct Hi as [->|[->|[->|[->|[->|[->|[->|[->| ->]]]]]]]];
        reflexivity.
    - destruct i as [|i|i]; try reflexivity; try lia.
      do 4 (destruct i as [i|i|]; try reflexivity; try lia). }
  split; [exact H|].
  exact (X2_applyMove_copies_equivalent boardRedRow boardRedRowHidden 4 P
           blue H).
Defined.

(* ===================================================================== *)
(** * Part IV. Further properties of the match engine                     *)
(* ===================================================================== *)

(** The store after the seats of [skipped] were passed over, one after
    the other. *)
Lemma passOver_length skipped :
  ∀ h, length (passOver skipped h) = length h.
Proof. apply fold_mutate_length. Qed.

Lemma passOver_skipEq skipped : ∀ h, skipEq h (passOver skipped h).
Proof.
  induction skipped as [|x sk IH]; intros h; [apply skipEq_refl|].
  simpl. eapply skipEq_trans; [apply skipEq_incrementSkips|apply IH].
Qed.

Lemma passOver_other skipped h l :
  l ∉ skipped → deref (passOver skipped h) l = deref h l.
Proof. apply fold_mutate_other. Qed.

Lemma passOver_once skipped :
  ∀ h l, NoDup skipped → l ∈ skipped → (l < length h)%nat →
    deref (passOver skipped h) l = Player.incrementSkips (deref h l).
Proof.
  induction skipped as [|x sk IH]; intros h l Hnd Hin Hl.
  - by apply elem_of_nil in Hin.
  - apply NoDup_cons in Hnd as [Hx Hnd]. simpl.
    apply elem_of_cons in Hin as [->|Hin].
    + unfold passOver in *. rewrite fold_mutate_other by done.
      by apply deref_mutate_eq.
    + rewrite IH; [|done|done|by rewrite length_mutate].
      rewrite deref_mutate_ne; [done|]. intros ->. done.
Qed.

(** Turn advancement from an active current seat [c], with the exact
    store it leaves: the seats of the scan before the first seat with a
    legal move were passed over once each, in scan order. *)
Lemma moveToNextPlayer_core_exact now skipped :
  ∀ fuel h g pre c post w rest,
    Game.getActivePlayers h g = pre ++ c :: post →
    NoDup (ids h (pre ++ c :: post)) →
    Game.currentPlayerId g = Some (Player.id (deref h c)) →
    post ++ pre ++ [c] = skipped ++ w :: rest →
    Forall (fun l => GameLogic.hasLegalMoves (Game.board g) (deref h l)
                     = false) skipped →
    GameLogic.hasLegalMoves (Game.board g) (deref h w) = true →
    (length skipped < fuel)%nat →
    Game.moveToNextPlayer fuel now h g
    = Some (passOver skipped h,
            Game.startTurn now
              (Game.set_currentPlayerId g (Some (Player.id (deref h w))))).
Proof.
  induction skipped as [|x sk IH];
    intros fuel h g pre c post w rest Hact Hnd Hcur Hrot Hsk Hw Hfuel.
  - destruct fuel as [|fuel]; [simpl in Hfuel; lia|].
    simpl in Hrot. simpl. rewrite Hact.
    rewrite length_app_cons_eqb.
    assert (In w (pre ++ c :: post)) as Hin.
    { assert (In w (post ++ pre ++ [c])) as H by (rewrite Hrot; by left).
      rewrite !in_app_iff in H. simpl in H. rewrite in_app_iff. simpl.
      tauto. }
    rewrite (filter_length_pos _ _ w Hin Hw).
    rewrite Hcur.
    unfold Game.getActivePlayers in Hact.
    rewrite (getNextPlayer_rotation h (Game.players g) pre c post Hact Hnd).
    rewrite Hrot. simpl. rewrite Hw. simpl. done.
  - destruct fuel as [|fuel]; [simpl in Hfuel; lia|].
    simpl in Hrot.
    destruct (rotation_step pre c post x (sk ++ w :: rest) Hrot)
      as (pre2 & post2 & Hsplit & Hrot2).
    assert (In w (pre ++ c :: post)) as Hin.
    { assert (In w (post ++ pre ++ [c])) as H.
      { rewrite Hrot. right. apply in_app_iff. right. by left. }
      rewrite !in_app_iff in H. simpl in H. rewrite in_app_iff. simpl.
      tauto. }
    apply Forall_cons in Hsk as [Hx Hsk].
    simpl. rewrite Hact.
    rewrite length_app_cons_eqb.
    rewrite (filter_length_pos _ _ w Hin Hw).
    rewrite Hcur.
    pose proof Hact as Hact'. unfold Game.getActivePlayers in Hact'.
    rewrite (getNextPlayer_rotation h (Game.players g) pre c post Hact' Hnd).
    rewrite Hrot. simpl. rewrite Hx. simpl.
    pose proof (skipEq_incrementSkips h x) as Heq.
    set (h1 := mutate Player.incrementSkips x h) in *.
    set (g1 := Game.set_currentPlayerId g (Some (Player.id (deref h x)))).
    rewrite (IH fuel h1 g1 pre2 x post2 w (rest ++ [x])).
    + by rewrite (skipEq_id h h1 w Heq).
    + rewrite (skipEq_getActivePlayers h h1 g1 Heq).
      unfold Game.getActivePlayers in *. simpl. by rewrite Hact', Hsplit.
    + rewrite (skipEq_ids h h1 _ Heq). by rewrite <- Hsplit.
    + simpl. by rewrite (skipEq_id h h1 x Heq).
    + rewrite Hrot2. by rewrite <- app_assoc.
    + apply Forall_forall. intros l Hl. simpl.
      rewrite (skipEq_hasLegalMoves h h1 _ l Heq).
      rewrite Forall_forall in Hsk. by apply Hsk.
    + simpl. by rewrite (skipEq_hasLegalMoves h h1 _ w Heq).
    + simpl in Hfuel. lia.
Qed.

Lemma uniqueIds_NoDup h ls : uniqueIds h ls → NoDup ls.
Proof. unfold uniqueIds, ids. apply NoDup_fmap_1. Qed.

Lemma uniqueIds_inj h ls l1 l2 :
  uniqueIds h ls → l1 ∈ ls → l2 ∈ ls →
  Player.id (deref h l1) = Player.id (deref h l2) → l1 = l2.
Proof.
  unfold uniqueIds, ids. intros Hnd H1 H2 Heq.
  apply list_elem_of_lookup in H1 as [i Hi].
  apply list_elem_of_lookup in H2 as [j Hj].
  assert (i = j) as ->.
  { eapply NoDup_lookup; [exact Hnd| |].
    - rewrite list_lookup_fmap, Hi. reflexivity.
    - rewrite list_lookup_fmap, Hj. simpl. by rewrite Heq. }
  congruence.
Qed.

Lemma elem_of_active h g l :
  l ∈ Game.getActivePlayers h g
  ↔ l ∈ Game.players g ∧ Player.active (deref h l) = true.
Proof.
  unfold Game.getActivePlayers. rewrite !list_elem_of_In, filter_In. tauto.
Qed.

Lemma rotation_last_not_in_prefix {A} (pre : list A) (c : A)
    (post sk : list A) (w : A) (rest : list A) :
  NoDup (pre ++ c :: post) →
  post ++ pre ++ [c] = sk ++ w :: rest →
  NoDup sk ∧ (c ∉ sk) ∧ (w ∉ sk)
  ∧ (∀ x, x ∈ sk ++ [w] → x ∈ pre ++ c :: post).
Proof.
  intros Hnd Hrot.
  assert (NoDup (post ++ pre ++ [c])) as Hnd'.
  { assert (post ++ pre ++ [c] ≡ₚ pre ++ c :: post) as HP.
    { rewrite (Permutation_app_comm post (pre ++ [c])).
      by rewrite <- app_assoc. }
    by rewrite HP. }
  rewrite Hrot in Hnd'.
  apply NoDup_app in Hnd' as (Hsk & Hdisj & Hwr).
  split; [done|].
  assert (c ∈ w :: rest) as Hc.
  { assert (last (post ++ pre ++ [c]) = Some c) as Hl
      by (by rewrite app_assoc, last_snoc).
    rewrite Hrot in Hl. rewrite last_app in Hl. simpl in Hl.
    destruct (last (w :: rest)) as [z|] eqn:Hz.
    - injection Hl as ->. apply last_Some in Hz as [l' Hz]. rewrite Hz.
      apply elem_of_app. right. by apply list_elem_of_singleton.
    - by apply last_None in Hz. }
  split; [intros Hin; by apply (Hdisj c)|].
  split; [intros Hin; apply (Hdisj w Hin); by left|].
  intros x Hx.
  assert (x ∈ post ++ pre ++ [c]) as Hx'.
  { rewrite Hrot. apply elem_of_app in Hx as [Hx|Hx].
    - apply elem_of_app. by left.
    - apply list_elem_of_singleton in Hx as ->. apply elem_of_app. right. by left. }
  rewrite !elem_of_app in Hx'. rewrite elem_of_app, elem_of_cons.
  rewrite list_elem_of_singleton in Hx'. tauto.
Qed.

(** What turn advancement returns, and the store it leaves.  With pairwise
    distinct seat ids it returns within its budget, and
    - with no active seat it ends the match without a result;
    - with no active seat that has a legal move it ends the match in a
      draw;
    - otherwise it gives the turn to an active seat [w] that has a legal
      move, after passing over, once each, pairwise distinct active seats
      that have none; the seat that held the turn is not among them. *)
Lemma moveToNextPlayer_result now h g :
  uniqueIds h (Game.players g) →
  ∃ h' g',
    Game.moveToNextPlayer (Game.budget g) now h g = Some (h', g')
    ∧ ((h' = h ∧ Game.getActivePlayers h g = []
        ∧ g' = Game.finish now g)
       ∨ (h' = h
          ∧ Forall (fun l => GameLogic.hasLegalMoves (Game.board g)
                               (deref h l) = false)
                   (Game.getActivePlayers h g)
          ∧ g' = Game.finish now (Game.set_isDraw g true))
       ∨ ∃ skipped w,
           h' = passOver skipped h
           ∧ g' = Game.startTurn now
                    (Game.set_currentPlayerId g
                       (Some (Player.id (deref h w))))
           ∧ NoDup skipped
           ∧ Forall (fun l =>
                       l ∈ Game.getActivePlayers h g
                       ∧ GameLogic.hasLegalMoves (Game.board g) (deref h l)
                         = false) skipped
           ∧ w ∈ Game.getActivePlayers h g
           ∧ GameLogic.hasLegalMoves (Game.board g) (deref h w) = true
           ∧ (∀ c, c ∈ Game.players g →
                   Game.currentPlayerId g = Some (Player.id (deref h c)) →
                   c ∉ skipped)).
Proof.
  intros Huniq.
  pose proof (NoDup_ids_filter h (fun l => Player.active (deref h l))
                (Game.players g) Huniq) as Hnd.
  pose proof (filter_length_le (fun l => Player.active (deref h l))
                (Game.players g)) as Hlen.
  fold (Game.getActivePlayers h g) in Hnd, Hlen.
  destruct (findIndex_cases
              (fun l => GameLogic.idIs (Game.currentPlayerId g) (deref h l))
              (Game.getActivePlayers h g))
    as [(pre & c & post & Hact & Hpre & Hc) | Hall].
  - apply bool_decide_eq_true in Hc. symmetry in Hc.
    rewrite Hact in Hnd, Hlen.
    destruct (List.find
                (fun l => GameLogic.hasLegalMoves (Game.board g) (deref h l))
                (post ++ pre ++ [c])) as [w|] eqn:Hfind.
    + destruct (find_split _ _ _ Hfind) as (sk & rest & Hrot & Hsk & Hw).
      destruct (rotation_last_not_in_prefix pre c post sk w rest
                  (uniqueIds_NoDup h _ Hnd) Hrot)
        as (Hndsk & Hcsk & Hwsk & Hsub).
      exists (passOver sk h). eexists. split.
      { apply (moveToNextPlayer_core_exact now sk (Game.budget g) h g
                 pre c post w rest); try done.
        assert (length (post ++ pre ++ [c]) = length (pre ++ c :: post))
          as HL by (rewrite !length_app; simpl; lia).
        rewrite Hrot, length_app in HL. simpl in HL.
        unfold Game.budget. lia. }
      right. right. exists sk, w. rewrite Hact.
      split; [done|]. split; [done|]. split; [done|]. split.
      { apply Forall_forall. intros l Hl. split.
        - apply Hsub. apply elem_of_app. by left.
        - rewrite Forall_forall in Hsk. by apply Hsk. }
      split. { apply Hsub. apply elem_of_app. right. by left. }
      split; [done|].
      intros c' Hc' Hcur.
      assert (c' = c) as ->; [|done].
      apply (uniqueIds_inj h (Game.players g)); try done.
      * assert (c ∈ Game.getActivePlayers h g) as Hin.
        { rewrite Hact. apply elem_of_app. right. by left. }
        by apply elem_of_active in Hin as [? _].
      * congruence.
    + pose proof (moveToNextPlayer_from_active now (Game.budget g) h g
                    pre c post Hact Hnd Hc) as H.
      unfold Game.budget in *. specialize (H ltac:(lia)).
      rewrite Hfind in H.
      eexists _, _. split; [exact H|]. right. left.
      split; [done|]. split; [|done].
      apply find_none_Forall in Hfind. rewrite Hact.
      rewrite !Forall_app in Hfind. destruct Hfind as (Hpost & Hpre' & Hc').
      apply Forall_app. split; [done|]. apply Forall_cons.
      split; [by apply Forall_inv in Hc'|done].
  - unfold Game.budget. simpl.
    destruct (Game.getActivePlayers h g) as [|a0 tl] eqn:Hact.
    { eexists _, _. split; [reflexivity|]. by left. }
    simpl.
    match goal with
    | |- context [Nat.eqb ?n 0] => destruct (Nat.eqb n 0) eqn:Hmoves
    end.
    { eexists _, _. split; [reflexivity|]. right. left.
      split; [done|]. split; [|done].
      apply Nat.eqb_eq in Hmoves. apply length_zero_iff_nil in Hmoves.
      apply Forall_forall. intros l Hl.
      destruct (GameLogic.hasLegalMoves (Game.board g) (deref h l)) eqn:E;
        [|done].
      assert (In l (List.filter
                (fun l => GameLogic.hasLegalMoves (Game.board g) (deref h l))
                (a0 :: tl))) as Hin.
      { apply filter_In. split; [by apply list_elem_of_In|done]. }
      simpl in Hin. rewrite Hmoves in Hin. destruct Hin. }
    pose proof Hact as Hact0. unfold Game.getActivePlayers in Hact.
    rewrite (getNextPlayer_fallback h (Game.players g)
               (Game.currentPlayerId g)) by (by rewrite Hact).
    rewrite Hact. simpl.
    assert (∀ c, c ∈ Game.players g →
                 Game.currentPlayerId g = Some (Player.id (deref h c)) →
                 c ∉ a0 :: tl) as Hcurrent.
    { intros c Hc Hcur Hin. rewrite Forall_forall in Hall.
      specialize (Hall c Hin). simpl in Hall.
      apply bool_decide_eq_false in Hall. by rewrite Hcur in Hall. }
    destruct (GameLogic.hasLegalMoves (Game.board g) (deref h a0)) eqn:Ha0;
      simpl.
    { eexists _, _. split; [reflexivity|]. right. right. exists [], a0.
      split; [done|]. split; [done|]. split; [constructor|].
      split; [constructor|]. split; [by left|]. split; [done|].
      intros c _ _. apply not_elem_of_nil. }
    pose proof (skipEq_incrementSkips h a0) as Heq.
    set (h1 := mutate Player.incrementSkips a0 h) in *.
    set (g1 := Game.set_currentPlayerId g (Some (Player.id (deref h a0)))).
    assert (Game.getActivePlayers h1 g1 = [] ++ a0 :: tl) as Hact1.
    { rewrite (skipEq_getActivePlayers h h1 g1 Heq).
      unfold Game.getActivePlayers. simpl. done. }
    assert (NoDup (ids h1 ([] ++ a0 :: tl))) as Hnd1.
    { rewrite (skipEq_ids h h1 _ Heq). done. }
    assert (Game.currentPlayerId g1 = Some (Player.id (deref h1 a0)))
      as Hcur1.
    { simpl. by rewrite (skipEq_id h h1 a0 Heq). }
    destruct (List.find
                (fun l => GameLogic.hasLegalMoves (Game.board g1)
                            (deref h1 l))
                (tl ++ [] ++ [a0])) as [w|] eqn:Hfind.
    + destruct (find_split _ _ _ Hfind) as (sk & rest & Hrot & Hsk & Hw).
      destruct (rotation_last_not_in_prefix [] a0 tl sk w rest
                  (uniqueIds_NoDup h1 _ Hnd1) Hrot)
        as (Hndsk & Hcsk & Hwsk & Hsub).
      exists (passOver (a0 :: sk) h). eexists. split.
      { simpl. fold h1.
        rewrite (moveToNextPlayer_core_exact now sk
                   (length (Game.players g)) h1 g1 [] a0 tl w rest);
          try done.
        assert (length (tl ++ [] ++ [a0]) = length (a0 :: tl))
          as HL by (rewrite !length_app; simpl; lia).
        rewrite Hrot, length_app in HL. simpl in HL, Hlen. lia. }
      right. right. exists (a0 :: sk), w.
      split; [done|]. split.
      { simpl. by rewrite (skipEq_id h h1 w Heq). }
      split; [by apply NoDup_cons|]. split.
      { apply Forall_cons. split; [split; [by left|done]|].
        apply Forall_forall. intros l Hl. split.
        - apply (Hsub l). apply elem_of_app. by left.
        - rewrite Forall_forall in Hsk. specialize (Hsk l Hl). simpl in Hsk.
          by rewrite (skipEq_hasLegalMoves h h1 _ l Heq) in Hsk. }
      split. { apply (Hsub w). apply elem_of_app. right. by left. }
      split. { simpl in Hw.
               by rewrite (skipEq_hasLegalMoves h h1 _ w Heq) in Hw. }
      intros c Hc Hcur Hin. apply (Hcurrent c Hc Hcur).
      apply elem_of_cons in Hin as [->|Hin]; [by left|].
      apply (Hsub c). apply elem_of_app. by left.
    + exfalso. apply find_none_Forall in Hfind.
      apply Nat.eqb_neq in Hmoves. apply Hmoves.
      apply length_zero_iff_nil.
      assert (Forall
                (fun l => GameLogic.hasLegalMoves (Game.board g) (deref h l)
                          = false) (a0 :: tl)) as Hno.
      { apply Forall_cons. split; [done|].
        apply Forall_app in Hfind as [Htl _].
        apply Forall_forall. intros l Hl. rewrite Forall_forall in Htl.
        specialize (Htl l Hl). simpl in Htl.
        by rewrite (skipEq_hasLegalMoves h h1 _ l Heq) in Htl. }
      apply Forall_cons in Hno as [_ Hno]. clear -Hno.
      induction Hno as [|x l Hx Hl IH]; [done|].
      simpl. by rewrite Hx.
Qed.

(** An accepted move, taken apart: the acceptance condition held, the
    piece was written, and the match ended with a win, ended with a draw,
    or turn advancement ran. *)
Lemma step_move_cases now pid cell size h g h' g' :
  step now (OpMove pid cell size) (h, g) = Some (h', g') →
  ∃ l,
    Game.findPlayer h g (Some pid) = Some l
    ∧ moveAccepted h g pid cell size
    ∧ let s1 := afterPlacing cell size l (h, g) in
      (h' = s1.1
       ∧ GameLogic.checkWinConditions (Game.board s1.2)
           (Player.color (deref h l)) = true
       ∧ g' = Game.finish now
                (Game.set_winnerId s1.2 (Some (Player.id (deref h l)))))
      ∨ (h' = s1.1
         ∧ GameLogic.checkWinConditions (Game.board s1.2)
             (Player.color (deref h l)) = false
         ∧ GameLogic.isDraw s1.1 (Game.board s1.2) (Game.players s1.2)
           = true
         ∧ g' = Game.finish now (Game.set_isDraw s1.2 true))
      ∨ (GameLogic.checkWinConditions (Game.board s1.2)
           (Player.color (deref h l)) = false
         ∧ GameLogic.isDraw s1.1 (Game.board s1.2) (Game.players s1.2)
           = false
         ∧ Game.moveToNextPlayer (Game.budget s1.2) now s1.1 s1.2
           = Some (h', g')).
Proof.
  unfold step, Game.applyMove. cbn [fst snd].
  destruct (Game.isValidMove h g pid cell size) eqn:Hv; cbn [negb];
    [|discriminate].
  pose proof (proj1 (isValidMove_spec _ _ _ _ _) Hv) as Hacc.
  pose proof Hacc as (Hs & Hc & l & Hfind & He & Hi & Hlegal).
  rewrite Hfind. unfold Player.usePiece, Player.hasPiece.
  rewrite (proj2 (Z.ltb_lt _ _) Hi). cbn [negb].
  intros Hstep. exists l. split; [done|]. split; [done|].
  unfold afterPlacing. cbn [fst snd].
  destruct (GameLogic.checkWinConditions _ _) eqn:Hwin.
  { injection Hstep as <- <-. by left. }
  destruct (GameLogic.isDraw _ _ _) eqn:Hdraw.
  { injection Hstep as <- <-. right. by left. }
  right. right. split; [done|]. split; [done|].
  destruct (Game.moveToNextPlayer _ _ _ _) as [[h2 g2]|]; [|discriminate].
  by injection Hstep as <- <-.
Qed.

(** An executed skip, taken apart: the match was Playing with a seat on
    turn, the skip was recorded on that seat, turn advancement ran, and
    [skipTurn] then checked the number of active seats. *)
Lemma step_skip_cases now op h g h' g' :
  op = OpSkipTurn ∨ op = OpSkipCurrentPlayer →
  step now op (h, g) = Some (h', g') →
  Game.status g = playing
  ∧ truthy (Game.currentPlayerId g) = true
  ∧ ∃ g2,
      Game.moveToNextPlayer (Game.budget g) now (afterForcedSkip (h, g)) g
      = Some (h', g2)
      ∧ (g' = g2
         ∨ (op = OpSkipTurn ∧ g' = Game.checkGameEnd now h' g2
            ∧ ∃ l, Game.getCurrentPlayer h g = Some l)).
Proof.
  intros [-> | ->]; unfold step; cbn [fst snd].
  - unfold Game.skipTurn, afterForcedSkip. cbn [fst snd].
    destruct (bool_decide (Game.status g = playing)) eqn:Hs;
      [|discriminate].
    destruct (truthy (Game.currentPlayerId g)) eqn:Ht; [|discriminate].
    cbn [negb orb].
    destruct (Game.getCurrentPlayer h g) as [l|]; [|discriminate].
    destruct (Game.moveToNextPlayer _ _ _ _) as [[h2 g2]|]; [|discriminate].
    intros [= <- <-]. apply bool_decide_eq_true in Hs.
    split; [done|]. split; [done|]. exists g2. split; [done|].
    right. split; [done|]. split; [done|]. by exists l.
  - unfold Game.skipCurrentPlayer, afterForcedSkip. cbn [fst snd].
    destruct (bool_decide (Game.status g = playing)) eqn:Hs;
      [|discriminate].
    destruct (truthy (Game.currentPlayerId g)) eqn:Ht; [|discriminate].
    cbn [negb orb andb].
    intros Hrun. apply bool_decide_eq_true in Hs.
    split; [done|]. split; [done|]. exists g'. split; [done|]. by left.
Qed.

Lemma sameIdentity_refl p : sameIdentity p p.
Proof. by repeat split. Qed.

Lemma sameIdentity_trans p q r :
  sameIdentity p q → sameIdentity q r → sameIdentity p r.
Proof.
  intros (?&?&?&?&?) (?&?&?&?&?). repeat split; congruence.
Qed.

Lemma skipEq_sameIdentity h h' l :
  skipEq h h' → sameIdentity (deref h l) (deref h' l).
Proof. intros [_ H]. destruct (H l) as (?&?&?&?&?&?&?). by repeat split. Qed.

Lemma mutate_sameIdentity (f : Player.t → Player.t) l h l' :
  sameIdentity (deref h l) (f (deref h l)) →
  sameIdentity (deref h l') (deref (mutate f l h) l').
Proof.
  intros H. rewrite deref_mutate.
  destruct (decide _) as [[-> _]|_]; [done|apply sameIdentity_refl].
Qed.

Lemma skipAndMaybeEliminate_sameIdentity p :
  sameIdentity p (Game.skipAndMaybeEliminate p).
Proof.
  unfold Game.skipAndMaybeEliminate. by destruct (_ <=? _)%Z.
Qed.

Lemma afterForcedSkip_sameIdentity h g l :
  sameIdentity (deref h l) (deref (afterForcedSkip (h, g)) l).
Proof.
  unfold afterForcedSkip. cbn [fst snd].
  destruct (Game.getCurrentPlayer h g); [|apply sameIdentity_refl].
  apply mutate_sameIdentity, skipAndMaybeEliminate_sameIdentity.
Qed.

Lemma afterPlacing_sameIdentity cell size l h g l' :
  sameIdentity (deref h l') (deref (afterPlacing cell size l (h, g)).1 l').
Proof.
  unfold afterPlacing. cbn [fst snd].
  by apply (mutate_sameIdentity
              (fun _ => Player.resetSkips
                          (Player.set_inventory (deref h l)
                             (decrement (Player.inventory (deref h l))
                                        size)))).
Qed.

(** No operation of the match changes the id, the nickname, the colour,
    the connection flag or the host flag of a record, nor the seat list. *)
Lemma step_identity now op h g h' g' :
  step now op (h, g) = Some (h', g') →
  ∀ l, sameIdentity (deref h l) (deref h' l).
Proof.
  intros Hstep l. destruct op as [pid cell size| |].
  - destruct (step_move_cases _ _ _ _ _ _ _ _ Hstep)
      as (lm & _ & _ & Hcases).
    pose proof (afterPlacing_sameIdentity cell size lm h g l) as H1.
    destruct Hcases as [(-> & _)|[(-> & _)|(_ & _ & Hrun)]]; try done.
    apply moveToNextPlayer_frame in Hrun as (Heq & _).
    eapply sameIdentity_trans; [exact H1|by apply skipEq_sameIdentity].
  - destruct (step_skip_cases _ _ _ _ _ _ (or_introl eq_refl) Hstep)
      as (_ & _ & g2 & Hrun & _).
    apply moveToNextPlayer_frame in Hrun as (Heq & _).
    eapply sameIdentity_trans; [apply afterForcedSkip_sameIdentity|].
    by apply skipEq_sameIdentity.
  - destruct (step_skip_cases _ _ _ _ _ _ (or_intror eq_refl) Hstep)
      as (_ & _ & g2 & Hrun & _).
    apply moveToNextPlayer_frame in Hrun as (Heq & _).
    eapply sameIdentity_trans; [apply afterForcedSkip_sameIdentity|].
    by apply skipEq_sameIdentity.
Qed.

Lemma sameIdentity_map {A} (proj : Player.t → A) h h' (ls : list loc) :
  (∀ l, proj (deref h' l) = proj (deref h l)) →
  map (fun l => proj (deref h' l)) ls = map (fun l => proj (deref h l)) ls.
Proof. intros H. apply map_ext. intros l. apply H. Qed.

Lemma matchWf_step now op h g h' g' :
  matchWf h g → step now op (h, g) = Some (h', g') → matchWf h' g'.
Proof.
  intros (Hv & Hu & Hid & Hlen & Hcol) Hstep.
  destruct (step_footprint _ _ _ _ _ _ Hstep) as (Hp & Hl & _).
  pose proof (step_identity _ _ _ _ _ _ Hstep) as Hsame.
  unfold matchWf. rewrite Hp.
  split. { unfold validLocs in *. by rewrite Hl. }
  split.
  { unfold uniqueIds, ids in *.
    rewrite (sameIdentity_map Player.id h h'); [done|].
    intros l. by destruct (Hsame l) as (-> & _). }
  split.
  { eapply Forall_impl; [exact Hid|]. intros l Hne. simpl.
    by destruct (Hsame l) as (<- & _). }
  split; [done|].
  rewrite (sameIdentity_map Player.color h h'); [done|].
  intros l. by destruct (Hsame l) as (_ & _ & -> & _).
Qed.

Lemma matchWf_initialize now rnd uuid src h g0 h1 g1 :
  validLocs h src → uniqueIds h src →
  Forall (fun l => validPlayer (deref h l)) src →
  Game.initialize now rnd uuid src h g0 = Some (h1, g1) →
  matchWf h1 g1
  ∧ Game.board g1 = GameLogic.createEmptyBoard
  ∧ Game.status g1 = playing
  ∧ Game.winnerId g1 = None ∧ Game.isDraw g1 = false
  ∧ Game.finishedAt g1 = None ∧ Game.turnStartTime g1 = Some now
  ∧ (∃ l, l ∈ Game.players g1
          ∧ Game.currentPlayerId g1 = Some (Player.id (deref h1 l)))
  ∧ ∀ l, l ∈ Game.players g1 →
         Player.inventory (deref h1 l) = mkInventory 3 3 3
         ∧ Player.isEliminated (deref h1 l) = false
         ∧ Player.skipsInARow (deref h1 l) = 0%Z.
Proof.
  intros Hv Hu Hvalid. unfold Game.initialize.
  destruct (Nat.ltb (length src) 2 || Nat.ltb 4 (length src)) eqn:Hlen;
    [discriminate|].
  apply orb_false_iff in Hlen as [H2 H4].
  apply Nat.ltb_ge in H2, H4.
  destruct (mapNewPlayers_spec uuid src 0 h Hv Hvalid ltac:(simpl; lia))
    as (recs & Hmap & Hrecs & Hseat).
  rewrite Hmap. cbv zeta. rewrite length_seq.
  match goal with
  | |- context [match ?x with Some _ => _ | None => _ end] =>
      destruct x as [lc|] eqn:Hlc; [|discriminate]
  end.
  intros [= <- <-]. unfold matchWf. cbn [fst snd Game.board Game.players Game.status Game.winnerId
    Game.isDraw Game.finishedAt Game.turnStartTime Game.currentPlayerId].
  assert (∀ i lg, seq (length h) (length src) !! i = Some lg →
            ∃ lr c, src !! i = Some lr ∧ availableColors !! i = Some c
                    ∧ lg = (length h + i)%nat
                    ∧ deref (h ++ recs) lg = matchRecord c (deref h lr))
    as Hseq.
  { intros i lg Hi. apply lookup_seq in Hi as [-> Hi].
    destruct (lookup_lt_is_Some_2 src i Hi) as [lr Hlr].
    destruct (Hseat i lr Hlr) as (c & Hc & Hrec).
    exists lr, c. split; [done|]. split; [done|]. split; [done|].
    by apply deref_app_r. }
  assert (∀ (proj : Player.t → string),
            (∀ c p, proj (matchRecord c p) = proj p) →
            map (fun l => proj (deref (h ++ recs) l))
                (seq (length h) (length src))
            = map (fun l => proj (deref h l)) src) as Hproj.
  { intros proj Hp. apply list_eq. intros i.
    rewrite !list_lookup_fmap. unfold loc in *.
    destruct (seq (length h) (length src) !! i) as [lg|] eqn:Hi.
    - destruct (Hseq i lg Hi) as (lr & c & Hlr & _ & _ & Hd).
      rewrite Hlr. simpl. by rewrite Hd, Hp.
    - apply lookup_ge_None in Hi. rewrite length_seq in Hi.
      by rewrite (proj2 (lookup_ge_None src i) Hi). }
  split; [|split; [done|split; [done|split; [done|split; [done|
          split; [done|split; [done|split]]]]]]].
  - split.
    { apply Forall_forall. intros l Hl. apply elem_of_seq in Hl.
      rewrite length_app. lia. }
    split. { unfold uniqueIds, ids. by rewrite (Hproj Player.id). }
    split.
    { apply Forall_forall. intros l Hl.
      apply list_elem_of_lookup in Hl as [i Hi].
      destruct (Hseq i l Hi) as (lr & c & Hlr & _ & _ & Hd).
      rewrite Hd. simpl. rewrite Forall_forall in Hvalid.
      apply (Hvalid lr). by apply list_elem_of_lookup_2 in Hlr. }
    split; [rewrite length_seq; lia|].
    rewrite length_seq. apply list_eq. intros i.
    rewrite list_lookup_fmap. unfold loc in *.
    destruct (seq (length h) (length src) !! i) as [lg|] eqn:Hi.
    + destruct (Hseq i lg Hi) as (lr & c & Hlr & Hc & _ & Hd). simpl.
      rewrite Hd. simpl.
      apply lookup_seq in Hi as [_ Hi]. by rewrite lookup_take_lt.
    + apply lookup_ge_None in Hi. rewrite length_seq in Hi. simpl.
      symmetry. apply lookup_ge_None. rewrite length_take. lia.
  - exists lc. split; [by apply list_elem_of_lookup_2 in Hlc|done].
  - intros l Hl. apply list_elem_of_lookup in Hl as [i Hi].
    destruct (Hseq i l Hi) as (lr & c & _ & _ & _ & Hd). by rewrite Hd.
Qed.

(** Every reachable match state satisfies the structural invariant. *)
Lemma reachable_matchWf s : reachable s → matchWf s.1 s.2.
Proof.
  induction 1 as [now rnd uuid src h g0 h1 g1 Hv Hu Hvalid Hinit
                 |now op [h g] [h' g'] _ IH Hstep].
  - by destruct (matchWf_initialize _ _ _ _ _ _ _ _ Hv Hu Hvalid Hinit).
  - by apply (matchWf_step now op h g).
Qed.

Lemma checkGameEnd_board now h g :
  Game.board (Game.checkGameEnd now h g) = Game.board g.
Proof.
  unfold Game.checkGameEnd.
  destruct (Nat.ltb _ 2); [|done].
  destruct (Nat.eqb _ 1); [|done].
  by destruct (_ !! 0).
Qed.

Lemma skipEq_inventory h h' l :
  skipEq h h' → Player.inventory (deref h' l) = Player.inventory (deref h l).
Proof. intros [_ H]. by destruct (H l) as (_&_&_&->&_). Qed.

Lemma afterForcedSkip_inventory h g l :
  Player.inventory (deref (afterForcedSkip (h, g)) l)
  = Player.inventory (deref h l).
Proof.
  unfold afterForcedSkip. cbn [fst snd].
  destruct (Game.getCurrentPlayer h g); [|done].
  apply deref_mutate_proj. intros p. unfold Game.skipAndMaybeEliminate.
  by destruct (_ <=? _)%Z.
Qed.

(** What an operation does to the board and to the stocks: an accepted
    move writes one piece of the mover into an empty slot and takes it
    from the mover's stock; a skip changes neither. *)
Lemma step_board_stock now op h g h' g' :
  validLocs h (Game.players g) →
  step now op (h, g) = Some (h', g') →
  (∃ pid cell size l,
     op = OpMove pid cell size
     ∧ l ∈ Game.players g
     ∧ (0 ≤ cell ≤ 8)%Z
     ∧ GameLogic.isLegalMove (Game.board g) cell size None = true
     ∧ (0 < count (Player.inventory (deref h l)) size)%Z
     ∧ Game.board g'
       = boardPlace (Game.board g) cell size (Player.color (deref h l))
     ∧ Player.inventory (deref h' l)
       = decrement (Player.inventory (deref h l)) size
     ∧ ∀ l', l' ≠ l →
             Player.inventory (deref h' l') = Player.inventory (deref h l'))
  ∨ ((op = OpSkipTurn ∨ op = OpSkipCurrentPlayer)
     ∧ Game.board g' = Game.board g
     ∧ ∀ l, Player.inventory (deref h' l) = Player.inventory (deref h l)).
Proof.
  intros Hv Hstep. destruct op as [pid cell size| |].
  - left.
    destruct (step_move_cases _ _ _ _ _ _ _ _ Hstep)
      as (l & Hfind & Hacc & Hcases).
    destruct Hacc as (_ & _ & l0 & Hfind0 & _ & Hi & Hlegal).
    assert (l0 = l) as -> by congruence.
    pose proof (findPlayer_elem _ _ _ _ Hfind) as Hin.
    assert (l < length h)%nat as Hl.
    { unfold validLocs in Hv. rewrite Forall_forall in Hv. by apply Hv. }
    exists pid, cell, size, l.
    split; [done|]. split; [done|].
    split; [by eapply isLegalMove_range|]. split; [done|]. split; [done|].
    set (s1 := afterPlacing cell size l (h, g)) in *.
    assert (Player.inventory (deref s1.1 l)
            = decrement (Player.inventory (deref h l)) size) as Hinv.
    { unfold s1, afterPlacing. cbn [fst snd].
      by rewrite deref_mutate_eq. }
    assert (∀ l', l' ≠ l → deref s1.1 l' = deref h l') as Hother.
    { intros l' Hne. unfold s1, afterPlacing. cbn [fst snd].
      by rewrite deref_mutate_ne. }
    assert (∀ h2 g2, skipEq s1.1 h2 → Game.board g2 = Game.board s1.2 →
              Game.board g2
              = boardPlace (Game.board g) cell size
                  (Player.color (deref h l))
              ∧ Player.inventory (deref h2 l)
                = decrement (Player.inventory (deref h l)) size
              ∧ ∀ l', l' ≠ l →
                      Player.inventory (deref h2 l')
                      = Player.inventory (deref h l')) as Hpost.
    { intros h2 g2 Heq Hb. split; [by rewrite Hb|]. split.
      - by rewrite (skipEq_inventory _ _ l Heq).
      - intros l' Hne. rewrite (skipEq_inventory _ _ l' Heq).
        by rewrite Hother. }
    destruct Hcases as [(-> & _ & ->)|[(-> & _ & _ & ->)|(_ & _ & Hrun)]].
    + apply Hpost; [apply skipEq_refl|done].
    + apply Hpost; [apply skipEq_refl|done].
    + apply moveToNextPlayer_frame in Hrun as (Heq & Hb & _).
      by apply Hpost.
  - right. split; [by left|].
    destruct (step_skip_cases _ _ _ _ _ _ (or_introl eq_refl) Hstep)
      as (_ & _ & g2 & Hrun & Hg').
    apply moveToNextPlayer_frame in Hrun as (Heq & Hb & _).
    split.
    + destruct Hg' as [->|(_ & -> & _)]; [done|].
      by rewrite checkGameEnd_board.
    + intros l. rewrite (skipEq_inventory _ _ l Heq).
      apply afterForcedSkip_inventory.
  - right. split; [by right|].
    destruct (step_skip_cases _ _ _ _ _ _ (or_intror eq_refl) Hstep)
      as (_ & _ & g2 & Hrun & Hg').
    apply moveToNextPlayer_frame in Hrun as (Heq & Hb & _).
    split.
    + destruct Hg' as [->|(? & _)]; [done|discriminate].
    + intros l. rewrite (skipEq_inventory _ _ l Heq).
      apply afterForcedSkip_inventory.
Qed.

Lemma filter_length_pointwise {A} (f g : A → bool) (l : list A) :
  (∀ x, x ∈ l → f x = g x) →
  length (List.filter f l) = length (List.filter g l).
Proof.
  induction l as [|x l IH]; intros H; [done|]. simpl.
  rewrite <- (H x) by (by left).
  assert (length (List.filter f l) = length (List.filter g l)) as E.
  { apply IH. intros y Hy. apply H. by right. }
  destruct (f x); simpl; by rewrite E.
Qed.

Lemma filter_length_flip {A} (f g : A → bool) (l : list A) (k : A) :
  NoDup l → k ∈ l → (∀ x, x ≠ k → f x = g x) →
  f k = false → g k = true →
  length (List.filter g l) = S (length (List.filter f l)).
Proof.
  intros Hnd Hk Hne Hf Hg. induction l as [|x l IH].
  - by apply elem_of_nil in Hk.
  - apply NoDup_cons in Hnd as [Hx Hnd]. simpl.
    apply elem_of_cons in Hk as [<-|Hk].
    + rewrite Hf, Hg. simpl. f_equal. symmetry.
      apply filter_length_pointwise. intros y Hy. apply Hne.
      intros ->. done.
    + rewrite <- (Hne x) by (intros ->; done).
      destruct (f x); simpl; by rewrite IH.
Qed.

Lemma cellIndices_NoDup : NoDup GameLogic.cellIndices.
Proof. apply (bool_decide_unpack _). vm_compute. exact I. Qed.

Lemma cellIndices_range (i : Z) :
  i ∈ GameLogic.cellIndices ↔ (0 ≤ i ≤ 8)%Z.
Proof.
  unfold GameLogic.cellIndices. rewrite !elem_of_cons, elem_of_nil. lia.
Qed.

(** Placing a piece adds one to the count of its size and colour, and
    changes no other count. *)
Lemma placed_boardPlace (b : Board) (cell : Z) (size : Size) (c : Color)
    (s : Size) (c' : Color) :
  (0 ≤ cell ≤ 8)%Z → boardSlot b cell size = None →
  placed (boardPlace b cell size c) s c'
  = (placed b s c' + if decide (s = size ∧ c' = c) then 1 else 0)%Z.
Proof.
  intros Hr Hempty. unfold placed.
  destruct (decide (s = size ∧ c' = c)) as [[-> ->]|Hne].
  - rewrite (filter_length_flip
               (fun i => bool_decide (boardSlot b i size = Some c))
               (fun i => bool_decide
                           (boardSlot (boardPlace b cell size c) i size
                            = Some c))
               GameLogic.cellIndices cell).
    + lia.
    + apply cellIndices_NoDup.
    + by apply cellIndices_range.
    + intros i Hi. rewrite boardSlot_boardPlace by done.
      rewrite decide_False; [done|]. by intros [? _].
    + rewrite Hempty. by apply bool_decide_eq_false.
    + rewrite boardSlot_boardPlace by done.
      rewrite decide_True by done. by apply bool_decide_eq_true.
  - rewrite Z.add_0_r. f_equal. apply filter_length_pointwise.
    intros i _. rewrite boardSlot_boardPlace by done.
    destruct (decide (i = cell ∧ s = size)) as [[-> ->]|]; [|done].
    rewrite Hempty.
    rewrite (bool_decide_eq_false_2 (None = Some c')) by done.
    apply bool_decide_eq_false. intros [= ->]. by apply Hne.
Qed.

Lemma availableColors_NoDup : NoDup availableColors.
Proof. apply (bool_decide_unpack _). vm_compute. exact I. Qed.

(** In a match no two seats share a colour. *)
Lemma matchWf_colors h g l1 l2 :
  matchWf h g → l1 ∈ Game.players g → l2 ∈ Game.players g →
  Player.color (deref h l1) = Player.color (deref h l2) → l1 = l2.
Proof.
  intros (_ & Hu & _ & _ & Hcol) H1 H2 Heq.
  apply list_elem_of_lookup in H1 as [i Hi].
  apply list_elem_of_lookup in H2 as [j Hj].
  assert (i = j) as ->; [|congruence].
  assert (NoDup (map (fun l => Player.color (deref h l)) (Game.players g)))
    as Hnd.
  { rewrite Hcol.
    eapply sublist_NoDup; [apply availableColors_NoDup|apply sublist_take]. }
  eapply NoDup_lookup; [exact Hnd| |].
  - change (map ?f ?l) with (f <$> l).
    rewrite list_lookup_fmap, Hi. reflexivity.
  - change (map ?f ?l) with (f <$> l).
    rewrite list_lookup_fmap, Hj. simpl. by rewrite Heq.
Qed.

(** The stock invariant of a match: every count of every seat lies in
    0..3, the pieces of a seat on the board and in its stock add up to
    three per size, and every piece on the board has the colour of a
    seat. *)
Lemma reachable_stock s :
  reachable s →
  (∀ l sz, l ∈ Game.players s.2 →
     (0 ≤ count (Player.inventory (deref s.1 l)) sz ≤ 3)%Z
     ∧ (placed (Game.board s.2) sz (Player.color (deref s.1 l))
        + count (Player.inventory (deref s.1 l)) sz = 3)%Z)
  ∧ (∀ i sz c, boardSlot (Game.board s.2) i sz = Some c →
       ∃ l, l ∈ Game.players s.2 ∧ Player.color (deref s.1 l) = c).
Proof.
  induction 1 as [now rnd uuid src h g0 h1 g1 Hv Hu Hvalid Hinit
                 |now op [h g] [h' g'] Hreach IH Hstep]; cbn [fst snd] in *.
  - destruct (matchWf_initialize _ _ _ _ _ _ _ _ Hv Hu Hvalid Hinit)
      as (_ & Hb & _ & _ & _ & _ & _ & _ & Hseats).
    rewrite Hb. split.
    + intros l sz Hl. destruct (Hseats l Hl) as (-> & _).
      by destruct sz.
    + intros i sz c. unfold boardSlot.
      destruct (decide (0 ≤ i ≤ 8)%Z) as [Hr|Hr].
      * assert (i = 0 ∨ i = 1 ∨ i = 2 ∨ i = 3 ∨ i = 4 ∨ i = 5 ∨ i = 6
                ∨ i = 7 ∨ i = 8)%Z as Hi by lia.
        destruct Hi as [->|[->|[->|[->|[->|[->|[->|[->| ->]]]]]]]];
          by destruct sz.
      * destruct (boardAt GameLogic.createEmptyBoard i) as [cv|] eqn:Hcv;
          [|done].
        apply boardAt_Some_range in Hcv. lia.
  - pose proof (reachable_matchWf _ Hreach) as Hwf. cbn [fst snd] in Hwf.
    pose proof Hwf as (Hv & _).
    destruct IH as [IH1 IH2].
    destruct (step_footprint _ _ _ _ _ _ Hstep) as (Hp & _ & _).
    pose proof (step_identity _ _ _ _ _ _ Hstep) as Hsame.
    assert (∀ l, Player.color (deref h' l) = Player.color (deref h l))
      as Hcolor.
    { intros l. by destruct (Hsame l) as (_ & _ & -> & _). }
    rewrite Hp.
    destruct (step_board_stock _ _ _ _ _ _ Hv Hstep)
      as [(pid & cell & size & lm & -> & Hlm & Hr & Hlegal & Hi & Hb
           & Hinv & Hother)
         |(_ & Hb & Hinv)].
    + pose proof (isLegalMove_slot_empty _ _ _ _ Hlegal) as Hempty.
      rewrite Hb. split.
      * intros l sz Hl. rewrite Hcolor.
        rewrite (placed_boardPlace _ _ _ _ _ _ Hr Hempty).
        destruct (IH1 l sz Hl) as [Hbound Hsum].
        destruct (decide (l = lm)) as [->|Hne].
        -- rewrite Hinv, count_decrement.
           destruct (decide (sz = size)) as [->|Hsz].
           ++ rewrite decide_True by done. lia.
           ++ rewrite decide_False by (by intros [? _]). lia.
        -- rewrite (Hother l Hne).
           rewrite decide_False; [lia|].
           intros [_ Hc]. apply Hne.
           by apply (matchWf_colors h g l lm Hwf).
      * intros i sz c. rewrite boardSlot_boardPlace by done.
        destruct (decide _) as [_|_].
        -- intros [= <-]. exists lm. split; [done|apply Hcolor].
        -- intros Hslot. destruct (IH2 i sz c Hslot) as (l & Hl & Hc).
           exists l. split; [done|]. by rewrite Hcolor.
    + rewrite Hb. split.
      * intros l sz Hl. rewrite Hcolor, Hinv. by apply IH1.
      * intros i sz c Hslot. destruct (IH2 i sz c Hslot) as (l & Hl & Hc).
        exists l. split; [done|]. by rewrite Hcolor.
Qed.

Lemma duelAfterFirstMove_reachable : reachable duelAfterFirstMove.
Proof.
  apply (duel_steps_reachable [OpMove "A" 0%Z P]). by vm_compute.
Qed.

(** X3: conservation of pieces.  In every match state reachable from an
    initialization by operations that take effect, every stock count of
    every seat lies between 0 and 3; for every seat and every size, the
    pieces of the seat's colour that lie in slots of that size and the
    pieces of that size left in the seat's stock add up to three; and
    every piece on the board has the colour of one of the seats. *)
Theorem X3_pieces_are_conserved (h : Heap) (g : Game.t) :
  reachable (h, g) →
  (∀ l s, l ∈ Game.players g →
     (0 ≤ count (Player.inventory (deref h l)) s ≤ 3)%Z
     ∧ (placed (Game.board g) s (Player.color (deref h l))
        + count (Player.inventory (deref h l)) s = 3)%Z)
  ∧ (∀ i s c, boardSlot (Game.board g) i s = Some c →
       ∃ l, l ∈ Game.players g ∧ Player.color (deref h l) = c).
Proof. intros Hreach. exact (reachable_stock (h, g) Hreach). Qed.

Lemma X3_pieces_are_conserved_witness :
  (∀ l s, l ∈ Game.players duelAfterFirstMove.2 →
     (0 ≤ count (Player.inventory (deref duelAfterFirstMove.1 l)) s ≤ 3)%Z
     ∧ (placed (Game.board duelAfterFirstMove.2) s
          (Player.color (deref duelAfterFirstMove.1 l))
        + count (Player.inventory (deref duelAfterFirstMove.1 l)) s
        = 3)%Z)
  ∧ (∀ i s c, boardSlot (Game.board duelAfterFirstMove.2) i s = Some c →
       ∃ l, l ∈ Game.players duelAfterFirstMove.2
            ∧ Player.color (deref duelAfterFirstMove.1 l) = c).
Proof.
  exact (X3_pieces_are_conserved duelAfterFirstMove.1 duelAfterFirstMove.2
           duelAfterFirstMove_reachable).
Defined.

Lemma findPlayer_unique h g l :
  uniqueIds h (Game.players g) → l ∈ Game.players g →
  Game.findPlayer h g (Some (Player.id (deref h l))) = Some l.
Proof.
  intros Hu Hl. unfold Game.findPlayer.
  destruct (List.find _ (Game.players g)) as [l'|] eqn:Hfind.
  - apply find_some in Hfind as [Hin Hid].
    rewrite idIs_Some in Hid. apply bool_decide_eq_true in Hid.
    f_equal. apply (uniqueIds_inj h (Game.players g)); try done.
    by apply list_elem_of_In.
  - apply list_elem_of_In in Hl.
    pose proof (find_none _ _ Hfind l Hl) as Hno. simpl in Hno.
    rewrite idIs_Some in Hno. by apply bool_decide_eq_false in Hno.
Qed.

Lemma hasLegalMoves_exists b p :
  GameLogic.hasLegalMoves b p = true
  ↔ ∃ cell size,
      (0 < count (Player.inventory p) size)%Z
      ∧ GameLogic.isLegalMove b cell size None = true.
Proof.
  unfold GameLogic.hasLegalMoves. rewrite existsb_exists. split.
  - intros (cell & _ & H). apply existsb_exists in H as (size & _ & H).
    apply andb_true_iff in H as [Hi Hl]. apply Z.ltb_lt in Hi.
    exists cell, size. split; [done|].
    by rewrite isLegalMove_top in *.
  - intros (cell & size & Hi & Hl). exists cell. split.
    + apply list_elem_of_In, cellIndices_range.
      by apply isLegalMove_range in Hl.
    + apply existsb_exists. exists size. split.
      * unfold GameLogic.sizes. destruct size; simpl; tauto.
      * apply andb_true_iff. split; [by apply Z.ltb_lt|].
        by rewrite isLegalMove_top in *.
Qed.

Lemma hasLegalMoves_empty_board p :
  Player.inventory p = mkInventory 3 3 3 →
  GameLogic.hasLegalMoves GameLogic.createEmptyBoard p = true.
Proof.
  intros Hinv. apply hasLegalMoves_exists. exists 0%Z, P.
  rewrite Hinv. split; [done|reflexivity].
Qed.

Lemma resultInv_finish now h g :
  (∀ w, Game.winnerId g = Some w →
        ∃ l, l ∈ Game.players g ∧ Player.id (deref h l) = w) →
  resultInv h (Game.finish now g).
Proof.
  intros Hw. unfold resultInv. simpl.
  split; [done|]. split; [done|]. split; [done|]. split; [done|].
  split; [done|]. discriminate.
Qed.

Lemma resultInv_checkGameEnd now h g :
  resultInv h g → resultInv h (Game.checkGameEnd now h g).
Proof.
  intros Hinv. pose proof Hinv as (_ & _ & _ & _ & Hw & _).
  unfold Game.checkGameEnd.
  destruct (Nat.ltb _ 2); [|done].
  destruct (Nat.eqb _ 1); [|by apply resultInv_finish].
  destruct (Game.getActivePlayers h g !! 0) as [l|] eqn:Hl;
    [|by apply resultInv_finish].
  apply (resultInv_finish now h (Game.set_winnerId g _)). simpl.
  intros w [= <-]. exists l. split; [|done].
  apply list_elem_of_lookup_2 in Hl. by apply elem_of_active in Hl as [? _].
Qed.

(** Turn advancement from a Playing match without a result leaves a match
    that satisfies the invariant of the result fields. *)
Lemma resultInv_advance now h g h' g' :
  uniqueIds h (Game.players g) →
  Game.status g = playing → Game.winnerId g = None →
  Game.isDraw g = false → Game.finishedAt g = None →
  Game.moveToNextPlayer (Game.budget g) now h g = Some (h', g') →
  resultInv h' g'.
Proof.
  intros Hu Hs Hw Hd Hf Hrun.
  destruct (moveToNextPlayer_result now h g Hu)
    as (h2 & g2 & Hrun2 & Hshape).
  rewrite Hrun in Hrun2. injection Hrun2 as <- <-.
  destruct Hshape as [(-> & _ & ->)|[(-> & _ & ->)
    |(skipped & w & -> & -> & _ & _ & Hwin & Hmoves & _)]].
  - apply resultInv_finish. by rewrite Hw.
  - apply resultInv_finish. simpl. by rewrite Hw.
  - pose proof (passOver_skipEq skipped h) as Heq.
    apply elem_of_active in Hwin as [Hwp Hwa].
    unfold resultInv. simpl. rewrite Hs, Hw, Hd, Hf.
    split; [done|]. split; [done|]. split; [done|]. split; [done|].
    split; [done|]. intros _. split; [done|].
    exists w. split; [done|].
    split; [by rewrite (skipEq_id _ _ w Heq)|]. split.
    + pose proof (skipEq_active _ _ w Heq) as Ha. rewrite Hwa in Ha.
      unfold Player.active in Ha. apply andb_true_iff in Ha as [Ha _].
      by apply negb_true_iff in Ha.
    + by rewrite (skipEq_hasLegalMoves _ _ _ w Heq).
Qed.

Lemma sameIdentity_uniqueIds h h' ls :
  (∀ l, sameIdentity (deref h l) (deref h' l)) →
  uniqueIds h ls → uniqueIds h' ls.
Proof.
  intros Hsame. unfold uniqueIds, ids.
  rewrite (sameIdentity_map Player.id h h'); [done|].
  intros l. by destruct (Hsame l) as (-> & _).
Qed.

(** Every reachable match state satisfies the invariant of the result
    fields and of the seat on turn. *)
Lemma reachable_resultInv s : reachable s → resultInv s.1 s.2.
Proof.
  induction 1 as [now rnd uuid src h g0 h1 g1 Hv Hu Hvalid Hinit
                 |now op [h g] [h' g'] Hreach IH Hstep]; cbn [fst snd] in *.
  - destruct (matchWf_initialize _ _ _ _ _ _ _ _ Hv Hu Hvalid Hinit)
      as (_ & Hb & Hs & Hw & Hd & Hf & Ht & (lc & Hlc & Hcur) & Hseats).
    unfold resultInv. rewrite Hs, Hw, Hd, Hf, Ht, Hb.
    split; [done|]. split; [done|]. split; [done|]. split; [done|].
    split; [done|]. intros _. split; [done|].
    exists lc. split; [done|]. split; [done|].
    destruct (Hseats lc Hlc) as (Hinv & He & _). split; [done|].
    by apply hasLegalMoves_empty_board.
  - pose proof (reachable_matchWf _ Hreach) as (Hv & Hu & _).
    cbn [fst snd] in *.
    pose proof IH as (Hnw & Hfin & Hwin & Hdraw & Hwinner & _).
    assert (Game.status g = playing →
            Game.winnerId g = None ∧ Game.isDraw g = false
            ∧ Game.finishedAt g = None) as Hplaying.
    { intros Hs. split.
      - destruct (Game.winnerId g) eqn:E; [|done].
        assert (Game.status g = finished) by (by apply Hwin). congruence.
      - split.
        + destruct (Game.isDraw g) eqn:E; [|done].
          assert (Game.status g = finished) by (by apply Hdraw).
          congruence.
        + destruct (Game.finishedAt g) eqn:E; [|done].
          assert (Game.status g = finished) by (by apply Hfin).
          congruence. }
    destruct op as [pid cell size| |].
    + destruct (step_move_cases _ _ _ _ _ _ _ _ Hstep)
        as (l & Hfind & Hacc & Hcases).
      destruct Hacc as (Hs & _).
      destruct (Hplaying Hs) as (Hw0 & Hd0 & Hf0).
      pose proof (findPlayer_elem _ _ _ _ Hfind) as Hin.
      set (s1 := afterPlacing cell size l (h, g)) in *.
      assert (∀ l', sameIdentity (deref h l') (deref s1.1 l')) as Hsame
        by (intros l'; apply afterPlacing_sameIdentity).
      destruct Hcases as [(-> & _ & ->)|[(-> & _ & _ & ->)|(_ & _ & Hrun)]].
      * apply resultInv_finish. simpl. intros w [= <-].
        exists l. split; [done|]. destruct (Hsame l) as (E & _).
        symmetry. exact E.
      * apply resultInv_finish. simpl. by rewrite Hw0.
      * apply (resultInv_advance now s1.1 s1.2); try done.
        apply (sameIdentity_uniqueIds h); [done|]. done.
    + destruct (step_skip_cases _ _ _ _ _ _ (or_introl eq_refl) Hstep)
        as (Hs & _ & g2 & Hrun & Hg').
      destruct (Hplaying Hs) as (Hw0 & Hd0 & Hf0).
      assert (resultInv h' g2) as H2.
      { apply (resultInv_advance now (afterForcedSkip (h, g)) g); try done.
        apply (sameIdentity_uniqueIds h); [|done].
        intros l. apply afterForcedSkip_sameIdentity. }
      destruct Hg' as [->|(_ & -> & _)]; [done|].
      by apply resultInv_checkGameEnd.
    + destruct (step_skip_cases _ _ _ _ _ _ (or_intror eq_refl) Hstep)
        as (Hs & _ & g2 & Hrun & Hg').
      destruct (Hplaying Hs) as (Hw0 & Hd0 & Hf0).
      assert (resultInv h' g2) as H2.
      { apply (resultInv_advance now (afterForcedSkip (h, g)) g); try done.
        apply (sameIdentity_uniqueIds h); [|done].
        intros l. apply afterForcedSkip_sameIdentity. }
      destruct Hg' as [->|(? & _)]; [done|discriminate].
Qed.

Lemma duelState_reachable : reachable duelState.
Proof. apply (duel_steps_reachable []). by vm_compute. Qed.

Lemma matchWf_id_nonempty h g l :
  matchWf h g → l ∈ Game.players g → Player.id (deref h l) ≠ "".
Proof.
  intros (_ & _ & Hid & _) Hl. rewrite Forall_forall in Hid. by apply Hid.
Qed.

Lemma truthy_Some (s : string) : s ≠ "" → truthy (Some s) = true.
Proof.
  intros Hne. unfold truthy. by rewrite bool_decide_eq_false_2.
Qed.

(** X4: the result fields of a match.  In every reachable match state the
    status is Playing or Finished; the match is Finished exactly when
    [finishedAt] is set; a winner or a draw is recorded only on a Finished
    match; and when a winner is recorded, [getWinner()] returns a seat of
    the match, the one with that id. *)
Theorem X4_result_fields (h : Heap) (g : Game.t) :
  reachable (h, g) →
  Game.status g ≠ waiting
  ∧ (Game.status g = finished ↔ Game.finishedAt g ≠ None)
  ∧ (Game.winnerId g ≠ None → Game.status g = finished)
  ∧ (Game.isDraw g = true → Game.status g = finished)
  ∧ (∀ w, Game.winnerId g = Some w →
          ∃ l, Game.getWinner h g = Some l ∧ l ∈ Game.players g
               ∧ Player.id (deref h l) = w).
Proof.
  intros Hreach.
  pose proof (reachable_matchWf _ Hreach) as Hwf.
  pose proof (reachable_resultInv _ Hreach) as Hinv.
  cbn [fst snd] in *.
  destruct Hinv as (H1 & H2 & H3 & H4 & H5 & _).
  split; [done|]. split; [done|]. split; [done|]. split; [done|].
  intros w Hw. destruct (H5 w Hw) as (l & Hl & Hid).
  exists l. split; [|done].
  unfold Game.getWinner. rewrite Hw, <- Hid.
  rewrite truthy_Some by (by apply (matchWf_id_nonempty h g)).
  cbn [negb]. apply findPlayer_unique; [|done]. by destruct Hwf as (_ & ? & _).
Qed.

Lemma X4_result_fields_witness :
  Game.status duelAfterFirstMove.2 ≠ waiting
  ∧ (Game.status duelAfterFirstMove.2 = finished
     ↔ Game.finishedAt duelAfterFirstMove.2 ≠ None)
  ∧ (Game.winnerId duelAfterFirstMove.2 ≠ None
     → Game.status duelAfterFirstMove.2 = finished)
  ∧ (Game.isDraw duelAfterFirstMove.2 = true
     → Game.status duelAfterFirstMove.2 = finished)
  ∧ (∀ w, Game.winnerId duelAfterFirstMove.2 = Some w →
          ∃ l, Game.getWinner duelAfterFirstMove.1 duelAfterFirstMove.2
               = Some l
               ∧ l ∈ Game.players duelAfterFirstMove.2
               ∧ Player.id (deref duelAfterFirstMove.1 l) = w).
Proof.
  exact (X4_result_fields duelAfterFirstMove.1 duelAfterFirstMove.2
           duelAfterFirstMove_reachable).
Defined.

Lemma getCurrentPlayer_unique h g l :
  matchWf h g → l ∈ Game.players g →
  Game.currentPlayerId g = Some (Player.id (deref h l)) →
  Game.getCurrentPlayer h g = Some l.
Proof.
  intros Hwf Hl Hcur. unfold Game.getCurrentPlayer. rewrite Hcur.
  rewrite truthy_Some by (by apply (matchWf_id_nonempty h g)).
  cbn [negb]. apply findPlayer_unique; [|done]. by destruct Hwf as (_ & ? & _).
Qed.

(** X5: the seat on turn can always move.  In every reachable match state
    that is Playing, the current id names a seat of the match, that seat
    is not eliminated, and there are a cell and a size for which
    [isValidMove] accepts its move (so [applyMove] would take effect);
    and [skipTurn()] executes (it returns true) at any time. *)
Theorem X5_seat_on_turn_can_move (h : Heap) (g : Game.t) :
  reachable (h, g) →
  Game.status g = playing →
  ∃ pid l,
    Game.currentPlayerId g = Some pid
    ∧ Game.getCurrentPlayer h g = Some l
    ∧ Player.id (deref h l) = pid
    ∧ Player.isEliminated (deref h l) = false
    ∧ (∃ cell size, Game.isValidMove h g pid cell size = true)
    ∧ ∀ now, ∃ h' g', Game.skipTurn now h g = Some (h', g', true).
Proof.
  intros Hreach Hs.
  pose proof (reachable_matchWf _ Hreach) as Hwf.
  pose proof (reachable_resultInv _ Hreach) as Hinv.
  cbn [fst snd] in *.
  destruct Hinv as (_ & _ & _ & _ & _ & Hturn).
  destruct (Hturn Hs) as (_ & l & Hl & Hcur & He & Hmoves).
  pose proof (getCurrentPlayer_unique h g l Hwf Hl Hcur) as Hget.
  pose proof Hwf as (Hv & Hu & _).
  exists (Player.id (deref h l)), l.
  split; [done|]. split; [done|]. split; [done|]. split; [done|]. split.
  - apply hasLegalMoves_exists in Hmoves as (cell & size & Hi & Hlegal).
    exists cell, size. apply isValidMove_spec.
    split; [done|]. split; [done|]. exists l.
    split; [by apply findPlayer_unique|]. done.
  - intros now. unfold Game.skipTurn.
    rewrite Hs, Hcur, Hget.
    rewrite truthy_Some by (by apply (matchWf_id_nonempty h g)).
    rewrite bool_decide_eq_true_2 by done. cbn [negb orb].
    destruct (moveToNextPlayer_total now
                (mutate Game.skipAndMaybeEliminate l h) g)
      as (h2 & g2 & Hrun).
    { unfold uniqueIds. rewrite ids_mutate; [done|].
      apply skipAndMaybeEliminate_id. }
    rewrite Hrun. eauto.
Qed.

Lemma X5_seat_on_turn_can_move_witness :
  ∃ pid l,
    Game.currentPlayerId duelAfterFirstMove.2 = Some pid
    ∧ Game.getCurrentPlayer duelAfterFirstMove.1 duelAfterFirstMove.2
      = Some l
    ∧ Player.id (deref duelAfterFirstMove.1 l) = pid
    ∧ Player.isEliminated (deref duelAfterFirstMove.1 l) = false
    ∧ (∃ cell size,
         Game.isValidMove duelAfterFirstMove.1 duelAfterFirstMove.2 pid
           cell size = true)
    ∧ ∀ now, ∃ h' g',
        Game.skipTurn now duelAfterFirstMove.1 duelAfterFirstMove.2
        = Some (h', g', true).
Proof.
  exact (X5_seat_on_turn_can_move duelAfterFirstMove.1 duelAfterFirstMove.2
           duelAfterFirstMove_reachable eq_refl).
Defined.

Lemma applyMove_returns now pid cell size h g :
  uniqueIds h (Game.players g) →
  ∃ h' g' ok, Game.applyMove now pid cell size h g = Some (h', g', ok).
Proof.
  intros Hu. unfold Game.applyMove.
  destruct (Game.isValidMove h g pid cell size) eqn:Hv; cbn [negb];
    [|eauto].
  apply isValidMove_spec in Hv as (_ & _ & l & Hfind & _ & Hi & _).
  rewrite Hfind. unfold Player.usePiece, Player.hasPiece.
  rewrite (proj2 (Z.ltb_lt _ _) Hi). cbn [negb].
  destruct (GameLogic.checkWinConditions _ _); [eauto|].
  destruct (GameLogic.isDraw _ _ _); [eauto|].
  match goal with
  | |- context [Game.moveToNextPlayer (Game.budget ?g1) now ?h1 ?g1] =>
      destruct (moveToNextPlayer_total now h1 g1) as (h2 & g2 & Hrun)
  end.
  { unfold uniqueIds. simpl. rewrite ids_mutate; done. }
  rewrite Hrun. eauto.
Qed.

Lemma arrayIndex_integral (z : Z) :
  GameLogic.arrayIndex (GameLogic.Finite (inject_Z z)) = Some z.
Proof.
  unfold GameLogic.arrayIndex. rewrite Qfloor_Z.
  by rewrite (proj2 (Qeq_bool_iff _ _) (Qeq_refl _)).
Qed.

Lemma Qle_bool_inject (a b : Z) :
  Qle_bool (inject_Z a) (inject_Z b) = (a <=? b)%Z.
Proof.
  apply Bool.eq_iff_eq_true. rewrite Qle_bool_iff, Z.leb_le.
  by rewrite Zle_Qle.
Qed.

(** On an integral index the function on index values is the function
    on integers. *)
Lemma isLegalMoveAt_integral b z size c :
  GameLogic.isLegalMoveAt b (GameLogic.Finite (inject_Z z)) size c
  = Some (GameLogic.isLegalMove b z size c).
Proof.
  unfold GameLogic.isLegalMoveAt, GameLogic.isLegalMove,
    GameLogic.boardAtKey, GameLogic.isNegative, GameLogic.isAbove8.
  rewrite arrayIndex_integral.
  change 0%Q with (inject_Z 0). change 8%Q with (inject_Z 8).
  rewrite !Qle_bool_inject, <- !Z.ltb_antisym.
  destruct ((z <? 0)%Z || (8 <? z)%Z) eqn:Hrange; [done|].
  destruct (boardAt b z) as [cell|] eqn:Hcell.
  - destruct (negb _); [done|]. by destruct size.
  - apply orb_false_iff in Hrange as [H0 H8].
    apply Z.ltb_ge in H0. apply Z.ltb_ge in H8.
    assert (z = 0 ∨ z = 1 ∨ z = 2 ∨ z = 3 ∨ z = 4 ∨ z = 5 ∨ z = 6 ∨ z = 7
            ∨ z = 8)%Z as Hz by lia.
    by destruct Hz as [->|[->|[->|[->|[->|[->|[->|[->| ->]]]]]]]].
Qed.

(** [isLegalMove] throws exactly on the index values that pass its range
    test and name no cell. *)
Lemma isLegalMoveAt_throws b v size c :
  GameLogic.isLegalMoveAt b v size c = None ↔ namesNoCell v.
Proof.
  destruct v as [q| | | |]; try (by split).
  unfold GameLogic.isLegalMoveAt, GameLogic.boardAtKey, GameLogic.isNegative,
    GameLogic.isAbove8, GameLogic.arrayIndex, namesNoCell.
  destruct (Qle_bool 0 q) eqn:H0; cbn [negb orb].
  2:{ split; [done|]. intros (Hq & _). apply Qle_bool_iff in Hq.
      congruence. }
  destruct (Qle_bool q 8) eqn:H8; cbn [negb].
  2:{ split; [done|]. intros (_ & Hq & _). apply Qle_bool_iff in Hq.
      congruence. }
  apply Qle_bool_iff in H0. apply Qle_bool_iff in H8.
  destruct (Qeq_bool (inject_Z (Qfloor q)) q) eqn:Hint.
  - apply Qeq_bool_iff in Hint.
    assert (0 ≤ Qfloor q ≤ 8)%Z as Hrange.
    { split.
      - rewrite Zle_Qle, Hint. exact H0.
      - rewrite Zle_Qle, Hint. exact H8. }
    assert (Qfloor q = 0 ∨ Qfloor q = 1 ∨ Qfloor q = 2 ∨ Qfloor q = 3
            ∨ Qfloor q = 4 ∨ Qfloor q = 5 ∨ Qfloor q = 6 ∨ Qfloor q = 7
            ∨ Qfloor q = 8)%Z as Hz by lia.
    split.
    + destruct Hz as [->|[->|[->|[->|[->|[->|[->|[->| ->]]]]]]]];
        cbn [boardAt]; destruct (negb _); try done; by destruct size.
    + intros (_ & _ & Hno). destruct (Hno (Qfloor q)). by symmetry.
  - split; [|done]. intros _. split; [done|]. split; [done|].
    intros z Hz.
    assert (Qeq_bool (inject_Z (Qfloor q)) q = true) as Hyes.
    { apply Qeq_bool_iff. rewrite Hz at 1. rewrite Qfloor_Z.
      by symmetry. }
    congruence.
Qed.

Lemma isLegalMoveAt_names_cell b v size c :
  GameLogic.isLegalMoveAt b v size c = Some true →
  ∃ i, GameLogic.arrayIndex v = Some i.
Proof.
  unfold GameLogic.isLegalMoveAt, GameLogic.boardAtKey.
  destruct (_ || _); [done|].
  destruct (GameLogic.arrayIndex v) as [i|]; [eauto|done].
Qed.

Lemma isValidMoveAt_integral h g pid z size :
  Game.isValidMoveAt h g pid (GameLogic.Finite (inject_Z z)) size
  = Some (Game.isValidMove h g pid z size).
Proof.
  unfold Game.isValidMoveAt, Game.isValidMove.
  destruct (negb (bool_decide (Game.status g = playing))); [done|].
  destruct (negb (bool_decide (Game.currentPlayerId g = Some pid)));
    [done|].
  destruct (Game.findPlayer h g (Some pid)) as [l|]; [|done].
  destruct (Player.isEliminated (deref h l)); [done|].
  destruct (negb (Player.hasPiece (deref h l) size)); [done|].
  apply isLegalMoveAt_integral.
Qed.

(** X6: which calls of the engine return.  In every reachable match
    state [skipTurn], [skipCurrentPlayer] and turn advancement return
    ([usePiece] does not throw, and the recursion of turn advancement
    comes back within one nested call per seat plus one), and so does
    [applyMove] for every player id, every size and every integral cell
    index.  For a cell index that is a number or [null], [applyMove] on
    an integral number is the function on integers, and it throws (the
    TypeError of [isLegalMove] reading a slot of [undefined]) exactly
    when the match is Playing, the caller is the seat on turn and has a
    piece of the size left, and the index passes the range test without
    naming a cell: a fraction between 0 and 8, NaN or [null].  In every
    other case with an index that names no cell it returns false and
    changes nothing. *)
Theorem X6_operations_return (h : Heap) (g : Game.t) :
  reachable (h, g) →
  ∀ now,
    (∀ pid cell size,
       ∃ h' g' ok, Game.applyMove now pid cell size h g = Some (h', g', ok))
    ∧ (∀ pid cell size,
         Game.applyMoveAt now pid (GameLogic.Finite (inject_Z cell)) size
           h g
         = Game.applyMove now pid cell size h g)
    ∧ (∀ pid v size,
         Game.applyMoveAt now pid v size h g = None
         ↔ Game.status g = playing
           ∧ Game.currentPlayerId g = Some pid
           ∧ (∃ l, Game.getCurrentPlayer h g = Some l
                   ∧ Player.hasPiece (deref h l) size = true)
           ∧ namesNoCell v)
    ∧ (∀ pid v size,
         GameLogic.arrayIndex v = None →
         Game.applyMoveAt now pid v size h g ≠ None →
         Game.applyMoveAt now pid v size h g = Some (h, g, false))
    ∧ (∃ h' g' ok, Game.skipTurn now h g = Some (h', g', ok))
    ∧ (∃ h' g', Game.skipCurrentPlayer now h g = Some (h', g'))
    ∧ ∃ h' g', Game.moveToNextPlayer (S (length (Game.players g))) now h g
               = Some (h', g').
Proof.
  intros Hreach now.
  pose proof (reachable_matchWf _ Hreach) as Hwf.
  pose proof (reachable_resultInv _ Hreach) as Hinv.
  pose proof Hwf as (_ & Hu & _).
  cbn [fst snd] in *.
  destruct Hinv as (_ & _ & _ & _ & _ & Hturn).
  split; [intros pid cell size; by apply applyMove_returns|].
  split.
  { intros pid cell size. unfold Game.applyMoveAt.
    rewrite isValidMoveAt_integral, arrayIndex_integral.
    destruct (Game.isValidMove h g pid cell size) eqn:Hv; [done|].
    unfold Game.applyMove. by rewrite Hv. }
  split.
  { intros pid v size. unfold Game.applyMoveAt, Game.isValidMoveAt.
    destruct (bool_decide (Game.status g = playing)) eqn:Hs; cbn [negb].
    2:{ apply bool_decide_eq_false in Hs. split; [done|].
        by intros (? & _). }
    apply bool_decide_eq_true in Hs.
    destruct (bool_decide (Game.currentPlayerId g = Some pid)) eqn:Hc;
      cbn [negb].
    2:{ apply bool_decide_eq_false in Hc. split; [done|].
        by intros (_ & ? & _). }
    apply bool_decide_eq_true in Hc.
    destruct (Hturn Hs) as (_ & l & Hl & Hcur & He & _).
    assert (pid = Player.id (deref h l)) as -> by congruence.
    rewrite (findPlayer_unique h g l Hu Hl), He.
    pose proof (getCurrentPlayer_unique h g l Hwf Hl Hcur) as Hget.
    destruct (Player.hasPiece (deref h l) size) eqn:Hp; cbn [negb].
    2:{ split; [done|]. intros (_ & _ & (l' & Hl' & Hp') & _).
        congruence. }
    destruct (GameLogic.isLegalMoveAt (Game.board g) v size None)
      as [[|]|] eqn:Hleg.
    - destruct (isLegalMoveAt_names_cell _ _ _ _ Hleg) as (i & ->).
      destruct (applyMove_returns now (Player.id (deref h l)) i size h g
                  Hu) as (h' & g' & ok & ->).
      split; [done|]. intros (_ & _ & _ & Hno).
      apply (isLegalMoveAt_throws (Game.board g) v size None) in Hno.
      congruence.
    - split; [done|]. intros (_ & _ & _ & Hno).
      apply (isLegalMoveAt_throws (Game.board g) v size None) in Hno.
      congruence.
    - split; [|done]. intros _. split; [done|]. split; [done|].
      split; [by exists l|]. by apply isLegalMoveAt_throws in Hleg. }
  split.
  { intros pid v size Hidx. unfold Game.applyMoveAt.
    destruct (Game.isValidMoveAt h g pid v size) as [[|]|];
      [by rewrite Hidx|done|done]. }
  destruct (skips_return now h g Hu) as [H1 H2].
  split; [done|]. split; [done|].
  by apply moveToNextPlayer_total.
Qed.

Lemma X6_operations_return_witness :
  let h := duelAfterFirstMove.1 in
  let g := duelAfterFirstMove.2 in
  Game.applyMoveAt 0 "B" (GameLogic.Finite (1 # 2)) P h g = None
  ∧ Game.applyMoveAt 0 "B" GameLogic.Null P h g = None
  ∧ Game.applyMoveAt 0 "A" (GameLogic.Finite (1 # 2)) P h g
    = Some (h, g, false)
  ∧ Game.applyMoveAt 0 "B" (GameLogic.Finite (17 # 2)) P h g
    = Some (h, g, false)
  ∧ Game.applyMoveAt 0 "B" (GameLogic.Finite 4) P h g
    = Game.applyMove 0 "B" 4 P h g
  ∧ (∃ h' g', Game.applyMove 0 "B" 4 P h g = Some (h', g', true))
  ∧ ∃ h' g' ok, Game.skipTurn 0 h g = Some (h', g', ok).
Proof.
  cbv zeta.
  destruct (X6_operations_return duelAfterFirstMove.1 duelAfterFirstMove.2
              duelAfterFirstMove_reachable 0%Z)
    as (_ & Hint & Hthrow & Hfalse & Hskip & _).
  assert (namesNoCell (GameLogic.Finite (1 # 2))) as Hhalf.
  { split; [by vm_compute|]. split; [by vm_compute|].
    intros z. unfold Qeq. simpl. lia. }
  split.
  { apply Hthrow. split; [by vm_compute|]. split; [by vm_compute|].
    split; [|done]. exists 3%nat. by vm_compute. }
  split.
  { apply Hthrow. split; [by vm_compute|]. split; [by vm_compute|].
    split; [|done]. exists 3%nat. by vm_compute. }
  split.
  { apply Hfalse; [done|]. intros Hnone. apply Hthrow in Hnone.
    by destruct Hnone as (_ & Hcur & _). }
  split.
  { apply Hfalse; [done|]. intros Hnone. apply Hthrow in Hnone.
    destruct Hnone as (_ & _ & _ & _ & Hle & _). by vm_compute in Hle. }
  split; [apply (Hint "B" 4%Z P)|].
  split; [|done]. eexists _, _. by vm_compute.
Defined.

(** The store after turn advancement: the seat that held the turn is as
    it was, and every other record is as it was or had its skip counter
    incremented once, the latter only for active seats without a legal
    move. *)
Lemma moveToNextPlayer_counters now h g h' g' lc :
  validLocs h (Game.players g) → uniqueIds h (Game.players g) →
  lc ∈ Game.players g →
  Game.currentPlayerId g = Some (Player.id (deref h lc)) →
  Game.moveToNextPlayer (Game.budget g) now h g = Some (h', g') →
  deref h' lc = deref h lc
  ∧ ∀ l, deref h' l = deref h l
         ∨ (deref h' l = Player.incrementSkips (deref h l)
            ∧ l ∈ Game.players g
            ∧ Player.active (deref h l) = true
            ∧ GameLogic.hasLegalMoves (Game.board g) (deref h l) = false).
Proof.
  intros Hv Hu Hlc Hcur Hrun.
  destruct (moveToNextPlayer_result now h g Hu)
    as (h2 & g2 & Hrun2 & Hshape).
  rewrite Hrun in Hrun2. injection Hrun2 as <- <-.
  destruct Hshape as [(-> & _)|[(-> & _)
    |(skipped & w & -> & _ & Hnd & Hsk & _ & _ & Hnot)]];
    [split; [done|by left].. |].
  split; [by apply passOver_other, Hnot|].
  intros l. destruct (decide (l ∈ skipped)) as [Hin|Hout].
  - right. rewrite Forall_forall in Hsk.
    destruct (Hsk l Hin) as [Hact Hno].
    apply elem_of_active in Hact as [Hlp Hla].
    split; [|done]. apply passOver_once; [done|done|].
    unfold validLocs in Hv. rewrite Forall_forall in Hv. by apply Hv.
  - left. by apply passOver_other.
Qed.

(** X7: an accepted move resets the mover's skip counter.  After a move
    that took effect, the mover's counter of consecutive skips is 0 in the
    resulting state, also when turn advancement ran; every other record
    is as it was or had its counter incremented by exactly one, and the
    latter happens only to active seats that have no legal move on the
    new board. *)
Theorem X7_move_resets_skip_counter (now : Z) (pid : string) (cell : Z)
    (size : Size) (h : Heap) (g : Game.t) (h' : Heap) (g' : Game.t) :
  validLocs h (Game.players g) →
  uniqueIds h (Game.players g) →
  step now (OpMove pid cell size) (h, g) = Some (h', g') →
  ∃ l,
    Game.findPlayer h g (Some pid) = Some l
    ∧ Player.skipsInARow (deref h' l) = 0%Z
    ∧ Player.isEliminated (deref h' l) = false
    ∧ ∀ l', l' ≠ l →
        deref h' l' = deref h l'
        ∨ (deref h' l' = Player.incrementSkips (deref h l')
           ∧ l' ∈ Game.players g
           ∧ Player.active (deref h l') = true
           ∧ GameLogic.hasLegalMoves (Game.board g') (deref h l') = false).
Proof.
  intros Hv Hu Hstep.
  destruct (step_move_cases _ _ _ _ _ _ _ _ Hstep)
    as (l & Hfind & Hacc & Hcases).
  destruct Hacc as (_ & Hcur & l0 & Hfind0 & He & _).
  assert (l0 = l) as -> by congruence.
  pose proof (findPlayer_elem _ _ _ _ Hfind) as Hin.
  assert (l < length h)%nat as Hl.
  { unfold validLocs in Hv. rewrite Forall_forall in Hv. by apply Hv. }
  assert (Player.id (deref h l) = pid) as Hid.
  { unfold Game.findPlayer in Hfind. apply find_some in Hfind as [_ Hid].
    rewrite idIs_Some in Hid. by apply bool_decide_eq_true in Hid. }
  exists l. split; [done|].
  set (s1 := afterPlacing cell size l (h, g)) in *.
  assert (Player.skipsInARow (deref s1.1 l) = 0%Z
          ∧ Player.isEliminated (deref s1.1 l) = false) as [Hzero Helim].
  { unfold s1, afterPlacing. cbn [fst snd].
    by rewrite deref_mutate_eq. }
  assert (∀ l', l' ≠ l → deref s1.1 l' = deref h l') as Hother.
  { intros l' Hne. unfold s1, afterPlacing. cbn [fst snd].
    by rewrite deref_mutate_ne. }
  destruct Hcases as [(-> & _)|[(-> & _)|(_ & _ & Hrun)]].
  - split; [done|]. split; [done|]. intros l' Hne. left. by apply Hother.
  - split; [done|]. split; [done|]. intros l' Hne. left. by apply Hother.
  - pose proof (moveToNextPlayer_frame _ _ _ _ _ _ Hrun) as (_ & Hb & _).
    destruct (moveToNextPlayer_counters now s1.1 s1.2 h' g' l)
      as [Hsame Hrest]; try done.
    + unfold validLocs, s1, afterPlacing in *. cbn [fst snd].
      by rewrite length_mutate.
    + apply (sameIdentity_uniqueIds h); [|done].
      intros l'. apply afterPlacing_sameIdentity.
    + change (Game.currentPlayerId s1.2) with (Game.currentPlayerId g).
      rewrite Hcur, <- Hid. f_equal.
      exact (proj1 (afterPlacing_sameIdentity cell size l h g l)).
    + rewrite Hsame. split; [done|]. split; [done|].
      intros l' Hne. rewrite <- (Hother l' Hne), Hb.
      destruct (Hrest l') as [Hsame'|Hinc]; [by left|by right].
Qed.

Lemma X7_move_resets_skip_counter_witness :
  ∃ l,
    Game.findPlayer duelState.1 duelState.2 (Some "A") = Some l
    ∧ Player.skipsInARow (deref duelAfterFirstMove.1 l) = 0%Z
    ∧ Player.isEliminated (deref duelAfterFirstMove.1 l) = false
    ∧ ∀ l', l' ≠ l →
        deref duelAfterFirstMove.1 l' = deref duelState.1 l'
        ∨ (deref duelAfterFirstMove.1 l'
           = Player.incrementSkips (deref duelState.1 l')
           ∧ l' ∈ Game.players duelState.2
           ∧ Player.active (deref duelState.1 l') = true
           ∧ GameLogic.hasLegalMoves (Game.board duelAfterFirstMove.2)
               (deref duelState.1 l') = false).
Proof.
  apply (X7_move_resets_skip_counter 0 "A" 0 P duelState.1 duelState.2
           duelAfterFirstMove.1 duelAfterFirstMove.2).
  - apply (bool_decide_unpack _). vm_compute. exact I.
  - apply (bool_decide_unpack _). vm_compute. exact I.
  - vm_compute. reflexivity.
Defined.

Lemma getCurrentPlayer_id h g l :
  Game.getCurrentPlayer h g = Some l →
  Game.currentPlayerId g = Some (Player.id (deref h l)).
Proof.
  unfold Game.getCurrentPlayer, Game.findPlayer.
  destruct (truthy (Game.currentPlayerId g)); [|discriminate]. cbn [negb].
  intros Hfind. apply find_some in Hfind as [_ Hid].
  unfold GameLogic.idIs in Hid. by apply bool_decide_eq_true in Hid.
Qed.

(** X8: a forced skip counts on the seat on turn only.  After an executed
    [skipTurn()] or [skipCurrentPlayer()] the skip counter of the seat
    that was on turn is one more than before, that seat is eliminated
    exactly when it already was or had at least one skip on its counter,
    and its stock is as it was; every other record is as it was or had its
    counter incremented by exactly one (an active seat without a legal
    move that turn advancement passed over), so no other seat is
    eliminated by the skip. *)
Theorem X8_forced_skip_counts (now : Z) (op : GameOp) (h : Heap)
    (g : Game.t) (h' : Heap) (g' : Game.t) (l : loc) :
  validLocs h (Game.players g) →
  uniqueIds h (Game.players g) →
  op = OpSkipTurn ∨ op = OpSkipCurrentPlayer →
  Game.getCurrentPlayer h g = Some l →
  step now op (h, g) = Some (h', g') →
  Player.skipsInARow (deref h' l)
  = (Player.skipsInARow (deref h l) + 1)%Z
  ∧ (Player.isEliminated (deref h' l) = true
     ↔ Player.isEliminated (deref h l) = true
       ∨ (1 ≤ Player.skipsInARow (deref h l))%Z)
  ∧ Player.inventory (deref h' l) = Player.inventory (deref h l)
  ∧ ∀ l', l' ≠ l →
      deref h' l' = deref h l'
      ∨ (deref h' l' = Player.incrementSkips (deref h l')
         ∧ l' ∈ Game.players g
         ∧ Player.active (deref h l') = true
         ∧ GameLogic.hasLegalMoves (Game.board g') (deref h l') = false).
Proof.
  intros Hv Hu Hop Hget Hstep.
  destruct (step_skip_cases _ _ _ _ _ _ Hop Hstep)
    as (_ & _ & g2 & Hrun & Hg').
  pose proof (getCurrentPlayer_elem _ _ _ Hget) as Hin.
  pose proof (getCurrentPlayer_id _ _ _ Hget) as Hcur.
  assert (l < length h)%nat as Hl.
  { unfold validLocs in Hv. rewrite Forall_forall in Hv. by apply Hv. }
  unfold afterForcedSkip in Hrun. cbn [fst snd] in Hrun.
  rewrite Hget in Hrun.
  set (h1 := mutate Game.skipAndMaybeEliminate l h) in *.
  assert (deref h1 l = Game.skipAndMaybeEliminate (deref h l)) as H1
    by (by apply deref_mutate_eq).
  assert (∀ l', l' ≠ l → deref h1 l' = deref h l') as Hother
    by (intros l' Hne; by apply deref_mutate_ne).
  assert (Game.board g' = Game.board g) as Hb.
  { pose proof (moveToNextPlayer_frame _ _ _ _ _ _ Hrun) as (_ & Hb & _).
    destruct Hg' as [->|(_ & -> & _)]; [done|].
    by rewrite checkGameEnd_board. }
  destruct (moveToNextPlayer_counters now h1 g h' g2 l)
    as [Hsame Hrest]; try done.
  { unfold validLocs, h1 in *. by rewrite length_mutate. }
  { unfold uniqueIds, h1. rewrite ids_mutate; [done|].
    apply skipAndMaybeEliminate_id. }
  { by rewrite H1, skipAndMaybeEliminate_id. }
  rewrite Hsame, H1. unfold Game.skipAndMaybeEliminate.
  destruct (2 <=? Player.skipsInARow (Player.incrementSkips (deref h l)))%Z
    eqn:Hge; simpl in Hge |- *.
  - apply Z.leb_le in Hge. split; [done|]. split; [|split; [done|]].
    + split; [intros _; right; lia|done].
    + intros l' Hne. rewrite <- (Hother l' Hne), Hb.
      destruct (Hrest l') as [?|?]; [by left|by right].
  - apply Z.leb_gt in Hge. split; [done|]. split; [|split; [done|]].
    + split; [by left|]. intros [?|?]; [done|lia].
    + intros l' Hne. rewrite <- (Hother l' Hne), Hb.
      destruct (Hrest l') as [?|?]; [by left|by right].
Qed.

(** B's first timeout in the three-seat match: B keeps its seat with one
    skip on its counter. *)
Lemma X8_forced_skip_counts_witness :
  Game.getCurrentPlayer trioState.1 trioState.2 = Some 4%nat
  ∧ Player.skipsInARow (deref trioAfterTimeout.1 4%nat)
    = (Player.skipsInARow (deref trioState.1 4%nat) + 1)%Z
  ∧ (Player.isEliminated (deref trioAfterTimeout.1 4%nat) = true
     ↔ Player.isEliminated (deref trioState.1 4%nat) = true
       ∨ (1 ≤ Player.skipsInARow (deref trioState.1 4%nat))%Z)
  ∧ Player.inventory (deref trioAfterTimeout.1 4%nat)
    = Player.inventory (deref trioState.1 4%nat)
  ∧ ∀ l', l' ≠ 4%nat →
      deref trioAfterTimeout.1 l' = deref trioState.1 l'
      ∨ (deref trioAfterTimeout.1 l'
         = Player.incrementSkips (deref trioState.1 l')
         ∧ l' ∈ Game.players trioState.2
         ∧ Player.active (deref trioState.1 l') = true
         ∧ GameLogic.hasLegalMoves (Game.board trioAfterTimeout.2)
             (deref trioState.1 l') = false).
Proof.
  split; [by vm_compute|].
  apply (X8_forced_skip_counts 0 OpSkipTurn trioState.1 trioState.2
           trioAfterTimeout.1 trioAfterTimeout.2 4%nat).
  - apply (bool_decide_unpack _). vm_compute. exact I.
  - apply (bool_decide_unpack _). vm_compute. exact I.
  - by left.
  - by vm_compute.
  - by vm_compute.
Defined.

Lemma isLegalMove_boardPlace (b : Board) (cell : Z) (size : Size)
    (c : Color) (i : Z) (s : Size) (o : option Color) :
  GameLogic.isLegalMove (boardPlace b cell size c) i s o = true →
  GameLogic.isLegalMove b i s o = true.
Proof.
  rewrite !isLegalMove_top.
  destruct (decide (i = cell)) as [->|Hne].
  - destruct (boardAt b cell) as [cv|] eqn:Hcv.
    + rewrite (boardAt_boardPlace_same _ _ _ _ _ Hcv).
      destruct cv as [[p|] [m|] [g|]], size, s; simpl; done.
    + unfold boardPlace. by rewrite Hcv, Hcv.
  - by rewrite boardAt_boardPlace_other.
Qed.

Lemma skipEq_isEliminated h h' l :
  skipEq h h' →
  Player.isEliminated (deref h' l) = Player.isEliminated (deref h l).
Proof. intros [_ H]. by destruct (H l) as (_&_&_&_&_&->&_). Qed.

Lemma step_isEliminated now op h g h' g' l :
  step now op (h, g) = Some (h', g') →
  Player.isEliminated (deref h l) = true →
  Player.isEliminated (deref h' l) = true.
Proof.
  intros Hstep He. destruct op as [pid cell size| |].
  - destruct (step_move_cases _ _ _ _ _ _ _ _ Hstep)
      as (lm & _ & _ & Hcases).
    assert (Player.isEliminated
              (deref (afterPlacing cell size lm (h, g)).1 l) = true) as H1.
    { unfold afterPlacing. cbn [fst snd]. rewrite deref_mutate.
      destruct (decide _) as [[-> _]|_]; done. }
    destruct Hcases as [(-> & _)|[(-> & _)|(_ & _ & Hrun)]]; try done.
    apply moveToNextPlayer_frame in Hrun as (Heq & _).
    by rewrite (skipEq_isEliminated _ _ l Heq).
  - destruct (step_skip_cases _ _ _ _ _ _ (or_introl eq_refl) Hstep)
      as (_ & _ & g2 & Hrun & _).
    apply moveToNextPlayer_frame in Hrun as (Heq & _).
    rewrite (skipEq_isEliminated _ _ l Heq).
    unfold afterForcedSkip. cbn [fst snd].
    destruct (Game.getCurrentPlayer h g); [|done].
    rewrite deref_mutate. destruct (decide _) as [[-> _]|_]; [|done].
    unfold Game.skipAndMaybeEliminate. by destruct (_ <=? _)%Z.
  - destruct (step_skip_cases _ _ _ _ _ _ (or_intror eq_refl) Hstep)
      as (_ & _ & g2 & Hrun & _).
    apply moveToNextPlayer_frame in Hrun as (Heq & _).
    rewrite (skipEq_isEliminated _ _ l Heq).
    unfold afterForcedSkip. cbn [fst snd].
    destruct (Game.getCurrentPlayer h g); [|done].
    rewrite deref_mutate. destruct (decide _) as [[-> _]|_]; [|done].
    unfold Game.skipAndMaybeEliminate. by destruct (_ <=? _)%Z.
Qed.

(** X9: a match only moves forward.  An operation that takes effect never
    removes or recolours a piece on the board, never changes a connection
    flag, never brings an eliminated seat back, and never adds a piece to
    a stock; hence a seat that has no legal move stays without one for
    the rest of the match. *)
Theorem X9_match_only_moves_forward (now : Z) (op : GameOp) (h : Heap)
    (g : Game.t) (h' : Heap) (g' : Game.t) :
  validLocs h (Game.players g) →
  step now op (h, g) = Some (h', g') →
  (∀ i s c, boardSlot (Game.board g) i s = Some c →
            boardSlot (Game.board g') i s = Some c)
  ∧ (∀ l, Player.connected (deref h' l) = Player.connected (deref h l)
          ∧ (Player.isEliminated (deref h l) = true →
             Player.isEliminated (deref h' l) = true)
          ∧ ∀ s, (count (Player.inventory (deref h' l)) s
                  ≤ count (Player.inventory (deref h l)) s)%Z)
  ∧ (∀ l, GameLogic.hasLegalMoves (Game.board g) (deref h l) = false →
          GameLogic.hasLegalMoves (Game.board g') (deref h' l) = false).
Proof.
  intros Hv Hstep.
  pose proof (step_identity _ _ _ _ _ _ Hstep) as Hsame.
  assert ((∀ i s o, GameLogic.isLegalMove (Game.board g') i s o = true →
                    GameLogic.isLegalMove (Game.board g) i s o = true)
          ∧ (∀ i s c, boardSlot (Game.board g) i s = Some c →
                      boardSlot (Game.board g') i s = Some c)
          ∧ ∀ l s, (count (Player.inventory (deref h' l)) s
                    ≤ count (Player.inventory (deref h l)) s)%Z)
    as (Hlegal & Hboard & Hstock).
  { destruct (step_board_stock _ _ _ _ _ _ Hv Hstep)
      as [(pid & cell & size & lm & -> & Hlm & Hr & Hl & Hi & Hb
           & Hinv & Hother)
         |(_ & Hb & Hinv)].
    - rewrite Hb. split; [|split].
      + intros i s o. apply isLegalMove_boardPlace.
      + intros i s c Hslot. rewrite boardSlot_boardPlace by done.
        destruct (decide _) as [[-> ->]|_]; [|done].
        apply isLegalMove_slot_empty in Hl. congruence.
      + intros l s. destruct (decide (l = lm)) as [->|Hne].
        * rewrite Hinv, count_decrement. destruct (decide _); lia.
        * rewrite (Hother l Hne). lia.
    - rewrite Hb. split; [done|]. split; [done|].
      intros l s. rewrite Hinv. lia. }
  split; [done|]. split.
  - intros l. split; [by destruct (Hsame l) as (_ & _ & _ & -> & _)|].
    split; [by apply (step_isEliminated now op h g h' g')|done].
  - intros l Hno.
    destruct (GameLogic.hasLegalMoves (Game.board g') (deref h' l)) eqn:E;
      [|done].
    apply hasLegalMoves_exists in E as (cell & size & Hi & Hl).
    assert (GameLogic.hasLegalMoves (Game.board g) (deref h l) = true)
      as Hyes; [|congruence].
    apply hasLegalMoves_exists. exists cell, size. split.
    + specialize (Hstock l size). lia.
    + by apply Hlegal.
Qed.

Lemma X9_match_only_moves_forward_witness :
  (∀ i s c, boardSlot (Game.board duelState.2) i s = Some c →
            boardSlot (Game.board duelAfterFirstMove.2) i s = Some c)
  ∧ (∀ l, Player.connected (deref duelAfterFirstMove.1 l)
          = Player.connected (deref duelState.1 l)
          ∧ (Player.isEliminated (deref duelState.1 l) = true →
             Player.isEliminated (deref duelAfterFirstMove.1 l) = true)
          ∧ ∀ s, (count (Player.inventory (deref duelAfterFirstMove.1 l)) s
                  ≤ count (Player.inventory (deref duelState.1 l)) s)%Z)
  ∧ (∀ l, GameLogic.hasLegalMoves (Game.board duelState.2)
            (deref duelState.1 l) = false →
          GameLogic.hasLegalMoves (Game.board duelAfterFirstMove.2)
            (deref duelAfterFirstMove.1 l) = false).
Proof.
  apply (X9_match_only_moves_forward 0 (OpMove "A" 0 P)
           duelState.1 duelState.2).
  - apply (bool_decide_unpack _). vm_compute. exact I.
  - vm_compute. reflexivity.
Defined.

(* ===================================================================== *)
(** * Part V. The turn clock                                              *)
(* ===================================================================== *)

Lemma remaining_as_fraction (L e : Z) :
  (inject_Z L - inject_Z e / inject_Z 1000 == (L * 1000 - e) # 1000)%Q.
Proof.
  unfold Qeq, Qminus, Qdiv, Qplus, Qopp, Qmult, Qinv, inject_Z. simpl. lia.
Qed.

(** [Math.floor(Math.max(0, L - e / 1000))] in integer arithmetic. *)
Lemma floor_remaining (L e : Z) :
  Qfloor (Qmax 0 (inject_Z L - inject_Z e / inject_Z 1000))
  = Z.max 0 ((L * 1000 - e) / 1000).
Proof.
  destruct (Q.max_spec 0 (inject_Z L - inject_Z e / inject_Z 1000)%Q)
    as [[Hlt Hmax]|[Hle Hmax]].
  - rewrite (Qfloor_comp _ _ Hmax).
    rewrite (Qfloor_comp _ _ (remaining_as_fraction L e)).
    rewrite (remaining_as_fraction L e) in Hlt.
    unfold Qlt in Hlt. simpl in Hlt. unfold Qfloor.
    assert (0 ≤ (L * 1000 - e) / 1000)%Z by (apply Z.div_pos; lia). lia.
  - rewrite (Qfloor_comp _ _ Hmax).
    rewrite (remaining_as_fraction L e) in Hle.
    unfold Qle in Hle. simpl in Hle.
    change (Qfloor 0) with 0%Z.
    assert ((L * 1000 - e) / 1000 ≤ 0)%Z.
    { apply Z.div_le_upper_bound; lia. }
    lia.
Qed.

(** X10: the turn clock.  For a Playing match whose turn start [t0] is
    set, [getTurnTimeLeft()] is the number of whole seconds left of the
    limit, [max 0 (floor ((1000 * limit - (now - t0)) / 1000))], and 0
    otherwise; consequently [isTurnTimedOut()] holds exactly when the
    match is Playing and either no turn start is recorded or strictly
    more than [limit - 1] seconds have elapsed since the turn start, that
    is up to one second before the limit itself. *)
Theorem X10_turn_clock (now : Z) (g : Game.t) :
  Game.getTurnTimeLeft now g
  = (if Game.noTurnStart (Game.turnStartTime g)
        || negb (bool_decide (Game.status g = playing))
     then 0
     else Z.max 0
            ((Game.turnTimeLimit g * 1000
              - (now - default 0 (Game.turnStartTime g))) / 1000))%Z
  ∧ (Game.isTurnTimedOut now g = true
     ↔ Game.status g = playing
       ∧ (Game.noTurnStart (Game.turnStartTime g) = true
          ∨ ∃ t0, Game.turnStartTime g = Some t0
                  ∧ ((Game.turnTimeLimit g - 1) * 1000 < now - t0)%Z)).
Proof.
  assert (Game.getTurnTimeLeft now g
          = (if Game.noTurnStart (Game.turnStartTime g)
                || negb (bool_decide (Game.status g = playing))
             then 0
             else Z.max 0
                    ((Game.turnTimeLimit g * 1000
                      - (now - default 0 (Game.turnStartTime g))) / 1000))%Z)
    as Hleft.
  { unfold Game.getTurnTimeLeft.
    destruct (_ || _); [done|]. apply floor_remaining. }
  split; [done|].
  unfold Game.isTurnTimedOut. rewrite Hleft.
  destruct (bool_decide (Game.status g = playing)) eqn:Hs.
  2:{ apply bool_decide_eq_false in Hs. rewrite andb_false_r.
      split; [done|]. by intros [? _]. }
  apply bool_decide_eq_true in Hs. rewrite andb_true_r, orb_false_r.
  destruct (Game.noTurnStart (Game.turnStartTime g)) eqn:Hno.
  { split; [|done]. intros _. split; [done|by left]. }
  destruct (Game.turnStartTime g) as [t0|]; [|done]. simpl.
  set (L := Game.turnTimeLimit g).
  rewrite Z.leb_le. split.
  - intros Hle. split; [done|]. right. exists t0. split; [done|].
    assert ((L * 1000 - (now - t0)) / 1000 ≤ 0)%Z as Hd by lia.
    destruct (decide ((L - 1) * 1000 < now - t0)%Z) as [?|Hge]; [done|].
    assert (1 ≤ (L * 1000 - (now - t0)) / 1000)%Z.
    { apply Z.div_le_lower_bound; lia. }
    lia.
  - intros (_ & [?|(t & [= <-] & Hlt)]); [done|].
    assert ((L * 1000 - (now - t0)) / 1000 < 1)%Z.
    { apply Z.div_lt_upper_bound; lia. }
    lia.
Qed.

(* ===================================================================== *)
(** * Part VI. Stocks as the seat records report them                     *)
(* ===================================================================== *)

(** X11: what a seat record reports about its stock.  In every reachable
    match state and for every seat, [getTotalPieces()] is nine minus the
    number of pieces of the seat's colour on the board and lies between 0
    and 9; [hasAnyPieces()] holds exactly when that total is positive;
    and a seat that has a legal move has a piece. *)
Theorem X11_total_pieces (h : Heap) (g : Game.t) :
  reachable (h, g) →
  ∀ l, l ∈ Game.players g →
    (Player.getTotalPieces (deref h l)
     = 9 - (placed (Game.board g) P (Player.color (deref h l))
            + placed (Game.board g) M (Player.color (deref h l))
            + placed (Game.board g) G (Player.color (deref h l))))%Z
    ∧ (0 ≤ Player.getTotalPieces (deref h l) ≤ 9)%Z
    ∧ (Player.hasAnyPieces (deref h l) = true
       ↔ (0 < Player.getTotalPieces (deref h l))%Z)
    ∧ (GameLogic.hasLegalMoves (Game.board g) (deref h l) = true →
       Player.hasAnyPieces (deref h l) = true).
Proof.
  intros Hreach l Hl.
  destruct (reachable_stock _ Hreach) as [Hstock _]. cbn [fst snd] in *.
  destruct (Hstock l P Hl) as [HbP HsP].
  destruct (Hstock l M Hl) as [HbM HsM].
  destruct (Hstock l G Hl) as [HbG HsG].
  unfold Player.getTotalPieces, Player.hasAnyPieces. simpl in *.
  split; [lia|]. split; [lia|].
  assert (((0 <? invP (Player.inventory (deref h l)))%Z
           || (0 <? invM (Player.inventory (deref h l)))%Z
           || (0 <? invG (Player.inventory (deref h l)))%Z) = true
          ↔ (0 < invP (Player.inventory (deref h l))
                 + invM (Player.inventory (deref h l))
                 + invG (Player.inventory (deref h l)))%Z) as Hany.
  { rewrite !orb_true_iff, !Z.ltb_lt. lia. }
  split; [done|].
  intros Hmoves. apply Hany.
  apply hasLegalMoves_exists in Hmoves as (cell & size & Hi & _).
  destruct size; simpl in Hi; lia.
Qed.

Lemma X11_total_pieces_witness :
  Player.getTotalPieces (deref duelAfterFirstMove.1 2%nat) = 8%Z
  ∧ Player.hasAnyPieces (deref duelAfterFirstMove.1 2%nat) = true.
Proof.
  assert (2%nat ∈ Game.players duelAfterFirstMove.2) as Hin.
  { apply (bool_decide_unpack _). vm_compute. exact I. }
  destruct (X11_total_pieces duelAfterFirstMove.1 duelAfterFirstMove.2
              duelAfterFirstMove_reachable 2%nat Hin)
    as (Htotal & _ & Hany & _).
  split.
  - rewrite Htotal. by vm_compute.
  - apply Hany. rewrite Htotal. by vm_compute.
Defined.

(* ===================================================================== *)
(** * Part VII. Further properties of rooms                               *)
(* ===================================================================== *)







Lemma salonTwoSeats_roomWf : roomWf salonTwoSeats.1 salonTwoSeats.2.
Proof.
  unfold roomWf.
  split; [apply (bool_decide_unpack _); vm_compute; exact I|].
  split; [apply (bool_decide_unpack _); vm_compute; exact I|].
  split; [apply (bool_decide_unpack _); vm_compute; exact I|].
  split; [vm_compute; discriminate|].
  intros l Hl.
  change (Room.players salonTwoSeats.2) with [0%nat; 1%nat] in Hl.
  apply elem_of_cons in Hl as [->|Hl]; [by vm_compute|].
  apply list_elem_of_singleton in Hl as ->. by vm_compute.
Qed.


Lemma sameButHost_refl p : sameButHost p p.
Proof. by repeat split. Qed.

Lemma sameButHost_setHost b p : sameButHost p (Player.setHost b p).
Proof. by repeat split. Qed.

Lemma sameButHost_trans p q r :
  sameButHost p q → sameButHost q r → sameButHost p r.
Proof.
  intros (?&?&?&?&?&?&?) (?&?&?&?&?&?&?). repeat split; congruence.
Qed.

Lemma mutate_setHost_sameButHost b l h l' :
  sameButHost (deref h l') (deref (mutate (Player.setHost b) l h) l').
Proof.
  rewrite deref_mutate. destruct (decide _) as [[-> _]|_];
    [apply sameButHost_setHost|apply sameButHost_refl].
Qed.

Lemma fold_setHost_sameButHost b ls :
  ∀ h l',
    sameButHost (deref h l')
      (deref (fold_left (fun h' l => mutate (Player.setHost b) l h') ls h)
             l').
Proof.
  induction ls as [|x ls IH]; intros h l'; [apply sameButHost_refl|].
  simpl. eapply sameButHost_trans; [|apply IH].
  apply mutate_setHost_sameButHost.
Qed.

Lemma fold_mutate_elem (f : Player.t → Player.t) ls :
  (∀ p, f (f p) = f p) →
  ∀ h l, l ∈ ls → (l < length h)%nat →
    deref (fold_left (fun h' x => mutate f x h') ls h) l = f (deref h l).
Proof.
  intros Hidem. induction ls as [|x ls IH]; intros h l Hin Hl.
  - by apply elem_of_nil in Hin.
  - simpl. destruct (decide (l ∈ ls)) as [Hin'|Hout].
    + rewrite IH; [|done|by rewrite length_mutate].
      rewrite deref_mutate. destruct (decide _) as [[-> _]|_]; [|done].
      apply Hidem.
    + apply elem_of_cons in Hin as [->|?]; [|done].
      rewrite fold_mutate_other by done. by apply deref_mutate_eq.
Qed.

(** [transferHost()] on a non-empty seat list without repeated
    references: the first seat becomes the host, every other seat loses
    the flag, and [hostId] names the first seat. *)
Lemma transferHost_spec h r l0 rest :
  Room.players r = l0 :: rest → NoDup (l0 :: rest) →
  validLocs h (l0 :: rest) →
  ∃ h',
    Room.transferHost h r
    = (h', Room.set_hostId r (Player.id (deref h l0)))
    ∧ length h' = length h
    ∧ (∀ l, sameButHost (deref h l) (deref h' l))
    ∧ (∀ l, l ∈ l0 :: rest →
            Player.isHost (deref h' l) = bool_decide (l = l0))
    ∧ ∀ l, l ∉ l0 :: rest → deref h' l = deref h l.
Proof.
  intros Hp Hnd Hv. unfold Room.transferHost. rewrite Hp.
  apply NoDup_cons in Hnd as [Hl0 Hnd].
  apply Forall_cons in Hv as [Hl0v Hv].
  eexists. split.
  { f_equal. f_equal. by rewrite deref_mutate_eq. }
  split. { by rewrite fold_mutate_length, length_mutate. }
  split.
  { intros l. eapply sameButHost_trans;
      [apply (mutate_setHost_sameButHost true l0)
      |apply fold_setHost_sameButHost]. }
  split.
  - intros l Hl. apply elem_of_cons in Hl as [->|Hl].
    + rewrite fold_mutate_other by done. rewrite deref_mutate_eq by done.
      simpl. by rewrite bool_decide_eq_true_2.
    + rewrite fold_mutate_elem; [|done|done|].
      * simpl. rewrite bool_decide_eq_false_2; [done|]. by intros ->.
      * rewrite length_mutate. rewrite Forall_forall in Hv. by apply Hv.
  - intros l Hl. apply not_elem_of_cons in Hl as [Hne Hl].
    rewrite fold_mutate_other by done. by rewrite deref_mutate_ne.
Qed.

Lemma findIndex_Some {A} (f : A → bool) (l : list A) (i : nat) :
  GameLogic.findIndex f l = Some i →
  ∃ x, l !! i = Some x ∧ f x = true
       ∧ Forall (fun y => f y = false) (take i l).
Proof.
  revert i. induction l as [|x l IH]; intros i; [discriminate|]. simpl.
  destruct (f x) eqn:Hx.
  - intros [= <-]. exists x. by repeat split.
  - destruct (GameLogic.findIndex f l) as [j|]; [|discriminate].
    intros [= <-]. destruct (IH j eq_refl) as (y & Hy & Hfy & Hpre).
    exists y. split; [done|]. split; [done|]. simpl. by constructor.
Qed.

Lemma findIndex_None {A} (f : A → bool) (l : list A) :
  GameLogic.findIndex f l = None → Forall (fun y => f y = false) l.
Proof.
  induction l as [|x l IH]; [constructor|]. simpl.
  destruct (f x) eqn:Hx; [discriminate|].
  destruct (GameLogic.findIndex f l); [discriminate|].
  intros _. constructor; [done|by apply IH].
Qed.

(** Deleting the seat found by id keeps exactly the seats with another
    id, in their order. *)
Lemma delete_found_seat h pid ls i :
  NoDup (ids h ls) →
  GameLogic.findIndex
    (fun l => bool_decide (Player.id (deref h l) = pid)) ls = Some i →
  delete i ls
  = List.filter (fun l => negb (bool_decide (Player.id (deref h l) = pid)))
                ls.
Proof.
  revert i. induction ls as [|x ls IH]; intros i Hnd; [discriminate|].
  simpl in *. apply NoDup_cons in Hnd as [Hx Hnd].
  destruct (bool_decide (Player.id (deref h x) = pid)) eqn:Hid.
  - intros [= <-]. simpl. apply bool_decide_eq_true in Hid.
    symmetry. clear IH Hnd. induction ls as [|y ls IH]; [done|].
    simpl. apply not_elem_of_cons in Hx as [Hne Hx].
    rewrite bool_decide_eq_false_2 by congruence. simpl.
    f_equal. by apply IH.
  - destruct (GameLogic.findIndex _ ls) as [j|] eqn:Hj; [|discriminate].
    intros [= <-]. simpl. f_equal. by apply IH.
Qed.

Lemma sublist_validLocs h ls ls' :
  ls' `sublist_of` ls → validLocs h ls → validLocs h ls'.
Proof.
  unfold validLocs. induction 1 as [|x l1 l2 _ IH|x l1 l2 _ IH];
    intros Hv; [done| |].
  - apply Forall_cons in Hv as [? ?]. constructor; auto.
  - apply Forall_cons in Hv as [? ?]. auto.
Qed.

Lemma filter_sublist {A} (f : A → bool) (l : list A) :
  List.filter f l `sublist_of` l.
Proof.
  induction l as [|x l IH]; simpl; [constructor|].
  destruct (f x); by constructor.
Qed.

Lemma sameButHost_map {A} (proj : Player.t → A) h h' (ls : list loc) :
  (∀ l, proj (deref h' l) = proj (deref h l)) →
  map (fun l => proj (deref h' l)) ls = map (fun l => proj (deref h l)) ls.
Proof. intros H. apply map_ext. intros l. apply H. Qed.

Lemma map_sublist {A B} (f : A → B) (l1 l2 : list A) :
  l1 `sublist_of` l2 → map f l1 `sublist_of` map f l2.
Proof. induction 1; simpl; by constructor. Qed.

(** [Room.removePlayer], taken apart. *)
Lemma removePlayer_cases now pid h r h' r' ok :
  roomWf h r →
  Room.removePlayer now pid h r = (h', r', ok) →
  (ok = false ∧ h' = h ∧ r' = r ∧ pid ∉ ids h (Room.players r))
  ∨ (ok = true
     ∧ ∃ lr,
         Room.getPlayer h r pid = Some lr
         ∧ Room.players r'
           = List.filter
               (fun l => negb (bool_decide (Player.id (deref h l) = pid)))
               (Room.players r)
         ∧ Room.capacity r' = Room.capacity r
         ∧ length h' = length h
         ∧ (∀ l, sameButHost (deref h l) (deref h' l))
         ∧ ((Player.isHost (deref h lr) = false ∨ Room.players r' = []) →
            h' = h ∧ Room.hostId r' = Room.hostId r)
         ∧ (Player.isHost (deref h lr) = true →
            ∀ l0 rest, Room.players r' = l0 :: rest →
              Room.hostId r' = Player.id (deref h l0)
              ∧ ∀ l, l ∈ Room.players r' →
                     Player.isHost (deref h' l) = bool_decide (l = l0))).
Proof.
  intros (Hv & Hids & Hcols & Hcap & Hhost). unfold Room.removePlayer.
  destruct (GameLogic.findIndex _ (Room.players r)) as [i|] eqn:Hidx.
  2:{ intros [= <- <- <-]. left. repeat split.
      apply findIndex_None in Hidx. rewrite Forall_forall in Hidx.
      unfold ids. intros Hin.
      apply list_elem_of_fmap in Hin as (l & Hl & Hin).
      specialize (Hidx l Hin). simpl in Hidx.
      by apply bool_decide_eq_false in Hidx. }
  destruct (findIndex_Some _ _ _ Hidx) as (lr & Hlr & Hid & Hpre).
  pose proof (delete_found_seat h pid _ i Hids Hidx) as Hdel.
  assert (Room.getPlayer h r pid = Some lr) as Hget.
  { unfold Room.getPlayer.
    rewrite <- (take_drop_middle _ _ _ Hlr).
    clear -Hpre Hid. induction Hpre as [|y l Hy Hl IH]; simpl.
    - by rewrite Hid.
    - by rewrite Hy. }
  rewrite (list_lookup_total_correct _ _ _ Hlr).
  set (r1 := Room.set_players r (delete i (Room.players r))).
  assert (Room.players r1
          = List.filter
              (fun l => negb (bool_decide (Player.id (deref h l) = pid)))
              (Room.players r)) as Hp1 by (by rewrite <- Hdel).
  assert (NoDup (Room.players r1)) as Hnd1.
  { rewrite Hp1.
    eapply sublist_NoDup; [by eapply uniqueIds_NoDup|apply filter_sublist]. }
  assert (validLocs h (Room.players r1)) as Hv1.
  { rewrite Hp1.
    eapply sublist_validLocs; [apply filter_sublist|done]. }
  destruct (Player.isHost (deref h lr) && Nat.ltb 0 (length (Room.players r1)))
    eqn:Htransfer.
  - apply andb_true_iff in Htransfer as [Hh Hlen].
    apply Nat.ltb_lt in Hlen.
    destruct (Room.players r1) as [|l0 rest] eqn:Hp1'; [simpl in Hlen; lia|].
    destruct (transferHost_spec h r1 l0 rest Hp1' Hnd1 Hv1)
      as (h2 & Htr & Hlen2 & Hsame & Hflags & Hrest).
    rewrite Htr. cbv zeta.
    match goal with
    | |- (_, ?r3, _) = _ → _ =>
        assert (Room.players r3 = Room.players r1
                ∧ Room.hostId r3 = Player.id (deref h l0)
                ∧ Room.capacity r3 = Room.capacity r)
          as (Hp3 & Hh3 & Hc3)
          by (destruct (bool_decide (Game.status _ = playing));
              repeat split; reflexivity);
        set (rr := r3) in *
    end.
    intros [= <- <- <-]. right. split; [done|]. exists lr.
    split; [done|]. rewrite Hp3, Hh3, Hc3, Hp1'.
    split; [done|]. split; [done|]. split; [done|]. split; [done|].
    split; [intros [?|?]; congruence|].
    intros _ l0' rest' [= <- <-]. split; [done|]. apply Hflags.
  - cbv zeta.
    match goal with
    | |- (_, ?r3, _) = _ → _ =>
        assert (Room.players r3 = Room.players r1
                ∧ Room.hostId r3 = Room.hostId r
                ∧ Room.capacity r3 = Room.capacity r)
          as (Hp3 & Hh3 & Hc3)
          by (destruct (bool_decide (Game.status _ = playing));
              repeat split; reflexivity);
        set (rr := r3) in *
    end.
    intros [= <- <- <-]. right. split; [done|]. exists lr.
    split; [done|]. rewrite Hp3, Hh3, Hc3.
    split; [done|]. split; [done|]. split; [done|].
    split; [intros l; apply sameButHost_refl|].
    split; [done|].
    intros Hh l0 rest Hp'. exfalso.
    apply andb_false_iff in Htransfer as [?|Hlen]; [congruence|].
    apply Nat.ltb_ge in Hlen. rewrite Hp' in Hlen. simpl in Hlen. lia.
Qed.

Lemma filter_all {A} (f : A → bool) (l : list A) :
  Forall (fun x => f x = true) l → List.filter f l = l.
Proof.
  induction 1 as [|x l Hx _ IH]; [done|]. simpl. by rewrite Hx, IH.
Qed.

Lemma sameButHost_ids h h' ls :
  (∀ l, sameButHost (deref h l) (deref h' l)) → ids h' ls = ids h ls.
Proof.
  intros H. unfold ids. apply map_ext. intros l.
  by destruct (H l) as (-> & _).
Qed.

Lemma sameButHost_colors h h' ls :
  (∀ l, sameButHost (deref h l) (deref h' l)) →
  map (fun l => Player.color (deref h' l)) ls
  = map (fun l => Player.color (deref h l)) ls.
Proof.
  intros H. apply map_ext. intros l. by destruct (H l) as (_ & _ & -> & _).
Qed.

(** Leaving keeps the room's seat list well-formed. *)
Lemma removePlayer_roomWf (now : Z) (pid : string) (h : Heap)
    (r : Room.t) (h' : Heap) (r' : Room.t) (ok : bool) :
  roomWf h r →
  Room.removePlayer now pid h r = (h', r', ok) →
  roomWf h' r'.
Proof.
  intros Hwf Hrem. pose proof Hwf as (Hv & Hids & Hcols & Hcap & Hhost).
  destruct (removePlayer_cases _ _ _ _ _ _ _ Hwf Hrem)
    as [(-> & -> & -> & Hnot)
       |(-> & lr & Hget & Hp & Hc & Hlen & Hsame & Hkeep & Hnew)]; [done|].
  assert (Room.players r' `sublist_of` Room.players r) as Hsub.
  { rewrite Hp. apply filter_sublist. }
  assert (∀ l, l ∈ Room.players r' → l ∈ Room.players r) as Hin.
  { intros l Hl. rewrite Hp in Hl. apply list_elem_of_In in Hl.
    apply filter_In in Hl as [Hl _]. by apply list_elem_of_In. }
  unfold roomWf. split.
  { unfold validLocs. rewrite Hlen.
    by apply (sublist_validLocs h (Room.players r)). }
  split.
  { rewrite (sameButHost_ids h h' _ Hsame).
    eapply sublist_NoDup; [exact Hids|]. by apply map_sublist. }
  split.
  { unfold Room.usedColors. rewrite (sameButHost_colors h h' _ Hsame).
    eapply sublist_NoDup; [exact Hcols|]. by apply map_sublist. }
  split.
  { rewrite Hc, Hp.
    pose proof (filter_length_le
                  (fun l => negb (bool_decide
                                    (Player.id (deref h l) = pid)))
                  (Room.players r)). lia. }
  intros l Hl Hflag.
  destruct (Player.isHost (deref h lr)) eqn:Hlr.
  - destruct (Room.players r') as [|l0 rest] eqn:Hp'.
    { by apply elem_of_nil in Hl. }
    destruct (Hnew eq_refl l0 rest eq_refl) as [Hh Hflags].
    rewrite (Hflags l Hl) in Hflag.
    apply bool_decide_eq_true in Hflag as ->.
    rewrite Hh. by destruct (Hsame l0) as (-> & _).
  - destruct (Hkeep (or_introl eq_refl)) as [-> ->].
    apply Hhost; [by apply Hin|done].
Qed.

(** X13: leaving keeps the room's seat list well-formed.  From a
    well-formed room, [removePlayer] returns true exactly when a seat has
    the id; the seats left are exactly the seats with another id, in
    their order; no record changes except, possibly, in its host flag;
    and the room is again well-formed.  When it returns false nothing
    changed. *)
Theorem X13_removePlayer_keeps_room (now : Z) (pid : string) (h : Heap)
    (r : Room.t) (h' : Heap) (r' : Room.t) (ok : bool) :
  roomWf h r →
  Room.removePlayer now pid h r = (h', r', ok) →
  roomWf h' r'
  ∧ (ok = true ↔ pid ∈ ids h (Room.players r))
  ∧ Room.players r'
    = List.filter
        (fun l => negb (bool_decide (Player.id (deref h l) = pid)))
        (Room.players r)
  ∧ (pid ∉ ids h' (Room.players r'))
  ∧ (∀ l, sameButHost (deref h l) (deref h' l))
  ∧ (ok = false → h' = h ∧ r' = r).
Proof.
  intros Hwf Hrem.
  split; [by eapply removePlayer_roomWf|].
  destruct (removePlayer_cases _ _ _ _ _ _ _ Hwf Hrem)
    as [(-> & -> & -> & Hnot)
       |(-> & lr & Hget & Hp & Hc & Hlen & Hsame & Hkeep & Hnew)].
  - split; [split; [discriminate|done]|].
    split; [|split; [done|split; [intros; apply sameButHost_refl|done]]].
    symmetry. apply filter_all. apply Forall_forall. intros l Hl.
    apply negb_true_iff, bool_decide_eq_false. intros Hid. apply Hnot.
    unfold ids. apply list_elem_of_fmap. by exists l.
  - split; [|split; [done|split; [|split; [done|discriminate]]]].
    + split; [intros _|done].
      unfold Room.getPlayer in Hget. apply find_some in Hget as [Hl Hid].
      apply bool_decide_eq_true in Hid. rewrite <- Hid.
      unfold ids. apply list_elem_of_fmap. exists lr.
      split; [done|by apply list_elem_of_In].
    + rewrite (sameButHost_ids h h' _ Hsame), Hp. unfold ids.
      intros Hx. apply list_elem_of_fmap in Hx as (l & Hid & Hl).
      apply list_elem_of_In, filter_In in Hl as [_ Hl].
      apply negb_true_iff, bool_decide_eq_false in Hl. by apply Hl.
Qed.

Lemma salonThreeSeats_roomWf : roomWf salonThreeSeats.1 salonThreeSeats.2.
Proof.
  unfold roomWf.
  split; [apply (bool_decide_unpack _); vm_compute; exact I|].
  split; [apply (bool_decide_unpack _); vm_compute; exact I|].
  split; [apply (bool_decide_unpack _); vm_compute; exact I|].
  split; [vm_compute; discriminate|].
  intros l Hl.
  change (Room.players salonThreeSeats.2) with [0%nat; 1%nat; 2%nat] in Hl.
  apply elem_of_cons in Hl as [->|Hl]; [by vm_compute|].
  apply elem_of_cons in Hl as [->|Hl]; [by vm_compute|].
  apply list_elem_of_singleton in Hl as ->. by vm_compute.
Qed.

Lemma X13_removePlayer_keeps_room_witness :
  let s' := (Room.removePlayer 0 "A" salonThreeSeats.1 salonThreeSeats.2).1
  in
  roomWf s'.1 s'.2
  ∧ (true = true ↔ "A" ∈ ids salonThreeSeats.1
                           (Room.players salonThreeSeats.2))
  ∧ Room.players s'.2
    = List.filter
        (fun l => negb (bool_decide
                          (Player.id (deref salonThreeSeats.1 l) = "A")))
        (Room.players salonThreeSeats.2)
  ∧ ("A" ∉ ids s'.1 (Room.players s'.2))
  ∧ (∀ l, sameButHost (deref salonThreeSeats.1 l) (deref s'.1 l))
  ∧ (true = false →
     s'.1 = salonThreeSeats.1 ∧ s'.2 = salonThreeSeats.2).
Proof.
  apply (X13_removePlayer_keeps_room 0 "A" salonThreeSeats.1
           salonThreeSeats.2).
  - exact salonThreeSeats_roomWf.
  - by vm_compute.
Defined.

(** X14: the host flag follows the first seat.  When the seat that
    carries the host flag leaves a well-formed room and seats remain, the
    first remaining seat becomes the host: [hostId] is its id,
    [getHost()] returns it, and no other seat carries the flag.  When no
    seat remains, the store is untouched and [hostId] keeps the id of the
    seat that left. *)
Theorem X14_host_follows_first_seat (now : Z) (pid : string) (h : Heap)
    (r : Room.t) (h' : Heap) (r' : Room.t) (ok : bool) (lr : loc) :
  roomWf h r →
  Room.getPlayer h r pid = Some lr →
  Player.isHost (deref h lr) = true →
  Room.removePlayer now pid h r = (h', r', ok) →
  ok = true
  ∧ match Room.players r' with
    | [] => h' = h ∧ Room.hostId r' = pid
    | l0 :: _ =>
        Room.hostId r' = Player.id (deref h' l0)
        ∧ Room.getHost h' r' = Some l0
        ∧ ∀ l, l ∈ Room.players r' →
               Player.isHost (deref h' l) = bool_decide (l = l0)
    end.
Proof.
  intros Hwf Hget Hflag Hrem.
  pose proof Hwf as (_ & _ & _ & _ & Hhost).
  assert (Player.id (deref h lr) = pid ∧ lr ∈ Room.players r) as [Hid Hlr].
  { unfold Room.getPlayer in Hget. apply find_some in Hget as [Hl Hid].
    apply bool_decide_eq_true in Hid. split; [done|].
    by apply list_elem_of_In. }
  destruct (removePlayer_cases _ _ _ _ _ _ _ Hwf Hrem)
    as [(-> & -> & -> & Hnot)
       |(-> & lr' & Hget' & Hp & Hc & Hlen & Hsame & Hkeep & Hnew)].
  { exfalso. apply Hnot. rewrite <- Hid. unfold ids.
    apply list_elem_of_fmap. by exists lr. }
  assert (lr' = lr) as -> by congruence.
  split; [done|].
  destruct (Room.players r') as [|l0 rest] eqn:Hp'.
  - destruct (Hkeep (or_intror eq_refl)) as [-> ->]. split; [done|].
    rewrite <- Hid. symmetry. by apply Hhost.
  - destruct (Hnew Hflag l0 rest eq_refl) as [Hh Hflags].
    split; [rewrite Hh; by destruct (Hsame l0) as (-> & _)|].
    split; [|done].
    unfold Room.getHost. rewrite Hp'. simpl.
    rewrite (Hflags l0) by (by left). by rewrite bool_decide_eq_true_2.
Qed.

Lemma X14_host_follows_first_seat_witness :
  let s' := (Room.removePlayer 0 "A" salonThreeSeats.1 salonThreeSeats.2).1
  in
  true = true
  ∧ match Room.players s'.2 with
    | [] => s'.1 = salonThreeSeats.1 ∧ Room.hostId s'.2 = "A"
    | l0 :: _ =>
        Room.hostId s'.2 = Player.id (deref s'.1 l0)
        ∧ Room.getHost s'.1 s'.2 = Some l0
        ∧ ∀ l, l ∈ Room.players s'.2 →
               Player.isHost (deref s'.1 l) = bool_decide (l = l0)
    end.
Proof.
  apply (X14_host_follows_first_seat 0 "A" salonThreeSeats.1
           salonThreeSeats.2 _ _ true 0%nat).
  - exact salonThreeSeats_roomWf.
  - by vm_compute.
  - by vm_compute.
  - by vm_compute.
Defined.

Lemma find_the_one {A} (f : A → bool) (l : list A) (x : A) :
  x ∈ l → (∀ y, y ∈ l → f y = true ↔ y = x) → List.find f l = Some x.
Proof.
  intros Hx Hf. destruct (List.find f l) as [y|] eqn:Hfind.
  - apply find_some in Hfind as [Hy Hfy]. f_equal.
    apply Hf; [by apply list_elem_of_In|done].
  - apply list_elem_of_In in Hx.
    pose proof (find_none _ _ Hfind x Hx) as Hno.
    assert (f x = true) by (apply Hf; [by apply list_elem_of_In|done]).
    congruence.
Qed.

(** X15: naming a new host.  On a well-formed room [transferHostTo]
    returns true exactly when a seat has the id, and otherwise changes
    nothing.  When it returns true, [hostId] is that id, [getHost()]
    returns that seat, no other seat carries the host flag, nothing else
    of any record changed, and the room is again well-formed. *)
Theorem X15_transferHostTo (pid : string) (h : Heap) (r : Room.t)
    (h' : Heap) (r' : Room.t) (ok : bool) :
  roomWf h r →
  Room.transferHostTo pid h r = (h', r', ok) →
  (ok = true ↔ pid ∈ ids h (Room.players r))
  ∧ (ok = false → h' = h ∧ r' = r)
  ∧ (ok = true →
     roomWf h' r'
     ∧ Room.hostId r' = pid
     ∧ Room.players r' = Room.players r
     ∧ (∃ l, Room.getPlayer h r pid = Some l
             ∧ Room.getHost h' r' = Some l
             ∧ ∀ l', l' ∈ Room.players r →
                     Player.isHost (deref h' l') = bool_decide (l' = l))
     ∧ ∀ l, sameButHost (deref h l) (deref h' l)).
Proof.
  intros (Hv & Hids & Hcols & Hcap & Hhost). unfold Room.transferHostTo.
  destruct (List.find _ (Room.players r)) as [l|] eqn:Hfind.
  2:{ intros [= <- <- <-]. split; [|split; [done|discriminate]].
      split; [discriminate|]. intros Hin. exfalso.
      unfold ids in Hin. apply list_elem_of_fmap in Hin as (x & Hx & Hin).
      apply list_elem_of_In in Hin.
      pose proof (find_none _ _ Hfind x Hin) as Hno. simpl in Hno.
      by apply bool_decide_eq_false in Hno. }
  pose proof Hfind as Hget.
  apply find_some in Hfind as [Hl Hid].
  apply bool_decide_eq_true in Hid. apply list_elem_of_In in Hl.
  assert (l < length h)%nat as Hlv.
  { unfold validLocs in Hv. rewrite Forall_forall in Hv. by apply Hv. }
  set (h1 := fold_left (fun h' x => mutate (Player.setHost false) x h')
                       (Room.players r) h).
  assert (length h1 = length h) as Hlen1 by apply fold_mutate_length.
  assert (∀ x, sameButHost (deref h x)
                 (deref (mutate (Player.setHost true) l h1) x)) as Hsame.
  { intros x. eapply sameButHost_trans;
      [apply fold_setHost_sameButHost
      |apply (mutate_setHost_sameButHost true l)]. }
  assert (∀ x, x ∈ Room.players r →
               Player.isHost (deref (mutate (Player.setHost true) l h1) x)
               = bool_decide (x = l)) as Hflags.
  { intros x Hx. rewrite deref_mutate.
    destruct (decide (l = x ∧ (l < length h1)%nat)) as [[-> _]|Hne].
    - simpl. by rewrite bool_decide_eq_true_2.
    - assert (x ≠ l) as Hxl by (intros ->; apply Hne; split; [done|lia]).
      rewrite bool_decide_eq_false_2 by done.
      unfold h1. rewrite fold_mutate_elem; [done|done|done|].
      unfold validLocs in Hv. rewrite Forall_forall in Hv. by apply Hv. }
  intros [= <- <- <-].
  assert (Player.id (deref (mutate (Player.setHost true) l h1) l) = pid)
    as Hid'.
  { by destruct (Hsame l) as (<- & _). }
  split.
  { split; [intros _|done]. rewrite <- Hid. unfold ids.
    apply list_elem_of_fmap. by exists l. }
  split; [discriminate|]. intros _.
  split; [|split; [done|split; [done|split; [|done]]]].
  - unfold roomWf. simpl. split.
    { unfold validLocs. by rewrite length_mutate, Hlen1. }
    split; [by rewrite (sameButHost_ids h _ _ Hsame)|].
    split.
    { unfold Room.usedColors. simpl.
      by rewrite (sameButHost_colors h _ _ Hsame). }
    split; [done|].
    intros x Hx Hflag. rewrite (Hflags x Hx) in Hflag.
    by apply bool_decide_eq_true in Hflag as ->.
  - exists l. split; [done|]. split; [|done].
    unfold Room.getHost. simpl. apply find_the_one; [done|].
    intros y Hy. rewrite (Hflags y Hy). apply bool_decide_eq_true.
Qed.

Lemma X15_transferHostTo_witness :
  let s' := (Room.transferHostTo "B" salonTwoSeats.1 salonTwoSeats.2).1 in
  (true = true ↔ "B" ∈ ids salonTwoSeats.1 (Room.players salonTwoSeats.2))
  ∧ (true = false → s'.1 = salonTwoSeats.1 ∧ s'.2 = salonTwoSeats.2)
  ∧ (true = true →
     roomWf s'.1 s'.2
     ∧ Room.hostId s'.2 = "B"
     ∧ Room.players s'.2 = Room.players salonTwoSeats.2
     ∧ (∃ l, Room.getPlayer salonTwoSeats.1 salonTwoSeats.2 "B" = Some l
             ∧ Room.getHost s'.1 s'.2 = Some l
             ∧ ∀ l', l' ∈ Room.players salonTwoSeats.2 →
                     Player.isHost (deref s'.1 l') = bool_decide (l' = l))
     ∧ ∀ l, sameButHost (deref salonTwoSeats.1 l) (deref s'.1 l)).
Proof.
  apply (X15_transferHostTo "B" salonTwoSeats.1 salonTwoSeats.2).
  - exact salonTwoSeats_roomWf.
  - by vm_compute.
Defined.

Lemma votingOpen_guard now r :
  Room.noDeadline (Room.replayDeadline r)
  || (default 0 (Room.replayDeadline r) <? now)%Z = false
  ↔ votingOpen now r.
Proof.
  unfold votingOpen, Room.noDeadline.
  destruct (Room.replayDeadline r) as [d|]; simpl.
  - rewrite orb_false_iff, Z.eqb_neq, Z.ltb_ge. split.
    + intros [? ?]. by exists d.
    + intros (d' & [= <-] & ? & ?). done.
  - split; [done|]. by intros (d & ? & _).
Qed.

Lemma forallb_connected h r (f : loc → bool) :
  forallb f (List.filter (fun l => Player.connected (deref h l))
                         (Room.players r)) = true
  ↔ ∀ l, connectedSeat h r l → f l = true.
Proof.
  rewrite forallb_forall. unfold connectedSeat. split.
  - intros H l [Hl Hc]. apply H, filter_In.
    split; [by apply list_elem_of_In|done].
  - intros H l Hl. apply filter_In in Hl as [Hl Hc].
    apply H. split; [by apply list_elem_of_In|done].
Qed.

Lemma forallb_false_exists {A} (f : A → bool) (l : list A) :
  forallb f l = false → ∃ x, In x l ∧ f x = false.
Proof.
  induction l as [|x l IH]; [discriminate|]. simpl.
  destruct (f x) eqn:Hx; simpl.
  - intros H. destruct (IH H) as (y & Hy & Hfy). exists y. tauto.
  - intros _. exists x. tauto.
Qed.

(** X16: the three answers of [checkReplayVotes].  It answers 'accepted'
    exactly when the vote is open and every connected seat has voted yes
    (so also when no seat is connected); 'pending' exactly when the vote
    is open and some connected seat has not voted; and 'rejected'
    exactly when the vote is not open (no deadline, or the deadline has
    passed), or every connected seat has voted and one of them voted
    no.  Votes of seats that are not connected are not read. *)
Theorem X16_checkReplayVotes (now : Z) (h : Heap) (r : Room.t) :
  (Room.checkReplayVotes now h r = accepted
   ↔ votingOpen now r
     ∧ ∀ l, connectedSeat h r l →
            Room.replayVotes r !! Player.id (deref h l) = Some true)
  ∧ (Room.checkReplayVotes now h r = pending
     ↔ votingOpen now r
       ∧ ∃ l, connectedSeat h r l
              ∧ Room.replayVotes r !! Player.id (deref h l) = None)
  ∧ (Room.checkReplayVotes now h r = rejected
     ↔ ¬ votingOpen now r
       ∨ ((∀ l, connectedSeat h r l →
                is_Some (Room.replayVotes r !! Player.id (deref h l)))
          ∧ ∃ l, connectedSeat h r l
                 ∧ Room.replayVotes r !! Player.id (deref h l)
                   = Some false)).
Proof.
  pose proof (votingOpen_guard now r) as Hopen.
  unfold Room.checkReplayVotes.
  destruct (Room.noDeadline (Room.replayDeadline r)) eqn:Hno.
  { assert (¬ votingOpen now r) as Hn.
    { intros Ho. apply Hopen in Ho. discriminate. }
    split; [split; [done|tauto]|]. split; [split; [done|tauto]|].
    split; [by left|done]. }
  destruct (default 0 (Room.replayDeadline r) <? now)%Z eqn:Hlate.
  { assert (¬ votingOpen now r) as Hn.
    { intros Ho. apply Hopen in Ho. discriminate. }
    split; [split; [done|tauto]|]. split; [split; [done|tauto]|].
    split; [by left|done]. }
  assert (votingOpen now r) as Ho by (by apply Hopen).
  set (voted := fun l =>
         bool_decide (is_Some (Room.replayVotes r !! Player.id (deref h l)))).
  set (yes := fun l =>
         bool_decide (Room.replayVotes r !! Player.id (deref h l)
                      = Some true)).
  pose proof (forallb_connected h r voted) as Hvoted.
  pose proof (forallb_connected h r yes) as Hyes.
  destruct (forallb voted _) eqn:Hv; cbn [negb].
  - assert (∀ l, connectedSeat h r l →
                 is_Some (Room.replayVotes r !! Player.id (deref h l)))
      as Hall.
    { intros l Hl. apply (bool_decide_eq_true_1 _).
      exact (proj1 Hvoted eq_refl l Hl). }
    destruct (forallb yes _) eqn:Hy.
    + assert (∀ l, connectedSeat h r l →
                   Room.replayVotes r !! Player.id (deref h l) = Some true)
        as Hally.
      { intros l Hl. apply (bool_decide_eq_true_1 _).
        exact (proj1 Hyes eq_refl l Hl). }
      split; [done|]. split.
      * split; [done|]. intros (_ & l & Hl & Hnone).
        destruct (Hall l Hl) as [v Hvl]. congruence.
      * split; [done|]. intros [?|(_ & l & Hl & Hf)]; [done|].
        rewrite (Hally l Hl) in Hf. discriminate.
    + assert (∃ l, connectedSeat h r l
                   ∧ Room.replayVotes r !! Player.id (deref h l)
                     = Some false) as (l & Hl & Hf).
      { apply forallb_false_exists in Hy as (l & Hl & Hno').
        apply filter_In in Hl as [Hl Hc].
        assert (connectedSeat h r l) as Hcs
          by (split; [by apply list_elem_of_In|done]).
        exists l. split; [done|].
        destruct (Hall l Hcs) as [[|] Hvl]; [|done].
        unfold yes in Hno'. apply bool_decide_eq_false in Hno'. done. }
      split.
      * split; [done|]. intros (_ & Hally).
        rewrite (Hally l Hl) in Hf. discriminate.
      * split.
        -- split; [done|]. intros (_ & l' & Hl' & Hnone).
           destruct (Hall l' Hl') as [v Hvl]. congruence.
        -- split; [|done]. intros _. right. split; [done|]. by exists l.
  - assert (∃ l, connectedSeat h r l
                 ∧ Room.replayVotes r !! Player.id (deref h l) = None)
      as (l & Hl & Hnone).
    { apply forallb_false_exists in Hv as (l & Hl & Hno').
      apply filter_In in Hl as [Hl Hc].
      exists l. split; [split; [by apply list_elem_of_In|done]|].
      unfold voted in Hno'. apply bool_decide_eq_false in Hno'.
      destruct (Room.replayVotes r !! Player.id (deref h l)) eqn:E;
        [|done].
      exfalso. apply Hno'. by eexists. }
    split.
    + split; [done|]. intros (_ & Hally).
      rewrite (Hally l Hl) in Hnone. discriminate.
    + split.
      * split; [|done]. intros _. split; [done|]. by exists l.
      * split; [done|]. intros [?|(Hall & _)]; [done|].
        destruct (Hall l Hl) as [v Hvl]. congruence.
Qed.

(** X17: casting a replay vote in the room.  [castReplayVote] returns
    true exactly when the vote is open and the id is that of a connected
    seat; a refused vote changes nothing; an accepted vote records the
    value under the id and changes nothing else; and a seat may vote
    again while the vote is open: the room is then as if only its last
    vote had been cast. *)
Theorem X17_castReplayVote (now : Z) (pid : string) (v : bool) (h : Heap)
    (r : Room.t) :
  ((Room.castReplayVote now pid v h r).2 = true
   ↔ votingOpen now r
     ∧ ∃ l, connectedSeat h r l ∧ Player.id (deref h l) = pid)
  ∧ ((Room.castReplayVote now pid v h r).2 = false →
     (Room.castReplayVote now pid v h r).1 = r)
  ∧ ((Room.castReplayVote now pid v h r).2 = true →
     (Room.castReplayVote now pid v h r).1
     = Room.set_votes r (<[pid := v]> (Room.replayVotes r))
         (Room.replayDeadline r)
     ∧ ∀ now' v',
         votingOpen now' r →
         Room.castReplayVote now' pid v' h
           (Room.castReplayVote now pid v h r).1
         = (Room.set_votes r (<[pid := v']> (Room.replayVotes r))
              (Room.replayDeadline r), true)).
Proof.
  assert (∀ r0 : Room.t,
            Room.players r0 = Room.players r →
            existsb (fun l => bool_decide (Player.id (deref h l) = pid)
                              && Player.connected (deref h l))
                    (Room.players r0) = true
            ↔ ∃ l, connectedSeat h r l ∧ Player.id (deref h l) = pid)
    as Hseat.
  { intros r0 ->. rewrite existsb_exists. unfold connectedSeat. split.
    - intros (l & Hl & Hb). apply andb_true_iff in Hb as [Hid Hc].
      apply bool_decide_eq_true in Hid. exists l.
      split; [split; [by apply list_elem_of_In|done]|done].
    - intros (l & [Hl Hc] & Hid). exists l.
      split; [by apply list_elem_of_In|].
      apply andb_true_iff. split; [by apply bool_decide_eq_true|done]. }
  assert (∀ now0 v0 (r0 : Room.t),
            Room.players r0 = Room.players r →
            Room.replayDeadline r0 = Room.replayDeadline r →
            votingOpen now0 r →
            (∃ l, connectedSeat h r l ∧ Player.id (deref h l) = pid) →
            Room.castReplayVote now0 pid v0 h r0
            = (Room.set_votes r0 (<[pid := v0]> (Room.replayVotes r0))
                 (Room.replayDeadline r0), true)) as Hcast.
  { intros now0 v0 r0 Hp Hd Ho Hs. unfold Room.castReplayVote.
    rewrite Hd. rewrite (proj2 (votingOpen_guard now0 r) Ho).
    by rewrite (proj2 (Hseat r0 Hp) Hs). }
  remember (Room.castReplayVote now pid v h r) as res eqn:Hres.
  unfold Room.castReplayVote in Hres.
  destruct (Room.noDeadline (Room.replayDeadline r)
            || (default 0 (Room.replayDeadline r) <? now)%Z) eqn:Hguard.
  { subst res. cbn [fst snd]. split; [|split; [done|discriminate]].
    split; [discriminate|]. intros [Ho _].
    apply votingOpen_guard in Ho. congruence. }
  apply votingOpen_guard in Hguard.
  destruct (existsb _ (Room.players r)) eqn:Hex; subst res; cbn [fst snd negb].
  - apply (Hseat r eq_refl) in Hex.
    split; [split; [done|]; by intros _|]. split; [discriminate|].
    intros _. split; [done|]. intros now' v' Ho'.
    rewrite (Hcast now' v'
               (Room.set_votes r (<[pid := v]> (Room.replayVotes r))
                  (Room.replayDeadline r)) eq_refl eq_refl Ho' Hex).
    unfold Room.set_votes. simpl. by rewrite insert_insert_eq.
  - split; [|split; [done|discriminate]].
    split; [discriminate|]. intros [_ Hs].
    apply (Hseat r eq_refl) in Hs. congruence.
Qed.

(* ===================================================================== *)
(** * Part VIII. Further properties of the replay manager                 *)
(* ===================================================================== *)

Lemma size_votes_complete (votes : gmap string bool) (voters : list string) :
  NoDup voters →
  (∀ p, is_Some (votes !! p) → p ∈ voters) →
  size votes = length voters ↔ allVoted votes voters.
Proof.
  intros Hnd Hsub. unfold allVoted. rewrite Forall_forall.
  assert (dom votes ⊆ (list_to_set voters : gset string)) as Hdom.
  { intros p Hp. apply elem_of_list_to_set. apply Hsub.
    by apply elem_of_dom in Hp. }
  assert (size (list_to_set voters : gset string) = length voters) as Hsz
    by (by apply size_list_to_set).
  rewrite <- size_dom, <- Hsz. split.
  - intros Heq q Hq.
    assert (dom votes ≡ (list_to_set voters : gset string)) as Hequiv.
    { apply set_subseteq_size_equiv; [done|lia]. }
    apply elem_of_dom. apply Hequiv. by apply elem_of_list_to_set.
  - intros Hall. f_equal. apply leibniz_equiv. apply set_equiv. intros q.
    split; [apply Hdom|]. intros Hq. apply elem_of_list_to_set in Hq.
    apply elem_of_dom. by apply Hall.
Qed.

Lemma values_all_true (votes : gmap string bool) :
  forallb (fun v : bool => v) (snd <$> map_to_list votes) = true
  ↔ ∀ k v, votes !! k = Some v → v = true.
Proof.
  rewrite forallb_forall. split.
  - intros H k v Hk. apply (H v). apply list_elem_of_In.
    apply list_elem_of_fmap. exists (k, v).
    split; [done|]. by apply elem_of_map_to_list.
  - intros H v Hv. apply list_elem_of_In in Hv.
    apply list_elem_of_fmap in Hv as ([k v'] & -> & Hkv).
    apply elem_of_map_to_list in Hkv. by apply (H k).
Qed.

Lemma length_values (votes : gmap string bool) :
  length (snd <$> map_to_list votes) = size votes.
Proof. by rewrite length_fmap, length_map_to_list. Qed.

(** The result announced by [completeVote] when every voter has voted. *)
Lemma completeVote_result (votes : gmap string bool) (voters : list string) :
  NoDup voters →
  (∀ p, is_Some (votes !! p) → p ∈ voters) →
  allVoted votes voters →
  Nat.eqb (length (snd <$> map_to_list votes)) (length voters)
  && forallb (fun v : bool => v) (snd <$> map_to_list votes)
  = bool_decide (allYes votes voters).
Proof.
  intros Hnd Hsub Hall.
  rewrite length_values.
  rewrite (proj2 (size_votes_complete votes voters Hnd Hsub) Hall).
  rewrite Nat.eqb_refl. simpl.
  destruct (forallb _ _) eqn:Hf.
  - symmetry. apply bool_decide_eq_true. unfold allYes.
    apply Forall_forall. intros q Hq.
    unfold allVoted in Hall. rewrite Forall_forall in Hall.
    destruct (Hall q Hq) as [v Hv]. rewrite Hv. f_equal.
    by apply (proj1 (values_all_true votes) Hf q).
  - symmetry. apply bool_decide_eq_false. intros Hyes.
    assert (forallb (fun v : bool => v) (snd <$> map_to_list votes) = true)
      as Ht; [|congruence].
    apply values_all_true. intros k v Hk.
    unfold allYes in Hyes. rewrite Forall_forall in Hyes.
    assert (k ∈ voters) as Hkv by (apply Hsub; by eexists).
    specialize (Hyes k Hkv). congruence.
Qed.

(** X18: a replay vote of the manager completes with the last voter.  In
    a manager whose stored vote of the room is well-formed, a vote cast
    by one of its voters is accepted.  If every voter has then voted, the
    vote is closed at once: its state and its timeout are removed and
    the events 'vote_cast' and 'vote_completed' are emitted, the latter
    with the result 'approved' exactly when every voter's vote is yes,
    'rejected' otherwise.  If some voter has not voted yet, the state
    stays, with the vote recorded, and only 'vote_cast' is emitted.  The
    votes of the other rooms are never touched. *)
Theorem X18_castVote_completion (rid pid : string) (v : bool)
    (m : ReplayManager.t) (vs : ReplayManager.VoteState) :
  ReplayManager.voteStates m !! rid = Some vs →
  voteWf vs →
  pid ∈ ReplayManager.requiredVoters vs →
  (ReplayManager.castVote rid pid v m).2 = true
  ∧ (allVoted (<[pid := v]> (ReplayManager.votes vs))
       (ReplayManager.requiredVoters vs) →
     ReplayManager.voteStates (ReplayManager.castVote rid pid v m).1 !! rid
     = None
     ∧ (rid ∉ ReplayManager.voteTimeouts
                (ReplayManager.castVote rid pid v m).1)
     ∧ ReplayManager.emitted (ReplayManager.castVote rid pid v m).1
       = ReplayManager.emitted m
         ++ [ReplayManager.vote_cast rid pid v;
             ReplayManager.vote_completed rid
               (if bool_decide
                     (allYes (<[pid := v]> (ReplayManager.votes vs))
                        (ReplayManager.requiredVoters vs))
                then ReplayManager.approved
                else ReplayManager.rejected)])
  ∧ (¬ allVoted (<[pid := v]> (ReplayManager.votes vs))
         (ReplayManager.requiredVoters vs) →
     (∃ vs',
        ReplayManager.voteStates (ReplayManager.castVote rid pid v m).1
          !! rid = Some vs'
        ∧ voteWf vs'
        ∧ ReplayManager.votes vs' = <[pid := v]> (ReplayManager.votes vs)
        ∧ ReplayManager.requiredVoters vs'
          = ReplayManager.requiredVoters vs)
     ∧ ReplayManager.voteTimeouts (ReplayManager.castVote rid pid v m).1
       = ReplayManager.voteTimeouts m
     ∧ ReplayManager.emitted (ReplayManager.castVote rid pid v m).1
       = ReplayManager.emitted m ++ [ReplayManager.vote_cast rid pid v])
  ∧ ∀ rid', rid' ≠ rid →
      ReplayManager.voteStates (ReplayManager.castVote rid pid v m).1
        !! rid'
      = ReplayManager.voteStates m !! rid'.
Proof.
  intros Hvs (Hact & Hnd & Hsub) Hpid.
  set (votes' := <[pid := v]> (ReplayManager.votes vs)).
  assert (∀ p, is_Some (votes' !! p) →
               p ∈ ReplayManager.requiredVoters vs) as Hsub'.
  { intros p Hp. unfold votes' in Hp.
    destruct (decide (p = pid)) as [->|Hne]; [done|].
    rewrite lookup_insert_ne in Hp by done. by apply Hsub. }
  pose proof (size_votes_complete votes' _ Hnd Hsub') as Hsize.
  remember (ReplayManager.castVote rid pid v m) as res eqn:Hres.
  unfold ReplayManager.castVote in Hres. rewrite Hvs, Hact in Hres.
  cbn [negb] in Hres.
  rewrite bool_decide_eq_true_2 in Hres by done. cbn [negb] in Hres.
  cbn [ReplayManager.votes ReplayManager.requiredVoters] in Hres.
  fold votes' in Hres.
  destruct (Nat.eqb (size votes') (length (ReplayManager.requiredVoters vs)))
    eqn:Hcomplete.
  - apply Nat.eqb_eq in Hcomplete. apply Hsize in Hcomplete.
    unfold ReplayManager.completeVote, ReplayManager.emitEvent in Hres.
    cbn [ReplayManager.voteStates] in Hres.
    rewrite lookup_insert_eq in Hres.
    cbn [ReplayManager.isActive negb ReplayManager.votes
         ReplayManager.requiredVoters ReplayManager.voteTimeouts
         ReplayManager.emitted ReplayManager.defaultTimeoutMs] in Hres.
    rewrite (completeVote_result votes' _ Hnd Hsub' Hcomplete) in Hres.
    subst res. cbn [fst snd ReplayManager.voteStates
      ReplayManager.voteTimeouts ReplayManager.emitted].
    split; [done|]. split.
    + intros _. split; [by rewrite lookup_delete_eq|].
      split; [|by rewrite <- app_assoc].
      intros Hin. apply elem_of_difference in Hin as [_ Hin].
      apply Hin. by apply elem_of_singleton.
    + split; [intros Hn; by destruct Hn|].
      intros rid' Hne. rewrite lookup_delete_ne by done.
      by rewrite lookup_insert_ne.
  - apply Nat.eqb_neq in Hcomplete.
    assert (¬ allVoted votes' (ReplayManager.requiredVoters vs)) as Hnot.
    { intros Hall. by apply Hsize in Hall. }
    subst res. unfold ReplayManager.emitEvent.
    cbn [fst snd ReplayManager.voteStates ReplayManager.voteTimeouts
         ReplayManager.emitted].
    split; [done|]. split; [intros Hall; by destruct Hnot|]. split.
    + intros _. split; [|done].
      eexists. split; [by rewrite lookup_insert_eq|].
      split; [|done]. by repeat split.
    + intros rid' Hne. by rewrite lookup_insert_ne.
Qed.

Lemma X18_castVote_completion_witness :
  let rid := Room.id salonFinishedState.2 in
  let vs := ReplayManager.mkVoteState rid ∅ ["A"; "B"; "C"] 1000 30000 true
  in
  (ReplayManager.castVote rid "A" true voteManager).2 = true
  ∧ ∀ rid', rid' ≠ rid →
      ReplayManager.voteStates
        (ReplayManager.castVote rid "A" true voteManager).1 !! rid'
      = ReplayManager.voteStates voteManager !! rid'.
Proof.
  intros rid vs.
  destruct (X18_castVote_completion rid "A" true voteManager vs)
    as (Hok & _ & _ & Hframe).
  - by vm_compute.
  - split; [done|]. split.
    + apply (bool_decide_unpack _). vm_compute. exact I.
    + intros p [x Hp]. simpl in Hp. by rewrite lookup_empty in Hp.
  - apply (bool_decide_unpack _). vm_compute. exact I.
  - split; [exact Hok|exact Hframe].
Defined.

Lemma managerWf_delete rid m ev d :
  managerWf m →
  managerWf (ReplayManager.mk (delete rid (ReplayManager.voteStates m))
               (ReplayManager.voteTimeouts m ∖ {[rid]}) ev d).
Proof.
  intros [Hwf Hto]. split.
  - intros rid' vs Hvs. simpl in Hvs.
    apply lookup_delete_Some in Hvs as [_ Hvs]. by apply Hwf.
  - intros rid'. simpl. rewrite elem_of_difference, elem_of_singleton.
    rewrite Hto. destruct (decide (rid' = rid)) as [->|Hne].
    + rewrite lookup_delete_eq. split; [by intros [_ ?]|].
      intros [x Hx]. discriminate.
    + rewrite lookup_delete_ne by done. tauto.
Qed.

Lemma managerWf_no_vote rid m :
  managerWf m → ReplayManager.voteStates m !! rid = None →
  (rid ∉ ReplayManager.voteTimeouts m)
  ∧ ReplayManager.voteTimeouts m ∖ {[rid]} = ReplayManager.voteTimeouts m.
Proof.
  intros [_ Hto] Hnone.
  assert (rid ∉ ReplayManager.voteTimeouts m) as Hnot.
  { intros Hin. apply Hto in Hin as [x Hx]. congruence. }
  split; [done|]. apply leibniz_equiv. apply set_equiv. intros x.
  rewrite elem_of_difference, elem_of_singleton. split; [tauto|].
  intros Hx. split; [done|]. intros ->. done.
Qed.

Lemma manager_eta m :
  ReplayManager.mk (ReplayManager.voteStates m)
    (ReplayManager.voteTimeouts m) (ReplayManager.emitted m)
    (ReplayManager.defaultTimeoutMs m) = m.
Proof. by destruct m. Qed.

(** The closing operations, computed. *)
Lemma close_spec c rid m :
  managerWf m →
  close c rid m
  = match ReplayManager.voteStates m !! rid with
    | None => m
    | Some vs =>
        ReplayManager.mk (delete rid (ReplayManager.voteStates m))
          (ReplayManager.voteTimeouts m ∖ {[rid]})
          (ReplayManager.emitted m
           ++ match c with
              | ByTimeout => [ReplayManager.vote_expired rid]
              | ByStop => []
              | ByCompletion =>
                  [ReplayManager.vote_completed rid
                     (if Nat.eqb
                           (length (snd <$> map_to_list
                                              (ReplayManager.votes vs)))
                           (length (ReplayManager.requiredVoters vs))
                         && forallb (fun v : bool => v)
                              (snd <$> map_to_list
                                         (ReplayManager.votes vs))
                      then ReplayManager.approved
                      else ReplayManager.rejected)]
              end)
          (ReplayManager.defaultTimeoutMs m)
    end.
Proof.
  intros Hwf.
  destruct (ReplayManager.voteStates m !! rid) as [vs|] eqn:Hvs.
  - destruct Hwf as [Hwf _]. destruct (Hwf rid vs Hvs) as [(Hact & _) _].
    destruct c; simpl;
      unfold ReplayManager.handleVoteTimeout, ReplayManager.stopReplayVote,
        ReplayManager.completeVote, ReplayManager.emitEvent;
      rewrite Hvs, Hact; simpl; try done.
    by rewrite app_nil_r.
  - destruct (managerWf_no_vote rid m Hwf Hvs) as [_ Hsame].
    destruct c; simpl;
      unfold ReplayManager.handleVoteTimeout, ReplayManager.stopReplayVote,
        ReplayManager.completeVote;
      rewrite Hvs; simpl; try done.
    rewrite Hsame. apply manager_eta.
Qed.

Lemma managerWf_close c rid m : managerWf m → managerWf (close c rid m).
Proof.
  intros Hwf. rewrite close_spec by done.
  destruct (ReplayManager.voteStates m !! rid); [|done].
  by apply managerWf_delete.
Qed.

(** X19: a vote of the manager ends once.  In a well-formed manager,
    after the timeout, an explicit stop or [completeVote] the room has
    neither a vote nor a timeout, and the other rooms' votes are as they
    were.  The timeout emits 'vote_expired', [completeVote] emits
    'vote_completed' and a stop emits nothing, each only if the room had
    a vote.  Afterwards a vote cast for the room is refused and changes
    nothing, and a late timeout or completion changes nothing and emits
    nothing. *)
Theorem X19_vote_ends_once (c : Closing) (rid : string)
    (m : ReplayManager.t) :
  managerWf m →
  managerWf (close c rid m)
  ∧ ReplayManager.voteStates (close c rid m) !! rid = None
  ∧ (rid ∉ ReplayManager.voteTimeouts (close c rid m))
  ∧ (∀ rid', rid' ≠ rid →
       ReplayManager.voteStates (close c rid m) !! rid'
       = ReplayManager.voteStates m !! rid')
  ∧ (match ReplayManager.voteStates m !! rid, c with
     | Some _, ByTimeout =>
         ReplayManager.emitted (close c rid m)
         = ReplayManager.emitted m ++ [ReplayManager.vote_expired rid]
     | Some _, ByCompletion =>
         ∃ res, ReplayManager.emitted (close c rid m)
                = ReplayManager.emitted m
                  ++ [ReplayManager.vote_completed rid res]
     | _, _ =>
         ReplayManager.emitted (close c rid m) = ReplayManager.emitted m
     end)
  ∧ (∀ p v, ReplayManager.castVote rid p v (close c rid m)
            = (close c rid m, false))
  ∧ ReplayManager.handleVoteTimeout rid (close c rid m) = close c rid m
  ∧ ReplayManager.completeVote rid (close c rid m) = close c rid m.
Proof.
  intros Hwf.
  assert (∀ m', ReplayManager.voteStates m' !! rid = None →
            (∀ p v, ReplayManager.castVote rid p v m' = (m', false))
            ∧ ReplayManager.handleVoteTimeout rid m' = m'
            ∧ ReplayManager.completeVote rid m' = m') as Hlate.
  { intros m' Hnone.
    unfold ReplayManager.castVote, ReplayManager.handleVoteTimeout,
      ReplayManager.completeVote. by rewrite Hnone. }
  split; [by apply managerWf_close|].
  rewrite close_spec by done.
  destruct (ReplayManager.voteStates m !! rid) as [vs|] eqn:Hvs.
  - cbn [ReplayManager.voteStates ReplayManager.voteTimeouts
         ReplayManager.emitted].
    split; [by rewrite lookup_delete_eq|]. split.
    { intros Hin. apply elem_of_difference in Hin as [_ Hin].
      apply Hin. by apply elem_of_singleton. }
    split; [intros rid' Hne; by rewrite lookup_delete_ne|]. split.
    { destruct c; [done|by rewrite app_nil_r|by eexists]. }
    apply Hlate. simpl. by rewrite lookup_delete_eq.
  - destruct (managerWf_no_vote rid m Hwf Hvs) as [Hnot _].
    split; [done|]. split; [done|]. split; [done|].
    split; [by destruct c|]. by apply Hlate.
Qed.


Lemma managerWf_new t : managerWf (ReplayManager.new t).
Proof.
  split.
  - intros rid vs Hvs. simpl in Hvs. by rewrite lookup_empty in Hvs.
  - intros rid. simpl. rewrite lookup_empty. split.
    + intros Hin. by apply elem_of_empty in Hin.
    + by intros [x Hx].
Qed.

Lemma managerWf_insert rid vs m ev d :
  managerWf m → voteWf vs → ReplayManager.roomId vs = rid →
  managerWf (ReplayManager.mk (<[rid := vs]> (ReplayManager.voteStates m))
               ({[rid]} ∪ ReplayManager.voteTimeouts m) ev d).
Proof.
  intros [Hwf Hto] Hvs Hrid. split.
  - intros rid' vs' Hvs'. simpl in Hvs'.
    apply lookup_insert_Some in Hvs' as [[<- <-]|[_ Hvs']]; [done|].
    by apply Hwf.
  - intros rid'. simpl. rewrite elem_of_union, elem_of_singleton, Hto.
    destruct (decide (rid' = rid)) as [->|Hne].
    + rewrite lookup_insert_eq. split; [by eexists|by left].
    + rewrite lookup_insert_ne by done. split; [|by right].
      intros [?|?]; done.
Qed.

Lemma managerWf_startReplayVote now t h room m :
  managerWf m → uniqueIds h (Room.players room) →
  managerWf (ReplayManager.startReplayVote now t h room m).1.
Proof.
  intros Hwf Hu. unfold ReplayManager.startReplayVote.
  destruct (bool_decide (Room.getStatus room = finished)); [|done].
  cbn [negb]. fold (close ByStop (Room.id room) m).
  pose proof (managerWf_close ByStop (Room.id room) m Hwf) as Hwf1.
  destruct (Nat.eqb _ 0); [done|].
  unfold ReplayManager.emitEvent. cbn [fst].
  apply managerWf_insert; [done| |done].
  split; [done|]. split.
  - simpl. apply NoDup_ids_filter. exact Hu.
  - intros p [x Hp]. simpl in Hp. by rewrite lookup_empty in Hp.
Qed.

(** X20: starting a replay vote in the manager.  On a well-formed manager
    and a room whose seats have pairwise distinct ids,
    [startReplayVote] returns true exactly when the room's match is
    Finished and some seat is connected.  Then the room has a fresh vote
    without any recorded vote, whose voters are the connected seats in
    seat order, with a timeout armed and the event 'vote_started'
    emitted; a vote the room had before is discarded.  When the match is
    not Finished nothing changes; when it is Finished and no seat is
    connected, a vote the room had before is discarded all the same.  In
    every case the manager stays well-formed and the votes of the other
    rooms are as they were. *)
Theorem X20_startReplayVote (now : Z) (t : option Z) (h : Heap)
    (room : Room.t) (m : ReplayManager.t) :
  managerWf m →
  uniqueIds h (Room.players room) →
  managerWf (ReplayManager.startReplayVote now t h room m).1
  ∧ ((ReplayManager.startReplayVote now t h room m).2 = true
     ↔ Room.getStatus room = finished ∧ connectedIds h room ≠ [])
  ∧ ((ReplayManager.startReplayVote now t h room m).2 = true →
     ReplayManager.voteStates
       (ReplayManager.startReplayVote now t h room m).1 !! Room.id room
     = Some (ReplayManager.mkVoteState (Room.id room) ∅
               (connectedIds h room) now
               (default (ReplayManager.defaultTimeoutMs m) t) true)
     ∧ Room.id room
       ∈ ReplayManager.voteTimeouts
           (ReplayManager.startReplayVote now t h room m).1
     ∧ ReplayManager.emitted
         (ReplayManager.startReplayVote now t h room m).1
       = ReplayManager.emitted m
         ++ [ReplayManager.vote_started (Room.id room)
               (default (ReplayManager.defaultTimeoutMs m) t)])
  ∧ (Room.getStatus room ≠ finished →
     (ReplayManager.startReplayVote now t h room m).1 = m)
  ∧ (Room.getStatus room = finished → connectedIds h room = [] →
     (ReplayManager.startReplayVote now t h room m).1
     = close ByStop (Room.id room) m)
  ∧ ∀ rid', rid' ≠ Room.id room →
      ReplayManager.voteStates
        (ReplayManager.startReplayVote now t h room m).1 !! rid'
      = ReplayManager.voteStates m !! rid'.
Proof.
  intros Hwf Hu.
  split; [by apply managerWf_startReplayVote|].
  remember (ReplayManager.startReplayVote now t h room m) as res eqn:Hres.
  unfold ReplayManager.startReplayVote in Hres.
  destruct (bool_decide (Room.getStatus room = finished)) eqn:Hs.
  2:{ apply bool_decide_eq_false in Hs. subst res. cbn [fst snd negb].
      split; [split; [discriminate|by intros [? _]]|].
      split; [discriminate|]. split; [done|]. split; [done|]. done. }
  apply bool_decide_eq_true in Hs. cbn [negb] in Hres.
  fold (close ByStop (Room.id room) m) in Hres.
  pose proof (managerWf_close ByStop (Room.id room) m Hwf) as Hwf1.
  pose proof (close_spec ByStop (Room.id room) m Hwf) as Hclose.
  assert (∀ rid', rid' ≠ Room.id room →
            ReplayManager.voteStates (close ByStop (Room.id room) m) !! rid'
            = ReplayManager.voteStates m !! rid') as Hframe.
  { intros rid' Hne. rewrite Hclose.
    destruct (ReplayManager.voteStates m !! Room.id room); [|done].
    simpl. by rewrite lookup_delete_ne. }
  assert (ReplayManager.emitted (close ByStop (Room.id room) m)
          = ReplayManager.emitted m
          ∧ ReplayManager.defaultTimeoutMs (close ByStop (Room.id room) m)
            = ReplayManager.defaultTimeoutMs m) as [Hev Hd].
  { rewrite Hclose.
    destruct (ReplayManager.voteStates m !! Room.id room); [|done].
    simpl. by rewrite app_nil_r. }
  set (present := List.filter (fun l => Player.connected (deref h l))
                              (Room.players room)) in *.
  assert (connectedIds h room = ids h present) as Hcids by done.
  destruct (Nat.eqb (length present) 0) eqn:Hlen.
  - apply Nat.eqb_eq, length_zero_iff_nil in Hlen.
    subst res. cbn [fst snd].
    split.
    { split; [discriminate|]. intros [_ Hne]. rewrite Hcids, Hlen in Hne.
      done. }
    split; [discriminate|]. split; [done|]. split; [done|]. done.
  - apply Nat.eqb_neq in Hlen.
    assert (connectedIds h room ≠ []) as Hne.
    { rewrite Hcids. unfold ids. intros Hnil.
      apply fmap_nil_inv in Hnil. rewrite Hnil in Hlen. done. }
    subst res. unfold ReplayManager.emitEvent.
    cbn [fst snd ReplayManager.voteStates ReplayManager.voteTimeouts
         ReplayManager.emitted ReplayManager.defaultTimeoutMs].
    split; [done|]. split.
    { intros _. rewrite lookup_insert_eq. split; [done|].
      split; [|by rewrite Hev].
      apply elem_of_union. left. by apply elem_of_singleton. }
    split; [done|]. split; [done|].
    intros rid' Hne'. rewrite lookup_insert_ne by done. by apply Hframe.
Qed.

Lemma salonFinishedState_uniqueIds :
  uniqueIds salonFinishedState.1 (Room.players salonFinishedState.2).
Proof. apply (bool_decide_unpack _). vm_compute. exact I. Qed.

Lemma voteManager_wf : managerWf voteManager.
Proof.
  exact (managerWf_startReplayVote 1000 None salonFinishedState.1
           salonFinishedState.2 (ReplayManager.new None)
           (managerWf_new None) salonFinishedState_uniqueIds).
Qed.

Lemma X19_vote_ends_once_witness :
  let rid := Room.id salonFinishedState.2 in
  ReplayManager.voteStates (close ByTimeout rid voteManager) !! rid = None
  ∧ (∀ p v, ReplayManager.castVote rid p v (close ByTimeout rid voteManager)
            = (close ByTimeout rid voteManager, false)).
Proof.
  intros rid.
  destruct (X19_vote_ends_once ByTimeout rid voteManager voteManager_wf)
    as (_ & Hnone & _ & _ & _ & Hcast & _).
  split; [exact Hnone|exact Hcast].
Defined.

Lemma X20_startReplayVote_witness :
  managerWf voteManager
  ∧ ((ReplayManager.startReplayVote 1000 None salonFinishedState.1
        salonFinishedState.2 (ReplayManager.new None)).2 = true
     ↔ Room.getStatus salonFinishedState.2 = finished
       ∧ connectedIds salonFinishedState.1 salonFinishedState.2 ≠ []).
Proof.
  destruct (X20_startReplayVote 1000 None salonFinishedState.1
              salonFinishedState.2 (ReplayManager.new None)
              (managerWf_new None) salonFinishedState_uniqueIds)
    as (Hwf & Hok & _).
  split; [exact Hwf|exact Hok].
Defined.

(* ===================================================================== *)
(** * Part IX. Rooms start reachable matches                              *)
(* ===================================================================== *)

Lemma reset_keeps_seats h g :
  length (Game.reset h g).1 = length h
  ∧ ∀ l, Player.id (deref (Game.reset h g).1 l) = Player.id (deref h l)
         ∧ Player.nickname (deref (Game.reset h g).1 l)
           = Player.nickname (deref h l).
Proof.
  unfold Game.reset. cbn [fst]. split; [apply fold_mutate_length|].
  intros l. split.
  - by apply (fold_mutate_proj Player.id).
  - by apply (fold_mutate_proj Player.nickname).
Qed.

(** X21: the matches a room starts are reachable match states.  For a
    room whose seats are allocated records with pairwise distinct ids
    that satisfy the class invariant of [Player], a successful
    [startGame()] or [replay()] leaves a match that is a reachable match
    state (so every property of reachable states holds for it): it is
    Playing on an empty board, every seat of the match holds three
    pieces of each size, has no skip and is not eliminated, the room's
    seat list is as it was and the room expires one hour later.  After
    [replay()] the replay votes and their deadline are cleared. *)
Theorem X21_rooms_start_reachable_matches (now : Z) (rnd : nat)
    (uuid : nat → string) (h : Heap) (r : Room.t) (h' : Heap)
    (r' : Room.t) :
  validLocs h (Room.players r) →
  uniqueIds h (Room.players r) →
  Forall (fun l => validPlayer (deref h l)) (Room.players r) →
  Room.startGame now rnd uuid h r = Some (h', r')
  ∨ Room.replay now rnd uuid h r = Some (h', r') →
  reachable (h', Room.game r')
  ∧ Room.getStatus r' = playing
  ∧ Game.board (Room.game r') = GameLogic.createEmptyBoard
  ∧ Room.players r' = Room.players r
  ∧ Room.expiresAt r' = (now + Room.ttl)%Z
  ∧ (∀ l, l ∈ Game.players (Room.game r') →
          Player.inventory (deref h' l) = mkInventory 3 3 3
          ∧ Player.isEliminated (deref h' l) = false
          ∧ Player.skipsInARow (deref h' l) = 0%Z)
  ∧ (Room.replay now rnd uuid h r = Some (h', r') →
     Room.replayVotes r' = ∅ ∧ Room.replayDeadline r' = None).
Proof.
  intros Hv Hu Hvalid Hstart.
  assert (∃ h0 g0,
            validLocs h0 (Room.players r) ∧ uniqueIds h0 (Room.players r)
            ∧ Forall (fun l => validPlayer (deref h0 l)) (Room.players r)
            ∧ Game.initialize now rnd uuid (Room.players r) h0 g0
              = Some (h', Room.game r')
            ∧ Room.players r' = Room.players r
            ∧ Room.expiresAt r' = (now + Room.ttl)%Z)
    as (h0 & g0 & Hv0 & Hu0 & Hvalid0 & Hinit & Hp & Hexp).
  { destruct Hstart as [Hstart|Hstart].
    - unfold Room.startGame in Hstart.
      destruct (Nat.ltb _ 2); [discriminate|].
      destruct (Game.initialize _ _ _ _ _ _) as [[h1 g1]|] eqn:Hinit;
        [|discriminate].
      injection Hstart as <- <-. by exists h, (Room.game r).
    - unfold Room.replay in Hstart.
      destruct (reset_keeps_seats h (Room.game r)) as [Hlen Hsame].
      destruct (Game.reset h (Room.game r)) as [h1 g1] eqn:Hreset.
      cbn [fst] in Hlen, Hsame.
      destruct (Game.initialize _ _ _ _ _ _) as [[h2 g2]|] eqn:Hinit;
        [|discriminate].
      injection Hstart as <- <-. exists h1, g1.
      split. { unfold validLocs in *. by rewrite Hlen. }
      split.
      { unfold uniqueIds, ids in *.
        rewrite (sameIdentity_map Player.id h h1); [done|].
        intros l. by destruct (Hsame l). }
      split; [|done].
      eapply Forall_impl; [exact Hvalid|]. simpl. intros l.
      unfold validPlayer. destruct (Hsame l) as [-> ->]. done. }
  destruct (matchWf_initialize _ _ _ _ _ _ _ _ Hv0 Hu0 Hvalid0 Hinit)
    as (_ & Hb & Hs & _ & _ & _ & _ & _ & Hseats).
  split; [by eapply reach_init|].
  split; [done|]. split; [done|]. split; [done|]. split; [done|].
  split; [done|].
  intros Hreplay. unfold Room.replay in Hreplay.
  destruct (Game.reset h (Room.game r)) as [h1 g1].
  match type of Hreplay with
  | context [Game.initialize ?a ?b ?c ?d ?e ?f] =>
      destruct (Game.initialize a b c d e f) as [[h2 g2]|];
        [|discriminate]
  end.
  by injection Hreplay as <- <-.
Qed.

Lemma salonTwoSeats_valid :
  Forall (fun l => validPlayer (deref salonTwoSeats.1 l))
         (Room.players salonTwoSeats.2).
Proof.
  change (Room.players salonTwoSeats.2) with [0%nat; 1%nat].
  repeat constructor; by vm_compute.
Qed.

Lemma X21_rooms_start_reachable_matches_witness :
  reachable (salonTwoStarted.1, Room.game salonTwoStarted.2)
  ∧ Room.getStatus salonTwoStarted.2 = playing.
Proof.
  destruct (X21_rooms_start_reachable_matches 0 0 exampleUuid
              salonTwoSeats.1 salonTwoSeats.2 salonTwoStarted.1
              salonTwoStarted.2) as (Hreach & Hs & _).
  - apply (bool_decide_unpack _). vm_compute. exact I.
  - apply (bool_decide_unpack _). vm_compute. exact I.
  - exact salonTwoSeats_valid.
  - left. by vm_compute.
  - split; [exact Hreach|exact Hs].
Defined.
(* ===================================================================== *)
(** * Part X. Constructors                                                *)
(* ===================================================================== *)

(** ** What [trim] computes *)

Lemma dropSpaces_blank l : ∃ pre, l = pre ++ dropSpaces l ∧ blank pre.
Proof.
  induction l as [|x l (pre & IH & Hpre)]; simpl.
  { exists []. split; [done|constructor]. }
  destruct (isSpace x) eqn:Hx.
  - exists (x :: pre). simpl. split; [by rewrite <- IH|by apply Forall_cons].
  - exists []. split; [done|constructor].
Qed.

Lemma dropSpaces_nil l : dropSpaces l = [] ↔ blank l.
Proof.
  split.
  - intros H. destruct (dropSpaces_blank l) as (pre & Hl & Hpre).
    rewrite H, app_nil_r in Hl. by subst.
  - induction 1 as [|x l Hx _ IH]; [done|]. simpl. by rewrite Hx.
Qed.

Lemma dropSpaces_app_blank pre l :
  blank pre → dropSpaces (pre ++ l) = dropSpaces l.
Proof. induction 1 as [|x pre Hx _ IH]; [done|]. simpl. by rewrite Hx. Qed.

Lemma blank_rev l : blank l → blank (rev l).
Proof.
  unfold blank. rewrite !Forall_forall. intros H x Hx. apply H.
  by apply list_elem_of_In, in_rev, list_elem_of_In.
Qed.

Lemma last_rev {A} (l : list A) : last (rev l) = head l.
Proof. destruct l as [|a l]; [done|]. simpl. apply last_snoc. Qed.

Lemma trim_stripped s : stripped s (trim s).
Proof.
  unfold trim.
  destruct (dropSpaces_blank s) as (pre & Hs & Hpre).
  destruct (dropSpaces_blank (rev (dropSpaces s))) as (q & Hq & Hqb).
  set (m := dropSpaces (rev (dropSpaces s))) in *.
  assert (dropSpaces s = rev m ++ rev q) as Hl1.
  { rewrite <- (rev_involutive (dropSpaces s)), Hq. apply rev_app_distr. }
  exists pre, (rev q). split; [by rewrite <- Hl1|].
  split; [done|]. split; [by apply blank_rev|]. split.
  - intros u Hu. destruct (rev m) as [|u' r] eqn:Hr; [done|].
    injection Hu as ->. simpl in Hl1.
    by apply (dropSpaces_head s u (r ++ rev q)).
  - intros u Hu. rewrite last_rev in Hu.
    destruct m as [|u' r] eqn:Hm; [done|]. injection Hu as ->.
    by apply (dropSpaces_head (rev (dropSpaces s)) u r).
Qed.

Lemma trim_unique s t : stripped s t → t = trim s.
Proof.
  intros (pre & post & -> & Hpre & Hpost & Hhead & Hlast). unfold trim.
  rewrite (dropSpaces_app_blank pre _ Hpre).
  destruct t as [|u r].
  { simpl. rewrite (proj2 (dropSpaces_nil post) Hpost). done. }
  assert (dropSpaces ((u :: r) ++ post) = (u :: r) ++ post) as ->.
  { simpl. by rewrite (Hhead u eq_refl). }
  rewrite rev_app_distr.
  rewrite (dropSpaces_app_blank (rev post) _ (blank_rev _ Hpost)).
  rewrite dropSpaces_fixed; [by rewrite rev_involutive|].
  intros a r' Hr'. apply Hlast.
  rewrite <- (rev_involutive (u :: r)), Hr'. by rewrite last_rev.
Qed.

Lemma trim_nil s : trim s = [] ↔ blank s.
Proof.
  split.
  - intros H. destruct (trim_stripped s) as (pre & post & Hs & Hp & Hq & _).
    rewrite H in Hs. simpl in Hs. subst s. by apply Forall_app.
  - intros H. unfold trim. by rewrite (proj2 (dropSpaces_nil s) H).
Qed.

(** The two tests of the constructors for a blank text. *)
Lemma blank_guard (s : Text) :
  bool_decide (s = []) || Nat.eqb (length (trim s)) 0 = true ↔ blank s.
Proof.
  rewrite orb_true_iff, Nat.eqb_eq, <- trim_nil. split.
  - intros [Hs|Hs]; [|by apply nil_length_inv].
    apply bool_decide_eq_true in Hs. by subst s.
  - intros ->. by right.
Qed.

(** A stripped text that is not blank keeps a character. *)
Lemma stripped_not_blank s t : stripped s t → ¬ blank s → t ≠ [].
Proof.
  intros Hst Hnb ->. apply Hnb, trim_nil. symmetry. by apply trim_unique.
Qed.

(** X22: what the constructors accept.  [new Player(options)] throws
    exactly when the nickname consists of white space only (the code
    points [trim] removes; the empty nickname included) or has more than
    20 code units before trimming.  Otherwise the nickname of the record
    is the given one without its leading and trailing white space, and
    only that, it is not empty and has at most 20 code units; the id is
    the given one unless it is missing or empty (then the fresh uuid);
    the stock is three pieces of each size, there is no skip and no
    elimination, and the connection and host flags default to true and
    false; and a record built again from the nickname of an accepted
    one is accepted with the same nickname.  [new Room(options)] throws
    exactly when the name consists of white space only or has more than
    50 code units, the capacity is outside 2..4, or the room is private
    without a code of at least four code units; otherwise the name is
    the given one stripped, the room is empty, waits, and expires one
    hour after its creation. *)
Theorem X22_constructors_validate :
  (∀ uuid o,
     Player.new uuid o = None
     ↔ blank (Player.o_nickname o)
       ∨ (20 < length (Player.o_nickname o))%nat)
  ∧ (∀ uuid o p,
       Player.new uuid o = Some p →
       stripped (Player.o_nickname o) (Player.nickname p)
       ∧ (∀ t, stripped (Player.o_nickname o) t → t = Player.nickname p)
       ∧ Player.nickname p ≠ []
       ∧ (length (Player.nickname p) ≤ 20)%nat
       ∧ Player.id p
         = match Player.o_id o with
           | Some i => if bool_decide (i = "") then uuid else i
           | None => uuid
           end
       ∧ Player.color p = Player.o_color o
       ∧ Player.inventory p = mkInventory 3 3 3
       ∧ Player.connected p = default true (Player.o_connected o)
       ∧ Player.skipsInARow p = 0%Z
       ∧ Player.isEliminated p = false
       ∧ Player.isHost p = default false (Player.o_isHost o)
       ∧ ∀ uuid' i c conn host,
           ∃ p',
             Player.new uuid'
               (Player.mkOptions i (Player.nickname p) c conn host)
             = Some p'
             ∧ Player.nickname p' = Player.nickname p)
  ∧ (∀ now uuid o,
       Room.new now uuid o = None
       ↔ blank (Room.o_name o)
         ∨ (50 < length (Room.o_name o))%nat
         ∨ (Room.o_capacity o < 2)%Z ∨ (4 < Room.o_capacity o)%Z
         ∨ (Room.o_isPrivate o = Some true
            ∧ ∀ c, Room.o_code o = Some c → (length c < 4)%nat))
  ∧ (∀ now uuid o r,
       Room.new now uuid o = Some r →
       stripped (Room.o_name o) (Room.name r)
       ∧ Room.name r ≠ []
       ∧ (2 ≤ Room.capacity r ≤ 4)%Z
       ∧ Room.players r = []
       ∧ Room.getStatus r = waiting
       ∧ Room.expiresAt r = (now + Room.ttl)%Z
       ∧ Room.hostId r = Room.o_hostId o
       ∧ (Room.isPrivate r = true →
          ∃ c, Room.code r = Some c ∧ (4 ≤ length c)%nat)).
Proof.
  split; [|split; [|split]].
  - intros uuid o. unfold Player.new.
    destruct (bool_decide _ || _) eqn:Hb.
    + apply blank_guard in Hb. split; [by left|done].
    + assert (¬ blank (Player.o_nickname o)) as Hne.
      { intros Ht. apply blank_guard in Ht. congruence. }
      destruct (Nat.ltb 20 _) eqn:Hl.
      * apply Nat.ltb_lt in Hl. split; [by right|done].
      * apply Nat.ltb_ge in Hl. split; [discriminate|].
        intros [?|?]; [done|lia].
  - intros uuid o p. unfold Player.new.
    destruct (bool_decide _ || _) eqn:Hb; [discriminate|].
    assert (¬ blank (Player.o_nickname o)) as Hne.
    { intros Ht. apply blank_guard in Ht. congruence. }
    destruct (Nat.ltb 20 _) eqn:Hl; [discriminate|].
    apply Nat.ltb_ge in Hl. intros [= <-]. cbn [Player.nickname
      Player.id Player.color Player.inventory Player.connected
      Player.skipsInARow Player.isEliminated Player.isHost].
    pose proof (trim_stripped (Player.o_nickname o)) as Hst.
    pose proof (stripped_not_blank _ _ Hst Hne) as Hnil.
    pose proof (trim_length (Player.o_nickname o)) as Hlen.
    split; [done|]. split.
    { intros t Ht. by apply trim_unique. }
    split; [done|]. split; [lia|]. split.
    { destruct (Player.o_id o) as [i|]; simpl; [|done].
      by destruct (bool_decide (i = "")). }
    do 6 (split; [done|]).
    intros uuid' i c conn host. unfold Player.new. simpl.
    rewrite trim_idempotent.
    rewrite (bool_decide_eq_false_2 _ Hnil). simpl.
    destruct (Nat.eqb_spec (length (trim (Player.o_nickname o))) 0)
      as [H0|_]; [by apply nil_length_inv in H0|].
    destruct (Nat.ltb_spec 20 (length (trim (Player.o_nickname o))));
      [lia|].
    eexists. split; reflexivity.
  - intros now uuid o. unfold Room.new.
    destruct (bool_decide _ || _) eqn:Hb.
    { apply blank_guard in Hb. split; [by left|done]. }
    assert (¬ blank (Room.o_name o)) as Hne.
    { intros Ht. apply blank_guard in Ht. congruence. }
    destruct (Nat.ltb 50 _) eqn:Hl.
    { apply Nat.ltb_lt in Hl. split; [right; by left|done]. }
    apply Nat.ltb_ge in Hl.
    destruct ((Room.o_capacity o <? 2)%Z || (4 <? Room.o_capacity o)%Z)
      eqn:Hc.
    { apply orb_true_iff in Hc as [Hc|Hc]; apply Z.ltb_lt in Hc;
        (split; [intros _|done]); tauto. }
    apply orb_false_iff in Hc as [Hc2 Hc4].
    apply Z.ltb_ge in Hc2, Hc4.
    destruct (default false (Room.o_isPrivate o)
              && (negb (truthyText (Room.o_code o))
                  || Nat.ltb (length (default [] (Room.o_code o))) 4))
      eqn:Hp.
    + split; [intros _|done]. do 4 right.
      apply andb_true_iff in Hp as [Hpriv Hcode].
      split; [by destruct (Room.o_isPrivate o) as [[|]|]|].
      intros c Hc. rewrite Hc in Hcode. simpl in Hcode.
      apply orb_true_iff in Hcode as [Hcode|Hcode].
      * destruct c; [simpl; lia|discriminate].
      * by apply Nat.ltb_lt in Hcode.
    + split; [discriminate|].
      intros [?|[?|[?|[?|[Hpriv Hcode]]]]]; [done|lia|lia|lia|].
      rewrite Hpriv in Hp. simpl in Hp.
      apply orb_false_iff in Hp as [Ht Hlen].
      destruct (Room.o_code o) as [c|]; [|done].
      simpl in Hlen. apply Nat.ltb_ge in Hlen.
      specialize (Hcode c eq_refl). lia.
  - intros now uuid o r. unfold Room.new.
    destruct (bool_decide _ || _) eqn:Hb; [discriminate|].
    assert (¬ blank (Room.o_name o)) as Hne.
    { intros Ht. apply blank_guard in Ht. congruence. }
    destruct (Nat.ltb 50 _); [discriminate|].
    destruct ((Room.o_capacity o <? 2)%Z || (4 <? Room.o_capacity o)%Z)
      eqn:Hc; [discriminate|].
    apply orb_false_iff in Hc as [Hc2 Hc4].
    apply Z.ltb_ge in Hc2, Hc4.
    destruct (default false (Room.o_isPrivate o) && _) eqn:Hp;
      [discriminate|].
    intros [= <-]. simpl.
    pose proof (trim_stripped (Room.o_name o)) as Hst.
    split; [done|]. split; [by eapply stripped_not_blank|].
    repeat (split; [done|]).
    intros Hpriv. rewrite Hpriv in Hp. simpl in Hp.
    apply orb_false_iff in Hp as [Ht Hlen].
    destruct (Room.o_code o) as [c|]; [|done].
    exists c. split; [done|]. simpl in Hlen. by apply Nat.ltb_ge in Hlen.
Qed.

Lemma X22_constructors_validate_witness :
  Player.new "u1" (Player.mkOptions None (text "  Alice ") red None None)
  = Some (Player.mk "u1" (text "Alice") red (mkInventory 3 3 3) true 0
            false false)
  ∧ Player.new "u1" (Player.mkOptions None [160%N; 32%N; 12288%N] red
                       None None) = None
  ∧ is_Some (Player.new "u1"
               (Player.mkOptions None (replicate 11 233%N) red None None)).
Proof.
  destruct X22_constructors_validate as (Hrej & Hacc & _).
  split; [|split].
  - destruct (Player.new "u1"
                (Player.mkOptions None (text "  Alice ") red None None))
      as [p|] eqn:Hp; [|by vm_compute in Hp].
    destruct (Hacc _ _ _ Hp)
      as (_ & Huniq & _ & _ & Hid & Hc & Hi & Hconn & Hs & He & Hh & _).
    destruct p as [i n c inv conn sk el host]. simpl in *. subst.
    rewrite <- (Huniq (text "Alice")); [done|].
    exists (text "  "), (text " "). split; [done|].
    split; [unfold blank; by repeat constructor|].
    split; [unfold blank; by repeat constructor|].
    split; intros u [= <-]; by vm_compute.
  - apply Hrej. left. unfold blank. by repeat constructor.
  - destruct (Player.new "u1"
                (Player.mkOptions None (replicate 11 233%N) red None None))
      as [p|] eqn:Hp; [by eexists|].
    apply Hrej in Hp as [Hb|Hl]; [|simpl in Hl; lia].
    simpl in Hb. apply Forall_cons in Hb as [Hb _]. by vm_compute in Hb.
Defined.

(* ===================================================================== *)
(** * Part XI. Losing and regaining the connection                        *)
(* ===================================================================== *)









(* ===================================================================== *)
(** * Part XII. The engine of local matches                               *)
(* ===================================================================== *)

(** [find] and [findIndex] with the same test stop at the same entry. *)
Lemma find_findIndex {A} (f f' : A → bool) (l : list A) (x : A) :
  (∀ y, f' y = f y) →
  List.find f l = Some x →
  ∃ i, GameLogic.findIndex f' l = Some i ∧ l !! i = Some x.
Proof.
  intros Hf. induction l as [|y l IH]; simpl; [discriminate|].
  rewrite Hf. destruct (f y).
  - intros [= ->]. by exists 0%nat.
  - intros H. destruct (IH H) as (i & -> & Hi). by exists (S i).
Qed.

(** What an accepted move of the local engine is made of. *)
Lemma local_applyMove_accepted position size color h g h' g' :
  LocalGame.applyMove position size color h g = Some (h', g') →
  ∃ l i,
    LocalGame.status g = playing
    ∧ LocalGame.getCurrentPlayer h g = Some l
    ∧ LocalGame.players g !! i = Some l
    ∧ Player.color (deref h l) = color
    ∧ (0 < count (Player.inventory (deref h l)) size)%Z
    ∧ GameLogic.isLegalMove (LocalGame.board g) position size (Some color)
      = true
    ∧ h' = h ++ [Player.set_inventory (deref h l)
                   (decrement (Player.inventory (deref h l)) size)]
    ∧ LocalGame.players g' = <[i := length h]> (LocalGame.players g)
    ∧ LocalGame.board g'
      = boardPlace (LocalGame.board g) position size color.
Proof.
  unfold LocalGame.applyMove.
  destruct (bool_decide (LocalGame.status g = playing)) eqn:Hst;
    [|discriminate].
  apply bool_decide_eq_true in Hst. simpl.
  destruct (LocalGame.getCurrentPlayer h g) as [l|] eqn:Hcur;
    [|discriminate].
  destruct (bool_decide (Player.color (deref h l) = color)) eqn:Hcol;
    [|discriminate].
  apply bool_decide_eq_true in Hcol. simpl.
  destruct (Z.leb_spec (count (Player.inventory (deref h l)) size) 0)
    as [|Hinv]; [discriminate|].
  destruct (GameLogic.isLegalMove (LocalGame.board g) position size
              (Some color)) eqn:Hlegal; [|discriminate].
  simpl. unfold GameLogic.applyMove. rewrite Hlegal. simpl.
  assert (Player.id (deref h l) = LocalGame.currentPlayerId g) as Hid.
  { unfold LocalGame.getCurrentPlayer in Hcur.
    apply find_some in Hcur as [_ Hcur].
    by apply bool_decide_eq_true in Hcur. }
  destruct (find_findIndex
              (fun l' => bool_decide
                 (Player.id (deref h l') = LocalGame.currentPlayerId g))
              (fun l' => bool_decide
                 (Player.id (deref h l') = Player.id (deref h l)))
              (LocalGame.players g) l) as (i & Hidx & Hi).
  { intros y. by rewrite Hid. }
  { exact Hcur. }
  rewrite Hidx, Hi. unfold alloc.
  intros Hres. exists l, i. repeat (split; [done|]).
  destruct (GameLogic.checkWinConditions _ _);
    [by injection Hres as <- <-|].
  destruct (GameLogic.isDraw _ _ _); [by injection Hres as <- <-|].
  destruct (GameLogic.getNextPlayer _ _ _); by injection Hres as <- <-.
Qed.

(** X24: the local engine never modifies a player object.  An accepted
    [applyMove] of the shared package's [Game] class adds exactly one
    object to the store, a copy of the mover's record with one piece of
    the played size fewer, and makes the mover's entry of the game's seat
    list point to it; every object that existed before the call, among
    them the [Player] objects handed to the constructor, is unchanged,
    and the board is the old one with the piece added. *)
Theorem X24_local_move_copies_the_seat position size color h g h' g' :
  LocalGame.applyMove position size color h g = Some (h', g') →
  ∃ l i,
    LocalGame.getCurrentPlayer h g = Some l
    ∧ LocalGame.players g !! i = Some l
    ∧ Player.color (deref h l) = color
    ∧ h' = h ++ [Player.set_inventory (deref h l)
                   (decrement (Player.inventory (deref h l)) size)]
    ∧ LocalGame.players g' = <[i := length h]> (LocalGame.players g)
    ∧ LocalGame.board g'
      = boardPlace (LocalGame.board g) position size color
    ∧ (∀ l', (l' < length h)%nat → deref h' l' = deref h l')
    ∧ (∀ j, j ≠ i → LocalGame.players g' !! j = LocalGame.players g !! j).
Proof.
  intros Hmove.
  destruct (local_applyMove_accepted _ _ _ _ _ _ _ Hmove)
    as (l & i & _ & Hcur & Hi & Hcol & _ & _ & Hh & Hps & Hb).
  exists l, i. repeat (split; [done|]). split.
  - intros l' Hl'. rewrite Hh. by apply deref_app_l.
  - intros j Hj. rewrite Hps. by apply list_lookup_insert_ne.
Qed.

Lemma X24_local_move_copies_the_seat_witness :
  ∃ h' g',
    LocalGame.applyMove 5 M red localSeats
      (LocalGame.mk GameLogic.createEmptyBoard [0%nat; 1%nat] "u1" playing
         None false) = Some (h', g')
    ∧ deref h' 0%nat = LocalGame.newPlayer "u1" (text "Joueur 1") red
    ∧ LocalGame.players g' = [2%nat; 1%nat]
    ∧ Player.inventory (deref h' 2%nat) = mkInventory 3 2 3.
Proof.
  destruct (LocalGame.applyMove 5 M red localSeats
              (LocalGame.mk GameLogic.createEmptyBoard [0%nat; 1%nat] "u1"
                 playing None false)) as [[h' g']|] eqn:Hmove;
    [|by vm_compute in Hmove].
  exists h', g'. split; [done|].
  destruct (X24_local_move_copies_the_seat _ _ _ _ _ _ _ Hmove)
    as (l & i & Hcur & Hi & _ & Hh & Hps & _ & Hold & _).
  assert (l = 0%nat) as -> by (vm_compute in Hcur; congruence).
  assert (i = 0%nat) as ->.
  { destruct i as [|[|i]]; [done|by vm_compute in Hi|by vm_compute in Hi]. }
  split; [|split].
  - rewrite Hold; [done|]. vm_compute. lia.
  - by rewrite Hps.
  - by rewrite Hh.
Defined.

(** X25: the local engine has no way to pass.  While the match is
    playing, some move is accepted if and only if the seat on turn has a
    legal move: when it has one, a move of its own colour is accepted;
    when it has none, every [applyMove] throws, whatever cell, size and
    colour are submitted, so the state can never change again (the class
    has no other operation that changes it), even though another seat
    may still be able to play. *)
Theorem X25_local_game_cannot_pass h g l :
  LocalGame.status g = playing →
  LocalGame.getCurrentPlayer h g = Some l →
  (GameLogic.hasLegalMoves (LocalGame.board g) (deref h l) = false →
   ∀ position size color,
     LocalGame.applyMove position size color h g = None)
  ∧ (GameLogic.hasLegalMoves (LocalGame.board g) (deref h l) = true →
     ∃ position size,
       is_Some (LocalGame.applyMove position size
                  (Player.color (deref h l)) h g)).
Proof.
  intros Hst Hcur. split.
  - intros Hnone position size color.
    destruct (LocalGame.applyMove position size color h g)
      as [[h' g']|] eqn:Hmove; [|done].
    destruct (local_applyMove_accepted _ _ _ _ _ _ _ Hmove)
      as (l' & i & _ & Hcur' & _ & _ & Hinv & Hlegal & _).
    rewrite Hcur in Hcur'. injection Hcur' as <-.
    assert (GameLogic.hasLegalMoves (LocalGame.board g) (deref h l) = true)
      as Hsome.
    { apply hasLegalMoves_exists. exists position, size.
      split; [done|]. by rewrite isLegalMove_top in *. }
    congruence.
  - intros Hsome. apply hasLegalMoves_exists in Hsome
      as (position & size & Hinv & Hlegal).
    exists position, size. unfold LocalGame.applyMove.
    rewrite (bool_decide_eq_true_2 _ Hst), Hcur. simpl.
    rewrite (bool_decide_eq_true_2 _ eq_refl). simpl.
    destruct (Z.leb_spec (count (Player.inventory (deref h l)) size) 0)
      as [|_]; [lia|].
    assert (GameLogic.isLegalMove (LocalGame.board g) position size
              (Some (Player.color (deref h l))) = true) as Hlegal'.
    { by rewrite isLegalMove_top in *. }
    rewrite Hlegal'. simpl. unfold GameLogic.applyMove.
    rewrite Hlegal'. simpl.
    destruct (match GameLogic.findIndex _ _ with
              | Some _ => _ | None => _ end) as [h1 players1].
    destruct (GameLogic.checkWinConditions _ _); [done|].
    destruct (GameLogic.isDraw _ _ _); [done|].
    by destruct (GameLogic.getNextPlayer _ _ _).
Qed.

Lemma X25_local_game_cannot_pass_witness :
  ∃ h g l,
    localDeadlock = Some (h, g)
    ∧ LocalGame.status g = playing
    ∧ LocalGame.getCurrentPlayer h g = Some l
    ∧ Player.color (deref h l) = blue
    ∧ (∀ position size color,
         LocalGame.applyMove position size color h g = None)
    ∧ ∃ l2, l2 ∈ LocalGame.players g
            ∧ GameLogic.hasLegalMoves (LocalGame.board g) (deref h l2)
              = true.
Proof.
  destruct localDeadlock as [[h g]|] eqn:Hrun; [|by vm_compute in Hrun].
  vm_compute in Hrun. injection Hrun as <- <-.
  eexists _, _, 9%nat.
  split; [reflexivity|].
  match goal with
  | |- LocalGame.status ?g = _ ∧ LocalGame.getCurrentPlayer ?h _ = _ ∧ _ =>
      assert (LocalGame.status g = playing) as Hst by done;
      assert (LocalGame.getCurrentPlayer h g = Some 9%nat) as Hcur
        by (by vm_compute);
      pose proof (X25_local_game_cannot_pass h g _ Hst Hcur) as [Hstuck _]
  end.
  split; [exact Hst|].
  split; [exact Hcur|]. split; [by vm_compute|].
  split; [apply Hstuck; by vm_compute|].
  exists 10%nat. split; [|by vm_compute].
  apply (bool_decide_unpack _). vm_compute. exact I.
Defined.

(* ===================================================================== *)
(** * Part XIII. The lobby                                                *)
(* ===================================================================== *)



(** ** Joining through the lobby *)




Lemma getPlayer_is_Some h r pid :
  is_Some (Room.getPlayer h r pid) ↔ pid ∈ ids h (Room.players r).
Proof.
  unfold Room.getPlayer, ids.
  induction (Room.players r) as [|l ls IH]; simpl.
  - split; [by intros [? ?]|by intros ?%elem_of_nil].
  - destruct (bool_decide (Player.id (deref h l) = pid)) eqn:Hl.
    + apply bool_decide_eq_true in Hl. split; [|by eexists].
      intros _. rewrite Hl. by left.
    + apply bool_decide_eq_false in Hl. rewrite IH. split.
      * intros ?. by right.
      * intros [?|?]%elem_of_cons; [congruence|done].
Qed.




(** ** Expired rooms *)

Lemma removeRoom_rooms roomId s :
  LobbyService.rooms (LobbyService.removeRoom roomId s).1
  = delete roomId (LobbyService.rooms s).
Proof.
  unfold LobbyService.removeRoom.
  destruct (LobbyService.rooms s !! roomId) eqn:Hk; simpl; [done|].
  symmetry. by apply delete_id.
Qed.

Lemma removeRoom_byHost roomId s hostId rid :
  LobbyService.roomsByHost (LobbyService.removeRoom roomId s).1 !! hostId
  = Some rid →
  LobbyService.roomsByHost s !! hostId = Some rid.
Proof.
  unfold LobbyService.removeRoom.
  destruct (LobbyService.rooms s !! roomId); simpl; [|done].
  intros H. by apply lookup_delete_Some in H as [_ H].
Qed.

(** Removing the rooms of a list of ids. *)
Lemma removeRooms_rooms ks s k :
  LobbyService.rooms
    (fold_left (fun s' roomId => (LobbyService.removeRoom roomId s').1)
               ks s) !! k
  = if bool_decide (k ∈ ks) then None else LobbyService.rooms s !! k.
Proof.
  revert s. induction ks as [|k0 ks IH]; intros s; simpl; [done|].
  rewrite IH, removeRoom_rooms.
  destruct (decide (k = k0)) as [->|Hne].
  - rewrite lookup_delete_eq.
    rewrite (bool_decide_eq_true_2 (k0 ∈ k0 :: ks)) by by left.
    by destruct (bool_decide (k0 ∈ ks)).
  - rewrite lookup_delete_ne by done.
    destruct (bool_decide (k ∈ ks)) eqn:Hin.
    + apply bool_decide_eq_true in Hin.
      by rewrite (bool_decide_eq_true_2 (k ∈ k0 :: ks)) by by right.
    + apply bool_decide_eq_false in Hin.
      rewrite (bool_decide_eq_false_2 (k ∈ k0 :: ks)); [done|].
      by intros [?|?]%elem_of_cons.
Qed.

Lemma removeRooms_byHost ks s hostId rid :
  LobbyService.roomsByHost
    (fold_left (fun s' roomId => (LobbyService.removeRoom roomId s').1)
               ks s) !! hostId = Some rid →
  LobbyService.roomsByHost s !! hostId = Some rid.
Proof.
  revert s. induction ks as [|k0 ks IH]; intros s; simpl; [done|].
  intros H. apply IH in H. by apply removeRoom_byHost in H.
Qed.

Lemma removeRooms_size ks s :
  NoDup ks →
  (∀ k, k ∈ ks → is_Some (LobbyService.rooms s !! k)) →
  (length ks
   + size (LobbyService.rooms
             (fold_left
                (fun s' roomId => (LobbyService.removeRoom roomId s').1)
                ks s))
   = size (LobbyService.rooms s))%nat.
Proof.
  revert s. induction ks as [|k0 ks IH]; intros s Hnd Hin; simpl; [done|].
  apply NoDup_cons in Hnd as [Hk0 Hnd].
  rewrite IH; [|done|].
  - rewrite removeRoom_rooms.
    destruct (Hin k0) as [r Hr]; [by left|].
    rewrite map_size_delete, Hr. simpl.
    assert (size (LobbyService.rooms s) ≠ 0)%nat; [|lia].
    apply map_size_ne_0_lookup. by exists k0, r.
  - intros k Hk. rewrite removeRoom_rooms.
    rewrite lookup_delete_ne; [apply Hin; by right|].
    by intros ->.
Qed.

(** The host of a removed room has no entry in the host index. *)
Lemma removeRooms_host ks s k r :
  k ∈ ks →
  LobbyService.rooms s !! k = Some r →
  LobbyService.roomsByHost
    (fold_left (fun s' roomId => (LobbyService.removeRoom roomId s').1)
               ks s) !! Room.hostId r = None.
Proof.
  revert s. induction ks as [|k0 ks IH]; intros s Hin Hr.
  { by apply elem_of_nil in Hin. }
  simpl. destruct (decide (k = k0)) as [<-|Hne].
  - match goal with
    | |- ?m !! ?i = None => destruct (m !! i) as [rid|] eqn:Hrid; [|done]
    end.
    apply removeRooms_byHost in Hrid.
    unfold LobbyService.removeRoom in Hrid. rewrite Hr in Hrid.
    simpl in Hrid. by rewrite lookup_delete_eq in Hrid.
  - apply IH.
    + by apply elem_of_cons in Hin as [?|?].
    + rewrite removeRoom_rooms. by rewrite lookup_delete_ne.
Qed.

(** The ids collected by [cleanupExpiredRooms]. *)
Lemma expired_ids now (m : gmap string Room.t) k :
  k ∈ (List.filter (fun kr : string * Room.t => Room.hasExpired now kr.2)
         (map_to_list m)).*1
  ↔ ∃ r, m !! k = Some r ∧ Room.hasExpired now r = true.
Proof.
  rewrite list_elem_of_fmap. split.
  - intros ([k' r] & -> & Hin). apply list_elem_of_In in Hin.
    apply filter_In in Hin as [Hin Hexp]. apply list_elem_of_In in Hin.
    apply elem_of_map_to_list in Hin. by exists r.
  - intros (r & Hr & Hexp). exists (k, r). split; [done|].
    apply list_elem_of_In, filter_In. split; [|done].
    by apply list_elem_of_In, elem_of_map_to_list.
Qed.

Lemma expired_ids_NoDup now (m : gmap string Room.t) :
  NoDup (List.filter (fun kr : string * Room.t => Room.hasExpired now kr.2)
           (map_to_list m)).*1.
Proof.
  eapply sublist_NoDup; [apply (NoDup_fst_map_to_list m)|].
  apply fmap_sublist, filter_sublist.
Qed.

(** X28: cleaning up.  [cleanupExpiredRooms] removes exactly the rooms
    that have expired: a room is in the lobby afterwards if and only if
    it was there and has not expired, and it is unchanged.  The number
    returned is the number of rooms removed.  The host index only loses
    entries, among them the entry of the host of every removed room.
    Running it again at the same time removes nothing and returns 0. *)
Theorem X28_cleanupExpiredRooms (now : Z) (s : LobbyService.t) :
  let s' := (LobbyService.cleanupExpiredRooms now s).1 in
  let n := (LobbyService.cleanupExpiredRooms now s).2 in
  (∀ k,
     LobbyService.getRoom s' k
     = match LobbyService.getRoom s k with
       | Some r => if Room.hasExpired now r then None else Some r
       | None => None
       end)
  ∧ (n + size (LobbyService.rooms s') = size (LobbyService.rooms s))%nat
  ∧ (∀ hostId roomId,
       LobbyService.roomsByHost s' !! hostId = Some roomId →
       LobbyService.roomsByHost s !! hostId = Some roomId)
  ∧ (∀ k r,
       LobbyService.getRoom s k = Some r → Room.hasExpired now r = true →
       LobbyService.roomsByHost s' !! Room.hostId r = None)
  ∧ LobbyService.cleanupExpiredRooms now s' = (s', 0%nat).
Proof.
  intros s' n. unfold LobbyService.cleanupExpiredRooms in s', n.
  cbn [fst snd] in s', n.
  set (ks := (List.filter
                (fun kr : string * Room.t => Room.hasExpired now kr.2)
                (map_to_list (LobbyService.rooms s))).*1) in *.
  assert (∀ k,
            LobbyService.getRoom s' k
            = match LobbyService.getRoom s k with
              | Some r => if Room.hasExpired now r then None else Some r
              | None => None
              end) as Hrooms.
  { intros k. unfold LobbyService.getRoom, s'. rewrite removeRooms_rooms.
    destruct (bool_decide (k ∈ ks)) eqn:Hk.
    - apply bool_decide_eq_true, expired_ids in Hk as (r & -> & ->). done.
    - apply bool_decide_eq_false in Hk.
      destruct (LobbyService.rooms s !! k) as [r|] eqn:Hr; [|done].
      destruct (Room.hasExpired now r) eqn:Hexp; [|done].
      exfalso. apply Hk, expired_ids. by exists r. }
  split; [exact Hrooms|]. split; [|split; [|split]].
  - unfold n, s'. apply removeRooms_size; [apply expired_ids_NoDup|].
    intros k Hk. apply expired_ids in Hk as (r & -> & _). by eexists.
  - intros hostId roomId. apply removeRooms_byHost.
  - intros k r Hr Hexp. unfold s'.
    apply (removeRooms_host ks s k r); [|done].
    apply expired_ids. by exists r.
  - unfold LobbyService.cleanupExpiredRooms.
    destruct (List.filter _ (map_to_list (LobbyService.rooms s')))
      as [|[k r] rest] eqn:Hf; [done|].
    exfalso.
    assert (k ∈ (List.filter
                   (fun kr : string * Room.t => Room.hasExpired now kr.2)
                   (map_to_list (LobbyService.rooms s'))).*1) as Hin.
    { rewrite Hf. simpl. by left. }
    apply expired_ids in Hin as (r' & Hr' & Hexp).
    pose proof (Hrooms k) as Hk. unfold LobbyService.getRoom in Hk.
    rewrite Hr' in Hk.
    destruct (LobbyService.rooms s !! k) as [r0|]; [|done].
    destruct (Room.hasExpired now r0) eqn:Hexp0; [done|].
    congruence.
Qed.

(** ** The host index *)

Lemma hostIndexWf_removeRoom roomId s :
  hostIndexWf s → hostIndexWf (LobbyService.removeRoom roomId s).1.
Proof.
  intros Hwf. unfold LobbyService.removeRoom.
  destruct (LobbyService.rooms s !! roomId) as [r|] eqn:Hr; [|done].
  intros hid rid. simpl. intros Hin.
  apply lookup_delete_Some in Hin as [Hne Hin].
  destruct (Hwf hid rid Hin) as (r0 & Hr0 & Hh0).
  exists r0. split; [|done].
  rewrite lookup_delete_ne; [done|]. intros <-. congruence.
Qed.

Lemma hostIndexWf_removeRooms ks s :
  hostIndexWf s →
  hostIndexWf
    (fold_left (fun s' roomId => (LobbyService.removeRoom roomId s').1)
               ks s).
Proof.
  revert s. induction ks as [|k ks IH]; intros s Hwf; simpl; [done|].
  by apply IH, hostIndexWf_removeRoom.
Qed.

(** Replacing a room and the host index so that every entry either names
    the replaced room and its new host, or is an old entry for another
    room. *)
Lemma hostIndexWf_update s roomId r1 byHost :
  hostIndexWf s →
  (∀ hid rid,
     byHost !! hid = Some rid →
     (rid = roomId ∧ Room.hostId r1 = hid)
     ∨ (rid ≠ roomId ∧ LobbyService.roomsByHost s !! hid = Some rid)) →
  hostIndexWf
    (LobbyService.mk (<[roomId := r1]> (LobbyService.rooms s)) byHost).
Proof.
  intros Hwf Hentries hid rid. simpl. intros Hin.
  destruct (Hentries hid rid Hin) as [[-> Hh]|[Hne Hold]].
  - exists r1. by rewrite lookup_insert_eq.
  - destruct (Hwf hid rid Hold) as (r0 & Hr0 & Hh0).
    exists r0. by rewrite lookup_insert_ne.
Qed.

Lemma addPlayer_hostId now rnd uuid player h r h' r' ok :
  Room.addPlayer now rnd uuid player h r = Some (h', r', ok) →
  Room.hostId r' = Room.hostId r.
Proof.
  unfold Room.addPlayer.
  destruct (_ <=? _)%Z; [by intros [= <- <- <-]|].
  destruct (existsb _ _); [by intros [= <- <- <-]|].
  destruct (List.find _ availableColors); [|by intros [= <- <- <-]].
  destruct (Player.new _ _) as [rp|]; [|discriminate].
  unfold alloc.
  destruct (bool_decide _); [|by intros [= <- <- <-]].
  unfold Room.startGame.
  destruct (Nat.ltb _ 2); [discriminate|].
  destruct (Game.initialize _ _ _ _ _ _) as [[h2 g2]|]; [|discriminate].
  by intros [= <- <- <-].
Qed.

(** X29: the host index stays consistent.  When every entry of the host
    index names a room of the lobby whose host is the entry's key, the
    same holds after [createRoom] (with an id that no room has),
    [removeRoom], [cleanupExpiredRooms], [joinRoom], and [leaveRoom] from
    a well-formed room, whether the leaver was the host (the entry moves
    to the new host) or the last seat (the room is closed); and the room
    [getRoomByHost] returns for a host is a room of the lobby that has
    this host. *)
Theorem X29_host_index_consistent (s : LobbyService.t) :
  hostIndexWf s →
  (∀ now uuid o s' room,
     LobbyService.rooms s !! uuid = None →
     LobbyService.createRoom now uuid o s = Some (s', room) →
     hostIndexWf s')
  ∧ (∀ roomId, hostIndexWf (LobbyService.removeRoom roomId s).1)
  ∧ (∀ now, hostIndexWf (LobbyService.cleanupExpiredRooms now s).1)
  ∧ (∀ now rnd uuid roomId player code h h' s' res,
       LobbyService.joinRoom now rnd uuid roomId player code h s
       = Some (h', s', res) →
       hostIndexWf s')
  ∧ (∀ now roomId playerId h,
       (∀ r, LobbyService.getRoom s roomId = Some r → roomWf h r) →
       hostIndexWf (LobbyService.leaveRoom now roomId playerId h s).1.1.2)
  ∧ (∀ hostId r,
       LobbyService.getRoomByHost s hostId = Some r →
       Room.hostId r = hostId
       ∧ ∃ roomId, LobbyService.getRoom s roomId = Some r).
Proof.
  intros Hwf.
  split; [|split; [|split; [|split; [|split]]]].
  - intros now uuid o s' room Hfresh Hcreate.
    unfold LobbyService.createRoom in Hcreate.
    repeat match type of Hcreate with
           | (if ?b then None else _) = Some _ =>
               destruct b; [discriminate|]
           end.
    destruct (Room.new _ _ _) as [room0|] eqn:Hnew; [|discriminate].
    injection Hcreate as <- <-.
    assert (Room.id room0 = uuid ∧ Room.hostId room0 = LobbyService.c_hostId o)
      as [Hid Hhost].
    { unfold Room.new in Hnew.
      repeat match type of Hnew with
             | (if ?b then None else _) = Some _ =>
                 destruct b; [discriminate|]
             end.
      by injection Hnew as <-. }
    rewrite Hid. apply hostIndexWf_update; [done|].
    intros hid rid Hin.
    destruct (decide (hid = LobbyService.c_hostId o)) as [->|Hne].
    + rewrite lookup_insert_eq in Hin. injection Hin as <-. by left.
    + rewrite lookup_insert_ne in Hin by done. right. split; [|done].
      intros ->. destruct (Hwf hid uuid Hin) as (r0 & Hr0 & _). congruence.
  - intros roomId. by apply hostIndexWf_removeRoom.
  - intros now. unfold LobbyService.cleanupExpiredRooms. cbn [fst].
    by apply hostIndexWf_removeRooms.
  - intros now rnd uuid roomId player code h h' s' res.
    unfold LobbyService.joinRoom, LobbyService.getRoom.
    destruct (LobbyService.rooms s !! roomId) as [r|] eqn:Hr;
      [|by intros [= <- <- <-]].
    destruct (Room.hasExpired now r).
    { intros [= <- <- <-]. by apply hostIndexWf_removeRoom. }
    repeat match goal with
           | |- (if ?b then Some _ else _) = Some _ → _ =>
               destruct b; [by intros [= <- <- <-]|]
           end.
    destruct (Room.addPlayer now rnd uuid player h r)
      as [[[h1 r1] added]|] eqn:Hadd; [|discriminate].
    apply addPlayer_hostId in Hadd.
    assert (hostIndexWf
              (LobbyService.mk (<[roomId := r1]> (LobbyService.rooms s))
                 (LobbyService.roomsByHost s))) as Hwf1.
    { apply hostIndexWf_update; [done|]. intros hid rid Hin.
      destruct (decide (rid = roomId)) as [->|Hne]; [left|by right].
      split; [done|]. destruct (Hwf hid roomId Hin) as (r0 & Hr0 & Hh0).
      congruence. }
    destruct (negb added); by intros [= <- <- <-].
  - intros now roomId playerId h Hroom.
    unfold LobbyService.leaveRoom, LobbyService.getRoom in *.
    destruct (LobbyService.rooms s !! roomId) as [r|] eqn:Hr; [|done].
    specialize (Hroom r eq_refl).
    destruct (Room.getPlayer h r playerId) as [lp|] eqn:Hlp; [|done].
    destruct (Room.removePlayer now playerId h r) as [[h1 r1] removed]
      eqn:Hrem.
    assert (∀ hid, LobbyService.roomsByHost s !! hid = Some roomId →
                   hid = Room.hostId r) as Hentry.
    { intros hid Hin. destruct (Hwf hid roomId Hin) as (r0 & Hr0 & Hh0).
      congruence. }
    destruct (removePlayer_cases _ _ _ _ _ _ _ Hroom Hrem)
      as [(-> & -> & -> & _)
         |(-> & lr & Hlr & Hps & _ & _ & _ & Hsame & Hmoved)].
    { simpl. apply hostIndexWf_update; [done|]. intros hid rid Hin.
      destruct (decide (rid = roomId)) as [->|Hne]; [left|by right].
      split; [done|]. symmetry. by apply Hentry. }
    rewrite Hlp in Hlr. injection Hlr as <-.
    assert (Player.id (deref h lp) = playerId) as Hlpid.
    { unfold Room.getPlayer in Hlp. apply find_some in Hlp as [_ Hlp].
      by apply bool_decide_eq_true in Hlp. }
    cbn [negb].
    match goal with
    | |- hostIndexWf
           (if _ then (_, (LobbyService.removeRoom _ ?s1).1, _, _)
            else _).1.1.2 =>
        assert (hostIndexWf s1) as Hwf1
    end.
    { apply hostIndexWf_update; [done|]. intros hid rid.
      destruct (Player.isHost (deref h lp)) eqn:Hflag.
      - (* the leaver carried the host flag, so it was the host *)
        assert (Room.hostId r = playerId) as Hhost.
        { destruct Hroom as (_ & _ & _ & _ & Hflags).
          rewrite <- Hlpid. symmetry. apply Hflags; [|done].
          by eapply getPlayer_elem. }
        rewrite (bool_decide_eq_true_2 _ Hhost).
        destruct (truthy (Some (Room.hostId r1))
                  && negb (bool_decide (Room.hostId r1 = playerId)))
          eqn:Hset.
        + intros Hin.
          destruct (decide (hid = Room.hostId r1)) as [->|Hne].
          * rewrite lookup_insert_eq in Hin. injection Hin as <-. by left.
          * rewrite lookup_insert_ne in Hin by done.
            apply lookup_delete_Some in Hin as [Hne' Hin].
            right. split; [|done]. intros ->.
            apply Hentry in Hin. congruence.
        + intros Hin. apply lookup_delete_Some in Hin as [Hne' Hin].
          right. split; [|done]. intros ->.
          apply Hentry in Hin. congruence.
      - destruct (Hsame (or_introl eq_refl)) as [_ Hh1].
        destruct (bool_decide (Room.hostId r = playerId)) eqn:Hwas.
        + apply bool_decide_eq_true in Hwas.
          rewrite Hh1, (bool_decide_eq_true_2 _ Hwas), andb_false_r.
          intros Hin. apply lookup_delete_Some in Hin as [Hne' Hin].
          right. split; [|done]. intros ->.
          apply Hentry in Hin. congruence.
        + intros Hin.
          destruct (decide (rid = roomId)) as [->|Hne]; [left|by right].
          split; [done|]. rewrite Hh1. symmetry. by apply Hentry. }
    destruct (Nat.eqb _ 0); [|done].
    cbn [fst snd]. by apply hostIndexWf_removeRoom.
  - intros hostId r. unfold LobbyService.getRoomByHost.
    destruct (LobbyService.roomsByHost s !! hostId) as [rid|] eqn:Hin;
      [|discriminate].
    destruct (truthy (Some rid)); [|discriminate].
    intros Hget. destruct (Hwf hostId rid Hin) as (r0 & Hr0 & Hh0).
    unfold LobbyService.getRoom in *.
    split; [congruence|by exists rid].
Qed.

Lemma salonLobby_hostIndexWf : hostIndexWf salonLobby.
Proof.
  intros hostId roomId Hin. unfold salonLobby in *. simpl in *.
  apply lookup_singleton_Some in Hin as [<- <-].
  exists salonTwoSeats.2. split; [apply lookup_singleton_eq|done].
Qed.

Lemma X29_host_index_consistent_witness :
  let s' := (LobbyService.leaveRoom 0 (Room.id salonTwoSeats.2) "A"
               salonTwoSeats.1 salonLobby).1.1.2 in
  hostIndexWf s'
  ∧ LobbyService.roomsByHost s' !! "A" = None
  ∧ LobbyService.roomsByHost s' !! "B" = Some (Room.id salonTwoSeats.2).
Proof.
  destruct (X29_host_index_consistent salonLobby salonLobby_hostIndexWf)
    as (_ & _ & _ & _ & Hleave & _).
  split; [|split; by vm_compute].
  apply Hleave. intros r Hr.
  assert (r = salonTwoSeats.2) as ->.
  { unfold LobbyService.getRoom, salonLobby in Hr. simpl in Hr.
    by apply lookup_singleton_Some in Hr as [_ <-]. }
  exact salonTwoSeats_roomWf.
Defined.

(** ** Leaving through the lobby *)

(** The seats left after a seat is removed by id are one fewer. *)
Lemma filter_other_ids_length h pid ls l :
  NoDup (ids h ls) →
  List.find (fun l => bool_decide (Player.id (deref h l) = pid)) ls
  = Some l →
  S (length
       (List.filter
          (fun l => negb (bool_decide (Player.id (deref h l) = pid))) ls))
  = length ls.
Proof.
  intros Hnd Hfind.
  destruct (find_findIndex _
              (fun l => bool_decide (Player.id (deref h l) = pid))
              ls l (fun _ => eq_refl) Hfind) as (i & Hidx & Hi).
  rewrite <- (delete_found_seat h pid ls i Hnd Hidx).
  rewrite length_delete by by eexists.
  apply lookup_lt_Some in Hi. lia.
Qed.

(** X30: leaving through the lobby.  From a well-formed room of the
    lobby, [leaveRoom] succeeds exactly when the player is seated in the
    room; otherwise it reports 'Player not in room' and changes nothing
    (the error 'Failed to leave room' never occurs).  The room is closed
    exactly when the leaver was its only seat: it is then removed from
    the lobby and no record is touched.  Otherwise the room stays in the
    lobby, well formed and not empty, with exactly the other seats in
    their order.  No other room changes, and no record changes except,
    possibly, in its host flag. *)
Theorem X30_leaveRoom (now : Z) (roomId playerId : string) (h : Heap)
    (s : LobbyService.t) (r : Room.t) :
  LobbyService.getRoom s roomId = Some r →
  roomWf h r →
  let res := LobbyService.leaveRoom now roomId playerId h s in
  let h' := res.1.1.1 in
  let s' := res.1.1.2 in
  let outcome := res.1.2 in
  let roomClosed := res.2 in
  (outcome = LobbyService.Success ↔ playerId ∈ ids h (Room.players r))
  ∧ (outcome ≠ LobbyService.Success →
     outcome = LobbyService.Failure LobbyService.PlayerNotInRoom
     ∧ h' = h ∧ s' = s ∧ roomClosed = false)
  ∧ (∀ k, k ≠ roomId →
          LobbyService.getRoom s' k = LobbyService.getRoom s k)
  ∧ (∀ l, sameButHost (deref h l) (deref h' l))
  ∧ (outcome = LobbyService.Success →
     (roomClosed = true ↔ length (Room.players r) = 1%nat)
     ∧ (roomClosed = true →
        LobbyService.getRoom s' roomId = None ∧ h' = h)
     ∧ (roomClosed = false →
        ∃ r',
          LobbyService.getRoom s' roomId = Some r'
          ∧ roomWf h' r'
          ∧ Room.players r'
            = List.filter
                (fun l => negb (bool_decide
                                  (Player.id (deref h l) = playerId)))
                (Room.players r)
          ∧ Room.players r' ≠ []
          ∧ (playerId ∉ ids h' (Room.players r')))).
Proof.
  intros Hget Hwf. cbv zeta.
  unfold LobbyService.leaveRoom. rewrite Hget.
  destruct (Room.getPlayer h r playerId) as [lp|] eqn:Hlp.
  2:{ assert (playerId ∉ ids h (Room.players r)) as Hnot.
      { rewrite <- getPlayer_is_Some, Hlp. by intros [? ?]. }
      simpl.
      split; [split; [discriminate|done]|]. split; [done|].
      split; [done|]. split; [intros; apply sameButHost_refl|done]. }
  assert (playerId ∈ ids h (Room.players r)) as Hin.
  { rewrite <- getPlayer_is_Some, Hlp. by eexists. }
  destruct (Room.removePlayer now playerId h r) as [[h1 r1] removed]
    eqn:Hrem.
  pose proof (removePlayer_roomWf _ _ _ _ _ _ _ Hwf Hrem) as Hwf1.
  destruct (removePlayer_cases _ _ _ _ _ _ _ Hwf Hrem)
    as [(_ & _ & _ & Hnot)
       |(-> & lr & Hlr & Hps & _ & _ & Hsame & Hkeep & _)]; [done|].
  assert (S (length (Room.players r1)) = length (Room.players r)) as Hlen.
  { rewrite Hps. destruct Hwf as (_ & Hids & _).
    by apply (filter_other_ids_length h playerId _ lp). }
  cbn [negb].
  destruct (Nat.eqb_spec (length (Room.players r1)) 0) as [Hempty|Hseats];
    cbn [fst snd].
  - split; [done|]. split; [done|].
    split.
    { intros k Hk. unfold LobbyService.getRoom.
      rewrite removeRoom_rooms. simpl.
      rewrite lookup_delete_ne by done. by rewrite lookup_insert_ne. }
    split; [done|]. intros _.
    split; [split; [intros _; lia|done]|]. split; [|discriminate].
    intros _. split.
    + unfold LobbyService.getRoom. rewrite removeRoom_rooms.
      apply lookup_delete_eq.
    + apply Hkeep. right. by apply nil_length_inv.
  - split; [done|]. split; [done|].
    split.
    { intros k Hk. unfold LobbyService.getRoom. simpl.
      by rewrite lookup_insert_ne. }
    split; [done|]. intros _.
    split; [split; [discriminate|intros; lia]|]. split; [discriminate|].
    intros _. exists r1. unfold LobbyService.getRoom. simpl.
    split; [apply lookup_insert_eq|]. split; [done|]. split; [done|].
    split; [intros Hnil; by rewrite Hnil in Hseats|].
    rewrite (sameButHost_ids h h1 _ Hsame), Hps. unfold ids.
    intros Hx. apply list_elem_of_fmap in Hx as (l & Hid & Hl).
    apply list_elem_of_In, filter_In in Hl as [_ Hl].
    apply negb_true_iff, bool_decide_eq_false in Hl. by apply Hl.
Qed.

Lemma X30_leaveRoom_witness :
  let res := LobbyService.leaveRoom 0 (Room.id salonTwoSeats.2) "A"
               salonTwoSeats.1 salonLobby in
  res.1.2 = LobbyService.Success ∧ res.2 = false
  ∧ ∃ r', LobbyService.getRoom res.1.1.2 (Room.id salonTwoSeats.2)
          = Some r'
          ∧ roomWf res.1.1.1 r' ∧ Room.players r' = [1%nat].
Proof.
  destruct (X30_leaveRoom 0 (Room.id salonTwoSeats.2) "A" salonTwoSeats.1
              salonLobby salonTwoSeats.2)
    as (Hok & _ & _ & _ & Hdone).
  - apply lookup_singleton_eq.
  - exact salonTwoSeats_roomWf.
  - assert ((LobbyService.leaveRoom 0 (Room.id salonTwoSeats.2) "A"
               salonTwoSeats.1 salonLobby).1.2 = LobbyService.Success)
      as Hsuccess.
    { apply Hok. apply (bool_decide_unpack _). vm_compute. exact I. }
    destruct (Hdone Hsuccess) as (_ & _ & Hstays).
    split; [exact Hsuccess|]. split; [by vm_compute|].
    destruct (Hstays ltac:(by vm_compute)) as (r' & Hr' & Hwf' & Hps & _).
    exists r'. split; [exact Hr'|]. split; [exact Hwf'|].
    rewrite Hps. by vm_compute.
Defined.

(* ===================================================================== *)
(** * Part XIV. C10: room records and match records                       *)
(* ===================================================================== *)

(** The records [initialize] builds are new objects, one per seat, in
    seat order. *)
Lemma initialize_fresh now rnd uuid src h g h' g' :
  validLocs h src →
  Forall (fun l => validPlayer (deref h l)) src →
  Game.initialize now rnd uuid src h g = Some (h', g') →
  Game.players g' = seq (length h) (length src)
  ∧ length h' = (length h + length src)%nat
  ∧ (∀ l, (l < length h)%nat → deref h' l = deref h l)
  ∧ ∀ i lr,
      src !! i = Some lr →
      ∃ c, availableColors !! i = Some c
           ∧ deref h' (length h + i) = matchRecord c (deref h lr).
Proof.
  intros Hv Hvalid. unfold Game.initialize.
  destruct (Nat.ltb (length src) 2 || Nat.ltb 4 (length src)) eqn:Hlen;
    [discriminate|].
  apply orb_false_iff in Hlen as [H2 H4]. apply Nat.ltb_ge in H2, H4.
  destruct (mapNewPlayers_spec uuid src 0 h Hv Hvalid ltac:(simpl; lia))
    as (recs & -> & Hrecs & Hseat).
  cbv zeta.
  match goal with
  | |- context [match ?x with Some _ => _ | None => _ end] =>
      destruct x as [l0|]; [|discriminate]
  end.
  intros [= <- <-]. simpl. split; [done|].
  split; [rewrite length_app; lia|]. split.
  - intros l Hl. by apply deref_app_l.
  - intros i lr Hi. destruct (Hseat i lr Hi) as (c & Hc & Hr).
    exists c. split; [done|]. by apply deref_app_r.
Qed.

(** [removePlayer] changes no id. *)
Lemma removePlayer_ids now pid h r h' r' ok :
  Room.removePlayer now pid h r = (h', r', ok) →
  ∀ l, Player.id (deref h' l) = Player.id (deref h l).
Proof.
  unfold Room.removePlayer.
  destruct (GameLogic.findIndex _ _) as [i|]; [|by intros [= <- _ _]].
  set (r1 := Room.set_players r (delete i (Room.players r))).
  destruct (if Player.isHost (deref h (Room.players r !!! i))
               && Nat.ltb 0 (length (Room.players r1))
            then Room.transferHost h r1 else (h, r1)) as [h2 r2] eqn:Hth.
  intros [= <- _ _] l.
  destruct (_ && _); [|by injection Hth as <- _].
  unfold Room.transferHost in Hth.
  destruct (Room.players r1) as [|nh others]; [by injection Hth as <- _|].
  injection Hth as <- _.
  rewrite (fold_mutate_proj Player.id) by done.
  by apply (deref_mutate_proj Player.id).
Qed.

(** A mutation of a room record that keeps its id keeps the twins. *)
Lemma twinned_mutate f l h r :
  twinned h r → l ∈ Room.players r → (∀ p, Player.id (f p) = Player.id p) →
  twinned (mutate f l h) r
  ∧ ∀ lg, lg ∈ Game.players (Room.game r) →
          deref (mutate f l h) lg = deref h lg.
Proof.
  intros [[Hv Hdisj] Htwin] Hl Hf.
  assert (∀ lg, lg ∈ Game.players (Room.game r) →
                deref (mutate f l h) lg = deref h lg) as Hframe.
  { intros lg Hlg. apply deref_mutate_ne. intros ->. by apply (Hdisj lg). }
  split; [|done]. split.
  - split; [|done]. unfold validLocs. by rewrite length_mutate.
  - intros lr Hlr. destruct (Htwin lr Hlr) as (lg & Hlg & Hid).
    exists lg. split; [done|].
    by rewrite (deref_mutate_proj Player.id), (deref_mutate_proj Player.id).
Qed.

(** Removing a seat of the room keeps the twins of the others. *)
Lemma twinned_removePlayer now pid h r h' r' ok :
  twinned h r →
  Room.removePlayer now pid h r = (h', r', ok) →
  twinned h' r'
  ∧ Game.players (Room.game r') = Game.players (Room.game r)
  ∧ ∀ lg, lg ∈ Game.players (Room.game r) → deref h' lg = deref h lg.
Proof.
  intros [[Hv Hdisj] Htwin] Hrem.
  pose proof (removePlayer_ids _ _ _ _ _ _ _ Hrem) as Hids.
  apply removePlayer_footprint in Hrem as (Hlen & Hgp & Hsub & Hfr).
  assert (∀ lg, lg ∈ Game.players (Room.game r) → deref h' lg = deref h lg)
    as Hframe.
  { intros lg Hlg. apply Hfr. intros Hin. by apply (Hdisj lg). }
  split; [|done]. split.
  - split.
    + unfold validLocs in *. rewrite Hlen.
      rewrite Forall_forall in Hv. apply Forall_forall.
      intros l Hl. by apply Hv, Hsub.
    + intros l Hl. rewrite Hgp. by apply Hdisj, Hsub.
  - intros lr Hlr. destruct (Htwin lr (Hsub lr Hlr)) as (lg & Hlg & Hid).
    exists lg. rewrite Hgp. split; [done|]. by rewrite !Hids.
Qed.

(** What [leaveRoom] does to the store and to the room it is called for. *)
Lemma leaveRoom_effect now rid pid h s r :
  LobbyService.getRoom s rid = Some r →
  (LobbyService.leaveRoom now rid pid h s).1.1 = (h, s)
  ∨ ∃ r1 ok,
      Room.removePlayer now pid h r
      = ((LobbyService.leaveRoom now rid pid h s).1.1.1, r1, ok)
      ∧ ∀ r3,
          LobbyService.getRoom
            (LobbyService.leaveRoom now rid pid h s).1.1.2 rid = Some r3 →
          r3 = r1.
Proof.
  intros Hget. unfold LobbyService.leaveRoom. rewrite Hget.
  destruct (Room.getPlayer h r pid); [|by left].
  destruct (Room.removePlayer now pid h r) as [[h1 r1] removed].
  right. exists r1, removed.
  destruct (negb removed).
  { split; [done|]. unfold LobbyService.getRoom. simpl. intros r3.
    rewrite lookup_insert_eq. congruence. }
  destruct (Nat.eqb _ 0); cbn [fst snd].
  - split; [done|]. unfold LobbyService.getRoom. intros r3.
    rewrite removeRoom_rooms, lookup_delete_eq. discriminate.
  - split; [done|]. unfold LobbyService.getRoom. simpl. intros r3.
    rewrite lookup_insert_eq. congruence.
Qed.

(** [disconnect] for a player bound to a room of the lobby leaves the
    match records of that room as they are and keeps the twins. *)
Lemma twinned_disconnect now pid options h s m c r :
  twinned h r →
  ConnectionManager.connections m !! pid = Some c →
  ConnectionManager.roomId c = Some (Room.id r) →
  LobbyService.getRoom s (Room.id r) = Some r →
  (∀ lg, lg ∈ Game.players (Room.game r) →
         deref (ConnectionManager.disconnect now pid options h s m).1.1.1 lg
         = deref h lg)
  ∧ ∀ r3,
      LobbyService.getRoom
        (ConnectionManager.disconnect now pid options h s m).1.1.2
        (Room.id r) = Some r3 →
      twinned (ConnectionManager.disconnect now pid options h s m).1.1.1 r3.
Proof.
  intros Htw Hc Hrid Hget. unfold ConnectionManager.disconnect.
  rewrite Hc, Hrid.
  change (truthy (Some (Room.id r)))
    with (negb (bool_decide (Room.id r = ""))).
  change (default "" (Some (Room.id r))) with (Room.id r).
  destruct (negb (bool_decide (Room.id r = ""))).
  2:{ cbn [fst snd]. split; [done|]. intros r3. congruence. }
  rewrite Hget.
  destruct (Room.getPlayer h r pid) as [l|] eqn:Hl.
  2:{ cbn [fst snd]. split; [done|]. intros r3. congruence. }
  apply getPlayer_elem in Hl.
  destruct (bool_decide (ConnectionManager.reason options
                         = ConnectionManager.explicit)).
  - destruct (bool_decide (Room.getStatus r = playing)).
    + cbn [fst snd].
      destruct (twinned_mutate Player.eliminate l h r Htw Hl) as [H1 H2];
        [done|].
      split; [done|]. intros r3 Hr3. congruence.
    + cbn [fst snd].
      destruct (leaveRoom_effect now (Room.id r) pid h s r Hget)
        as [Hsame|(r1 & ok & Hrem & Hr1)].
      * rewrite (f_equal fst Hsame), (f_equal snd Hsame). simpl.
        split; [done|]. intros r3. congruence.
      * destruct (twinned_removePlayer _ _ _ _ _ _ _ Htw Hrem)
          as (Htw1 & _ & Hframe).
        split; [done|]. intros r3 Hr3. by rewrite (Hr1 r3 Hr3).
  - cbn [fst snd].
    destruct (twinned_mutate (Player.setConnected false) l h r Htw Hl)
      as [H1 H2]; [done|].
    split; [done|]. intros r3 Hr3. congruence.
Qed.

(** A match operation leaves the room's records as they are and keeps
    the twins. *)
Lemma twinned_step now op h r h' g' :
  twinned h r →
  step now op (h, Room.game r) = Some (h', g') →
  twinned h' (Room.set_game r g')
  ∧ ∀ lr, lr ∈ Room.players r → deref h' lr = deref h lr.
Proof.
  intros [[Hv Hdisj] Htwin] Hstep.
  pose proof (step_identity _ _ _ _ _ _ Hstep) as Hid.
  apply step_footprint in Hstep as (Hps & Hlen & Hfr).
  assert (∀ lr, lr ∈ Room.players r → deref h' lr = deref h lr) as Hframe.
  { intros lr Hlr. apply Hfr. by apply Hdisj. }
  split; [|done]. split.
  - split.
    + unfold validLocs in *. simpl. by rewrite Hlen.
    + simpl. intros l Hl. rewrite Hps. by apply Hdisj.
  - simpl. intros lr Hlr. destruct (Htwin lr Hlr) as (lg & Hlg & Heq).
    exists lg. rewrite Hps. split; [done|].
    rewrite (Hframe lr Hlr), <- Heq. symmetry. by destruct (Hid lg).
Qed.

(** C10: starting a match copies the room's seats into records of the
    match's own.  For a room of valid seats, [startGame] leaves the
    room's seat list and records as they were and gives the match one
    new object per seat, in seat order, with the id and the connection
    flag of the room's record, not eliminated, with a full stock and no
    skip.  From then on, in every state where every room seat has such a
    twin: a mutation of a room record reached through [Room.getPlayer]
    that keeps its id (as [eliminate()] or [setConnected(false)]) and a
    [disconnect] of a player bound to the room, whatever its reason,
    leave every match record unchanged, in particular the record the
    match holds for the same seat id; every operation of the match (move,
    skips, elimination) leaves every room record unchanged; and the
    twins are kept. *)
Theorem C10_room_and_match_records (now : Z) (rnd : nat)
    (uuid : nat → string) (h : Heap) (r : Room.t) (h1 : Heap)
    (r1 : Room.t) :
  validLocs h (Room.players r) →
  Forall (fun l => validPlayer (deref h l)) (Room.players r) →
  Room.startGame now rnd uuid h r = Some (h1, r1) →
  Room.players r1 = Room.players r
  ∧ (∀ lr, lr ∈ Room.players r → deref h1 lr = deref h lr)
  ∧ length (Game.players (Room.game r1)) = length (Room.players r)
  ∧ (∀ i lr,
       Room.players r !! i = Some lr →
       ∃ lg,
         Game.players (Room.game r1) !! i = Some lg
         ∧ (length h ≤ lg < length h1)%nat
         ∧ Player.id (deref h1 lg) = Player.id (deref h lr)
         ∧ Player.connected (deref h1 lg) = Player.connected (deref h lr)
         ∧ Player.isEliminated (deref h1 lg) = false
         ∧ Player.inventory (deref h1 lg) = mkInventory 3 3 3
         ∧ Player.skipsInARow (deref h1 lg) = 0%Z)
  ∧ twinned h1 r1
  ∧ ∀ h2 r2,
      twinned h2 r2 →
      (∀ pid f l,
         Room.getPlayer h2 r2 pid = Some l →
         (∀ p, Player.id (f p) = Player.id p) →
         twinned (mutate f l h2) r2
         ∧ (∃ lg, lg ∈ Game.players (Room.game r2)
                  ∧ Player.id (deref h2 lg) = pid
                  ∧ deref (mutate f l h2) lg = deref h2 lg)
         ∧ ∀ lg, lg ∈ Game.players (Room.game r2) →
                 deref (mutate f l h2) lg = deref h2 lg)
      ∧ (∀ now' pid options s m c,
           ConnectionManager.connections m !! pid = Some c →
           ConnectionManager.roomId c = Some (Room.id r2) →
           LobbyService.getRoom s (Room.id r2) = Some r2 →
           (∀ lg, lg ∈ Game.players (Room.game r2) →
                  deref (ConnectionManager.disconnect now' pid options
                           h2 s m).1.1.1 lg
                  = deref h2 lg)
           ∧ ∀ r3,
               LobbyService.getRoom
                 (ConnectionManager.disconnect now' pid options
                    h2 s m).1.1.2 (Room.id r2) = Some r3 →
               twinned (ConnectionManager.disconnect now' pid options
                          h2 s m).1.1.1 r3)
      ∧ (∀ now' op h3 g3,
           step now' op (h2, Room.game r2) = Some (h3, g3) →
           twinned h3 (Room.set_game r2 g3)
           ∧ ∀ lr, lr ∈ Room.players r2 → deref h3 lr = deref h2 lr).
Proof.
  intros Hv Hvalid Hstart.
  pose proof (startGame_separate _ _ _ _ _ _ _ Hv Hstart) as Hsep.
  unfold Room.startGame in Hstart.
  destruct (Nat.ltb _ 2); [discriminate|].
  destruct (Game.initialize _ _ _ _ _ _) as [[h' g']|] eqn:Hinit;
    [|discriminate].
  injection Hstart as <- <-.
  destruct (initialize_fresh _ _ _ _ _ _ _ _ Hv Hvalid Hinit)
    as (Hps & Hlen & Hold & Hnew).
  assert (∀ lr, lr ∈ Room.players r → deref h' lr = deref h lr) as Hroom.
  { intros lr Hlr. apply Hold. unfold validLocs in Hv.
    rewrite Forall_forall in Hv. by apply Hv. }
  assert (∀ i lr,
            Room.players r !! i = Some lr →
            Game.players g' !! i = Some (length h + i)%nat
            ∧ (length h ≤ length h + i < length h')%nat
            ∧ ∃ c, deref h' (length h + i) = matchRecord c (deref h lr))
    as Hseat.
  { intros i lr Hi.
    assert (i < length (Room.players r))%nat as Hlt
        by (by apply lookup_lt_Some in Hi).
    split; [rewrite Hps; by apply lookup_seq_lt|].
    split; [unfold loc in *; lia|].
    destruct (Hnew i lr Hi) as (c & _ & Hc). by exists c. }
  simpl. split; [done|]. split; [done|].
  split; [by rewrite Hps, length_seq|]. split.
  { intros i lr Hi. destruct (Hseat i lr Hi) as (Hg & Hrange & c & Hc).
    exists (length h + i)%nat. split; [done|]. split; [done|].
    rewrite Hc. by repeat split. }
  split.
  { split; [done|]. simpl. intros lr Hlr.
    apply list_elem_of_lookup in Hlr as [i Hi].
    destruct (Hseat i lr Hi) as (Hg & _ & c & Hc).
    exists (length h + i)%nat.
    split; [by apply list_elem_of_lookup_2 in Hg|].
    rewrite Hc, Hroom; [done|]. by apply list_elem_of_lookup_2 in Hi. }
  intros h2 r2 Htw. split; [|split].
  - intros pid f l Hl Hf.
    assert (Player.id (deref h2 l) = pid) as Hid.
    { unfold Room.getPlayer in Hl. apply find_some in Hl as [_ Hl].
      by apply bool_decide_eq_true in Hl. }
    apply getPlayer_elem in Hl.
    destruct (twinned_mutate f l h2 r2 Htw Hl Hf) as [Htw' Hframe].
    split; [done|]. split; [|done].
    destruct Htw as [_ Htwin]. destruct (Htwin l Hl) as (lg & Hlg & Heq).
    exists lg. split; [done|]. split; [congruence|by apply Hframe].
  - intros now' pid options s m c Hc Hrid Hget.
    by apply (twinned_disconnect now' pid options h2 s m c r2).
  - intros now' op h3 g3 Hstep. by apply (twinned_step now' op).
Qed.

Lemma C10_room_and_match_records_witness :
  let h1 := salonTwoStarted.1 in
  let r1 := salonTwoStarted.2 in
  let w :=
    ConnectionManager.disconnect 5 "B"
      (ConnectionManager.mkOptions ConnectionManager.explicit None)
      h1 (lobbyOf r1) (online "B" r1) in
  Room.players r1 = [0; 1]%nat
  ∧ Game.players (Room.game r1) = [2; 3]%nat
  ∧ ids h1 (Room.players r1) = ["A"; "B"]
  ∧ ids h1 (Game.players (Room.game r1)) = ["A"; "B"]
  ∧ twinned h1 r1
  ∧ Player.isEliminated (deref w.1.1.1 1%nat) = true
  ∧ Player.isEliminated (deref w.1.1.1 3%nat) = false
  ∧ LobbyService.getRoom w.1.1.2 (Room.id r1) = Some r1
  ∧ twinned w.1.1.1 r1.
Proof.
  cbv zeta.
  destruct (C10_room_and_match_records 0 0 exampleUuid salonTwoSeats.1
              salonTwoSeats.2 salonTwoStarted.1 salonTwoStarted.2)
    as (_ & _ & _ & Hseat & Htw & Hafter).
  - unfold validLocs. apply (bool_decide_unpack _). vm_compute. exact I.
  - repeat constructor; vm_compute; congruence || lia.
  - vm_compute. reflexivity.
  - destruct (Hafter _ _ Htw) as (_ & Hdisc & _).
    destruct (Hdisc 5%Z "B"
                (ConnectionManager.mkOptions ConnectionManager.explicit None)
                (lobbyOf salonTwoStarted.2) (online "B" salonTwoStarted.2)
                (ConnectionManager.mkConnection "B" "socket-B"
                   (Some (Room.id salonTwoStarted.2)) 0 0 false))
      as (Hmatch & Hroom).
    + vm_compute. reflexivity.
    + reflexivity.
    + apply lookup_singleton_eq.
    + split; [by vm_compute|]. split; [by vm_compute|].
      split; [by vm_compute|]. split; [by vm_compute|].
      split; [done|]. split; [by vm_compute|].
      split.
      { rewrite Hmatch.
        - by vm_compute.
        - apply (bool_decide_unpack _). by vm_compute. }
      assert (LobbyService.getRoom
                (ConnectionManager.disconnect 5 "B"
                   (ConnectionManager.mkOptions ConnectionManager.explicit
                      None)
                   salonTwoStarted.1 (lobbyOf salonTwoStarted.2)
                   (online "B" salonTwoStarted.2)).1.1.2
                (Room.id salonTwoStarted.2) = Some salonTwoStarted.2) as Hr.
      { unfold ConnectionManager.disconnect.
        replace (ConnectionManager.connections
                   (online "B" salonTwoStarted.2) !! "B")
          with (Some (ConnectionManager.mkConnection "B" "socket-B"
                        (Some (Room.id salonTwoStarted.2)) 0 0 false))
          by (by vm_compute).
        by vm_compute. }
      split; [done|]. by apply Hroom.
Defined.
